(** * Bit-vector domains and invertibility conditions

    A shallow embedding of the bit-vector domain module (constructors,
    fixed-bit queries, printing, value generator, wheel factorizer) and of
    the invertibility checks of [bzlainvutils.c], together with the
    properties stated about them.

    A bit-vector is a width and an unsigned value; every operation writes
    its wrap-around out as a reduction modulo [2 ^ width]. *)

From Stdlib Require Import ZArith Lia List Bool String Ascii Btauto Znumtheory Sorted.
From coqutil Require Import Z.bitblast.
Import ListNotations.
Local Open Scope Z_scope.

(** ** Bit-vectors *)

Record BzlaBitVector : Type := mk_bv { bv_width : nat; bv_val : Z }.

(** The width as an exponent. *)
Definition zw (b : BzlaBitVector) : Z := Z.of_nat (bv_width b).

(** A bit-vector of width [w] holds a value in [0, 2^w). *)
Definition bv_wf (b : BzlaBitVector) : Prop := 0 <= bv_val b < 2 ^ zw b.

(** Modelled from the spec: [bzla_bv_get_width] of the bit-vector primitives
    (not part of the sources), the width of a bit-vector. *)
Definition bzla_bv_get_width (b : BzlaBitVector) : nat := bv_width b.

(** Modelled from the spec: [bzla_bv_new] of the bit-vector primitives, a
    fresh bit-vector of the given width with every bit cleared. *)
Definition bzla_bv_new (w : nat) : BzlaBitVector := mk_bv w 0.

(** Modelled from the spec: [bzla_bv_zero] of the bit-vector primitives. *)
Definition bzla_bv_zero (w : nat) : BzlaBitVector := mk_bv w 0.

(** Modelled from the spec: [bzla_bv_one] of the bit-vector primitives, the
    value one at the given width. *)
Definition bzla_bv_one (w : nat) : BzlaBitVector := mk_bv w (1 mod 2 ^ Z.of_nat w).

(** Modelled from the spec: [bzla_bv_ones] of the bit-vector primitives, the
    all-ones vector. *)
Definition bzla_bv_ones (w : nat) : BzlaBitVector := mk_bv w (Z.ones (Z.of_nat w)).

(** Modelled from the spec: [bzla_bv_uint64_to_bv] of the bit-vector
    primitives, a machine integer reduced to the given width. *)
Definition bzla_bv_uint64_to_bv (v : Z) (w : nat) : BzlaBitVector :=
  mk_bv w (v mod 2 ^ Z.of_nat w).

(** Modelled from the spec: [bzla_bv_copy] of the bit-vector primitives;
    values are immutable here, so a copy is the value itself. *)
Definition bzla_bv_copy (b : BzlaBitVector) : BzlaBitVector := b.

(** Modelled from the spec: [bzla_bv_and] of the bit-vector primitives. *)
Definition bzla_bv_and (a b : BzlaBitVector) : BzlaBitVector :=
  mk_bv (bv_width a) (Z.land (bv_val a) (bv_val b)).

(** Modelled from the spec: [bzla_bv_or] of the bit-vector primitives. *)
Definition bzla_bv_or (a b : BzlaBitVector) : BzlaBitVector :=
  mk_bv (bv_width a) (Z.lor (bv_val a) (bv_val b)).

(** Modelled from the spec: [bzla_bv_xor] of the bit-vector primitives. *)
Definition bzla_bv_xor (a b : BzlaBitVector) : BzlaBitVector :=
  mk_bv (bv_width a) (Z.lxor (bv_val a) (bv_val b)).

(** Modelled from the spec: [bzla_bv_not] of the bit-vector primitives,
    bitwise complement within the width. *)
Definition bzla_bv_not (a : BzlaBitVector) : BzlaBitVector :=
  mk_bv (bv_width a) (Z.lnot (bv_val a) mod 2 ^ zw a).

(** Modelled from the spec: [bzla_bv_xnor] of the bit-vector primitives. *)
Definition bzla_bv_xnor (a b : BzlaBitVector) : BzlaBitVector :=
  mk_bv (bv_width a) (Z.lnot (Z.lxor (bv_val a) (bv_val b)) mod 2 ^ zw a).

(** Modelled from the spec: [bzla_bv_neg] of the bit-vector primitives,
    two's-complement negation. *)
Definition bzla_bv_neg (a : BzlaBitVector) : BzlaBitVector :=
  mk_bv (bv_width a) ((- bv_val a) mod 2 ^ zw a).

(** Modelled from the spec: [bzla_bv_add] of the bit-vector primitives,
    addition with wrap-around. *)
Definition bzla_bv_add (a b : BzlaBitVector) : BzlaBitVector :=
  mk_bv (bv_width a) ((bv_val a + bv_val b) mod 2 ^ zw a).

(** Modelled from the spec: [bzla_bv_sub] of the bit-vector primitives,
    subtraction with wrap-around. *)
Definition bzla_bv_sub (a b : BzlaBitVector) : BzlaBitVector :=
  mk_bv (bv_width a) ((bv_val a - bv_val b) mod 2 ^ zw a).

(** Modelled from the spec: [bzla_bv_mul] of the bit-vector primitives,
    multiplication with wrap-around. *)
Definition bzla_bv_mul (a b : BzlaBitVector) : BzlaBitVector :=
  mk_bv (bv_width a) ((bv_val a * bv_val b) mod 2 ^ zw a).

(** Modelled from the spec: [bzla_bv_inc] of the bit-vector primitives. *)
Definition bzla_bv_inc (a : BzlaBitVector) : BzlaBitVector :=
  mk_bv (bv_width a) ((bv_val a + 1) mod 2 ^ zw a).

(** Modelled from the spec: [bzla_bv_dec] of the bit-vector primitives. *)
Definition bzla_bv_dec (a : BzlaBitVector) : BzlaBitVector :=
  mk_bv (bv_width a) ((bv_val a - 1) mod 2 ^ zw a).

(** Modelled from the spec: [bzla_bv_udiv] of the bit-vector primitives,
    unsigned division; division by zero yields all ones. *)
Definition bzla_bv_udiv (a b : BzlaBitVector) : BzlaBitVector :=
  mk_bv (bv_width a)
        (if bv_val b =? 0 then Z.ones (zw a) else bv_val a / bv_val b).

(** Modelled from the spec: [bzla_bv_urem] of the bit-vector primitives,
    unsigned remainder; the remainder by zero is the dividend. *)
Definition bzla_bv_urem (a b : BzlaBitVector) : BzlaBitVector :=
  mk_bv (bv_width a)
        (if bv_val b =? 0 then bv_val a else bv_val a mod bv_val b).

(** Modelled from the spec: [bzla_bv_udiv_urem] of the bit-vector
    primitives, quotient and remainder at once. *)
Definition bzla_bv_udiv_urem (a b : BzlaBitVector)
  : BzlaBitVector * BzlaBitVector :=
  (bzla_bv_udiv a b, bzla_bv_urem a b).

(** Modelled from the spec: [bzla_bv_sll] of the bit-vector primitives,
    logical shift left by the value of the second operand; shifting by the
    width or more gives zero. *)
Definition bzla_bv_sll (a s : BzlaBitVector) : BzlaBitVector :=
  mk_bv (bv_width a)
        (if zw a <=? bv_val s then 0
         else Z.shiftl (bv_val a) (bv_val s) mod 2 ^ zw a).

(** Modelled from the spec: [bzla_bv_srl] of the bit-vector primitives,
    logical shift right by the value of the second operand. *)
Definition bzla_bv_srl (a s : BzlaBitVector) : BzlaBitVector :=
  mk_bv (bv_width a)
        (if zw a <=? bv_val s then 0 else Z.shiftr (bv_val a) (bv_val s)).

(** Modelled from the spec: [bzla_bv_srl_uint64] of the bit-vector
    primitives, logical shift right by a machine integer. *)
Definition bzla_bv_srl_uint64 (a : BzlaBitVector) (n : nat) : BzlaBitVector :=
  mk_bv (bv_width a) (Z.shiftr (bv_val a) (Z.of_nat n)).

(** Modelled from the spec: [bzla_bv_slice] of the bit-vector primitives,
    the bits [upper .. lower] as a vector of width [upper - lower + 1]. *)
Definition bzla_bv_slice (a : BzlaBitVector) (upper lower : nat)
  : BzlaBitVector :=
  mk_bv (upper - lower + 1)
        (Z.shiftr (bv_val a) (Z.of_nat lower)
           mod 2 ^ Z.of_nat (upper - lower + 1)).

(** Modelled from the spec: [bzla_bv_compare] of the bit-vector primitives,
    the sign of the unsigned comparison as a C [int]. *)
Definition bzla_bv_compare (a b : BzlaBitVector) : Z :=
  match bv_val a ?= bv_val b with
  | Lt => -1
  | Eq => 0
  | Gt => 1
  end.

(** Modelled from the spec: [bzla_bv_eq] of the bit-vector primitives, a
    one-bit vector telling whether the operands are equal. *)
Definition bzla_bv_eq (a b : BzlaBitVector) : BzlaBitVector :=
  mk_bv 1 (if bv_val a =? bv_val b then 1 else 0).

(** Modelled from the spec: [bzla_bv_redor] of the bit-vector primitives,
    the disjunction of all bits as a one-bit vector. *)
Definition bzla_bv_redor (a : BzlaBitVector) : BzlaBitVector :=
  mk_bv 1 (if bv_val a =? 0 then 0 else 1).

(** Modelled from the spec: [bzla_bv_is_zero] of the bit-vector primitives. *)
Definition bzla_bv_is_zero (a : BzlaBitVector) : bool := bv_val a =? 0.

(** Modelled from the spec: [bzla_bv_is_ones] of the bit-vector primitives. *)
Definition bzla_bv_is_ones (a : BzlaBitVector) : bool :=
  bv_val a =? Z.ones (zw a).

(** Modelled from the spec: [bzla_bv_is_true] of the bit-vector primitives,
    the one-bit vector [1]. *)
Definition bzla_bv_is_true (a : BzlaBitVector) : bool :=
  Nat.eqb (bv_width a) 1 && (bv_val a =? 1).

(** Modelled from the spec: [bzla_bv_is_false] of the bit-vector primitives,
    the one-bit vector [0]. *)
Definition bzla_bv_is_false (a : BzlaBitVector) : bool :=
  Nat.eqb (bv_width a) 1 && (bv_val a =? 0).

(** Modelled from the spec: [bzla_bv_get_bit] of the bit-vector primitives;
    the C result 0/1 is read as a boolean. *)
Definition bzla_bv_get_bit (a : BzlaBitVector) (pos : nat) : bool :=
  Z.testbit (bv_val a) (Z.of_nat pos).

(** Modelled from the spec: [bzla_bv_set_bit] of the bit-vector primitives;
    the in-place update returns the updated vector. *)
Definition bzla_bv_set_bit (a : BzlaBitVector) (pos : nat) (value : bool)
  : BzlaBitVector :=
  mk_bv (bv_width a)
        (if value then Z.setbit (bv_val a) (Z.of_nat pos)
         else Z.clearbit (bv_val a) (Z.of_nat pos)).

(** Number of cleared bits below the lowest set bit among the low [n]
    positions, counted from position [i]. *)
Fixpoint count_trailing_zeros (v : Z) (n : nat) (i : nat) : nat :=
  match n with
  | O => O
  | S n' => if Z.testbit v (Z.of_nat i) then O
            else S (count_trailing_zeros v n' (S i))
  end.

(** Modelled from the spec: [bzla_bv_get_num_trailing_zeros] of the
    bit-vector primitives ([ctz] in the glossary); the width for zero. *)
Definition bzla_bv_get_num_trailing_zeros (a : BzlaBitVector) : nat :=
  count_trailing_zeros (bv_val a) (bv_width a) 0.

(** One Newton step towards the inverse of [s] modulo [2 ^ w]. *)
Definition inverse_step (w : Z) (s x : Z) : Z := (x * (2 - s * x)) mod 2 ^ w.

Fixpoint inverse_iter (w : Z) (s : Z) (n : nat) (x : Z) : Z :=
  match n with
  | O => x
  | S n' => inverse_iter w s n' (inverse_step w s x)
  end.

(** Modelled from the spec: [bzla_bv_mod_inverse] of the bit-vector
    primitives, the [s⁻¹] with [s * s⁻¹ = 1 (mod 2^w)] of an odd [s]; the
    inverse is unique, so the way it is computed does not matter. *)
Definition bzla_bv_mod_inverse (a : BzlaBitVector) : BzlaBitVector :=
  mk_bv (bv_width a)
        (inverse_iter (zw a) (bv_val a) (bv_width a) (1 mod 2 ^ zw a)).

(** Value of a binary numeral, most significant digit first. *)
Fixpoint bin_value (acc : Z) (s : string) : Z :=
  match s with
  | EmptyString => acc
  | String c r => bin_value (2 * acc + (if Ascii.eqb c "1" then 1 else 0)) r
  end.

(** Modelled from the spec: [bzla_bv_char_to_bv] of the bit-vector
    primitives, a binary string (most significant bit first) read as a
    bit-vector as wide as the string is long. *)
Definition bzla_bv_char_to_bv (s : string) : BzlaBitVector :=
  mk_bv (String.length s) (bin_value 0 s).

(** ** Bit-vector domains *)

Record BzlaBvDomain : Type := mk_domain { lo : BzlaBitVector; hi : BzlaBitVector }.

Definition bzla_bvdomain_new_init (width : nat) : BzlaBvDomain :=
  mk_domain (bzla_bv_zero width) (bzla_bv_ones width).

Definition bzla_bvdomain_new (lo hi : BzlaBitVector) : BzlaBvDomain :=
  mk_domain (bzla_bv_copy lo) (bzla_bv_copy hi).

(** [buf[i] = (c[i] == 'x') ? bit : c[i]] over the whole string. *)
Fixpoint replace_x (c : string) (bit : ascii) : string :=
  match c with
  | EmptyString => EmptyString
  | String a r => String (if Ascii.eqb a "x" then bit else a) (replace_x r bit)
  end.

Definition char_to_bv (c : string) (bit : ascii) : BzlaBitVector :=
  bzla_bv_char_to_bv (replace_x c bit).

Definition char_to_hi (val : string) : BzlaBitVector := char_to_bv val "1".

Definition char_to_lo (val : string) : BzlaBitVector := char_to_bv val "0".

Definition bzla_bvdomain_new_from_char (val : string) : BzlaBvDomain :=
  let lo := char_to_lo val in
  let hi := char_to_hi val in
  bzla_bvdomain_new lo hi.

Definition bzla_bvdomain_new_fixed (bv : BzlaBitVector) : BzlaBvDomain :=
  mk_domain (bzla_bv_copy bv) (bzla_bv_copy bv).

Definition bzla_bvdomain_new_fixed_uint64 (val : Z) (width : nat)
  : BzlaBvDomain :=
  let l := bzla_bv_uint64_to_bv val width in
  mk_domain l (bzla_bv_copy l).

Definition bzla_bvdomain_copy (d : BzlaBvDomain) : BzlaBvDomain :=
  bzla_bvdomain_new (lo d) (hi d).

Definition bzla_bvdomain_is_equal (a b : BzlaBvDomain) : bool :=
  (bzla_bv_compare (hi a) (hi b) =? 0) && (bzla_bv_compare (lo a) (lo b) =? 0).

Definition bzla_bvdomain_slice (d : BzlaBvDomain) (upper lower : nat)
  : BzlaBvDomain :=
  mk_domain (bzla_bv_slice (lo d) upper lower)
            (bzla_bv_slice (hi d) upper lower).

Definition bzla_bvdomain_not (d : BzlaBvDomain) : BzlaBvDomain :=
  mk_domain (bzla_bv_not (hi d)) (bzla_bv_not (lo d)).

Definition bzla_bvdomain_get_width (d : BzlaBvDomain) : nat :=
  bzla_bv_get_width (lo d).

Definition bzla_bvdomain_is_valid (d : BzlaBvDomain) : bool :=
  let not_lo := bzla_bv_not (lo d) in
  let not_lo_or_hi := bzla_bv_or not_lo (hi d) in
  bzla_bv_is_ones not_lo_or_hi.

Definition bzla_bvdomain_is_fixed (d : BzlaBvDomain) : bool :=
  let equal := bzla_bv_eq (lo d) (hi d) in
  bzla_bv_is_true equal.

Definition bzla_bvdomain_has_fixed_bits (d : BzlaBvDomain) : bool :=
  let xnor := bzla_bv_xnor (lo d) (hi d) in
  let redor := bzla_bv_redor xnor in
  bzla_bv_is_true redor.

(** The C function updates the two bounds in place; here the updated domain
    is returned. *)
Definition bzla_bvdomain_fix_bit (d : BzlaBvDomain) (pos : nat) (value : bool)
  : BzlaBvDomain :=
  mk_domain (bzla_bv_set_bit (lo d) pos value)
            (bzla_bv_set_bit (hi d) pos value).

Definition bzla_bvdomain_is_fixed_bit (d : BzlaBvDomain) (pos : nat) : bool :=
  Bool.eqb (bzla_bv_get_bit (lo d) pos) (bzla_bv_get_bit (hi d) pos).

Definition bzla_bvdomain_is_fixed_bit_true (d : BzlaBvDomain) (pos : nat)
  : bool :=
  bzla_bv_get_bit (lo d) pos
  && Bool.eqb (bzla_bv_get_bit (lo d) pos) (bzla_bv_get_bit (hi d) pos).

Definition bzla_bvdomain_is_fixed_bit_false (d : BzlaBvDomain) (pos : nat)
  : bool :=
  negb (bzla_bv_get_bit (lo d) pos)
  && Bool.eqb (bzla_bv_get_bit (lo d) pos) (bzla_bv_get_bit (hi d) pos).

Definition bzla_bvdomain_check_fixed_bits (d : BzlaBvDomain)
           (bv : BzlaBitVector) : bool :=
  let and := bzla_bv_and bv (hi d) in
  let or := bzla_bv_or and (lo d) in
  bzla_bv_compare or bv =? 0.

(** The loop [for (i = 0; i < bw; i++)] of [bzla_bvdomain_is_consistent],
    with [n] iterations left; an early [return false] ends it. *)
Fixpoint is_consistent_loop (d : BzlaBvDomain) (bv : BzlaBitVector)
         (n : nat) (i : nat) : bool :=
  match n with
  | O => true
  | S n' =>
      if bzla_bvdomain_is_fixed_bit d i
         && negb (Bool.eqb (bzla_bv_get_bit (lo d) i) (bzla_bv_get_bit bv i))
      then false
      else is_consistent_loop d bv n' (S i)
  end.

Definition bzla_bvdomain_is_consistent (d : BzlaBvDomain) (bv : BzlaBitVector)
  : bool :=
  let bw := bzla_bv_get_width bv in
  is_consistent_loop d bv bw 0.

(** ** Well-formedness and concretization *)

(** Both bounds are bit-vectors of one width. *)
Definition dom_wf (d : BzlaBvDomain) : Prop :=
  bv_wf (lo d) /\ bv_wf (hi d) /\ bv_width (hi d) = bv_width (lo d).

(** [γ(D)]: the vectors [b] with [lo & b = lo] and [b | hi = hi]. *)
Definition in_gamma (d : BzlaBvDomain) (b : BzlaBitVector) : Prop :=
  bv_width b = bv_width (lo d) /\ bv_wf b
  /\ Z.land (bv_val (lo d)) (bv_val b) = bv_val (lo d)
  /\ Z.lor (bv_val b) (bv_val (hi d)) = bv_val (hi d).

(** The bit-by-bit reading of "every fixed bit of [d] has the same value in
    [b]". *)
Definition fixed_bits_agree (d : BzlaBvDomain) (b : BzlaBitVector) : Prop :=
  forall i : nat, (i < bv_width b)%nat ->
    bzla_bvdomain_is_fixed_bit d i = true ->
    bzla_bv_get_bit (lo d) i = bzla_bv_get_bit b i.

(** ** Printing into the rotating buffer *)

Definition PRINT_BUFFER_SIZE : Z := 1024.

(** [size_t] arithmetic wraps at [2 ^ 64]. *)
Definition size_t_wrap (z : Z) : Z := z mod 2 ^ 64.

(** The two [static] variables of [bzla_bvdomain_to_str]. *)
Record PrintBuffer : Type :=
  mk_print_buffer { s_buf : list ascii; s_buf_pos : Z }.

(** What a run of the printer ends in: a result, a failed [assert], or a
    store outside the [PRINT_BUFFER_SIZE] bytes of [s_buf]. *)
Inductive outcome (A : Type) : Type :=
| Done (a : A)
| AssertionFailed
| OutOfBounds.

Arguments Done {A} a.
Arguments AssertionFailed {A}.
Arguments OutOfBounds {A}.

Definition bind {A B : Type} (m : outcome A) (k : A -> outcome B) : outcome B :=
  match m with
  | Done a => k a
  | AssertionFailed => AssertionFailed
  | OutOfBounds => OutOfBounds
  end.

Notation "x <- m ;; k" := (bind m (fun x => k))
  (at level 61, m at next level, right associativity).

(** [assert(c)]; a build with [NDEBUG] ([checked = false]) skips it. *)
Definition assert (checked : bool) (c : bool) : outcome unit :=
  if checked && negb c then AssertionFailed else Done tt.

Definition list_store (l : list ascii) (n : nat) (c : ascii) : list ascii :=
  firstn n l ++ c :: skipn (S n) l.

(** [s_buf[s_buf_pos++] = c]. *)
Definition buf_put (st : PrintBuffer) (c : ascii) : outcome PrintBuffer :=
  if (0 <=? s_buf_pos st) && (s_buf_pos st <? PRINT_BUFFER_SIZE)
  then Done (mk_print_buffer (list_store (s_buf st) (Z.to_nat (s_buf_pos st)) c)
                             (size_t_wrap (s_buf_pos st + 1)))
  else OutOfBounds.

(** The character of one position, with the two assertions of the
    [lo = 1, hi = 0] case. *)
Definition to_str_char (checked : bool) (bit_lo bit_hi : bool) : outcome ascii :=
  if negb (Bool.eqb bit_lo bit_hi) then
    if negb bit_lo && bit_hi then Done "x"%char
    else
      _ <- assert checked bit_lo ;;
      _ <- assert checked (negb bit_hi) ;;
      Done "?"%char
  else Done (if negb bit_lo then "0"%char else "1"%char).

(** The loop [for (i = 1; i <= print_width; i++)], with [n] iterations
    left. *)
Fixpoint to_str_loop (checked : bool) (d : BzlaBvDomain) (width : Z)
         (n : nat) (i : Z) (st : PrintBuffer) : outcome PrintBuffer :=
  match n with
  | O => Done st
  | S n' =>
      let bit_lo := bzla_bv_get_bit (lo d) (Z.to_nat (width - i)) in
      let bit_hi := bzla_bv_get_bit (hi d) (Z.to_nat (width - i)) in
      c <- to_str_char checked bit_lo bit_hi ;;
      st1 <- buf_put st c ;;
      _ <- assert checked (s_buf_pos st1 <? PRINT_BUFFER_SIZE - 1) ;;
      to_str_loop checked d width n' (i + 1) st1
  end.

(** [bzla_bvdomain_to_str]: the new state of the static buffer and the
    offset [buf_start] of the returned string. *)
Definition bzla_bvdomain_to_str (checked : bool) (d : BzlaBvDomain)
           (st : PrintBuffer) : outcome (PrintBuffer * Z) :=
  let width := Z.of_nat (bzla_bv_get_width (lo d)) in
  let too_long := width + 1 >=? PRINT_BUFFER_SIZE in
  _ <- assert checked (s_buf_pos st <=? PRINT_BUFFER_SIZE) ;;
  let st :=
    if width + 1 >=? size_t_wrap (PRINT_BUFFER_SIZE - s_buf_pos st)
    then mk_print_buffer (s_buf st) 0 else st in
  let print_width := if too_long then size_t_wrap (width - 3) else width in
  let buf_start := s_buf_pos st in
  st <- to_str_loop checked d width (Z.to_nat print_width) 1 st ;;
  st <- (if too_long then
           _ <- assert checked (s_buf_pos st <? PRINT_BUFFER_SIZE - 4) ;;
           st <- buf_put st "."%char ;;
           st <- buf_put st "."%char ;;
           buf_put st "."%char
         else Done st) ;;
  st <- buf_put st zero ;;
  Done (st, buf_start).

(** The C string that starts at offset [start] of the buffer. *)
Fixpoint c_string (l : list ascii) : list ascii :=
  match l with
  | [] => []
  | c :: r => if Ascii.eqb c zero then [] else c :: c_string r
  end.

Definition returned_string (r : PrintBuffer * Z) : list ascii :=
  c_string (skipn (Z.to_nat (snd r)) (s_buf (fst r))).

(** The rendering of the [n] most significant positions of [d], as the
    spec gives it per bit. *)
Fixpoint render_bits (d : BzlaBvDomain) (width : nat) (n : nat) (i : nat)
  : list ascii :=
  match n with
  | O => []
  | S n' =>
      let l := bzla_bv_get_bit (lo d) (width - i) in
      let h := bzla_bv_get_bit (hi d) (width - i) in
      (if Bool.eqb l h then (if l then "1"%char else "0"%char)
       else if h then "x"%char else "?"%char)
        :: render_bits d width n' (S i)
  end.

(** ** Domain value generator *)

(** Modelled from the spec: the random number generator, an external
    collaborator; it is taken as a supply of raw draws. *)
Definition BzlaRNG : Type := list Z.

(** Modelled from the spec: [bzla_bv_new_random_range] of the bit-vector
    primitives, a vector of the given width drawn from [from, to]; the next
    raw draw is folded into the range. *)
Definition bzla_bv_new_random_range (rng : BzlaRNG) (bw : nat)
           (from to : BzlaBitVector) : BzlaBitVector * BzlaRNG :=
  match rng with
  | [] => (from, [])
  | r :: rng' =>
      (mk_bv bw (bv_val from + r mod (bv_val to - bv_val from + 1)), rng')
  end.

Record BzlaBvDomainGenerator : Type := mk_gen {
  gen_domain : BzlaBvDomain;
  gen_bits : option BzlaBitVector;
  gen_bits_min : option BzlaBitVector;
  gen_bits_max : option BzlaBitVector;
  gen_cur : option BzlaBitVector;
  gen_rng : option BzlaRNG;
  gen_min : BzlaBitVector;
  gen_max : BzlaBitVector
}.

(** The loop of [gen_next_bits] that writes the counter bits into the
    unfixed positions: [for (i = 0, j = 0; i < bw; ++i)]. *)
Fixpoint gen_compose_loop (d : BzlaBvDomain) (bits : BzlaBitVector)
         (n : nat) (i j : nat) (res : BzlaBitVector) : BzlaBitVector :=
  match n with
  | O => res
  | S n' =>
      if negb (bzla_bvdomain_is_fixed_bit d i)
      then gen_compose_loop d bits n' (S i) (S j)
             (bzla_bv_set_bit res i (bzla_bv_get_bit bits j))
      else gen_compose_loop d bits n' (S i) j res
  end.

(** [gen_next_bits]: the emitted value and the updated generator; [None]
    where the C code would follow a null [bits], [bits_min], [bits_max] or
    [rng]. *)
Definition gen_next_bits (gen : BzlaBvDomainGenerator) (random : bool)
  : option (BzlaBitVector * BzlaBvDomainGenerator) :=
  let bw := bzla_bv_get_width (lo (gen_domain gen)) in
  let res := bzla_bv_copy (lo (gen_domain gen)) in
  let drawn :=
    if random then
      match gen_rng gen, gen_bits_min gen, gen_bits_max gen with
      | Some rng, Some bmin, Some bmax =>
          let bw_bits := bzla_bv_get_width bmin in
          let (b, rng') := bzla_bv_new_random_range rng bw_bits bmin bmax in
          Some (b, Some rng')
      | _, _, _ => None
      end
    else
      match gen_bits gen with
      | Some b => Some (b, gen_rng gen)
      | None => None
      end in
  match drawn, gen_bits_min gen, gen_bits_max gen with
  | Some (bits, rng), Some bmin, Some bmax =>
      let res := gen_compose_loop (gen_domain gen) bits bw 0 0 res in
      let bits' :=
        if bzla_bv_compare bits bmax =? 0
        then (if random then Some (bzla_bv_copy bmin) else None)
        else Some (bzla_bv_inc bits) in
      Some (res,
            mk_gen (gen_domain gen) bits' (gen_bits_min gen) (gen_bits_max gen)
                   (Some res) rng (gen_min gen) (gen_max gen))
  | _, _, _ => None
  end.

(** [for (i = 0, cnt = 0; i < bw; i++) if (!is_fixed_bit(d, i)) cnt += 1]. *)
Fixpoint count_free_loop (d : BzlaBvDomain) (n : nat) (i cnt : nat) : nat :=
  match n with
  | O => cnt
  | S n' =>
      count_free_loop d n' (S i)
        (if negb (bzla_bvdomain_is_fixed_bit d i) then (cnt + 1)%nat else cnt)
  end.

(** [for (k = j0 + 1; k < cnt; k++) set_bit(bits, cnt - 1 - k, v)]. *)
Fixpoint fill_loop (bits : BzlaBitVector) (cnt : nat) (n : nat) (k : nat)
         (v : bool) : BzlaBitVector :=
  match n with
  | O => bits
  | S n' => fill_loop (bzla_bv_set_bit bits (cnt - 1 - k) v) cnt n' (S k) v
  end.

(** The first loop of [bzla_bvdomain_gen_init_range], which derives
    [bits_min] from [min], most significant position first. *)
Fixpoint bits_min_loop (d : BzlaBvDomain) (min : BzlaBitVector)
         (bw cnt : nat) (n : nat) (i j j0 : nat) (bits_min : BzlaBitVector)
  : BzlaBitVector :=
  match n with
  | O => bits_min
  | S n' =>
      let idx_i := (bw - 1 - i)%nat in
      let bit := bzla_bv_get_bit min idx_i in
      if negb (bzla_bvdomain_is_fixed_bit d idx_i) then
        let idx_j := (cnt - 1 - j)%nat in
        let bits_min := bzla_bv_set_bit bits_min idx_j bit in
        let j0 := if negb bit then j else j0 in
        bits_min_loop d min bw cnt n' (S i) (j + 1)%nat j0 bits_min
      else if bzla_bvdomain_is_fixed_bit_true d idx_i && negb bit then
        bits_min
      else if bzla_bvdomain_is_fixed_bit_false d idx_i && bit then
        let bits_min := bzla_bv_set_bit bits_min (cnt - 1 - j0) true in
        fill_loop bits_min cnt (cnt - (j0 + 1)) (j0 + 1) false
      else bits_min_loop d min bw cnt n' (S i) j j0 bits_min
  end.

(** The second loop, which derives [bits_max] from [max]. *)
Fixpoint bits_max_loop (d : BzlaBvDomain) (max : BzlaBitVector)
         (bw cnt : nat) (n : nat) (i j j0 : nat) (bits_max : BzlaBitVector)
  : BzlaBitVector :=
  match n with
  | O => bits_max
  | S n' =>
      let idx_i := (bw - 1 - i)%nat in
      let bit := bzla_bv_get_bit max idx_i in
      if negb (bzla_bvdomain_is_fixed_bit d idx_i) then
        let idx_j := (cnt - 1 - j)%nat in
        let bits_max := bzla_bv_set_bit bits_max idx_j bit in
        let j0 := if bit then j else j0 in
        bits_max_loop d max bw cnt n' (S i) (j + 1)%nat j0 bits_max
      else if bzla_bvdomain_is_fixed_bit_true d idx_i && negb bit then
        let bits_max := bzla_bv_set_bit bits_max (cnt - 1 - j0) false in
        fill_loop bits_max cnt (cnt - (j0 + 1)) (j0 + 1) true
      else if bzla_bvdomain_is_fixed_bit_false d idx_i && bit then
        bits_max
      else bits_max_loop d max bw cnt n' (S i) j j0 bits_max
  end.

(** [bzla_bvdomain_gen_init_range]; a null [min] or [max] is [None]. *)
Definition bzla_bvdomain_gen_init_range (rng : option BzlaRNG)
           (d : BzlaBvDomain) (min max : option BzlaBitVector)
  : BzlaBvDomainGenerator :=
  let bw := bzla_bv_get_width (lo d) in
  let cnt := count_free_loop d bw 0 0 in
  let min :=
    match min with
    | None => lo d
    | Some m => if bzla_bv_compare (lo d) m >? 0 then lo d else m
    end in
  let max :=
    match max with
    | None => hi d
    | Some m => if bzla_bv_compare (hi d) m <? 0 then hi d else m
    end in
  if negb (Nat.eqb cnt 0) && (bzla_bv_compare min (hi d) <=? 0)
     && (bzla_bv_compare max (lo d) >=? 0)
  then
    let bits_min := bits_min_loop d min bw cnt bw 0 0 0 (bzla_bv_new cnt) in
    let bits_max := bits_max_loop d max bw cnt bw 0 0 0 (bzla_bv_ones cnt) in
    let bits :=
      if bzla_bv_compare bits_min bits_max <=? 0
      then Some (bzla_bv_copy bits_min) else None in
    mk_gen (bzla_bvdomain_copy d) bits (Some bits_min) (Some bits_max) None rng
           (bzla_bv_copy min) (bzla_bv_copy max)
  else
    mk_gen (bzla_bvdomain_copy d) None None None None rng
           (bzla_bv_copy min) (bzla_bv_copy max).

Definition bzla_bvdomain_gen_init (rng : option BzlaRNG) (d : BzlaBvDomain)
  : BzlaBvDomainGenerator :=
  bzla_bvdomain_gen_init_range rng d None None.

Definition bzla_bvdomain_gen_has_next (gen : BzlaBvDomainGenerator) : bool :=
  match gen_bits gen, gen_bits_max gen with
  | Some bits, Some bits_max => bzla_bv_compare bits bits_max <=? 0
  | _, _ => false
  end.

Definition bzla_bvdomain_gen_next (gen : BzlaBvDomainGenerator)
  : option (BzlaBitVector * BzlaBvDomainGenerator) :=
  gen_next_bits gen false.

Definition bzla_bvdomain_gen_random (gen : BzlaBvDomainGenerator)
  : option (BzlaBitVector * BzlaBvDomainGenerator) :=
  gen_next_bits gen true.

(** Draining a generator: [while (has_next(gen)) yield next(gen)]. [None]
    when the fuel runs out first. *)
Fixpoint gen_drain (fuel : nat) (gen : BzlaBvDomainGenerator)
  : option (list BzlaBitVector) :=
  match fuel with
  | O => None
  | S fuel' =>
      if bzla_bvdomain_gen_has_next gen then
        match bzla_bvdomain_gen_next gen with
        | Some (v, gen') =>
            match gen_drain fuel' gen' with
            | Some l => Some (v :: l)
            | None => None
            end
        | None => None
        end
      else Some []
  end.

(** Membership in the interval given by two optional bounds. *)
Definition in_range (min max : option BzlaBitVector) (b : BzlaBitVector)
  : Prop :=
  match min with Some m => bv_val m <= bv_val b | None => True end
  /\ match max with Some m => bv_val b <= bv_val m | None => True end.

(** ** Wheel factorizer *)

Record WheelFactorizer : Type := mk_wheel {
  wf_done : bool;
  wf_num : BzlaBitVector;
  wf_fact : BzlaBitVector;
  wf_one : BzlaBitVector;
  wf_two : BzlaBitVector;
  wf_four : BzlaBitVector;
  wf_six : BzlaBitVector;
  wf_pos : nat;
  wf_inc : list BzlaBitVector;
  wf_limit : Z
}.

Definition wfact_init (n : BzlaBitVector) (limit : Z) : WheelFactorizer :=
  let bw := bzla_bv_get_width n in
  let one := bzla_bv_one bw in
  let two := bzla_bv_uint64_to_bv 2 bw in
  let four := bzla_bv_uint64_to_bv 4 bw in
  let six := bzla_bv_uint64_to_bv 6 bw in
  mk_wheel false (bzla_bv_copy n) (bzla_bv_copy two) one two four six 0%nat
           [one; two; two; four; two; four; two; four; six; two; six]
           limit.

(** [uint64_t] arithmetic wraps at [2 ^ 64]. *)
Definition uint64_wrap (z : Z) : Z := z mod 2 ^ 64.

Definition wf_set_done (wf : WheelFactorizer) : WheelFactorizer :=
  mk_wheel true (wf_num wf) (wf_fact wf) (wf_one wf) (wf_two wf) (wf_four wf)
           (wf_six wf) (wf_pos wf) (wf_inc wf) (wf_limit wf).

Definition wf_set_num (wf : WheelFactorizer) (num : BzlaBitVector)
  : WheelFactorizer :=
  mk_wheel (wf_done wf) num (wf_fact wf) (wf_one wf) (wf_two wf) (wf_four wf)
           (wf_six wf) (wf_pos wf) (wf_inc wf) (wf_limit wf).

Definition wf_set_fact_pos (wf : WheelFactorizer) (fact : BzlaBitVector)
           (pos : nat) : WheelFactorizer :=
  mk_wheel (wf_done wf) (wf_num wf) fact (wf_one wf) (wf_two wf) (wf_four wf)
           (wf_six wf) pos (wf_inc wf) (wf_limit wf).

(** The [while (true)] loop of [wfact_next]; [None] when the fuel runs out,
    otherwise the returned factor ([None] for a null pointer) and the
    updated factorizer. *)
Fixpoint wfact_next_loop (fuel : nat) (wf : WheelFactorizer)
         (num_iterations : Z)
  : option (option BzlaBitVector * WheelFactorizer) :=
  match fuel with
  | O => None
  | S fuel' =>
      let limit := wf_limit wf in
      let num_iterations := uint64_wrap (num_iterations + 1) in
      if negb (limit =? 0) && (num_iterations >? limit) then
        Some (None, wf_set_done wf)
      else
        let fact_squared := bzla_bv_mul (wf_fact wf) (wf_fact wf) in
        let done := bzla_bv_compare fact_squared (wf_num wf) >? 0 in
        if done then Some (Some (wf_num wf), wf_set_done wf)
        else
          let (quot, rem) := bzla_bv_udiv_urem (wf_num wf) (wf_fact wf) in
          let found_factor := bzla_bv_is_zero rem in
          if found_factor then
            Some (Some (wf_fact wf), wf_set_num wf quot)
          else
            let tmp :=
              bzla_bv_add (wf_fact wf)
                          (nth (wf_pos wf) (wf_inc wf) (bzla_bv_zero 0)) in
            let done := bzla_bv_compare tmp (wf_fact wf) <=? 0 in
            let wf' :=
              wf_set_fact_pos wf tmp
                (if Nat.eqb (wf_pos wf) 10 then 3%nat
                 else (wf_pos wf + 1)%nat) in
            if done then Some (None, wf_set_done wf')
            else wfact_next_loop fuel' wf' num_iterations
  end.

Definition wfact_next (fuel : nat) (wf : WheelFactorizer)
  : option (option BzlaBitVector * WheelFactorizer) :=
  if wf_done wf then Some (None, wf)
  else wfact_next_loop fuel wf 0.

(** Successive calls of [wfact_next] up to and without the first null
    result; [fuel] bounds the steps of one call, [calls] the number of
    calls. *)
Fixpoint wfact_drain (fuel : nat) (calls : nat) (wf : WheelFactorizer)
  : option (list BzlaBitVector) :=
  match calls with
  | O => None
  | S calls' =>
      match wfact_next fuel wf with
      | None => None
      | Some (None, _) => Some []
      | Some (Some f, wf') =>
          match wfact_drain fuel calls' wf' with
          | Some l => Some (f :: l)
          | None => None
          end
      end
  end.

(** The [while (true)] loop of [bzla_bvdomain_get_factor], with at most
    [calls] calls of [wfact_next]. *)
Fixpoint get_factor_loop (fuel : nat) (calls : nat) (wf : WheelFactorizer)
         (x : option BzlaBvDomain) (excl_min_val : option BzlaBitVector)
  : option (option BzlaBitVector) :=
  match calls with
  | O => None
  | S calls' =>
      match wfact_next fuel wf with
      | None => None
      | Some (None, _) => Some None
      | Some (Some fact, wf') =>
          if (match excl_min_val with
              | None => true
              | Some e => bzla_bv_compare fact e >? 0
              end)
             && (match x with
                 | None => true
                 | Some x => bzla_bvdomain_check_fixed_bits x fact
                 end)
          then Some (Some (bzla_bv_copy fact))
          else get_factor_loop fuel calls' wf' x excl_min_val
      end
  end.

Definition bzla_bvdomain_get_factor (fuel calls : nat) (num : BzlaBitVector)
           (x : option BzlaBvDomain) (excl_min_val : option BzlaBitVector)
           (limit : Z) : option (option BzlaBitVector) :=
  let wf := wfact_init num limit in
  get_factor_loop fuel calls wf x excl_min_val.

Definition bv_product (l : list BzlaBitVector) : Z :=
  fold_right (fun b acc => bv_val b * acc) 1 l.

(** ** Invertibility conditions without the constant bits of [x] *)

Definition bzla_is_inv_add (x : BzlaBvDomain) (t s : BzlaBitVector)
           (pos_x : nat) : bool := true.

Definition bzla_is_inv_and (x : BzlaBvDomain) (t s : BzlaBitVector)
           (pos_x : nat) : bool :=
  let t_and_s := bzla_bv_and t s in
  bzla_bv_compare t_and_s t =? 0.

Definition bzla_is_inv_concat (x : BzlaBvDomain) (t s : BzlaBitVector)
           (pos_x : nat) : bool :=
  let bw_s := bzla_bv_get_width s in
  let bw_t := bzla_bv_get_width t in
  let slice :=
    if Nat.eqb pos_x 0 then bzla_bv_slice t (bw_s - 1) 0
    else bzla_bv_slice t (bw_t - 1) (bw_t - bw_s) in
  bzla_bv_compare s slice =? 0.

Definition bzla_is_inv_eq (x : BzlaBvDomain) (t s : BzlaBitVector)
           (pos_x : nat) : bool := true.

Definition bzla_is_inv_mul (x : BzlaBvDomain) (t s : BzlaBitVector)
           (pos_x : nat) : bool :=
  let neg_s := bzla_bv_neg s in
  let neg_s_or_s := bzla_bv_or neg_s s in
  let and_t := bzla_bv_and neg_s_or_s t in
  bzla_bv_compare and_t t =? 0.

(** The loop [for (i = 0; i <= bw_s && !res; i++)] of the shift checks,
    with [n] iterations left before [i] passes [bw_s]; [shift] is
    [bzla_bv_sll] or [bzla_bv_srl]. The final [i] is returned with [res]. *)
Fixpoint inv_shift_loop (shift : BzlaBitVector -> BzlaBitVector -> BzlaBitVector)
         (t s : BzlaBitVector) (bw_s : nat) (n : nat) (i : nat) (res : bool)
  : nat * bool :=
  match n with
  | O => (i, res)
  | S n' =>
      if res then (i, res)
      else
        let bv_i := bzla_bv_uint64_to_bv (Z.of_nat i) bw_s in
        let s_shift_i := shift s bv_i in
        inv_shift_loop shift t s bw_s n' (S i)
                       (bzla_bv_compare s_shift_i t =? 0)
  end.

Definition bzla_is_inv_sll (x : BzlaBvDomain) (t s : BzlaBitVector)
           (pos_x : nat) : bool :=
  if Nat.eqb pos_x 0 then
    let t_srl_s := bzla_bv_srl t s in
    let sll_s := bzla_bv_sll t_srl_s s in
    bzla_bv_compare sll_s t =? 0
  else
    let bw_s := bzla_bv_get_width s in
    snd (inv_shift_loop bzla_bv_sll t s bw_s (bw_s + 1) 0 false).

Definition bzla_is_inv_srl (x : BzlaBvDomain) (t s : BzlaBitVector)
           (pos_x : nat) : bool :=
  if Nat.eqb pos_x 0 then
    let t_sll_s := bzla_bv_sll t s in
    let srl_s := bzla_bv_srl t_sll_s s in
    bzla_bv_compare srl_s t =? 0
  else
    let bw_s := bzla_bv_get_width s in
    snd (inv_shift_loop bzla_bv_srl t s bw_s (bw_s + 1) 0 false).

Definition bzla_is_inv_ult (x : BzlaBvDomain) (t s : BzlaBitVector)
           (pos_x : nat) : bool :=
  if Nat.eqb pos_x 0 then bzla_bv_is_zero t || negb (bzla_bv_is_zero s)
  else bzla_bv_is_zero t || negb (bzla_bv_is_ones s).

Definition bzla_is_inv_udiv (x : BzlaBvDomain) (t s : BzlaBitVector)
           (pos_x : nat) : bool :=
  let udiv :=
    if Nat.eqb pos_x 0 then
      let s_mul_t := bzla_bv_mul s t in
      bzla_bv_udiv s_mul_t s
    else
      let s_udiv_t := bzla_bv_udiv s t in
      bzla_bv_udiv s s_udiv_t in
  bzla_bv_compare udiv t =? 0.

Definition bzla_is_inv_urem (x : BzlaBvDomain) (t s : BzlaBitVector)
           (pos_x : nat) : bool :=
  let neg_s := bzla_bv_neg s in
  if Nat.eqb pos_x 0 then
    let not_neg_s := bzla_bv_not neg_s in
    bzla_bv_compare t not_neg_s <=? 0
  else
    let t_add_t := bzla_bv_add t t in
    let sub_s := bzla_bv_add t_add_t neg_s in
    let and_s := bzla_bv_and sub_s s in
    bzla_bv_compare t and_s <=? 0.

Definition bzla_is_inv_slice (x : BzlaBvDomain) (t : BzlaBitVector)
           (upper lower : nat) : bool := true.

(** ** Invertibility conditions with the constant bits of [x]

    [bzlainvutils.c] still calls the domain module by its earlier prefix
    [bzla_bvprop_]; those calls are the [bzla_bvdomain_] functions above, and
    the generator is initialised without a random number generator. *)

Definition check_const_bits (d : BzlaBvDomain) (bv : BzlaBitVector) : bool :=
  let and := bzla_bv_and bv (hi d) in
  let or := bzla_bv_or and (lo d) in
  bzla_bv_compare or bv =? 0.

Definition check_const_bits_val (d : BzlaBvDomain) (val : Z) : bool :=
  let bw := bzla_bv_get_width (lo d) in
  let bv := if negb (val =? 0) then bzla_bv_ones bw else bzla_bv_new bw in
  check_const_bits d bv.

Definition check_const_domain_bits (d1 d2 : BzlaBvDomain) : bool :=
  let const_d1 := bzla_bv_xnor (lo d1) (hi d1) in
  let const_d2 := bzla_bv_xnor (lo d2) (hi d2) in
  let common := bzla_bv_and const_d1 const_d2 in
  let masked_d1 := bzla_bv_and common (lo d1) in
  let masked_d2 := bzla_bv_and common (lo d2) in
  bzla_bv_compare masked_d1 masked_d2 =? 0.

Definition bzla_is_inv_add_const (x : BzlaBvDomain) (t s : BzlaBitVector)
           (pos_x : nat) : bool :=
  let sub := bzla_bv_sub t s in
  check_const_bits x sub.

Definition bzla_is_inv_and_const (x : BzlaBvDomain) (t s : BzlaBitVector)
           (pos_x : nat) : bool :=
  if negb (bzla_is_inv_and x t s pos_x) then false
  else
    let mask := bzla_bv_xnor (lo x) (hi x) in
    let and1 := bzla_bv_and s (hi x) in
    let and2 := bzla_bv_and and1 mask in
    let and3 := bzla_bv_and t mask in
    bzla_bv_compare and2 and3 =? 0.

Definition bzla_is_inv_concat_const (x : BzlaBvDomain) (t s : BzlaBitVector)
           (pos_x : nat) : bool :=
  let bw_t := bzla_bv_get_width t in
  let bw_s := bzla_bv_get_width s in
  let bw_x := bzla_bvdomain_get_width x in
  let '(t_and, t_s) :=
    if Nat.eqb pos_x 0 then
      let t_h := bzla_bv_slice t (bw_t - 1) bw_s in
      let t_l := bzla_bv_slice t (bw_s - 1) 0 in
      (t_h, t_l)
    else
      let t_h := bzla_bv_slice t (bw_t - 1) bw_x in
      let t_l := bzla_bv_slice t (bw_x - 1) 0 in
      (t_l, t_h) in
  let and := bzla_bv_and t_and (hi x) in
  let or := bzla_bv_or and (lo x) in
  (bzla_bv_compare or t_and =? 0) && (bzla_bv_compare s t_s =? 0).

Definition bzla_is_inv_eq_const (x : BzlaBvDomain) (t s : BzlaBitVector)
           (pos_x : nat) : bool :=
  if bzla_bv_is_false t then
    negb (bzla_bv_compare (hi x) (lo x) =? 0)
    || negb (bzla_bv_compare (hi x) s =? 0)
  else check_const_bits x s.

Definition bzla_is_inv_mul_const (x : BzlaBvDomain) (t s : BzlaBitVector)
           (pos_x : nat) : bool :=
  let res := bzla_is_inv_mul x t s pos_x in
  if res && negb (bzla_bv_is_zero s) && bzla_bvdomain_has_fixed_bits x then
    if bzla_bvdomain_is_fixed x then
      let tmp := bzla_bv_mul (lo x) s in
      bzla_bv_compare tmp t =? 0
    else
      let lsb_s := bzla_bv_get_bit s 0 in
      if lsb_s then
        let mod_inv_s := bzla_bv_mod_inverse s in
        let tmp := bzla_bv_mul mod_inv_s t in
        check_const_bits x tmp
      else
        let tz_s := bzla_bv_get_num_trailing_zeros s in
        let tmp_s := bzla_bv_srl_uint64 s tz_s in
        let tmp_t := bzla_bv_srl_uint64 t tz_s in
        let mod_inv_s := bzla_bv_mod_inverse tmp_s in
        let tmp_x := bzla_bv_mul mod_inv_s tmp_t in
        let ones := bzla_bv_ones (bzla_bv_get_width tmp_x) in
        let mask_lo := bzla_bv_srl_uint64 ones tz_s in
        let mask_hi := bzla_bv_not mask_lo in
        let lo := bzla_bv_and mask_lo tmp_x in
        let hi := bzla_bv_or mask_hi tmp_x in
        let d_tmp_x := bzla_bvdomain_new lo hi in
        check_const_domain_bits d_tmp_x x
  else res.

(** The loop [for (i = 0; i <= bw_s && !res; i++)] of the shift checks
    with constant bits: only an [i] compatible with [x] is tried. *)
Fixpoint inv_shift_const_loop
         (shift : BzlaBitVector -> BzlaBitVector -> BzlaBitVector)
         (x : BzlaBvDomain) (t s : BzlaBitVector) (bw_s : nat)
         (n : nat) (i : nat) (res : bool) : nat * bool :=
  match n with
  | O => (i, res)
  | S n' =>
      if res then (i, res)
      else
        let bv_i := bzla_bv_uint64_to_bv (Z.of_nat i) bw_s in
        let and := bzla_bv_and bv_i (hi x) in
        let or := bzla_bv_or bv_i (lo x) in
        let invalid :=
          negb (bzla_bv_compare or bv_i =? 0)
          || negb (bzla_bv_compare and bv_i =? 0) in
        let res :=
          if negb invalid then
            let shift1 := shift s bv_i in
            bzla_bv_compare shift1 t =? 0
          else res in
        inv_shift_const_loop shift x t s bw_s n' (S i) res
  end.

Definition bzla_is_inv_sll_const (x : BzlaBvDomain) (t s : BzlaBitVector)
           (pos_x : nat) : bool :=
  if Nat.eqb pos_x 0 then
    if negb (bzla_is_inv_sll x t s pos_x) then false
    else
      let shift1 := bzla_bv_sll (hi x) s in
      let shift2 := bzla_bv_sll (lo x) s in
      let and := bzla_bv_and shift1 t in
      let or := bzla_bv_or shift2 t in
      (bzla_bv_compare and t =? 0) && (bzla_bv_compare or t =? 0)
  else
    let bw_s := bzla_bv_get_width s in
    let bv_bw := bzla_bv_uint64_to_bv (Z.of_nat bw_s) bw_s in
    let res := (bzla_bv_compare (hi x) bv_bw >=? 0) && bzla_bv_is_zero t in
    snd (inv_shift_const_loop bzla_bv_sll x t s bw_s (bw_s + 1) 0 res).

Definition bzla_is_inv_srl_const (x : BzlaBvDomain) (t s : BzlaBitVector)
           (pos_x : nat) : bool :=
  if Nat.eqb pos_x 0 then
    if negb (bzla_is_inv_srl x t s pos_x) then false
    else
      let shift1 := bzla_bv_srl (hi x) s in
      let shift2 := bzla_bv_srl (lo x) s in
      let and := bzla_bv_and shift1 t in
      let or := bzla_bv_or shift2 t in
      (bzla_bv_compare and t =? 0) && (bzla_bv_compare or t =? 0)
  else
    let bw_s := bzla_bv_get_width s in
    let bv_bw := bzla_bv_uint64_to_bv (Z.of_nat bw_s) bw_s in
    let res := (bzla_bv_compare (hi x) bv_bw >=? 0) && bzla_bv_is_zero t in
    snd (inv_shift_const_loop bzla_bv_srl x t s bw_s (bw_s + 1) 0 res).

Definition bzla_is_inv_udiv_const (x : BzlaBvDomain) (t s : BzlaBitVector)
           (pos_x : nat) : bool := true.

Definition bzla_is_inv_ult_const (x : BzlaBvDomain) (t s : BzlaBitVector)
           (pos_x : nat) : bool :=
  if Nat.eqb pos_x 0 then
    if bzla_bv_is_true t then
      negb (bzla_bv_is_zero s) && (bzla_bv_compare (lo x) s =? -1)
    else bzla_bv_compare (hi x) s >=? 0
  else
    if bzla_bv_is_true t then
      negb (bzla_bv_is_ones s) && (bzla_bv_compare (hi x) s =? 1)
    else bzla_bv_compare (lo x) s <=? 0.

(** The candidate loop of [bzla_is_inv_urem_const]:
    [while (has_next(&gen)) { bv = next(&gen); ... }], which pushes the
    remainder of every hit on the stack [candidates]. [None] when the fuel
    runs out. *)
Fixpoint urem_candidates_loop (fuel : nat) (x : BzlaBvDomain)
         (t s : BzlaBitVector) (gen : BzlaBvDomainGenerator)
         (candidates : list BzlaBitVector) : option (list BzlaBitVector) :=
  match fuel with
  | O => None
  | S fuel' =>
      if bzla_bvdomain_gen_has_next gen then
        match bzla_bvdomain_gen_next gen with
        | None => None
        | Some (bv, gen') =>
            let rem := bzla_bv_urem s bv in
            let candidates :=
              if bzla_bv_compare rem t =? 0 then
                if check_const_bits x rem then rem :: candidates
                else candidates
              else candidates in
            urem_candidates_loop fuel' x t s gen' candidates
        end
      else Some candidates
  end.

(** The bounds [lo], [hi] of the candidate range for [s > t]. *)
Definition urem_range (t s : BzlaBitVector) : BzlaBitVector * BzlaBitVector :=
  let bw := bzla_bv_get_width t in
  let lo := bzla_bv_one bw in
  let hi :=
    if bzla_bv_is_zero t then bzla_bv_copy s
    else
      let sub := bzla_bv_sub s t in
      let rem := bzla_bv_urem sub t in
      let div := bzla_bv_udiv sub t in
      if bzla_bv_is_zero rem then bzla_bv_dec div else div in
  (lo, hi).

Definition bzla_is_inv_urem_const (fuel : nat) (x : BzlaBvDomain)
           (t s : BzlaBitVector) (pos_x : nat) : option bool :=
  let res := bzla_is_inv_urem x t s pos_x in
  if res then
    let bw := bzla_bv_get_width t in
    let ones := bzla_bv_ones bw in
    if negb (Nat.eqb pos_x 0) then
      if bzla_bv_compare t ones =? 0 then
        Some (check_const_bits_val x 0)
      else
        let cmp := bzla_bv_compare s t in
        if cmp =? 0 then Some (bzla_bv_compare (hi x) t >=? 0)
        else
          let (lo, hi) := urem_range t s in
          let gen := bzla_bvdomain_gen_init_range None x (Some lo) (Some hi) in
          match urem_candidates_loop fuel x t s gen [] with
          | None => None
          | Some candidates =>
              Some (match candidates with [] => true | _ :: _ => false end)
          end
    else
      if bzla_bv_is_zero s || (bzla_bv_compare t ones =? 0) then
        Some (check_const_bits x t)
      else
        if negb (check_const_bits x t) then
          let sub := bzla_bv_sub ones s in
          if bzla_bv_compare sub t <? 0 then Some false
          else Some res
        else Some res
  else Some res.

Definition bzla_is_inv_slice_const (x : BzlaBvDomain) (t : BzlaBitVector)
           (upper lower : nat) : bool :=
  let mask := bzla_bv_xnor (lo x) (hi x) in
  let mask_sliced := bzla_bv_slice mask upper lower in
  let x_mask := bzla_bv_slice (lo x) upper lower in
  let t_mask := bzla_bv_and mask_sliced t in
  bzla_bv_compare x_mask t_mask =? 0.

(** ** Inputs over which the properties below are stated *)

(** Strings over the input alphabet [{0, 1, x}]. *)
Fixpoint ternary (s : string) : bool :=
  match s with
  | EmptyString => true
  | String c r =>
      (Ascii.eqb c "0" || Ascii.eqb c "1" || Ascii.eqb c "x") && ternary r
  end.

(** An invalid one-bit domain ([lo = 1], [hi = 0], printed [?]). *)
Definition invalid_dom1 : BzlaBvDomain :=
  bzla_bvdomain_new (mk_bv 1 1) (mk_bv 1 0).

(** Validity read bit by bit: a bit of [lo] that is set is set in [hi]. *)
Definition bits_valid (d : BzlaBvDomain) : Prop :=
  forall i, 0 <= i -> Z.testbit (bv_val (lo d)) i = true ->
            Z.testbit (bv_val (hi d)) i = true.

(** The test the shift loops make for one [i]. *)
Definition shift_hit (shift : BzlaBitVector -> BzlaBitVector -> BzlaBitVector)
           (t s : BzlaBitVector) (bw_s : nat) (i : nat) : bool :=
  bzla_bv_compare (shift s (bzla_bv_uint64_to_bv (Z.of_nat i) bw_s)) t =? 0.

(** The operators that have an invertibility check. [slice] carries its
    bounds. *)
Inductive BzlaInvOp : Type :=
| OpAdd | OpAnd | OpConcat | OpEq | OpMul | OpSll | OpSrl | OpUdiv | OpUlt
| OpUrem | OpSlice (upper lower : nat).

(** The check without constant bits of each operator ([inv_op] in the
    spec). *)
Definition inv_op (op : BzlaInvOp) (x : BzlaBvDomain) (t s : BzlaBitVector)
           (pos_x : nat) : bool :=
  match op with
  | OpAdd => bzla_is_inv_add x t s pos_x
  | OpAnd => bzla_is_inv_and x t s pos_x
  | OpConcat => bzla_is_inv_concat x t s pos_x
  | OpEq => bzla_is_inv_eq x t s pos_x
  | OpMul => bzla_is_inv_mul x t s pos_x
  | OpSll => bzla_is_inv_sll x t s pos_x
  | OpSrl => bzla_is_inv_srl x t s pos_x
  | OpUdiv => bzla_is_inv_udiv x t s pos_x
  | OpUlt => bzla_is_inv_ult x t s pos_x
  | OpUrem => bzla_is_inv_urem x t s pos_x
  | OpSlice upper lower => bzla_is_inv_slice x t upper lower
  end.

(** The check with constant bits of each operator ([inv_op_const] in the
    spec); only the [urem] check has a loop that needs fuel. *)
Definition inv_op_const (fuel : nat) (op : BzlaInvOp) (x : BzlaBvDomain)
           (t s : BzlaBitVector) (pos_x : nat) : option bool :=
  match op with
  | OpAdd => Some (bzla_is_inv_add_const x t s pos_x)
  | OpAnd => Some (bzla_is_inv_and_const x t s pos_x)
  | OpConcat => Some (bzla_is_inv_concat_const x t s pos_x)
  | OpEq => Some (bzla_is_inv_eq_const x t s pos_x)
  | OpMul => Some (bzla_is_inv_mul_const x t s pos_x)
  | OpSll => Some (bzla_is_inv_sll_const x t s pos_x)
  | OpSrl => Some (bzla_is_inv_srl_const x t s pos_x)
  | OpUdiv => Some (bzla_is_inv_udiv_const x t s pos_x)
  | OpUlt => Some (bzla_is_inv_ult_const x t s pos_x)
  | OpUrem => bzla_is_inv_urem_const fuel x t s pos_x
  | OpSlice upper lower => Some (bzla_is_inv_slice_const x t upper lower)
  end.

(** Modelled from the spec: concatenation [a ∘ b] of the bit-vector
    primitives, [a] in the high part. *)
Definition bzla_bv_concat (a b : BzlaBitVector) : BzlaBitVector :=
  mk_bv (bv_width a + bv_width b) (bv_val a * 2 ^ zw b + bv_val b).

(** Modelled from the spec: unsigned less-than of the bit-vector
    primitives, as a one-bit vector. *)
Definition bzla_bv_ult (a b : BzlaBitVector) : BzlaBitVector :=
  mk_bv 1 (if bv_val a <? bv_val b then 1 else 0).

(** The value of the operator applied to a concrete [x] and to [s], with
    [x] on the left for [pos_x = 0] and on the right otherwise. *)
Definition op_apply (op : BzlaInvOp) (x s : BzlaBitVector) (pos_x : nat)
  : BzlaBitVector :=
  let l := if Nat.eqb pos_x 0 then x else s in
  let r := if Nat.eqb pos_x 0 then s else x in
  match op with
  | OpAdd => bzla_bv_add l r
  | OpAnd => bzla_bv_and l r
  | OpConcat => bzla_bv_concat l r
  | OpEq => bzla_bv_eq l r
  | OpMul => bzla_bv_mul l r
  | OpSll => bzla_bv_sll l r
  | OpSrl => bzla_bv_srl l r
  | OpUdiv => bzla_bv_udiv l r
  | OpUlt => bzla_bv_ult l r
  | OpUrem => bzla_bv_urem l r
  | OpSlice upper lower => bzla_bv_slice x upper lower
  end.

(** The width contract of each operator. *)
Definition widths_match (op : BzlaInvOp) (x : BzlaBvDomain)
           (t s : BzlaBitVector) : Prop :=
  let wx := bzla_bvdomain_get_width x in
  (1 <= wx)%nat /\
  match op with
  | OpAdd | OpAnd | OpMul | OpSll | OpSrl | OpUdiv | OpUrem =>
      bv_width s = wx /\ bv_width t = wx
  | OpEq | OpUlt => bv_width s = wx /\ bv_width t = 1%nat
  | OpConcat => (1 <= bv_width s)%nat /\ bv_width t = (wx + bv_width s)%nat
  | OpSlice upper lower =>
      (lower <= upper < wx)%nat /\ bv_width t = (upper - lower + 1)%nat
  end.

(** Well-formed arguments of a check. *)
Definition inv_args_ok (op : BzlaInvOp) (x : BzlaBvDomain)
           (t s : BzlaBitVector) (pos_x : nat) : Prop :=
  dom_wf x /\ bv_wf t /\ bv_wf s /\ widths_match op x t s /\ (pos_x <= 1)%nat.

(** Some [x] of the domain solves the equation. *)
Definition solvable (op : BzlaInvOp) (x : BzlaBvDomain) (t s : BzlaBitVector)
           (pos_x : nat) : Prop :=
  exists v : BzlaBitVector, in_gamma x v /\ op_apply op v s pos_x = t.

(** The compatibility test of the shift loops with constant bits: the
    negation of [invalid]. *)
Definition shift_candidate (x : BzlaBvDomain) (bw_s : nat) (i : nat) : bool :=
  let bv_i := bzla_bv_uint64_to_bv (Z.of_nat i) bw_s in
  (bzla_bv_compare (bzla_bv_or bv_i (lo x)) bv_i =? 0)
  && (bzla_bv_compare (bzla_bv_and bv_i (hi x)) bv_i =? 0).


(** A print buffer right after program start: all zero, position zero. *)
Definition initial_print_buffer : PrintBuffer :=
  mk_print_buffer (repeat zero (Z.to_nat PRINT_BUFFER_SIZE)) 0.

(** ** The generator, position by position *)

(** Position [p] of [d] is not fixed. *)
Definition dom_free (d : BzlaBvDomain) (p : nat) : bool :=
  negb (bzla_bvdomain_is_fixed_bit d p).

(** Number of unfixed positions below [p]: the index of the counter bit
    that position [p] receives. *)
Fixpoint rank (d : BzlaBvDomain) (p : nat) : nat :=
  match p with
  | O => O
  | S p' => (rank d p' + (if dom_free d p' then 1 else 0))%nat
  end.

(** [cnt] of [bzla_bvdomain_gen_init_range]. *)
Definition free_count (d : BzlaBvDomain) : nat := rank d (bv_width (lo d)).

(** The value [gen_next_bits] emits for the counter [bits]. *)
Definition compose (d : BzlaBvDomain) (bits : BzlaBitVector) : BzlaBitVector :=
  gen_compose_loop d bits (bv_width (lo d)) 0 0 (lo d).

(** The values emitted for [n] successive counters from [b] on. *)
Fixpoint compose_from (d : BzlaBvDomain) (cnt : nat) (b : Z) (n : nat)
  : list BzlaBitVector :=
  match n with
  | O => []
  | S n' => compose d (mk_bv cnt b) :: compose_from d cnt (b + 1) n'
  end.

(** The counter bits of a member [v] of the domain, read off the unfixed
    positions below [n]. *)
Fixpoint extract (d : BzlaBvDomain) (v : Z) (n : nat) : Z :=
  match n with
  | O => 0
  | S n' =>
      if dom_free d n' && Z.testbit v (Z.of_nat n')
      then Z.setbit (extract d v n') (Z.of_nat (rank d n'))
      else extract d v n'
  end.

(** Strictly ascending by value. *)
Definition ascending (l : list BzlaBitVector) : Prop :=
  Sorted.StronglySorted (fun a b => bv_val a < bv_val b) l.

(** [r] is the smallest counter whose emitted value is at least [min]: the
    counters at or above [r] are exactly those that emit a value at or above
    [min]. *)
Definition bits_min_ok (d : BzlaBvDomain) (min r : BzlaBitVector) : Prop :=
  bv_width r = free_count d
  /\ 0 <= bv_val r < 2 ^ Z.of_nat (free_count d)
  /\ forall b : BzlaBitVector,
       0 <= bv_val b < 2 ^ Z.of_nat (free_count d) ->
       (bv_val r <= bv_val b <-> bv_val min <= bv_val (compose d b)).

(** [r] is the largest counter whose emitted value is at most [max]. *)
Definition bits_max_ok (d : BzlaBvDomain) (max r : BzlaBitVector) : Prop :=
  bv_width r = free_count d
  /\ 0 <= bv_val r < 2 ^ Z.of_nat (free_count d)
  /\ forall b : BzlaBitVector,
       0 <= bv_val b < 2 ^ Z.of_nat (free_count d) ->
       (bv_val b <= bv_val r <-> bv_val (compose d b) <= bv_val max).

(** An invalid two-bit domain: position 0 has [lo = 1, hi = 0], position 1
    is unfixed. *)
Definition invalid_dom2 : BzlaBvDomain :=
  bzla_bvdomain_new (mk_bv 2 1) (mk_bv 2 2).

(** The optional range bounds belong to the width of the domain. *)
Definition bound_ok (d : BzlaBvDomain) (m : option BzlaBitVector) : Prop :=
  match m with
  | None => True
  | Some b => bv_wf b /\ bv_width b = bv_width (lo d)
  end.

(** ** The wheel factorizer, step by step *)

(** The residues modulo 30 the wheel stands on, by position, and the
    increment taken from each. *)
Definition wheel_residue (pos : nat) : Z :=
  nth pos [2; 3; 5; 7; 11; 13; 17; 19; 23; 29; 1] 0.

Definition wheel_step (pos : nat) : Z :=
  nth pos [1; 2; 2; 4; 2; 4; 2; 4; 6; 2; 6] 0.

(** The candidate [fact] is where the wheel position says. *)
Definition wheel_ok (fact : Z) (pos : nat) : Prop :=
  (pos <= 10)%nat
  /\ ((pos <= 2)%nat -> fact = wheel_residue pos)
  /\ ((3 <= pos)%nat -> 7 <= fact /\ fact mod 30 = wheel_residue pos).

(** Trial division has removed every divisor below [fact]. *)
Definition no_small_factor (fact num : Z) : Prop :=
  forall k : Z, 2 <= k < fact -> ~ (k | num).

(** A factorizer of width [w] in the middle of its run: what every call of
    [wfact_next] preserves. *)
Definition wheel_state (w : nat) (limit : Z) (wf : WheelFactorizer) : Prop :=
  bv_width (wf_num wf) = w /\ bv_width (wf_fact wf) = w
  /\ 1 <= bv_val (wf_num wf) < 2 ^ Z.of_nat w
  /\ 0 <= bv_val (wf_fact wf) < 2 ^ Z.of_nat w
  /\ wf_limit wf = limit
  /\ wf_inc wf = wf_inc (wfact_init (mk_bv w 0) limit).

(** The additional facts that hold when the wheel constants fit the width
    and no step limit is set. *)
Definition wheel_exact (wf : WheelFactorizer) : Prop :=
  wf_done wf = false
  /\ wheel_ok (bv_val (wf_fact wf)) (wf_pos wf)
  /\ no_small_factor (bv_val (wf_fact wf)) (bv_val (wf_num wf)).

(** The test of the candidate loop of [bzla_is_inv_urem_const] for one
    enumerated value [v]: the remainder is [t] and passes
    [check_const_bits]. *)
Definition urem_hit (x : BzlaBvDomain) (t s v : BzlaBitVector) : bool :=
  (bzla_bv_compare (bzla_bv_urem s v) t =? 0)
  && check_const_bits x (bzla_bv_urem s v).

(** ** Further notions used by the properties of the remaining functions *)

(** Some [x] of width [w], whatever its bits, solves the equation. *)
Definition has_solution (op : BzlaInvOp) (w : nat) (t s : BzlaBitVector)
           (pos_x : nat) : Prop :=
  exists v : BzlaBitVector,
    bv_width v = w /\ bv_wf v /\ op_apply op v s pos_x = t.

(** ** Printing as a string *)

(** Modelled from the spec: [bzla_bv_to_char] of the bit-vector primitives,
    the binary numeral of the vector, most significant bit first, as long
    as the vector is wide. *)
Fixpoint bv_to_char_loop (v : Z) (n : nat) : string :=
  match n with
  | O => EmptyString
  | S n' =>
      String (if Z.testbit v (Z.of_nat n') then "1"%char else "0"%char)
             (bv_to_char_loop v n')
  end.

Definition bzla_bv_to_char (b : BzlaBitVector) : string :=
  bv_to_char_loop (bv_val b) (bv_width b).

(** [s[i]] of a C string: the characters, then the terminator at index
    [strlen(s)]; anything further is outside the string. *)
Definition str_get (s : string) (i : nat) : outcome ascii :=
  match String.get i s with
  | Some c => Done c
  | None => if Nat.eqb i (String.length s) then Done zero else OutOfBounds
  end.

(** The loop [for (i = 0; i < len; i++)] of [bzla_bvdomain_to_char] from
    index [i] on, [res] being what is left of the string of [lo]. *)
Fixpoint to_char_loop (checked : bool) (res hi : string) (i : nat)
  : outcome string :=
  match res with
  | EmptyString => Done EmptyString
  | String r res' =>
      h <- str_get hi i ;;
      c <- (if negb (Ascii.eqb r h) then
              if Ascii.eqb r "0" && Ascii.eqb h "1" then Done "x"%char
              else
                _ <- assert checked (Ascii.eqb r "1" && Ascii.eqb h "0") ;;
                Done "?"%char
            else Done r) ;;
      rest <- to_char_loop checked res' hi (S i) ;;
      Done (String c rest)
  end.

Definition bzla_bvdomain_to_char (checked : bool) (d : BzlaBvDomain)
  : outcome string :=
  to_char_loop checked (bzla_bv_to_char (lo d)) (bzla_bv_to_char (hi d)) 0.

(** [bzla_bvdomain_print]: what the call writes to the standard output. *)
Definition bzla_bvdomain_print (checked : bool) (d : BzlaBvDomain)
           (print_short : bool) : outcome string :=
  if print_short then
    s <- bzla_bvdomain_to_char checked d ;;
    Done (s ++ String "010"%char EmptyString)%string
  else
    Done ("lo: " ++ bzla_bv_to_char (lo d) ++ ", hi: "
          ++ bzla_bv_to_char (hi d) ++ String "010"%char EmptyString)%string.

(** ** Repeated random draws *)

(** [n] successive calls of [bzla_bvdomain_gen_random]: the values drawn
    and the generator left. *)
Fixpoint gen_random_n (n : nat) (gen : BzlaBvDomainGenerator)
  : option (list BzlaBitVector * BzlaBvDomainGenerator) :=
  match n with
  | O => Some ([], gen)
  | S n' =>
      match bzla_bvdomain_gen_random gen with
      | None => None
      | Some (v, gen') =>
          match gen_random_n n' gen' with
          | None => None
          | Some (l, g) => Some (v :: l, g)
          end
      end
  end.

(** ** Reading a printed domain as a pattern *)

(** The binary numeral [b] matches the pattern [p]: they are equally long
    and every character of [p] is ['x'] or the character of [b] at its
    place. *)
Fixpoint pattern_match (p b : string) : bool :=
  match p, b with
  | EmptyString, EmptyString => true
  | String c p', String a b' =>
      (Ascii.eqb c "x" || Ascii.eqb c a) && pattern_match p' b'
  | _, _ => false
  end.


(** * Properties *)

(** ** Bit-level facts *)

Lemma compare_eq_iff (a b : BzlaBitVector) :
  (bzla_bv_compare a b =? 0) = true <-> bv_val a = bv_val b.
Proof.
  unfold bzla_bv_compare.
  destruct (Z.compare_spec (bv_val a) (bv_val b)); simpl; split; intros; try lia; discriminate.
Qed.

Lemma compare_eqb (a b : BzlaBitVector) :
  (bzla_bv_compare a b =? 0) = (bv_val a =? bv_val b).
Proof.
  unfold bzla_bv_compare.
  destruct (Z.compare_spec (bv_val a) (bv_val b)); simpl; symmetry;
    [apply Z.eqb_eq | apply Z.eqb_neq | apply Z.eqb_neq]; lia.
Qed.

Lemma compare_leb (a b : BzlaBitVector) :
  (bzla_bv_compare a b <=? 0) = (bv_val a <=? bv_val b).
Proof.
  unfold bzla_bv_compare.
  destruct (Z.compare_spec (bv_val a) (bv_val b)); simpl; symmetry;
    [apply Z.leb_le | apply Z.leb_le | apply Z.leb_gt]; lia.
Qed.

Lemma compare_geb (a b : BzlaBitVector) :
  (bzla_bv_compare a b >=? 0) = (bv_val b <=? bv_val a).
Proof.
  unfold bzla_bv_compare. rewrite Z.geb_leb.
  destruct (Z.compare_spec (bv_val a) (bv_val b)); simpl; symmetry;
    [apply Z.leb_le | apply Z.leb_gt | apply Z.leb_le]; lia.
Qed.

Lemma compare_gtb (a b : BzlaBitVector) :
  (bzla_bv_compare a b >? 0) = (bv_val b <? bv_val a).
Proof.
  unfold bzla_bv_compare. rewrite Z.gtb_ltb.
  destruct (Z.compare_spec (bv_val a) (bv_val b)); simpl; symmetry;
    [apply Z.ltb_ge | apply Z.ltb_ge | apply Z.ltb_lt]; lia.
Qed.

Lemma compare_ltb (a b : BzlaBitVector) :
  (bzla_bv_compare a b <? 0) = (bv_val a <? bv_val b).
Proof.
  unfold bzla_bv_compare.
  destruct (Z.compare_spec (bv_val a) (bv_val b)); simpl; symmetry;
    [apply Z.ltb_ge | apply Z.ltb_lt | apply Z.ltb_ge]; lia.
Qed.



Lemma pow2_pos (n : Z) : 0 <= n -> 0 < 2 ^ n.
Proof. intros; apply Z.pow_pos_nonneg; lia. Qed.

Lemma zw_nonneg (b : BzlaBitVector) : 0 <= zw b.
Proof. unfold zw; lia. Qed.

Lemma testbit_above (v n i : Z) :
  0 <= v < 2 ^ n -> 0 <= n -> n <= i -> Z.testbit v i = false.
Proof.
  intros Hv Hn Hi.
  rewrite <- (Z.mod_small v (2 ^ n)) by assumption.
  apply Z.mod_pow2_bits_high; lia.
Qed.

Lemma wf_testbit_above (b : BzlaBitVector) (i : Z) :
  bv_wf b -> zw b <= i -> Z.testbit (bv_val b) i = false.
Proof.
  intros Hb Hi. eapply testbit_above; eauto. apply zw_nonneg.
Qed.

(** A value whose bits all lie below [n] is below [2 ^ n]. *)
Lemma bits_below_bound (v n : Z) :
  0 <= n -> 0 <= v -> (forall i, n <= i -> Z.testbit v i = false) ->
  v < 2 ^ n.
Proof.
  intros Hn Hv H.
  destruct (Z.eq_dec v 0) as [->|Hne]; [apply pow2_pos; lia|].
  assert (Hlog : Z.log2 v < n).
  { destruct (Z.lt_ge_cases (Z.log2 v) n) as [|Hge]; [assumption|].
    specialize (H _ Hge). rewrite Z.bit_log2 in H by lia. discriminate. }
  apply Z.log2_lt_pow2; lia.
Qed.

Lemma bits_nonneg (v : Z) :
  (forall i, 0 <= i -> Z.testbit v i = true -> False) -> v = 0.
Proof.
  intros H. apply Z.bits_inj'. intros i Hi. rewrite Z.bits_0.
  destruct (Z.testbit v i) eqn:E; [exfalso; eauto | reflexivity].
Qed.


Lemma lor_wf (a b n : Z) :
  0 <= n -> 0 <= a < 2 ^ n -> 0 <= b < 2 ^ n -> 0 <= Z.lor a b < 2 ^ n.
Proof.
  intros Hn Ha Hb. split; [apply Z.lor_nonneg; lia|].
  apply bits_below_bound; [lia | apply Z.lor_nonneg; lia |].
  intros i Hi.
  rewrite Z.lor_spec, (testbit_above a n i), (testbit_above b n i) by lia.
  reflexivity.
Qed.

Lemma ones_wf (n : Z) : 0 <= n -> 0 <= Z.ones n < 2 ^ n.
Proof.
  intros Hn. rewrite Z.ones_equiv. pose proof (pow2_pos n Hn). lia.
Qed.

(** Bitwise inclusion bounds the value. *)
Lemma land_le (a b : Z) : 0 <= a -> 0 <= b -> Z.land a b = a -> a <= b.
Proof.
  intros Ha Hb H.
  assert (E : b = a + Z.ldiff b a).
  { rewrite <- Z.or_to_plus.
    - Z.bitblast. apply (f_equal (fun z => Z.testbit z i)) in H.
      rewrite Z.land_spec in H.
      destruct (Z.testbit a i), (Z.testbit b i); simpl in *; congruence.
    - Z.bitblast. }
  assert (0 <= Z.ldiff b a) by (apply Z.ldiff_nonneg; lia).
  lia.
Qed.

Lemma lor_le (a b : Z) : 0 <= a -> 0 <= b -> Z.lor a b = b -> a <= b.
Proof.
  intros Ha Hb H. apply land_le; try assumption.
  Z.bitblast. apply (f_equal (fun z => Z.testbit z i)) in H.
  rewrite Z.lor_spec in H.
  destruct (Z.testbit a i), (Z.testbit b i); simpl in *; congruence.
Qed.

(** ** Validity, fixed bits and concretization *)

Lemma testbit_of_eq (a b : Z) (i : Z) : a = b -> Z.testbit a i = Z.testbit b i.
Proof. intros ->; reflexivity. Qed.

Lemma is_valid_bits (d : BzlaBvDomain) :
  dom_wf d -> bzla_bvdomain_is_valid d = true -> bits_valid d.
Proof.
  intros (Hlo & Hhi & Hw) Hv i Hi Hl.
  unfold bzla_bvdomain_is_valid, bzla_bv_is_ones, bzla_bv_or, bzla_bv_not in Hv.
  simpl in Hv. apply Z.eqb_eq in Hv.
  destruct (Z.lt_ge_cases i (zw (lo d))) as [Hlt|Hge].
  - apply (testbit_of_eq _ _ i) in Hv.
    rewrite Z.lor_spec, Z.testbit_mod_pow2, Z.lnot_spec, Z.testbit_ones_nonneg in Hv
      by (unfold zw in *; lia).
    unfold zw in *. apply Z.ltb_lt in Hlt.
    rewrite ?Hl, ?Hlt in Hv. simpl in Hv. rewrite ?Hlt in Hv. exact Hv.
  - rewrite wf_testbit_above in Hl by assumption. discriminate.
Qed.

Lemma bits_valid_is_valid (d : BzlaBvDomain) :
  dom_wf d -> bits_valid d -> bzla_bvdomain_is_valid d = true.
Proof.
  intros (Hlo & Hhi & Hw) Hv.
  unfold bzla_bvdomain_is_valid, bzla_bv_is_ones, bzla_bv_or, bzla_bv_not.
  simpl. apply Z.eqb_eq. unfold zw. cbn [bv_width bv_val].
  apply Z.bits_inj'. intros i Hi.
  rewrite Z.lor_spec, Z.testbit_mod_pow2, Z.lnot_spec, Z.testbit_ones_nonneg by lia.
  destruct (Z.lt_ge_cases i (Z.of_nat (bv_width (lo d)))) as [Hlt|Hge].
  - rewrite !(proj2 (Z.ltb_lt _ _) Hlt). specialize (Hv i Hi).
    destruct (Z.testbit (bv_val (lo d)) i); simpl; auto.
  - rewrite !(proj2 (Z.ltb_ge _ _) Hge). simpl.
    apply wf_testbit_above; [assumption|]. unfold zw. lia.
Qed.

Lemma is_fixed_bit_iff (d : BzlaBvDomain) (i : nat) :
  bzla_bvdomain_is_fixed_bit d i = true <->
  Z.testbit (bv_val (lo d)) (Z.of_nat i) = Z.testbit (bv_val (hi d)) (Z.of_nat i).
Proof.
  unfold bzla_bvdomain_is_fixed_bit, bzla_bv_get_bit. apply Bool.eqb_true_iff.
Qed.

Lemma check_fixed_bits_eq (d : BzlaBvDomain) (b : BzlaBitVector) :
  bzla_bvdomain_check_fixed_bits d b = true <->
  Z.lor (Z.land (bv_val b) (bv_val (hi d))) (bv_val (lo d)) = bv_val b.
Proof.
  unfold bzla_bvdomain_check_fixed_bits. rewrite compare_eq_iff. reflexivity.
Qed.

Lemma check_const_bits_same (d : BzlaBvDomain) (b : BzlaBitVector) :
  check_const_bits d b = bzla_bvdomain_check_fixed_bits d b.
Proof. reflexivity. Qed.

(** For a valid domain the mask test decides membership in [γ]. *)
Lemma check_fixed_bits_gamma (d : BzlaBvDomain) (b : BzlaBitVector) :
  dom_wf d -> bzla_bvdomain_is_valid d = true ->
  bv_wf b -> bv_width b = bv_width (lo d) ->
  (bzla_bvdomain_check_fixed_bits d b = true <-> in_gamma d b).
Proof.
  intros Hd Hv Hb Hw. pose proof (is_valid_bits d Hd Hv) as Hbits.
  rewrite check_fixed_bits_eq. unfold in_gamma. split.
  - intros H. split; [assumption|]. split; [assumption|]. split.
    + Z.bitblast. apply (testbit_of_eq _ _ i) in H.
      rewrite Z.lor_spec, Z.land_spec in H.
      destruct (Z.testbit (bv_val (lo d)) i), (Z.testbit (bv_val b) i);
        simpl in *; try reflexivity; rewrite ?andb_false_r in H; simpl in H; congruence.
    + Z.bitblast. apply (testbit_of_eq _ _ i) in H.
      rewrite Z.lor_spec, Z.land_spec in H.
      specialize (Hbits i Hi).
      destruct (Z.testbit (bv_val (lo d)) i), (Z.testbit (bv_val b) i),
        (Z.testbit (bv_val (hi d)) i); simpl in *; try reflexivity;
        try congruence; try (specialize (Hbits eq_refl); congruence).
  - intros (_ & _ & H1 & H2).
    Z.bitblast. apply (testbit_of_eq _ _ i) in H1. apply (testbit_of_eq _ _ i) in H2.
    rewrite Z.land_spec in H1. rewrite Z.lor_spec in H2.
    destruct (Z.testbit (bv_val (lo d)) i), (Z.testbit (bv_val b) i),
        (Z.testbit (bv_val (hi d)) i); simpl in *; congruence.
Qed.

Lemma is_consistent_loop_spec (d : BzlaBvDomain) (b : BzlaBitVector) (n i : nat) :
  is_consistent_loop d b n i = true <->
  (forall k : nat, (i <= k < i + n)%nat ->
     bzla_bvdomain_is_fixed_bit d k = true ->
     bzla_bv_get_bit (lo d) k = bzla_bv_get_bit b k).
Proof.
  revert i. induction n as [|n IH]; intros i; simpl.
  - split; [intros _ k Hk; lia | reflexivity].
  - destruct (bzla_bvdomain_is_fixed_bit d i) eqn:Hf; simpl.
    + destruct (Bool.eqb (bzla_bv_get_bit (lo d) i) (bzla_bv_get_bit b i)) eqn:He; simpl.
      * rewrite IH. apply Bool.eqb_prop in He.
        split; intros H k Hk Hfk.
        -- destruct (Nat.eq_dec k i) as [->|]; [assumption | apply H; [lia|assumption]].
        -- apply H; [lia|assumption].
      * split; [discriminate|]. intros H.
        specialize (H i ltac:(lia) Hf). rewrite H in He.
        rewrite Bool.eqb_reflx in He. discriminate.
    + rewrite IH. split; intros H k Hk Hfk.
      * destruct (Nat.eq_dec k i) as [->|]; [congruence | apply H; [lia|assumption]].
      * apply H; [lia|assumption].
Qed.

Lemma is_consistent_agree (d : BzlaBvDomain) (b : BzlaBitVector) :
  bzla_bvdomain_is_consistent d b = true <-> fixed_bits_agree d b.
Proof.
  unfold bzla_bvdomain_is_consistent, fixed_bits_agree, bzla_bv_get_width.
  rewrite is_consistent_loop_spec. split; intros H k Hk; apply H; lia.
Qed.

Lemma check_fixed_bits_agree (d : BzlaBvDomain) (b : BzlaBitVector) :
  dom_wf d -> bzla_bvdomain_is_valid d = true ->
  bv_wf b -> bv_width b = bv_width (lo d) ->
  (bzla_bvdomain_check_fixed_bits d b = true <-> fixed_bits_agree d b).
Proof.
  intros Hd Hv Hb Hw. pose proof (is_valid_bits d Hd Hv) as Hbits.
  destruct Hd as (Hlo & Hhi & Hwd).
  rewrite check_fixed_bits_eq. unfold fixed_bits_agree. split.
  - intros H i Hi Hf. apply is_fixed_bit_iff in Hf. unfold bzla_bv_get_bit.
    apply (testbit_of_eq _ _ (Z.of_nat i)) in H.
    rewrite Z.lor_spec, Z.land_spec in H.
    destruct (Z.testbit (bv_val (lo d)) (Z.of_nat i)),
      (Z.testbit (bv_val b) (Z.of_nat i)),
      (Z.testbit (bv_val (hi d)) (Z.of_nat i)); simpl in *; congruence.
  - intros H. apply Z.bits_inj'. intros i Hi.
    rewrite Z.lor_spec, Z.land_spec.
    destruct (Z.lt_ge_cases i (zw b)) as [Hlt|Hge].
    + specialize (H (Z.to_nat i) ltac:(unfold zw in Hlt; lia)).
      rewrite is_fixed_bit_iff in H. unfold bzla_bv_get_bit in H.
      rewrite Z2Nat.id in H by lia. specialize (Hbits i Hi).
      destruct (Z.testbit (bv_val (lo d)) i), (Z.testbit (bv_val b) i),
        (Z.testbit (bv_val (hi d)) i); simpl in *; try reflexivity;
        try (specialize (Hbits eq_refl); congruence);
        try (specialize (H eq_refl); congruence).
    + rewrite (wf_testbit_above b), (wf_testbit_above (lo d)) by
        (try assumption; unfold zw in *; lia).
      reflexivity.
Qed.


(** ** Fixed-bit mask identity *)

(** C6, as stated, fails on an invalid domain: at a position with [lo = 1]
    and [hi = 0] no bit is fixed, so the bit-by-bit reading holds of
    [b = 0], yet the mask test rejects it. *)
Lemma check_fixed_bits_invalid_domain :
  dom_wf invalid_dom1 /\ bv_wf (mk_bv 1 0)
  /\ bv_width (mk_bv 1 0) = bv_width (lo invalid_dom1)
  /\ fixed_bits_agree invalid_dom1 (mk_bv 1 0)
  /\ bzla_bvdomain_is_consistent invalid_dom1 (mk_bv 1 0) = true
  /\ bzla_bvdomain_check_fixed_bits invalid_dom1 (mk_bv 1 0) = false.
Proof.
  assert (A : bzla_bvdomain_is_consistent invalid_dom1 (mk_bv 1 0) = true)
    by reflexivity.
  repeat split; try (vm_compute; congruence).
  apply is_consistent_agree. exact A.
Qed.

(** C6 (amended): for every valid domain [d] and every bit-vector [b] of the
    same width, [check_fixed_bits d b] holds iff every bit fixed in [d] has
    the same value in [b], and the loop of [is_consistent] computes the same
    answer as the mask test. *)
Theorem check_fixed_bits_iff_is_consistent (d : BzlaBvDomain) (b : BzlaBitVector) :
  dom_wf d -> bzla_bvdomain_is_valid d = true ->
  bv_wf b -> bv_width b = bv_width (lo d) ->
  (bzla_bvdomain_check_fixed_bits d b = true <-> fixed_bits_agree d b)
  /\ bzla_bvdomain_is_consistent d b = bzla_bvdomain_check_fixed_bits d b.
Proof.
  intros Hd Hv Hb Hw.
  pose proof (check_fixed_bits_agree d b Hd Hv Hb Hw) as H1.
  pose proof (is_consistent_agree d b) as H2.
  split; [exact H1|].
  apply Bool.eq_iff_eq_true. rewrite H1, H2. reflexivity.
Qed.

Lemma check_fixed_bits_iff_is_consistent_witness :
  (bzla_bvdomain_check_fixed_bits (bzla_bvdomain_new_from_char "1x0x") (mk_bv 4 12) = true
   <-> fixed_bits_agree (bzla_bvdomain_new_from_char "1x0x") (mk_bv 4 12))
  /\ bzla_bvdomain_is_consistent (bzla_bvdomain_new_from_char "1x0x") (mk_bv 4 12)
     = bzla_bvdomain_check_fixed_bits (bzla_bvdomain_new_from_char "1x0x") (mk_bv 4 12).
Proof.
  apply (check_fixed_bits_iff_is_consistent
           (bzla_bvdomain_new_from_char "1x0x") (mk_bv 4 12)).
  - vm_compute; intuition congruence.
  - reflexivity.
  - vm_compute; intuition congruence.
  - reflexivity.
Defined.

(** ** Constructors keep domains valid *)

Lemma length_replace_x (s : string) (c : ascii) :
  String.length (replace_x s c) = String.length s.
Proof. induction s; simpl; congruence. Qed.

Lemma bin_value_bounds (s : string) (acc : Z) :
  0 <= acc ->
  acc * 2 ^ Z.of_nat (String.length s) <= bin_value acc s
  < (acc + 1) * 2 ^ Z.of_nat (String.length s).
Proof.
  revert acc. induction s as [|c r IH]; intros acc Hacc.
  - simpl. lia.
  - cbn [bin_value String.length]. rewrite Nat2Z.inj_succ, Z.pow_succ_r by lia.
    pose proof (pow2_pos (Z.of_nat (String.length r)) ltac:(lia)).
    destruct (Ascii.eqb c "1").
    + specialize (IH (2 * acc + 1) ltac:(lia)). nia.
    + specialize (IH (2 * acc + 0) ltac:(lia)). nia.
Qed.

Lemma char_to_bv_wf (s : string) (c : ascii) : bv_wf (char_to_bv s c).
Proof.
  unfold bv_wf, char_to_bv, bzla_bv_char_to_bv, zw. cbn [bv_width bv_val].
  pose proof (bin_value_bounds (replace_x s c) 0 ltac:(lia)). lia.
Qed.

Lemma bin_value_bits_le (s : string) (a1 a2 : Z) :
  ternary s = true ->
  (forall i, 0 <= i -> Z.testbit a1 i = true -> Z.testbit a2 i = true) ->
  forall i, 0 <= i ->
    Z.testbit (bin_value a1 (replace_x s "0")) i = true ->
    Z.testbit (bin_value a2 (replace_x s "1")) i = true.
Proof.
  revert a1 a2. induction s as [|c r IH]; intros a1 a2 Ht Ha;
    cbn [bin_value replace_x].
  - exact Ha.
  - simpl in Ht. apply andb_true_iff in Ht. destruct Ht as [Hc Ht].
    apply IH; [assumption|]. clear IH.
    set (b1 := Ascii.eqb (if Ascii.eqb c "x" then "0"%char else c) "1").
    set (b2 := Ascii.eqb (if Ascii.eqb c "x" then "1"%char else c) "1").
    assert (Hb : b1 = true -> b2 = true).
    { subst b1 b2. destruct (Ascii.eqb c "x"); simpl; auto. }
    change (if b1 then 1 else 0) with (Z.b2z b1).
    change (if b2 then 1 else 0) with (Z.b2z b2).
    intros i Hi.
    destruct (Z.eq_dec i 0) as [->|Hne].
    + rewrite !Z.testbit_0_r. exact Hb.
    + replace i with (Z.succ (i - 1)) by lia.
      rewrite !Z.testbit_succ_r by lia. apply Ha. lia.
Qed.

Lemma new_from_char_valid (s : string) :
  ternary s = true ->
  bzla_bvdomain_is_valid (bzla_bvdomain_new_from_char s) = true.
Proof.
  intros Ht. apply bits_valid_is_valid.
  - unfold dom_wf, bzla_bvdomain_new_from_char, bzla_bvdomain_new, bzla_bv_copy.
    cbn [lo hi]. split; [apply char_to_bv_wf|]. split; [apply char_to_bv_wf|].
    unfold char_to_hi, char_to_lo, char_to_bv, bzla_bv_char_to_bv.
    cbn [bv_width]. rewrite !length_replace_x. reflexivity.
  - unfold bits_valid, bzla_bvdomain_new_from_char, bzla_bvdomain_new, bzla_bv_copy.
    cbn [lo hi]. unfold char_to_hi, char_to_lo, char_to_bv, bzla_bv_char_to_bv.
    cbn [bv_val]. apply bin_value_bits_le; auto.
Qed.

Lemma set_bit_wf (b : BzlaBitVector) (pos : nat) (v : bool) :
  bv_wf b -> (pos < bv_width b)%nat -> bv_wf (bzla_bv_set_bit b pos v).
Proof.
  intros Hb Hp. unfold bv_wf, bzla_bv_set_bit, zw in *. cbn [bv_width bv_val].
  destruct v.
  - rewrite Z.setbit_spec'. apply lor_wf; [lia | assumption |].
    split; [apply Z.pow_nonneg; lia|]. apply Z.pow_lt_mono_r; lia.
  - rewrite Z.clearbit_spec'. split; [apply Z.ldiff_nonneg; lia|].
    apply bits_below_bound; [lia | apply Z.ldiff_nonneg; lia |].
    intros i Hi. rewrite Z.ldiff_spec.
    rewrite (testbit_above (bv_val b) (Z.of_nat (bv_width b))) by lia.
    reflexivity.
Qed.

Lemma fix_bit_valid (d : BzlaBvDomain) (pos : nat) (v : bool) :
  dom_wf d -> bzla_bvdomain_is_valid d = true ->
  (pos < bzla_bvdomain_get_width d)%nat ->
  dom_wf (bzla_bvdomain_fix_bit d pos v)
  /\ bzla_bvdomain_is_valid (bzla_bvdomain_fix_bit d pos v) = true.
Proof.
  intros Hd Hv Hp. pose proof (is_valid_bits d Hd Hv) as Hbits.
  destruct Hd as (Hlo & Hhi & Hw).
  unfold bzla_bvdomain_get_width, bzla_bv_get_width in Hp.
  assert (Hwf : dom_wf (bzla_bvdomain_fix_bit d pos v)).
  { unfold dom_wf, bzla_bvdomain_fix_bit. cbn [lo hi].
    split; [apply set_bit_wf; assumption|].
    split; [apply set_bit_wf; [assumption | lia]|].
    unfold bzla_bv_set_bit. cbn [bv_width]. assumption. }
  split; [exact Hwf|].
  apply bits_valid_is_valid; [exact Hwf|].
  unfold bits_valid, bzla_bvdomain_fix_bit, bzla_bv_set_bit. cbn [lo hi bv_val].
  intros i Hi. specialize (Hbits i Hi). destruct v.
  - rewrite !Z.setbit_eqb by lia.
    destruct (Z.of_nat pos =? i); simpl; auto.
  - rewrite !Z.clearbit_eqb.
    destruct (Z.of_nat pos =? i); simpl; rewrite ?andb_false_r, ?andb_true_r; auto.
Qed.

Lemma new_init_valid (w : nat) :
  bzla_bvdomain_is_valid (bzla_bvdomain_new_init w) = true.
Proof.
  apply bits_valid_is_valid.
  - unfold dom_wf, bzla_bvdomain_new_init, bzla_bv_zero, bzla_bv_ones, bv_wf, zw.
    cbn [lo hi bv_width bv_val].
    pose proof (ones_wf (Z.of_nat w) ltac:(lia)).
    pose proof (pow2_pos (Z.of_nat w) ltac:(lia)). lia.
  - intros i Hi. unfold bzla_bvdomain_new_init, bzla_bv_zero. cbn [lo bv_val].
    rewrite Z.bits_0. discriminate.
Qed.

Lemma new_fixed_valid (bv : BzlaBitVector) :
  bv_wf bv -> bzla_bvdomain_is_valid (bzla_bvdomain_new_fixed bv) = true.
Proof.
  intros Hb. apply bits_valid_is_valid.
  - unfold dom_wf, bzla_bvdomain_new_fixed, bzla_bv_copy. cbn [lo hi]. auto.
  - intros i Hi. unfold bzla_bvdomain_new_fixed, bzla_bv_copy. cbn [lo hi]. auto.
Qed.

Lemma uint64_to_bv_wf (v : Z) (w : nat) : bv_wf (bzla_bv_uint64_to_bv v w).
Proof.
  unfold bv_wf, bzla_bv_uint64_to_bv, zw. cbn [bv_width bv_val].
  apply Z.mod_pos_bound. apply pow2_pos. lia.
Qed.

(** C9: the constructors [new_init], [new_from_char] (on strings over
    [{0, 1, x}]), [new_fixed] and [new_fixed_uint64] produce valid domains
    ([~lo | hi = ones]), and [fix_bit] at a position inside the width keeps
    a valid domain valid. *)
Theorem constructors_valid :
  (forall w : nat, bzla_bvdomain_is_valid (bzla_bvdomain_new_init w) = true)
  /\ (forall s : string, ternary s = true ->
        bzla_bvdomain_is_valid (bzla_bvdomain_new_from_char s) = true)
  /\ (forall bv : BzlaBitVector, bv_wf bv ->
        bzla_bvdomain_is_valid (bzla_bvdomain_new_fixed bv) = true)
  /\ (forall (val : Z) (w : nat),
        bzla_bvdomain_is_valid (bzla_bvdomain_new_fixed_uint64 val w) = true)
  /\ (forall (d : BzlaBvDomain) (pos : nat) (value : bool),
        dom_wf d -> bzla_bvdomain_is_valid d = true ->
        (pos < bzla_bvdomain_get_width d)%nat ->
        bzla_bvdomain_is_valid (bzla_bvdomain_fix_bit d pos value) = true).
Proof.
  split; [exact new_init_valid|].
  split; [exact new_from_char_valid|].
  split; [exact new_fixed_valid|].
  split.
  - intros val w. unfold bzla_bvdomain_new_fixed_uint64.
    apply (new_fixed_valid (bzla_bv_uint64_to_bv val w)). apply uint64_to_bv_wf.
  - intros d pos value Hd Hv Hp. apply fix_bit_valid; assumption.
Qed.

Lemma constructors_valid_witness :
  bzla_bvdomain_is_valid (bzla_bvdomain_new_from_char "1x0x") = true
  /\ bzla_bvdomain_is_valid (bzla_bvdomain_new_fixed (mk_bv 4 9)) = true
  /\ bzla_bvdomain_is_valid
       (bzla_bvdomain_fix_bit (bzla_bvdomain_new_from_char "1x0x") 2 false) = true.
Proof.
  destruct constructors_valid as (_ & Hchar & Hfixed & _ & Hfix).
  split; [apply Hchar; reflexivity|].
  split; [apply Hfixed; vm_compute; intuition congruence|].
  apply Hfix.
  - vm_compute; intuition congruence.
  - reflexivity.
  - vm_compute; lia.
Defined.


(** ** The existential shift checks *)

Lemma bv_eq_intro (a b : BzlaBitVector) :
  bv_width a = bv_width b -> bv_val a = bv_val b -> a = b.
Proof. destruct a, b; simpl; intros -> ->; reflexivity. Qed.

Lemma nat_lt_pow2 (w : nat) : Z.of_nat w < 2 ^ Z.of_nat w.
Proof. apply Z.pow_gt_lin_r; lia. Qed.

Lemma uint64_to_bv_small (i w : nat) :
  (i <= w)%nat -> bv_val (bzla_bv_uint64_to_bv (Z.of_nat i) w) = Z.of_nat i.
Proof.
  intros Hi. unfold bzla_bv_uint64_to_bv. cbn [bv_val].
  apply Z.mod_small. pose proof (nat_lt_pow2 w). lia.
Qed.

Section ShiftLoop.

Variable shift : BzlaBitVector -> BzlaBitVector -> BzlaBitVector.
Variables t s : BzlaBitVector.
Variable bw_s : nat.

Lemma inv_shift_loop_true (n i : nat) :
  inv_shift_loop shift t s bw_s n i true = (i, true).
Proof. destruct n; reflexivity. Qed.

(** The loop returns the first hit, if there is one among the next [n]
    values of [i]. *)
Lemma inv_shift_loop_spec (n i : nat) :
  let r := inv_shift_loop shift t s bw_s n i false in
  (snd r = true ->
     (i < fst r <= i + n)%nat /\ shift_hit shift t s bw_s (fst r - 1) = true
     /\ forall k, (i <= k < fst r - 1)%nat -> shift_hit shift t s bw_s k = false)
  /\ (snd r = false ->
        fst r = (i + n)%nat
        /\ forall k, (i <= k < i + n)%nat -> shift_hit shift t s bw_s k = false).
Proof.
  revert i. induction n as [|n IH]; intros i; cbn zeta.
  - simpl. split; [discriminate|]. intros _. split; [lia|]. intros k Hk; lia.
  - cbn [inv_shift_loop]. fold (shift_hit shift t s bw_s i).
    destruct (shift_hit shift t s bw_s i) eqn:Hh.
    + rewrite inv_shift_loop_true. cbn [fst snd]. split; [|discriminate].
      intros _. replace (S i - 1)%nat with i by lia.
      split; [lia|]. split; [assumption|]. intros k Hk; lia.
    + specialize (IH (S i)). cbn zeta in IH. destruct IH as [IH1 IH2].
      split.
      * intros Hr. destruct (IH1 Hr) as (Hb & Hhit & Hfirst).
        split; [lia|]. split; [assumption|].
        intros k Hk. destruct (Nat.eq_dec k i) as [->|]; [assumption|].
        apply Hfirst. lia.
      * intros Hr. destruct (IH2 Hr) as (Hb & Hnone).
        split; [lia|].
        intros k Hk. destruct (Nat.eq_dec k i) as [->|]; [assumption|].
        apply Hnone. lia.
Qed.

Lemma inv_shift_loop_iff (n : nat) :
  snd (inv_shift_loop shift t s bw_s n 0 false) = true
  <-> exists k, (k < n)%nat /\ shift_hit shift t s bw_s k = true.
Proof.
  pose proof (inv_shift_loop_spec n 0) as [H1 H2]. cbn zeta in *.
  destruct (snd (inv_shift_loop shift t s bw_s n 0 false)) eqn:E.
  - split; [intros _|reflexivity].
    destruct (H1 eq_refl) as (Hb & Hhit & _).
    eexists; split; [|exact Hhit]. lia.
  - split; [discriminate|]. intros (k & Hk & Hhit).
    destruct (H2 eq_refl) as (_ & Hnone).
    rewrite Hnone in Hhit by lia. discriminate.
Qed.

End ShiftLoop.

Lemma sll_shift_out (s : BzlaBitVector) :
  bzla_bv_sll s (bzla_bv_uint64_to_bv (zw s) (bv_width s))
  = bzla_bv_zero (bv_width s).
Proof.
  unfold bzla_bv_sll, bzla_bv_zero. f_equal.
  unfold zw at 2. rewrite uint64_to_bv_small by lia.
  unfold zw. rewrite (proj2 (Z.leb_le _ _)) by lia. reflexivity.
Qed.




(** ** The checks with constant bits strengthen the checks without *)

Lemma inv_shift_const_loop_iff
      (shift : BzlaBitVector -> BzlaBitVector -> BzlaBitVector)
      (x : BzlaBvDomain) (t s : BzlaBitVector) (bw_s : nat) (n i : nat) (res : bool) :
  snd (inv_shift_const_loop shift x t s bw_s n i res) = true
  <-> res = true
      \/ exists k, (i <= k < i + n)%nat /\ shift_candidate x bw_s k = true
                   /\ shift_hit shift t s bw_s k = true.
Proof.
  revert i res. induction n as [|n IH]; intros i res.
  - simpl. split; [auto|]. intros [H|(k & Hk & _)]; [assumption | lia].
  - cbn [inv_shift_const_loop]. destruct res.
    + cbn [snd]. split; auto.
    + rewrite IH. clear IH.
      fold (shift_hit shift t s bw_s i).
      assert (Hc : negb (negb (bzla_bv_compare
                 (bzla_bv_or (bzla_bv_uint64_to_bv (Z.of_nat i) bw_s) (lo x))
                 (bzla_bv_uint64_to_bv (Z.of_nat i) bw_s) =? 0)
               || negb (bzla_bv_compare
                 (bzla_bv_and (bzla_bv_uint64_to_bv (Z.of_nat i) bw_s) (hi x))
                 (bzla_bv_uint64_to_bv (Z.of_nat i) bw_s) =? 0))
               = shift_candidate x bw_s i).
      { unfold shift_candidate. cbn zeta.
        destruct (_ =? 0), (_ =? 0); reflexivity. }
      rewrite Hc. clear Hc.
      destruct (shift_candidate x bw_s i) eqn:Ec.
      * destruct (shift_hit shift t s bw_s i) eqn:Eh.
        -- split; [intros _|auto]. right. exists i. split; [lia|]. auto.
        -- split.
           ++ intros [H|(k & Hk & Hck & Hhk)]; [discriminate|].
              right. exists k. split; [lia|]. auto.
           ++ intros [H|(k & Hk & Hck & Hhk)]; [discriminate|].
              right. exists k. split; [|auto].
              destruct (Nat.eq_dec k i) as [->|]; [congruence | lia].
      * split.
        -- intros [H|(k & Hk & Hck & Hhk)]; [discriminate|].
           right. exists k. split; [lia|]. auto.
        -- intros [H|(k & Hk & Hck & Hhk)]; [discriminate|].
           right. exists k. split; [|auto].
           destruct (Nat.eq_dec k i) as [->|]; [congruence | lia].
Qed.

Lemma srl_shift_out (s : BzlaBitVector) :
  bzla_bv_srl s (bzla_bv_uint64_to_bv (zw s) (bv_width s))
  = bzla_bv_zero (bv_width s).
Proof.
  unfold bzla_bv_srl, bzla_bv_zero. f_equal.
  unfold zw at 2. rewrite uint64_to_bv_small by lia.
  unfold zw. rewrite (proj2 (Z.leb_le _ _)) by lia. reflexivity.
Qed.

Lemma shift_const_pos1_implies
      (shift : BzlaBitVector -> BzlaBitVector -> BzlaBitVector)
      (x : BzlaBvDomain) (t s : BzlaBitVector) :
  shift s (bzla_bv_uint64_to_bv (zw s) (bv_width s)) = bzla_bv_zero (bv_width s) ->
  snd (inv_shift_const_loop shift x t s (bv_width s) (bv_width s + 1) 0
         ((bzla_bv_compare (hi x)
             (bzla_bv_uint64_to_bv (Z.of_nat (bv_width s)) (bv_width s)) >=? 0)
          && bzla_bv_is_zero t)) = true ->
  snd (inv_shift_loop shift t s (bv_width s) (bv_width s + 1) 0 false) = true.
Proof.
  intros Hout H. apply inv_shift_const_loop_iff in H. apply inv_shift_loop_iff.
  destruct H as [H|(k & Hk & _ & Hh)].
  - apply andb_true_iff in H. destruct H as [_ Hz].
    exists (bv_width s). split; [lia|].
    unfold shift_hit. fold (zw s). rewrite Hout.
    unfold bzla_bv_is_zero in Hz. apply Z.eqb_eq in Hz.
    apply compare_eq_iff. simpl. congruence.
  - exists k. split; [lia | assumption].
Qed.

(** C5, as stated, fails for [udiv]: the check with constant bits is the
    constant [true], while the check without rejects [x / 2 = 15] at width
    four. *)
Lemma udiv_const_not_stronger :
  inv_op_const 0 OpUdiv (bzla_bvdomain_new_init 4) (mk_bv 4 15) (mk_bv 4 2) 0
  = Some true
  /\ inv_op OpUdiv (bzla_bvdomain_new_init 4) (mk_bv 4 15) (mk_bv 4 2) 0 = false
  /\ inv_args_ok OpUdiv (bzla_bvdomain_new_init 4) (mk_bv 4 15) (mk_bv 4 2) 0.
Proof.
  split; [reflexivity|]. split; [reflexivity|].
  vm_compute. intuition (try congruence; try lia).
Qed.

(** C5 (amended): for every operator other than [udiv] and every input with
    matching widths, if the check with constant bits returns [true] then the
    check without constant bits returns [true]. ([udiv_const] is a
    placeholder that returns [true] on every input.) *)
Theorem inv_const_implies_inv (fuel : nat) (op : BzlaInvOp) (x : BzlaBvDomain)
        (t s : BzlaBitVector) (pos_x : nat) :
  op <> OpUdiv ->
  inv_args_ok op x t s pos_x ->
  inv_op_const fuel op x t s pos_x = Some true ->
  inv_op op x t s pos_x = true.
Proof.
  intros Hop (Hx & Ht & Hs & (Hwx & Hw) & Hpos) H.
  destruct op; cbn [inv_op inv_op_const] in *; try reflexivity.
  - (* and *)
    injection H as H. unfold bzla_is_inv_and_const in H.
    destruct (bzla_is_inv_and x t s pos_x); [reflexivity | discriminate].
  - (* concat *)
    injection H as H. unfold bzla_is_inv_concat_const, bzla_is_inv_concat in *.
    destruct Hw as (Hws & Hwt).
    unfold bzla_bvdomain_get_width, bzla_bv_get_width in *.
    destruct (Nat.eqb pos_x 0).
    + apply andb_true_iff in H. apply H.
    + apply andb_true_iff in H. destruct H as [_ H].
      replace (bv_width t - bv_width s)%nat with (bv_width (lo x)) by lia.
      exact H.
  - (* mul *)
    injection H as H. unfold bzla_is_inv_mul_const in H.
    destruct (bzla_is_inv_mul x t s pos_x); [reflexivity|].
    simpl in H. discriminate.
  - (* sll *)
    injection H as H. unfold bzla_is_inv_sll_const, bzla_is_inv_sll in *.
    destruct (Nat.eqb pos_x 0).
    + destruct (bzla_bv_compare (bzla_bv_sll (bzla_bv_srl t s) s) t =? 0);
        [reflexivity | discriminate].
    + unfold bzla_bv_get_width in *.
      apply (shift_const_pos1_implies bzla_bv_sll x t s); [|exact H].
      apply sll_shift_out.
  - (* srl *)
    injection H as H. unfold bzla_is_inv_srl_const, bzla_is_inv_srl in *.
    destruct (Nat.eqb pos_x 0).
    + destruct (bzla_bv_compare (bzla_bv_srl (bzla_bv_sll t s) s) t =? 0);
        [reflexivity | discriminate].
    + unfold bzla_bv_get_width in *.
      apply (shift_const_pos1_implies bzla_bv_srl x t s); [|exact H].
      apply srl_shift_out.
  - (* udiv *) congruence.
  - (* ult *)
    injection H as H. unfold bzla_is_inv_ult_const, bzla_is_inv_ult in *.
    destruct Hw as (Hws & Hwt).
    assert (Hz : bzla_bv_is_true t = false -> bzla_bv_is_zero t = true).
    { unfold bzla_bv_is_true, bzla_bv_is_zero, bv_wf, zw in *.
      rewrite Hwt in *. simpl in *. intros E.
      apply Z.eqb_neq in E. apply Z.eqb_eq. change (2 ^ 1) with 2 in Ht. lia. }
    destruct (Nat.eqb pos_x 0), (bzla_bv_is_true t).
    + apply andb_true_iff in H. destruct H as [H _]. rewrite H. apply orb_true_r.
    + rewrite Hz by reflexivity. reflexivity.
    + apply andb_true_iff in H. destruct H as [H _]. rewrite H. apply orb_true_r.
    + rewrite Hz by reflexivity. reflexivity.
  - (* urem *)
    unfold bzla_is_inv_urem_const in H.
    destruct (bzla_is_inv_urem x t s pos_x); [reflexivity | congruence].
Qed.

Lemma inv_const_implies_inv_witness :
  inv_op_const 0 OpMul (bzla_bvdomain_new_from_char "x0xx") (mk_bv 4 4) (mk_bv 4 2) 0
  = Some true
  /\ inv_op OpMul (bzla_bvdomain_new_from_char "x0xx") (mk_bv 4 4) (mk_bv 4 2) 0
     = true.
Proof.
  split; [reflexivity|].
  apply (inv_const_implies_inv 0 OpMul (bzla_bvdomain_new_from_char "x0xx")
           (mk_bv 4 4) (mk_bv 4 2) 0).
  - discriminate.
  - vm_compute. intuition (try congruence; try lia).
  - reflexivity.
Defined.


(** ** Printing over-long domains *)

Lemma to_str_char_done (checked : bool) (l h : bool) :
  exists c, to_str_char checked l h = Done c.
Proof.
  unfold to_str_char, assert. destruct checked, l, h; simpl; eauto.
Qed.

Lemma buf_put_in (st : PrintBuffer) (c : ascii) :
  0 <= s_buf_pos st < PRINT_BUFFER_SIZE ->
  exists st', buf_put st c = Done st' /\ s_buf_pos st' = s_buf_pos st + 1.
Proof.
  intros H. unfold buf_put, PRINT_BUFFER_SIZE in *.
  rewrite (proj2 (Z.leb_le _ _)), (proj2 (Z.ltb_lt _ _)) by lia. simpl.
  eexists; split; [reflexivity|]. cbn [s_buf_pos]. unfold size_t_wrap.
  apply Z.mod_small. lia.
Qed.

Lemma buf_put_out (st : PrintBuffer) (c : ascii) :
  PRINT_BUFFER_SIZE <= s_buf_pos st -> buf_put st c = OutOfBounds.
Proof.
  intros H. unfold buf_put, PRINT_BUFFER_SIZE in *.
  rewrite (proj2 (Z.ltb_ge _ _)) by lia. rewrite andb_false_r. reflexivity.
Qed.

(** With assertions on, the loop runs through iff the position stays below
    [PRINT_BUFFER_SIZE - 1]. *)
Lemma to_str_loop_checked (d : BzlaBvDomain) (width : Z) (n : nat) (i : Z)
      (st : PrintBuffer) :
  0 <= s_buf_pos st <= PRINT_BUFFER_SIZE - 1 ->
  (s_buf_pos st + Z.of_nat n < PRINT_BUFFER_SIZE - 1 ->
   exists st', to_str_loop true d width n i st = Done st'
               /\ s_buf_pos st' = s_buf_pos st + Z.of_nat n)
  /\ (PRINT_BUFFER_SIZE - 1 <= s_buf_pos st + Z.of_nat n -> (0 < n)%nat ->
      to_str_loop true d width n i st = AssertionFailed).
Proof.
  revert i st. induction n as [|n IH]; intros i st Hpos.
  - split; [|lia]. intros _. exists st. split; [reflexivity | simpl; lia].
  - cbn [to_str_loop].
    destruct (to_str_char_done true
                (bzla_bv_get_bit (lo d) (Z.to_nat (width - i)))
                (bzla_bv_get_bit (hi d) (Z.to_nat (width - i)))) as (c & ->).
    cbn [bind].
    destruct (buf_put_in st c) as (st1 & -> & Hp1);
      [unfold PRINT_BUFFER_SIZE in *; lia|].
    cbn [bind]. unfold assert. cbn [andb].
    unfold PRINT_BUFFER_SIZE in *.
    destruct (Z.ltb_spec (s_buf_pos st1) (1024 - 1)) as [Hlt|Hge]; cbn [negb bind].
    + specialize (IH (i + 1) st1 ltac:(lia)). destruct IH as [IH1 IH2]. split.
      * intros Hn. destruct IH1 as (st' & E & Hp'); [lia|].
        exists st'. split; [exact E | lia].
      * intros Hn _. destruct n as [|n'].
        -- simpl in Hn. lia.
        -- apply IH2; lia.
    + split; [intros Hn; lia | reflexivity].
Qed.

(** Without assertions, the loop runs through iff every store stays inside
    the buffer. *)
Lemma to_str_loop_unchecked (d : BzlaBvDomain) (width : Z) (n : nat) (i : Z)
      (st : PrintBuffer) :
  0 <= s_buf_pos st <= PRINT_BUFFER_SIZE ->
  (s_buf_pos st + Z.of_nat n <= PRINT_BUFFER_SIZE ->
   exists st', to_str_loop false d width n i st = Done st'
               /\ s_buf_pos st' = s_buf_pos st + Z.of_nat n)
  /\ (PRINT_BUFFER_SIZE < s_buf_pos st + Z.of_nat n ->
      to_str_loop false d width n i st = OutOfBounds).
Proof.
  revert i st. induction n as [|n IH]; intros i st Hpos.
  - split; [|unfold PRINT_BUFFER_SIZE in *; simpl; lia].
    intros _. exists st. split; [reflexivity | simpl; lia].
  - cbn [to_str_loop].
    destruct (to_str_char_done false
                (bzla_bv_get_bit (lo d) (Z.to_nat (width - i)))
                (bzla_bv_get_bit (hi d) (Z.to_nat (width - i)))) as (c & ->).
    cbn [bind].
    destruct (Z.lt_ge_cases (s_buf_pos st) PRINT_BUFFER_SIZE) as [Hlt|Hge].
    + destruct (buf_put_in st c) as (st1 & -> & Hp1); [lia|].
      cbn [bind]. unfold assert. cbn [andb bind].
      specialize (IH (i + 1) st1 ltac:(lia)). destruct IH as [IH1 IH2]. split.
      * intros Hn. destruct IH1 as (st' & E & Hp'); [lia|].
        exists st'. split; [exact E | lia].
      * intros Hn. apply IH2. lia.
    + rewrite buf_put_out by lia. cbn [bind]. split; [lia | reflexivity].
Qed.

(** C4: the code contradicts the claim. For every domain whose width does
    not fit the buffer ([w + 1 >= 1024]) the printer, which truncates to
    [w - 3] characters whatever the buffer size, trips one of its own
    buffer-bound assertions; and with the assertions compiled out it stores
    outside the 1024 bytes as soon as [w >= 1024]. *)
Theorem to_str_too_long_overruns (d : BzlaBvDomain) (st : PrintBuffer) :
  Z.of_nat (bzla_bv_get_width (lo d)) + 1 >= PRINT_BUFFER_SIZE ->
  Z.of_nat (bzla_bv_get_width (lo d)) < 2 ^ 32 ->
  0 <= s_buf_pos st <= PRINT_BUFFER_SIZE ->
  bzla_bvdomain_to_str true d st = AssertionFailed
  /\ (PRINT_BUFFER_SIZE <= Z.of_nat (bzla_bv_get_width (lo d)) ->
      bzla_bvdomain_to_str false d st = OutOfBounds).
Proof.
  intros Hw H32 Hpos. unfold bzla_bvdomain_to_str.
  set (width := Z.of_nat (bzla_bv_get_width (lo d))) in *.
  unfold PRINT_BUFFER_SIZE in *.
  assert (Hlong : (width + 1 >=? 1024) = true) by (apply Z.geb_le; lia).
  rewrite Hlong.
  assert (Hreset : (width + 1 >=? size_t_wrap (1024 - s_buf_pos st)) = true).
  { apply Z.geb_le. unfold size_t_wrap. rewrite Z.mod_small by lia. lia. }
  rewrite Hreset.
  assert (Hpw : size_t_wrap (width - 3) = width - 3).
  { unfold size_t_wrap. apply Z.mod_small. lia. }
  rewrite Hpw.
  split.
  - unfold assert at 1. cbn [andb].
    rewrite (proj2 (Z.leb_le _ _)) by lia. cbn [negb bind].
    destruct (to_str_loop_checked d width (Z.to_nat (width - 3)) 1
                (mk_print_buffer (s_buf st) 0)) as [H1 H2];
      [unfold PRINT_BUFFER_SIZE; simpl; lia|].
    unfold PRINT_BUFFER_SIZE in *. cbn [s_buf_pos] in *.
    destruct (Z.lt_ge_cases (width - 3) 1023) as [Hlt|Hge].
    + destruct H1 as (st' & -> & Hp'); [lia|]. cbn [bind].
      unfold assert. cbn [andb].
      rewrite (proj2 (Z.ltb_ge _ _)) by lia. reflexivity.
    + rewrite H2 by lia. reflexivity.
  - intros Hbig. unfold assert at 1. cbn [andb bind].
    destruct (to_str_loop_unchecked d width (Z.to_nat (width - 3)) 1
                (mk_print_buffer (s_buf st) 0)) as [H1 H2];
      [unfold PRINT_BUFFER_SIZE; simpl; lia|].
    unfold PRINT_BUFFER_SIZE in *. cbn [s_buf_pos] in *.
    destruct (Z.le_gt_cases (width - 3) 1024) as [Hle|Hgt].
    + destruct H1 as (st' & -> & Hp'); [lia|]. cbn [bind].
      unfold assert. cbn [andb bind].
      destruct (Z.lt_ge_cases (s_buf_pos st') 1024) as [Ha|Ha];
        [|rewrite buf_put_out by (unfold PRINT_BUFFER_SIZE; lia); reflexivity].
      destruct (buf_put_in st' "."%char) as (s1 & -> & Hs1);
        [unfold PRINT_BUFFER_SIZE; lia|]. cbn [bind].
      destruct (Z.lt_ge_cases (s_buf_pos s1) 1024) as [Hb|Hb];
        [|rewrite buf_put_out by (unfold PRINT_BUFFER_SIZE; lia); reflexivity].
      destruct (buf_put_in s1 "."%char) as (s2 & -> & Hs2);
        [unfold PRINT_BUFFER_SIZE; lia|]. cbn [bind].
      destruct (Z.lt_ge_cases (s_buf_pos s2) 1024) as [Hc|Hc];
        [|rewrite buf_put_out by (unfold PRINT_BUFFER_SIZE; lia); reflexivity].
      destruct (buf_put_in s2 "."%char) as (s3 & -> & Hs3);
        [unfold PRINT_BUFFER_SIZE; lia|]. cbn [bind].
      rewrite buf_put_out by (unfold PRINT_BUFFER_SIZE; lia). reflexivity.
    + rewrite H2 by lia. reflexivity.
Qed.

Lemma to_str_too_long_overruns_witness :
  bzla_bvdomain_to_str true (bzla_bvdomain_new_init 1024) initial_print_buffer
  = AssertionFailed
  /\ bzla_bvdomain_to_str false (bzla_bvdomain_new_init 1024) initial_print_buffer
     = OutOfBounds.
Proof.
  destruct (to_str_too_long_overruns (bzla_bvdomain_new_init 1024)
              initial_print_buffer) as [H1 H2].
  - vm_compute. congruence.
  - vm_compute. reflexivity.
  - vm_compute. intuition congruence.
  - split; [exact H1|]. apply H2. vm_compute. congruence.
Defined.

(** At width 1023, the smallest over-long width, the run with assertions
    fails although every store would have stayed inside the buffer: without
    the assertions the call returns the 1020 most significant positions
    followed by ["..."]. *)
Lemma to_str_width_1023 :
  bzla_bvdomain_to_str true (bzla_bvdomain_new_init 1023) initial_print_buffer
  = AssertionFailed
  /\ exists r,
       bzla_bvdomain_to_str false (bzla_bvdomain_new_init 1023)
                            initial_print_buffer = Done r
       /\ returned_string r
          = (render_bits (bzla_bvdomain_new_init 1023) 1023 1020 1
               ++ ["."; "."; "."])%char.
Proof.
  split; [vm_compute; reflexivity|].
  eexists. split; vm_compute; reflexivity.
Qed.


(** ** The generator: counter bits and emitted values *)

Lemma shiftr_peel (x p : Z) :
  0 <= p ->
  Z.shiftr x p = 2 * Z.shiftr x (p + 1) + Z.b2z (Z.testbit x p).
Proof.
  intros Hp.
  rewrite <- (Z.shiftr_shiftr x p 1) by lia.
  replace (Z.testbit x p) with (Z.testbit (Z.shiftr x p) 0)
    by (rewrite Z.shiftr_spec by lia; f_equal; lia).
  generalize (Z.shiftr x p). intros y.
  rewrite Z.shiftr_div_pow2 by lia. change (2 ^ 1) with 2.
  rewrite Z.bit0_mod. apply Z.div_mod. lia.
Qed.

Lemma shiftr_lt_lt (x y p : Z) :
  0 <= p -> Z.shiftr x p < Z.shiftr y p -> x < y.
Proof.
  intros Hp H. rewrite !Z.shiftr_div_pow2 in H by lia.
  pose proof (pow2_pos p Hp).
  destruct (Z.lt_ge_cases x y) as [|Hge]; [assumption|].
  apply (Z.div_le_mono _ _ (2 ^ p)) in Hge; lia.
Qed.

Lemma shiftr_ge_iff (b r k : Z) :
  0 <= r -> (k <= Z.shiftr b r <-> k * 2 ^ r <= b).
Proof.
  intros Hr. rewrite Z.shiftr_div_pow2 by lia.
  pose proof (pow2_pos r Hr) as Hpos. split; intros H.
  - pose proof (Z.mul_div_le b (2 ^ r) ltac:(lia)) as Hm. nia.
  - apply Z.div_le_lower_bound; lia.
Qed.

Lemma shiftr_le_iff (b r k : Z) :
  0 <= r -> (Z.shiftr b r <= k <-> b <= k * 2 ^ r + (2 ^ r - 1)).
Proof.
  intros Hr. pose proof (shiftr_ge_iff b r (k + 1) Hr). lia.
Qed.

Lemma setbit_add (a k : Z) :
  0 <= k -> Z.testbit a k = false -> Z.setbit a k = a + 2 ^ k.
Proof.
  intros Hk H. rewrite Z.setbit_spec'. apply Z.or_to_plus.
  apply Z.bits_inj'. intros i Hi. rewrite Z.land_spec, Z.bits_0, Z.pow2_bits_eqb by lia.
  destruct (Z.eqb_spec k i) as [->|]; [rewrite H|]; simpl; auto using andb_false_r.
Qed.

Lemma clearbit_sub (a k : Z) :
  0 <= k -> Z.testbit a k = true -> Z.clearbit a k = a - 2 ^ k.
Proof.
  intros Hk H.
  assert (E : a = Z.clearbit a k + 2 ^ k).
  { rewrite <- setbit_add by (try lia; apply Z.clearbit_eq).
    apply Z.bits_inj'. intros i Hi.
    rewrite Z.setbit_eqb, Z.clearbit_eqb by lia.
    destruct (Z.eqb_spec k i) as [->|]; simpl; [assumption|].
    rewrite andb_true_r. reflexivity. }
  lia.
Qed.

Lemma setbit_same (a k : Z) :
  0 <= k -> Z.testbit a k = true -> Z.setbit a k = a.
Proof.
  intros Hk H. apply Z.bits_inj'. intros i Hi. rewrite Z.setbit_eqb by lia.
  destruct (Z.eqb_spec k i) as [->|]; simpl; auto.
Qed.

Lemma clearbit_same (a k : Z) :
  Z.testbit a k = false -> Z.clearbit a k = a.
Proof.
  intros H. apply Z.bits_inj'. intros i Hi. rewrite Z.clearbit_eqb.
  destruct (Z.eqb_spec k i) as [->|]; simpl; rewrite ?andb_true_r, ?andb_false_r; auto.
Qed.

Lemma testbit_mod_zero (a r k : Z) :
  0 <= k < r -> a mod 2 ^ r = 0 -> Z.testbit a k = false.
Proof.
  intros Hk H. apply (testbit_of_eq _ _ k) in H.
  rewrite Z.mod_pow2_bits_low, Z.bits_0 in H by lia. exact H.
Qed.

Lemma testbit_mod_ones (a r k : Z) :
  0 <= k < r -> a mod 2 ^ r = 2 ^ r - 1 -> Z.testbit a k = true.
Proof.
  intros Hk H. apply (testbit_of_eq _ _ k) in H.
  rewrite Z.mod_pow2_bits_low in H by lia. rewrite H.
  replace (2 ^ r - 1) with (Z.ones r) by (rewrite Z.ones_equiv; lia).
  apply Z.ones_spec_low. lia.
Qed.

Section Rank.

Variable d : BzlaBvDomain.

Lemma rank_succ_free (p : nat) :
  dom_free d p = true -> rank d (S p) = S (rank d p).
Proof. intros H. simpl. rewrite H. lia. Qed.

Lemma rank_succ_fixed (p : nat) :
  dom_free d p = false -> rank d (S p) = rank d p.
Proof. intros H. simpl. rewrite H. lia. Qed.

Lemma rank_mono (p q : nat) : (p <= q)%nat -> (rank d p <= rank d q)%nat.
Proof.
  induction 1 as [|q Hle IH]; [lia|]. simpl. lia.
Qed.

Lemma rank_lt_free (p q : nat) :
  (p < q)%nat -> dom_free d p = true -> (rank d p < rank d q)%nat.
Proof.
  intros Hlt Hf. pose proof (rank_mono (S p) q ltac:(lia)).
  rewrite rank_succ_free in H by assumption. lia.
Qed.

Lemma rank_inj_free (p q : nat) :
  dom_free d p = true -> dom_free d q = true -> rank d p = rank d q -> p = q.
Proof.
  intros Hp Hq E.
  destruct (Nat.lt_trichotomy p q) as [H|[H|H]]; [|assumption|].
  - pose proof (rank_lt_free p q H Hp). lia.
  - pose proof (rank_lt_free q p H Hq). lia.
Qed.

Lemma rank_le (p : nat) : (rank d p <= p)%nat.
Proof. induction p; simpl; [lia|]. destruct (dom_free d p); lia. Qed.

Lemma count_free_loop_rank (n i c : nat) :
  (count_free_loop d n i c + rank d i = c + rank d (i + n))%nat.
Proof.
  revert i c. induction n as [|n IH]; intros i c; cbn [count_free_loop].
  - rewrite Nat.add_0_r. reflexivity.
  - replace (i + S n)%nat with (S i + n)%nat by lia.
    fold (dom_free d i).
    pose proof (IH (S i) (if dom_free d i then (c + 1)%nat else c)) as H.
    cbn [rank] in H. destruct (dom_free d i); lia.
Qed.

Lemma count_free_is_rank :
  count_free_loop d (bv_width (lo d)) 0 0 = free_count d.
Proof.
  pose proof (count_free_loop_rank (bv_width (lo d)) 0 0) as H.
  simpl in H. unfold free_count. lia.
Qed.

(** The bits of the emitted value. *)
Lemma compose_loop_testbit (bits : BzlaBitVector) (n i j : nat)
      (res : BzlaBitVector) (k : nat) :
  Z.testbit (bv_val (gen_compose_loop d bits n i j res)) (Z.of_nat k)
  = if (Nat.leb i k && Nat.ltb k (i + n) && dom_free d k)%bool
    then Z.testbit (bv_val bits) (Z.of_nat (j + rank d k - rank d i))
    else Z.testbit (bv_val res) (Z.of_nat k).
Proof.
  revert i j res. induction n as [|n IH]; intros i j res.
  - cbn [gen_compose_loop].
    replace (Nat.leb i k && Nat.ltb k (i + 0))%bool with false; [reflexivity|].
    symmetry. destruct (Nat.leb_spec i k); simpl; [|reflexivity].
    apply Nat.ltb_ge. lia.
  - cbn [gen_compose_loop]. fold (dom_free d i).
    destruct (dom_free d i) eqn:Hf; cbn [negb]; rewrite IH; clear IH.
    + destruct (Nat.eq_dec k i) as [->|Hne].
      * rewrite (proj2 (Nat.leb_gt _ _)) by lia. cbn [andb].
        rewrite Nat.leb_refl, (proj2 (Nat.ltb_lt _ _)), Hf by lia. cbn [andb].
        unfold bzla_bv_set_bit, bzla_bv_get_bit. cbn [bv_val].
        replace (j + rank d i - rank d i)%nat with j by lia.
        destruct (Z.testbit (bv_val bits) (Z.of_nat j)).
        -- apply Z.setbit_eq. lia.
        -- apply Z.clearbit_eq.
      * destruct (Nat.leb_spec (S i) k) as [Hle|Hgt].
        -- rewrite (proj2 (Nat.leb_le i k)) by lia.
           replace (Nat.ltb k (S i + n)) with (Nat.ltb k (i + S n))
             by (f_equal; lia).
           cbn [andb].
           destruct (Nat.ltb k (i + S n) && dom_free d k)%bool eqn:E.
           ++ pose proof (rank_mono (S i) k Hle) as Hm.
              rewrite rank_succ_free in * by assumption.
              f_equal; lia.
           ++ unfold bzla_bv_set_bit. cbn [bv_val].
              destruct (bzla_bv_get_bit bits j).
              ** apply Z.setbit_neq; lia.
              ** apply Z.clearbit_neq; lia.
        -- rewrite (proj2 (Nat.leb_gt i k)) by lia. cbn [andb].
           unfold bzla_bv_set_bit. cbn [bv_val].
           destruct (bzla_bv_get_bit bits j).
           ++ apply Z.setbit_neq; lia.
           ++ apply Z.clearbit_neq; lia.
    + destruct (Nat.eq_dec k i) as [->|Hne].
      * rewrite (proj2 (Nat.leb_gt _ _)) by lia. cbn [andb].
        rewrite Hf, andb_false_r. reflexivity.
      * destruct (Nat.leb_spec (S i) k) as [Hle|Hgt].
        -- rewrite (proj2 (Nat.leb_le i k)) by lia.
           replace (Nat.ltb k (S i + n)) with (Nat.ltb k (i + S n))
             by (f_equal; lia).
           rewrite rank_succ_fixed by assumption. reflexivity.
        -- rewrite (proj2 (Nat.leb_gt i k)) by lia. reflexivity.
Qed.

Lemma compose_testbit (bits : BzlaBitVector) (k : nat) :
  Z.testbit (bv_val (compose d bits)) (Z.of_nat k)
  = if (Nat.ltb k (bv_width (lo d)) && dom_free d k)%bool
    then Z.testbit (bv_val bits) (Z.of_nat (rank d k))
    else Z.testbit (bv_val (lo d)) (Z.of_nat k).
Proof.
  unfold compose. rewrite compose_loop_testbit.
  cbn [Nat.leb andb rank Nat.add]. rewrite Nat.sub_0_r. reflexivity.
Qed.

Lemma compose_loop_width (bits : BzlaBitVector) (n i j : nat) (res : BzlaBitVector) :
  bv_width (gen_compose_loop d bits n i j res) = bv_width res.
Proof.
  revert i j res. induction n as [|n IH]; intros i j res; simpl; [reflexivity|].
  destruct (negb (bzla_bvdomain_is_fixed_bit d i)); rewrite IH; reflexivity.
Qed.

Lemma compose_loop_wf (bits : BzlaBitVector) (n i j : nat) (res : BzlaBitVector) :
  bv_wf res -> (i + n <= bv_width res)%nat ->
  bv_wf (gen_compose_loop d bits n i j res).
Proof.
  revert i j res. induction n as [|n IH]; intros i j res Hres Hb; simpl;
    [assumption|].
  destruct (negb (bzla_bvdomain_is_fixed_bit d i)).
  - apply IH; [apply set_bit_wf; [assumption|lia] | simpl; lia].
  - apply IH; [assumption | lia].
Qed.

Lemma compose_width (bits : BzlaBitVector) :
  bv_width (compose d bits) = bv_width (lo d).
Proof. apply compose_loop_width. Qed.

Lemma compose_wf (bits : BzlaBitVector) :
  bv_wf (lo d) -> bv_wf (compose d bits).
Proof. intros H. apply compose_loop_wf; [assumption | lia]. Qed.

(** [hpart p bits]: the emitted value from position [p] upwards. *)
Lemma compose_top (bits : BzlaBitVector) :
  bv_wf (lo d) ->
  Z.shiftr (bv_val (compose d bits)) (Z.of_nat (bv_width (lo d))) = 0.
Proof.
  intros Hlo. pose proof (compose_wf bits Hlo) as Hwf.
  unfold bv_wf, zw in Hwf. rewrite compose_width in Hwf.
  rewrite Z.shiftr_div_pow2 by lia. apply Z.div_small. exact Hwf.
Qed.

Lemma compose_step_free (bits : BzlaBitVector) (p : nat) :
  (p < bv_width (lo d))%nat -> dom_free d p = true ->
  Z.shiftr (bv_val (compose d bits)) (Z.of_nat p)
  = 2 * Z.shiftr (bv_val (compose d bits)) (Z.of_nat (S p))
    + Z.b2z (Z.testbit (bv_val bits) (Z.of_nat (rank d p))).
Proof.
  intros Hp Hf. rewrite shiftr_peel by lia.
  rewrite compose_testbit, (proj2 (Nat.ltb_lt _ _)), Hf by lia. cbn [andb].
  rewrite Nat2Z.inj_succ. reflexivity.
Qed.

Lemma compose_step_fixed (bits : BzlaBitVector) (p : nat) :
  dom_free d p = false ->
  Z.shiftr (bv_val (compose d bits)) (Z.of_nat p)
  = 2 * Z.shiftr (bv_val (compose d bits)) (Z.of_nat (S p))
    + Z.b2z (Z.testbit (bv_val (lo d)) (Z.of_nat p)).
Proof.
  intros Hf. rewrite shiftr_peel by lia.
  rewrite compose_testbit, Hf, andb_false_r.
  rewrite Nat2Z.inj_succ. reflexivity.
Qed.

(** The part of the emitted value from position [p] upwards is a strictly
    monotone function of the part of the counter from [rank p] upwards. *)
Lemma compose_high_mono (b1 b2 : BzlaBitVector) (n : nat) :
  bv_wf (lo d) ->
  forall p : nat, (p + n = bv_width (lo d))%nat ->
  0 <= bv_val b1 < 2 ^ Z.of_nat (free_count d) ->
  0 <= bv_val b2 < 2 ^ Z.of_nat (free_count d) ->
  (Z.shiftr (bv_val b1) (Z.of_nat (rank d p))
   < Z.shiftr (bv_val b2) (Z.of_nat (rank d p)) ->
   Z.shiftr (bv_val (compose d b1)) (Z.of_nat p)
   < Z.shiftr (bv_val (compose d b2)) (Z.of_nat p))
  /\ (Z.shiftr (bv_val b1) (Z.of_nat (rank d p))
      = Z.shiftr (bv_val b2) (Z.of_nat (rank d p)) ->
      Z.shiftr (bv_val (compose d b1)) (Z.of_nat p)
      = Z.shiftr (bv_val (compose d b2)) (Z.of_nat p)).
Proof.
  intros Hlo. induction n as [|n IH]; intros p Hp H1 H2.
  - replace p with (bv_width (lo d)) by lia.
    rewrite !compose_top by assumption. fold (free_count d).
    rewrite !Z.shiftr_div_pow2, !Z.div_small by lia. split; [lia | reflexivity].
  - specialize (IH (S p) ltac:(lia) H1 H2). destruct IH as [IHlt IHeq].
    destruct (dom_free d p) eqn:Hf.
    + rewrite !(compose_step_free _ p) by (try assumption; lia).
      rewrite (shiftr_peel (bv_val b1) (Z.of_nat (rank d p))),
        (shiftr_peel (bv_val b2) (Z.of_nat (rank d p))) by lia.
      rewrite rank_succ_free in * by assumption.
      replace (Z.of_nat (rank d p) + 1) with (Z.of_nat (S (rank d p))) by lia.
      set (h1 := Z.shiftr (bv_val b1) (Z.of_nat (S (rank d p)))) in *.
      set (h2 := Z.shiftr (bv_val b2) (Z.of_nat (S (rank d p)))) in *.
      destruct (Z.testbit (bv_val b1) (Z.of_nat (rank d p))),
        (Z.testbit (bv_val b2) (Z.of_nat (rank d p))); cbn [Z.b2z];
        (split; intros H;
         [ destruct (Z.lt_trichotomy h1 h2) as [Hc|[Hc|Hc]];
           [ specialize (IHlt Hc); lia | specialize (IHeq Hc); lia | lia ]
         | assert (Hc : h1 = h2) by lia; specialize (IHeq Hc); lia ]).
    + rewrite !(compose_step_fixed _ p) by assumption.
      rewrite rank_succ_fixed in * by assumption.
      split; intros H; [specialize (IHlt H) | specialize (IHeq H)]; lia.
Qed.

Lemma compose_high_le (b1 b2 : BzlaBitVector) (p : nat) :
  bv_wf (lo d) -> (p <= bv_width (lo d))%nat ->
  0 <= bv_val b1 < 2 ^ Z.of_nat (free_count d) ->
  0 <= bv_val b2 < 2 ^ Z.of_nat (free_count d) ->
  Z.shiftr (bv_val b1) (Z.of_nat (rank d p))
  <= Z.shiftr (bv_val b2) (Z.of_nat (rank d p)) ->
  Z.shiftr (bv_val (compose d b1)) (Z.of_nat p)
  <= Z.shiftr (bv_val (compose d b2)) (Z.of_nat p).
Proof.
  intros Hlo Hp H1 H2 H.
  destruct (compose_high_mono b1 b2 (bv_width (lo d) - p) Hlo p ltac:(lia) H1 H2)
    as [Hlt Heq].
  destruct (Z.eq_dec (Z.shiftr (bv_val b1) (Z.of_nat (rank d p)))
                     (Z.shiftr (bv_val b2) (Z.of_nat (rank d p)))) as [E|NE].
  - rewrite (Heq E). lia.
  - specialize (Hlt ltac:(lia)). lia.
Qed.

Lemma compose_mono (b1 b2 : BzlaBitVector) :
  bv_wf (lo d) ->
  0 <= bv_val b1 < 2 ^ Z.of_nat (free_count d) ->
  0 <= bv_val b2 < 2 ^ Z.of_nat (free_count d) ->
  (bv_val b1 <= bv_val b2 <-> bv_val (compose d b1) <= bv_val (compose d b2)).
Proof.
  intros Hlo H1 H2.
  destruct (compose_high_mono b1 b2 (bv_width (lo d)) Hlo 0%nat ltac:(lia) H1 H2)
    as [Hlt12 Heq12].
  destruct (compose_high_mono b2 b1 (bv_width (lo d)) Hlo 0%nat ltac:(lia) H2 H1)
    as [Hlt21 _].
  simpl in *. rewrite !Z.shiftr_0_r in *.
  destruct (Z.lt_trichotomy (bv_val b1) (bv_val b2)) as [H|[H|H]].
  - specialize (Hlt12 H). lia.
  - specialize (Heq12 H). lia.
  - specialize (Hlt21 H). lia.
Qed.

End Rank.


Lemma bits_inj_nat (a b : Z) :
  (forall k : nat, Z.testbit a (Z.of_nat k) = Z.testbit b (Z.of_nat k)) -> a = b.
Proof.
  intros H. apply Z.bits_inj'. intros i Hi.
  specialize (H (Z.to_nat i)). rewrite Z2Nat.id in H by lia. exact H.
Qed.

Lemma bits_below_bound_nat (v : Z) (n : nat) :
  0 <= v -> (forall k : nat, (n <= k)%nat -> Z.testbit v (Z.of_nat k) = false) ->
  v < 2 ^ Z.of_nat n.
Proof.
  intros Hv H. apply bits_below_bound; [lia | assumption |].
  intros i Hi. specialize (H (Z.to_nat i) ltac:(lia)).
  rewrite Z2Nat.id in H by lia. exact H.
Qed.

Section Gamma.

Variable d : BzlaBvDomain.
Hypothesis Hwf : dom_wf d.
Hypothesis Hvalid : bzla_bvdomain_is_valid d = true.

Lemma free_bits (k : nat) :
  dom_free d k = true ->
  Z.testbit (bv_val (lo d)) (Z.of_nat k) = false
  /\ Z.testbit (bv_val (hi d)) (Z.of_nat k) = true.
Proof.
  intros Hf. pose proof (is_valid_bits d Hwf Hvalid (Z.of_nat k) ltac:(lia)) as Hv.
  unfold dom_free, bzla_bvdomain_is_fixed_bit, bzla_bv_get_bit in Hf.
  destruct (Z.testbit (bv_val (lo d)) (Z.of_nat k)),
    (Z.testbit (bv_val (hi d)) (Z.of_nat k)); simpl in *; auto; try discriminate.
  specialize (Hv eq_refl). discriminate.
Qed.

Lemma fixed_bits (k : nat) :
  dom_free d k = false ->
  Z.testbit (bv_val (lo d)) (Z.of_nat k) = Z.testbit (bv_val (hi d)) (Z.of_nat k).
Proof.
  intros Hf. unfold dom_free in Hf. apply negb_false_iff in Hf.
  apply is_fixed_bit_iff. exact Hf.
Qed.

Lemma free_below_width (k : nat) :
  dom_free d k = true -> (k < bv_width (lo d))%nat.
Proof.
  intros Hf. destruct (free_bits k Hf) as [_ Hh].
  destruct Hwf as (_ & Hhi & Hw).
  destruct (Nat.lt_ge_cases k (bv_width (lo d))) as [|Hge]; [assumption|].
  rewrite wf_testbit_above in Hh; [discriminate | assumption | unfold zw; lia].
Qed.

Lemma rank_free_lt_count (k : nat) :
  dom_free d k = true -> (rank d k < free_count d)%nat.
Proof.
  intros Hf. apply rank_lt_free; [|assumption]. apply free_below_width, Hf.
Qed.

(** Every emitted value is a member of the domain. *)
Lemma compose_in_gamma (bits : BzlaBitVector) : in_gamma d (compose d bits).
Proof.
  destruct Hwf as (Hlo & Hhi & Hw).
  split; [apply compose_width|]. split; [apply compose_wf; assumption|].
  split; apply bits_inj_nat; intros k;
    rewrite ?Z.land_spec, ?Z.lor_spec, compose_testbit.
  - destruct (dom_free d k) eqn:Hf.
    + destruct (free_bits k Hf) as [-> _]. reflexivity.
    + rewrite andb_false_r. apply andb_diag.
  - destruct (dom_free d k) eqn:Hf.
    + destruct (free_bits k Hf) as [_ ->]. apply orb_true_r.
    + rewrite andb_false_r, (fixed_bits k Hf). apply orb_diag.
Qed.

Lemma extract_nonneg (v : Z) (n : nat) : 0 <= extract d v n.
Proof.
  induction n as [|n IH]; simpl; [lia|].
  destruct (dom_free d n && Z.testbit v (Z.of_nat n)); [|assumption].
  rewrite Z.setbit_spec'. apply Z.lor_nonneg. split; [assumption|].
  apply Z.pow_nonneg. lia.
Qed.

Lemma extract_testbit (v : Z) (n r : nat) :
  Z.testbit (extract d v n) (Z.of_nat r) = true
  <-> exists p : nat, (p < n)%nat /\ dom_free d p = true /\ rank d p = r
                      /\ Z.testbit v (Z.of_nat p) = true.
Proof.
  induction n as [|n IH]; cbn [extract].
  - rewrite Z.bits_0. split; [discriminate|]. intros (p & Hp & _). lia.
  - destruct (dom_free d n && Z.testbit v (Z.of_nat n)) eqn:E.
    + apply andb_true_iff in E. destruct E as [Ef Ev].
      rewrite Z.setbit_eqb by lia. rewrite orb_true_iff, IH. split.
      * intros [H|(p & Hp & H)].
        -- apply Z.eqb_eq in H. exists n. repeat split; auto; lia.
        -- exists p. split; [lia | exact H].
      * intros (p & Hp & Hf & Hr & Hv).
        destruct (Nat.eq_dec p n) as [->|Hne].
        -- left. apply Z.eqb_eq. lia.
        -- right. exists p. split; [lia|auto].
    + rewrite IH. split.
      * intros (p & Hp & H). exists p. split; [lia | exact H].
      * intros (p & Hp & Hf & Hr & Hv).
        destruct (Nat.eq_dec p n) as [->|Hne].
        -- rewrite Hf, Hv in E. discriminate.
        -- exists p. split; [lia|auto].
Qed.

Lemma extract_bound (v : Z) :
  0 <= extract d v (bv_width (lo d)) < 2 ^ Z.of_nat (free_count d).
Proof.
  split; [apply extract_nonneg|].
  apply bits_below_bound_nat; [apply extract_nonneg|].
  intros k Hk. destruct (Z.testbit _ _) eqn:E; [|reflexivity].
  apply extract_testbit in E. destruct E as (p & Hp & Hf & Hr & _).
  pose proof (rank_free_lt_count p Hf). lia.
Qed.

(** Every member of the domain is emitted for some counter. *)
Lemma gamma_is_composed (v : BzlaBitVector) :
  in_gamma d v ->
  compose d (mk_bv (free_count d) (extract d (bv_val v) (bv_width (lo d)))) = v.
Proof.
  intros (Hw & Hv & Hl & Hh). destruct Hwf as (Hlo & Hhi & Hwd).
  apply bv_eq_intro; [rewrite compose_width; auto|].
  apply bits_inj_nat. intros k. rewrite compose_testbit. cbn [bv_val].
  apply (testbit_of_eq _ _ (Z.of_nat k)) in Hl, Hh.
  rewrite Z.land_spec in Hl. rewrite Z.lor_spec in Hh.
  destruct (Nat.ltb_spec k (bv_width (lo d))) as [Hlt|Hge]; cbn [andb].
  - destruct (dom_free d k) eqn:Hf.
    + destruct (Z.testbit (bv_val v) (Z.of_nat k)) eqn:Ev.
      * apply extract_testbit. exists k. auto.
      * destruct (Z.testbit (extract d (bv_val v) (bv_width (lo d)))
                            (Z.of_nat (rank d k))) eqn:E; [|reflexivity].
        apply extract_testbit in E. destruct E as (p & Hp & Hfp & Hr & Hvp).
        assert (p = k) by (apply (rank_inj_free d); assumption). subst p.
        congruence.
    + pose proof (fixed_bits k Hf) as Hfx.
      destruct (Z.testbit (bv_val (lo d)) (Z.of_nat k)),
        (Z.testbit (bv_val v) (Z.of_nat k)),
        (Z.testbit (bv_val (hi d)) (Z.of_nat k)); simpl in *; congruence.
  - rewrite (wf_testbit_above (lo d)), (wf_testbit_above v)
      by (try assumption; unfold zw; lia).
    reflexivity.
Qed.

Lemma gamma_bounds (v : BzlaBitVector) :
  in_gamma d v -> bv_val (lo d) <= bv_val v <= bv_val (hi d).
Proof.
  intros (Hw & Hv & Hl & Hh). destruct Hwf as (Hlo & Hhi & Hwd).
  unfold bv_wf in *. split.
  - apply land_le; [lia | lia | assumption].
  - apply lor_le; [lia | lia | assumption].
Qed.

Lemma lo_in_gamma : in_gamma d (lo d).
Proof.
  destruct Hwf as (Hlo & Hhi & Hw).
  split; [reflexivity|]. split; [assumption|]. split.
  - apply Z.land_diag.
  - apply bits_inj_nat. intros k. rewrite Z.lor_spec.
    pose proof (is_valid_bits d Hwf Hvalid (Z.of_nat k) ltac:(lia)) as Hv.
    destruct (Z.testbit (bv_val (lo d)) (Z.of_nat k)); simpl; auto.
    symmetry; auto.
Qed.

Lemma hi_in_gamma : in_gamma d (hi d).
Proof.
  destruct Hwf as (Hlo & Hhi & Hw).
  split; [assumption|]. split; [assumption|]. split.
  - apply bits_inj_nat. intros k. rewrite Z.land_spec.
    pose proof (is_valid_bits d Hwf Hvalid (Z.of_nat k) ltac:(lia)) as Hv.
    destruct (Z.testbit (bv_val (lo d)) (Z.of_nat k)); simpl; auto.
  - apply Z.lor_diag.
Qed.

(** With every counter bit from [rank p] upwards set, the emitted value is
    [hi] from position [p] upwards; with all of them cleared it is [lo]. *)
Lemma compose_high_ones (bits : BzlaBitVector) (p : nat) :
  Z.shiftr (bv_val bits) (Z.of_nat (rank d p))
  = 2 ^ Z.of_nat (free_count d - rank d p) - 1 ->
  Z.shiftr (bv_val (compose d bits)) (Z.of_nat p)
  = Z.shiftr (bv_val (hi d)) (Z.of_nat p).
Proof.
  intros H. apply bits_inj_nat. intros q. rewrite !Z.shiftr_spec by lia.
  replace (Z.of_nat q + Z.of_nat p) with (Z.of_nat (q + p)) by lia.
  rewrite compose_testbit.
  destruct (dom_free d (q + p)) eqn:Hf.
  - rewrite (proj2 (Nat.ltb_lt _ _)) by (apply free_below_width, Hf). cbn [andb].
    destruct (free_bits _ Hf) as [_ ->].
    pose proof (rank_free_lt_count _ Hf) as Hlt.
    pose proof (rank_mono d p (q + p) ltac:(lia)) as Hm.
    apply (testbit_of_eq _ _ (Z.of_nat (rank d (q + p) - rank d p))) in H.
    rewrite Z.shiftr_spec in H by lia.
    replace (Z.of_nat (rank d (q + p) - rank d p) + Z.of_nat (rank d p))
      with (Z.of_nat (rank d (q + p))) in H by lia.
    rewrite H.
    replace (2 ^ Z.of_nat (free_count d - rank d p) - 1)
      with (Z.ones (Z.of_nat (free_count d - rank d p)))
      by (rewrite Z.ones_equiv; lia).
    apply Z.ones_spec_low. lia.
  - rewrite andb_false_r. apply fixed_bits, Hf.
Qed.

Lemma compose_high_zero (bits : BzlaBitVector) (p : nat) :
  Z.shiftr (bv_val bits) (Z.of_nat (rank d p)) = 0 ->
  Z.shiftr (bv_val (compose d bits)) (Z.of_nat p)
  = Z.shiftr (bv_val (lo d)) (Z.of_nat p).
Proof.
  intros H. apply bits_inj_nat. intros q. rewrite !Z.shiftr_spec by lia.
  replace (Z.of_nat q + Z.of_nat p) with (Z.of_nat (q + p)) by lia.
  rewrite compose_testbit.
  destruct (dom_free d (q + p)) eqn:Hf.
  - rewrite (proj2 (Nat.ltb_lt _ _)) by (apply free_below_width, Hf). cbn [andb].
    destruct (free_bits _ Hf) as [-> _].
    pose proof (rank_mono d p (q + p) ltac:(lia)) as Hm.
    apply (testbit_of_eq _ _ (Z.of_nat (rank d (q + p) - rank d p))) in H.
    rewrite Z.shiftr_spec in H by lia.
    replace (Z.of_nat (rank d (q + p) - rank d p) + Z.of_nat (rank d p))
      with (Z.of_nat (rank d (q + p))) in H by lia.
    rewrite H. apply Z.bits_0.
  - rewrite andb_false_r. reflexivity.
Qed.

End Gamma.


(** ** The bounds of the counter *)

Lemma fill_loop_width (bits : BzlaBitVector) (cnt n k : nat) (v : bool) :
  bv_width (fill_loop bits cnt n k v) = bv_width bits.
Proof.
  revert bits k. induction n as [|n IH]; intros bits k; simpl; [reflexivity|].
  rewrite IH. reflexivity.
Qed.

Lemma set_bit_testbit (b : BzlaBitVector) (pos : nat) (v : bool) (q : nat) :
  Z.testbit (bv_val (bzla_bv_set_bit b pos v)) (Z.of_nat q)
  = if Nat.eqb q pos then v else Z.testbit (bv_val b) (Z.of_nat q).
Proof.
  unfold bzla_bv_set_bit. cbn [bv_val].
  destruct (Nat.eqb_spec q pos) as [->|Hne].
  - destruct v; [apply Z.setbit_eq; lia | apply Z.clearbit_eq].
  - destruct v; [apply Z.setbit_neq; lia | apply Z.clearbit_neq; lia].
Qed.

Lemma fill_loop_testbit (bits : BzlaBitVector) (cnt n k : nat) (v : bool) (q : nat) :
  (k + n = cnt)%nat ->
  Z.testbit (bv_val (fill_loop bits cnt n k v)) (Z.of_nat q)
  = if Nat.ltb q (cnt - k) then v else Z.testbit (bv_val bits) (Z.of_nat q).
Proof.
  revert bits k. induction n as [|n IH]; intros bits k Hk; cbn [fill_loop].
  - rewrite (proj2 (Nat.ltb_ge _ _)) by lia. reflexivity.
  - rewrite IH by lia. rewrite set_bit_testbit.
    destruct (Nat.ltb_spec q (cnt - S k)) as [H1|H1].
    + rewrite (proj2 (Nat.ltb_lt _ _)) by lia. reflexivity.
    + destruct (Nat.eqb_spec q (cnt - 1 - k)) as [->|Hne].
      * rewrite (proj2 (Nat.ltb_lt _ _)) by lia. reflexivity.
      * rewrite (proj2 (Nat.ltb_ge _ _)) by lia. reflexivity.
Qed.

Lemma shiftl_shiftr_sub (x k : Z) :
  0 <= k -> Z.shiftl (Z.shiftr x k) k = x - x mod 2 ^ k.
Proof.
  intros Hk. rewrite Z.shiftl_mul_pow2, Z.shiftr_div_pow2 by lia.
  pose proof (Z.div_mod x (2 ^ k) ltac:(pose proof (pow2_pos k Hk); lia)). lia.
Qed.

(** Setting bit [z] and clearing the bits below it. *)
Lemma bump_value (bits r : Z) (z : nat) :
  (forall q : nat, Z.testbit r (Z.of_nat q)
     = if Nat.ltb q z then false
       else if Nat.eqb q z then true else Z.testbit bits (Z.of_nat q)) ->
  r = bits - bits mod 2 ^ (Z.of_nat z + 1) + 2 ^ Z.of_nat z.
Proof.
  intros H. rewrite <- shiftl_shiftr_sub by lia.
  rewrite <- setbit_add.
  - apply bits_inj_nat. intros q. rewrite H, Z.setbit_eqb by lia.
    rewrite Z.shiftl_spec, Z.shiftr_spec' by lia.
    destruct (Nat.ltb_spec q z) as [Hlt|Hge].
    + rewrite (proj2 (Z.eqb_neq _ _)) by lia. cbn [orb].
      rewrite (proj2 (Z.ltb_lt _ _)) by lia. reflexivity.
    + destruct (Nat.eqb_spec q z) as [->|Hne].
      * rewrite Z.eqb_refl. reflexivity.
      * rewrite (proj2 (Z.eqb_neq _ _)) by lia. cbn [orb].
        rewrite (proj2 (Z.ltb_ge _ _)) by lia. cbn [negb andb].
        f_equal. lia.
  - lia.
  - rewrite Z.shiftl_spec by lia. apply Z.testbit_neg_r. lia.
Qed.

(** Clearing bit [z] and setting the bits below it. *)
Lemma drop_value (bits r : Z) (z : nat) :
  (forall q : nat, Z.testbit r (Z.of_nat q)
     = if Nat.ltb q z then true
       else if Nat.eqb q z then false else Z.testbit bits (Z.of_nat q)) ->
  r = bits - bits mod 2 ^ (Z.of_nat z + 1) + (2 ^ Z.of_nat z - 1).
Proof.
  intros H. rewrite <- shiftl_shiftr_sub by lia.
  replace (2 ^ Z.of_nat z - 1) with (Z.ones (Z.of_nat z))
    by (rewrite Z.ones_equiv; lia).
  rewrite <- Z.or_to_plus.
  - apply bits_inj_nat. intros q. rewrite H, Z.lor_spec.
    rewrite Z.shiftl_spec, Z.shiftr_spec', Z.testbit_ones_nonneg by lia.
    destruct (Nat.ltb_spec q z) as [Hlt|Hge].
    + rewrite (proj2 (Z.ltb_lt (Z.of_nat q) (Z.of_nat z))) by lia.
      apply eq_sym, orb_true_r.
    + rewrite (proj2 (Z.ltb_ge (Z.of_nat q) (Z.of_nat z))) by lia.
      rewrite orb_false_r.
      destruct (Nat.eqb_spec q z) as [->|Hne].
      * rewrite (proj2 (Z.ltb_lt _ _)) by lia. reflexivity.
      * rewrite (proj2 (Z.ltb_ge _ _)) by lia. cbn [negb andb].
        f_equal. lia.
  - apply bits_inj_nat. intros q. rewrite Z.land_spec, Z.bits_0.
    rewrite Z.shiftl_spec, Z.testbit_ones_nonneg by lia.
    destruct (Z.ltb_spec (Z.of_nat q) (Z.of_nat z)).
    + rewrite Z.testbit_neg_r by lia. reflexivity.
    + apply andb_false_r.
Qed.

Lemma bump_wf (bits r : Z) (z cnt : nat) :
  (z < cnt)%nat -> 0 <= bits < 2 ^ Z.of_nat cnt ->
  (forall q : nat, Z.testbit r (Z.of_nat q)
     = if Nat.ltb q z then false
       else if Nat.eqb q z then true else Z.testbit bits (Z.of_nat q)) ->
  0 <= r -> r < 2 ^ Z.of_nat cnt.
Proof.
  intros Hz Hb H Hr. apply bits_below_bound_nat; [assumption|].
  intros k Hk. rewrite H.
  rewrite (proj2 (Nat.ltb_ge _ _)), (proj2 (Nat.eqb_neq _ _)) by lia.
  apply (testbit_above _ (Z.of_nat cnt)); lia.
Qed.

Lemma mod_pow2_add_low (a r : Z) :
  0 <= r -> a mod 2 ^ (r + 1) = 0 ->
  (a + 2 ^ r) mod 2 ^ r = 0 /\ a mod 2 ^ r = 0.
Proof.
  intros Hr H. pose proof (pow2_pos r Hr) as Hp.
  assert (E : a = 2 ^ r * (2 * (a / 2 ^ (r + 1)))).
  { pose proof (Z.div_mod a (2 ^ (r + 1)) ltac:(pose proof (pow2_pos (r + 1)); lia)) as D.
    rewrite H in D. rewrite Z.pow_add_r in D by lia. change (2 ^ 1) with 2 in D.
    rewrite Z.pow_add_r by lia. change (2 ^ 1) with 2. lia. }
  split.
  - rewrite E. replace (2 ^ r * (2 * (a / 2 ^ (r + 1))) + 2 ^ r)
      with ((2 * (a / 2 ^ (r + 1)) + 1) * 2 ^ r) by lia.
    apply Z.mod_mul. lia.
  - rewrite E. rewrite Z.mul_comm. apply Z.mod_mul. lia.
Qed.

Lemma mod_pow2_add_small (a k m : Z) :
  0 < m -> 0 <= a mod m + k < m -> (a + k) mod m = a mod m + k.
Proof.
  intros Hm H. rewrite <- (Z.mod_small (a mod m + k) m) by lia.
  rewrite Zplus_mod_idemp_l. reflexivity.
Qed.

Lemma shiftr_add_pow2_same (a r : Z) :
  0 <= r -> a mod 2 ^ (r + 1) = 0 ->
  Z.shiftr (a + 2 ^ r) (r + 1) = Z.shiftr a (r + 1).
Proof.
  intros Hr H. rewrite !Z.shiftr_div_pow2 by lia.
  pose proof (pow2_pos r Hr) as Hp.
  pose proof (pow2_pos (r + 1) ltac:(lia)) as Hp1.
  assert (Hpow : 2 ^ (r + 1) = 2 * 2 ^ r)
    by (rewrite Z.pow_add_r by lia; change (2 ^ 1) with 2; lia).
  pose proof (Z.div_mod a (2 ^ (r + 1)) ltac:(lia)) as D. rewrite H in D.
  symmetry. apply (Z.div_unique _ _ _ (2 ^ r)); lia.
Qed.


Lemma pow2_succ_nat (n : nat) : 2 ^ Z.of_nat (S n) = 2 * 2 ^ Z.of_nat n.
Proof. rewrite Nat2Z.inj_succ, Z.pow_succ_r by lia. reflexivity. Qed.

Lemma fixed_bit_true_eq (d : BzlaBvDomain) (p : nat) :
  dom_free d p = false ->
  bzla_bvdomain_is_fixed_bit_true d p = Z.testbit (bv_val (lo d)) (Z.of_nat p).
Proof.
  intros Hf. unfold dom_free in Hf. apply negb_false_iff in Hf.
  unfold bzla_bvdomain_is_fixed_bit_true.
  unfold bzla_bvdomain_is_fixed_bit in Hf. rewrite Hf. apply andb_true_r.
Qed.

Lemma fixed_bit_false_eq (d : BzlaBvDomain) (p : nat) :
  dom_free d p = false ->
  bzla_bvdomain_is_fixed_bit_false d p
  = negb (Z.testbit (bv_val (lo d)) (Z.of_nat p)).
Proof.
  intros Hf. unfold dom_free in Hf. apply negb_false_iff in Hf.
  unfold bzla_bvdomain_is_fixed_bit_false.
  unfold bzla_bvdomain_is_fixed_bit in Hf. rewrite Hf. apply andb_true_r.
Qed.

Lemma set_bit_range (b : BzlaBitVector) (pos c : nat) (v : bool) :
  0 <= bv_val b < 2 ^ Z.of_nat c -> (pos < c)%nat ->
  0 <= bv_val (bzla_bv_set_bit b pos v) < 2 ^ Z.of_nat c.
Proof.
  intros Hb Hp.
  pose proof (set_bit_wf (mk_bv c (bv_val b)) pos v) as H.
  unfold bv_wf, zw, bzla_bv_set_bit in *. cbn [bv_width bv_val] in *.
  apply H; assumption.
Qed.

Section BitsMin.

Variable d : BzlaBvDomain.
Variable min : BzlaBitVector.
Hypothesis Hwf : dom_wf d.
Hypothesis Hvalid : bzla_bvdomain_is_valid d = true.
Hypothesis Hmin_wf : bv_wf min.
Hypothesis Hmin_w : bv_width min = bv_width (lo d).
Hypothesis Hmin_hi : bv_val min <= bv_val (hi d).

Lemma min_break_hi (p : nat) (bits : BzlaBitVector) :
  (p < bv_width (lo d))%nat ->
  dom_free d p = false ->
  Z.testbit (bv_val (lo d)) (Z.of_nat p) = true ->
  Z.testbit (bv_val min) (Z.of_nat p) = false ->
  bv_width bits = free_count d ->
  0 <= bv_val bits < 2 ^ Z.of_nat (free_count d) ->
  bv_val bits mod 2 ^ Z.of_nat (rank d (S p)) = 0 ->
  Z.shiftr (bv_val (compose d bits)) (Z.of_nat (S p))
  = Z.shiftr (bv_val min) (Z.of_nat (S p)) ->
  bits_min_ok d min bits.
Proof.
  intros Hp Hf Hlo Hm Hw Hb Hmod Hinv. destruct Hwf as (Hlowf & _ & _).
  split; [assumption|]. split; [assumption|].
  intros b Hbb.
  assert (Hc : bv_val bits
               = Z.shiftr (bv_val bits) (Z.of_nat (rank d (S p)))
                 * 2 ^ Z.of_nat (rank d (S p))).
  { rewrite Z.shiftr_div_pow2 by lia.
    pose proof (Z.div_mod (bv_val bits) (2 ^ Z.of_nat (rank d (S p)))
                  ltac:(pose proof (pow2_pos (Z.of_nat (rank d (S p)))); lia)).
    lia. }
  pose proof (shiftr_peel (bv_val min) (Z.of_nat p) ltac:(lia)) as Pm.
  rewrite Hm in Pm. cbn [Z.b2z] in Pm.
  replace (Z.of_nat p + 1) with (Z.of_nat (S p)) in Pm by lia.
  pose proof (compose_step_fixed d b p Hf) as Pb. rewrite Hlo in Pb. cbn [Z.b2z] in Pb.
  split.
  - intros Hle.
    assert (Hs : Z.shiftr (bv_val bits) (Z.of_nat (rank d (S p)))
                 <= Z.shiftr (bv_val b) (Z.of_nat (rank d (S p)))).
    { apply shiftr_ge_iff; lia. }
    pose proof (compose_high_le d bits b (S p) Hlowf ltac:(lia) Hb Hbb Hs) as Hh.
    assert (Z.shiftr (bv_val min) (Z.of_nat p)
            < Z.shiftr (bv_val (compose d b)) (Z.of_nat p)) by lia.
    pose proof (shiftr_lt_lt _ _ (Z.of_nat p) ltac:(lia) H). lia.
  - intros Hle.
    destruct (Z.le_gt_cases (bv_val bits) (bv_val b)) as [|Hgt]; [assumption|].
    exfalso.
    assert (Hs : Z.shiftr (bv_val b) (Z.of_nat (rank d (S p)))
                 < Z.shiftr (bv_val bits) (Z.of_nat (rank d (S p)))).
    { destruct (Z.lt_ge_cases (Z.shiftr (bv_val b) (Z.of_nat (rank d (S p))))
                  (Z.shiftr (bv_val bits) (Z.of_nat (rank d (S p)))))
        as [|Hge]; [assumption|].
      apply shiftr_ge_iff in Hge; lia. }
    destruct (compose_high_mono d b bits (bv_width (lo d) - S p) Hlowf (S p)
                ltac:(lia) Hbb Hb) as [Hlt _].
    specialize (Hlt Hs). rewrite Hinv in Hlt.
    pose proof (shiftr_lt_lt _ _ (Z.of_nat (S p)) ltac:(lia) Hlt). lia.
Qed.

Lemma min_break_lo (p : nat) (bits r : BzlaBitVector) :
  (p < bv_width (lo d))%nat ->
  dom_free d p = false ->
  Z.testbit (bv_val (lo d)) (Z.of_nat p) = false ->
  Z.testbit (bv_val min) (Z.of_nat p) = true ->
  0 <= bv_val bits < 2 ^ Z.of_nat (free_count d) ->
  bv_val bits mod 2 ^ Z.of_nat (rank d (S p)) = 0 ->
  Z.shiftr (bv_val (compose d bits)) (Z.of_nat (S p))
  = Z.shiftr (bv_val min) (Z.of_nat (S p)) ->
  bv_width r = free_count d ->
  bv_val r = bv_val bits + 2 ^ Z.of_nat (rank d (S p)) ->
  bv_val r < 2 ^ Z.of_nat (free_count d) ->
  bits_min_ok d min r.
Proof.
  intros Hp Hf Hlo Hm Hb Hmod Hinv Hw Hr Hrb. destruct Hwf as (Hlowf & _ & _).
  pose proof (pow2_pos (Z.of_nat (rank d (S p))) ltac:(lia)) as Hpp.
  split; [assumption|]. split; [lia|].
  intros b Hbb.
  assert (Hc : bv_val bits
               = Z.shiftr (bv_val bits) (Z.of_nat (rank d (S p)))
                 * 2 ^ Z.of_nat (rank d (S p))).
  { rewrite Z.shiftr_div_pow2 by lia.
    pose proof (Z.div_mod (bv_val bits) (2 ^ Z.of_nat (rank d (S p)))
                  ltac:(lia)).
    lia. }
  pose proof (shiftr_peel (bv_val min) (Z.of_nat p) ltac:(lia)) as Pm.
  rewrite Hm in Pm. cbn [Z.b2z] in Pm.
  replace (Z.of_nat p + 1) with (Z.of_nat (S p)) in Pm by lia.
  pose proof (compose_step_fixed d b p Hf) as Pb. rewrite Hlo in Pb. cbn [Z.b2z] in Pb.
  split.
  - intros Hle.
    assert (Hs : Z.shiftr (bv_val bits) (Z.of_nat (rank d (S p)))
                 < Z.shiftr (bv_val b) (Z.of_nat (rank d (S p)))).
    { assert (Z.shiftr (bv_val bits) (Z.of_nat (rank d (S p))) + 1
              <= Z.shiftr (bv_val b) (Z.of_nat (rank d (S p)))); [|lia].
      apply shiftr_ge_iff; lia. }
    destruct (compose_high_mono d bits b (bv_width (lo d) - S p) Hlowf (S p)
                ltac:(lia) Hb Hbb) as [Hlt _].
    specialize (Hlt Hs). rewrite Hinv in Hlt.
    pose proof (shiftr_lt_lt _ _ (Z.of_nat (S p)) ltac:(lia) Hlt). lia.
  - intros Hle.
    destruct (Z.le_gt_cases (bv_val r) (bv_val b)) as [|Hgt]; [assumption|].
    exfalso.
    assert (Hs : Z.shiftr (bv_val b) (Z.of_nat (rank d (S p)))
                 <= Z.shiftr (bv_val bits) (Z.of_nat (rank d (S p)))).
    { apply shiftr_le_iff; lia. }
    pose proof (compose_high_le d b bits (S p) Hlowf ltac:(lia) Hbb Hb Hs) as Hh.
    assert (Z.shiftr (bv_val (compose d b)) (Z.of_nat p)
            < Z.shiftr (bv_val min) (Z.of_nat p)) by lia.
    pose proof (shiftr_lt_lt _ _ (Z.of_nat p) ltac:(lia) H). lia.
Qed.

(** The loop that derives [bits_min], by its invariant: the counter bits
    set so far reproduce [min] from the current position upwards, the bits
    below are still clear, and [j0] marks the lowest clear bit among those
    set so far. *)
Lemma bits_min_loop_ok (n : nat) :
  forall (i j j0 : nat) (bits : BzlaBitVector),
  (i + n = bv_width (lo d))%nat ->
  (j + rank d n = free_count d)%nat ->
  bv_width bits = free_count d ->
  0 <= bv_val bits < 2 ^ Z.of_nat (free_count d) ->
  bv_val bits mod 2 ^ Z.of_nat (rank d n) = 0 ->
  Z.shiftr (bv_val (compose d bits)) (Z.of_nat n)
  = Z.shiftr (bv_val min) (Z.of_nat n) ->
  (bv_val bits = 2 ^ Z.of_nat (free_count d) - 2 ^ Z.of_nat (rank d n)
   \/ ((j0 < free_count d)%nat /\ (rank d n <= free_count d - 1 - j0)%nat
       /\ bv_val bits mod 2 ^ (Z.of_nat (free_count d - 1 - j0) + 1)
          = 2 ^ Z.of_nat (free_count d - 1 - j0) - 2 ^ Z.of_nat (rank d n))) ->
  bits_min_ok d min
    (bits_min_loop d min (bv_width (lo d)) (free_count d) n i j j0 bits).
Proof.
  destruct Hwf as (Hlowf & Hhiwf & Hwd).
  induction n as [|p IH]; intros i j j0 bits Hi Hj Hw Hb Hmod Hinv HJ.
  - cbn [bits_min_loop]. split; [assumption|]. split; [assumption|].
    intros b Hbb. simpl in Hinv. rewrite !Z.shiftr_0_r in Hinv.
    rewrite <- Hinv. apply compose_mono; assumption.
  - cbn [bits_min_loop].
    replace (bv_width (lo d) - 1 - i)%nat with p by lia.
    change (negb (bzla_bvdomain_is_fixed_bit d p)) with (dom_free d p).
    pose proof (shiftr_peel (bv_val min) (Z.of_nat p) ltac:(lia)) as Pm.
    replace (Z.of_nat p + 1) with (Z.of_nat (S p)) in Pm by lia.
    unfold bzla_bv_get_bit.
    destruct (dom_free d p) eqn:Hf.
    + (* an unfixed position: copy the bit of [min] *)
      rewrite (rank_succ_free d p Hf) in *.
      replace (free_count d - 1 - j)%nat with (rank d p) by lia.
      assert (Hz : Z.testbit (bv_val bits) (Z.of_nat (rank d p)) = false).
      { apply (testbit_mod_zero _ (Z.of_nat (S (rank d p)))); [lia | assumption]. }
      rewrite Nat2Z.inj_succ in Hmod. unfold Z.succ in Hmod.
      destruct (mod_pow2_add_low (bv_val bits) (Z.of_nat (rank d p)) ltac:(lia) Hmod)
        as [Hm1 Hm2].
      pose proof (pow2_pos (Z.of_nat (rank d p)) ltac:(lia)) as Hpp.
      destruct (Z.testbit (bv_val min) (Z.of_nat p)) eqn:Hbit; cbn [negb].
      * assert (Hv : bv_val (bzla_bv_set_bit bits (rank d p) true)
                     = bv_val bits + 2 ^ Z.of_nat (rank d p)).
        { unfold bzla_bv_set_bit. cbn [bv_val]. apply setbit_add; [lia | assumption]. }
        apply IH; try lia.
        -- unfold bzla_bv_set_bit. cbn [bv_width]. assumption.
        -- apply set_bit_range; [assumption | lia].
        -- rewrite Hv. assumption.
        -- rewrite (compose_step_free d _ p) by (try assumption; lia).
           rewrite set_bit_testbit, Nat.eqb_refl. cbn [Z.b2z].
           destruct (compose_high_mono d (bzla_bv_set_bit bits (rank d p) true) bits
                       (bv_width (lo d) - S p) Hlowf (S p) ltac:(lia)) as [_ Heq].
           { apply set_bit_range; [assumption | lia]. }
           { assumption. }
           rewrite Heq.
           ++ rewrite Hinv. cbn [Z.b2z] in Pm. lia.
           ++ rewrite (rank_succ_free d p Hf), Hv.
              rewrite Nat2Z.inj_succ. unfold Z.succ.
              apply shiftr_add_pow2_same; [lia | assumption].
        -- rewrite Hv. destruct HJ as [HJ|(HJ1 & HJ2 & HJ3)].
           ++ left. rewrite HJ, pow2_succ_nat. lia.
           ++ right. split; [assumption|]. split; [lia|].
              rewrite pow2_succ_nat in HJ3.
              assert (2 * 2 ^ Z.of_nat (rank d p)
                      <= 2 ^ Z.of_nat (free_count d - 1 - j0)).
              { rewrite <- pow2_succ_nat. apply Z.pow_le_mono_r; lia. }
              rewrite mod_pow2_add_small.
              ** rewrite HJ3. lia.
              ** apply pow2_pos. lia.
              ** rewrite HJ3.
                 replace (Z.of_nat (free_count d - 1 - j0) + 1)
                   with (Z.of_nat (S (free_count d - 1 - j0))) by lia.
                 rewrite pow2_succ_nat. lia.
      * assert (Hsame : bzla_bv_set_bit bits (rank d p) false = bits).
        { apply bv_eq_intro; [reflexivity|]. unfold bzla_bv_set_bit. cbn [bv_val].
          apply clearbit_same. assumption. }
        rewrite Hsame.
        apply IH; try lia; try assumption.
        -- rewrite (compose_step_free d _ p) by (try assumption; lia).
           rewrite Hz, Hinv. lia.
        -- right. split; [lia|].
           replace (free_count d - 1 - j)%nat with (rank d p) by lia.
           split; [lia|]. rewrite Hmod. lia.
    + (* a fixed position *)
      rewrite (rank_succ_fixed d p Hf) in *.
      rewrite (fixed_bit_true_eq d p Hf), (fixed_bit_false_eq d p Hf).
      destruct (Z.testbit (bv_val (lo d)) (Z.of_nat p)) eqn:Hlo,
        (Z.testbit (bv_val min) (Z.of_nat p)) eqn:Hbit; cbn [negb andb].
      * apply IH; try lia; try assumption.
        rewrite (compose_step_fixed d _ p Hf), Hlo, Hinv. lia.
      * apply (min_break_hi p); try assumption; try lia.
        rewrite (rank_succ_fixed d p Hf). assumption.
      * (* the bump *)
        destruct HJ as [HJ|(HJ1 & HJ2 & HJ3)].
        -- exfalso.
           assert (Hall : Z.shiftr (bv_val bits) (Z.of_nat (rank d (S p)))
                          = 2 ^ Z.of_nat (free_count d - rank d (S p)) - 1).
           { rewrite (rank_succ_fixed d p Hf), HJ.
             rewrite Z.shiftr_div_pow2 by lia.
             pose proof (pow2_pos (Z.of_nat (rank d p)) ltac:(lia)) as Hpp.
             replace (2 ^ Z.of_nat (free_count d))
               with (2 ^ Z.of_nat (free_count d - rank d p) * 2 ^ Z.of_nat (rank d p))
               by (rewrite <- Z.pow_add_r by lia; f_equal; lia).
             replace (2 ^ Z.of_nat (free_count d - rank d p) * 2 ^ Z.of_nat (rank d p)
                      - 2 ^ Z.of_nat (rank d p))
               with ((2 ^ Z.of_nat (free_count d - rank d p) - 1)
                     * 2 ^ Z.of_nat (rank d p)) by lia.
             apply Z.div_mul. lia. }
           pose proof (compose_high_ones d (conj Hlowf (conj Hhiwf Hwd)) Hvalid
                         bits (S p) Hall) as Hhi.
           pose proof (shiftr_peel (bv_val (hi d)) (Z.of_nat p) ltac:(lia)) as Ph.
           replace (Z.of_nat p + 1) with (Z.of_nat (S p)) in Ph by lia.
           rewrite <- (fixed_bits d p Hf), Hlo in Ph.
           cbn [Z.b2z] in Ph, Pm.
           assert (Z.shiftr (bv_val (hi d)) (Z.of_nat p)
                   < Z.shiftr (bv_val min) (Z.of_nat p)) by lia.
           pose proof (shiftr_lt_lt _ _ (Z.of_nat p) ltac:(lia) H). lia.
        -- set (z := (free_count d - 1 - j0)%nat) in *.
           set (r := fill_loop (bzla_bv_set_bit bits z true) (free_count d)
                               (free_count d - (j0 + 1)) (j0 + 1) false).
           assert (Hrb : forall q : nat,
                      Z.testbit (bv_val r) (Z.of_nat q)
                      = if Nat.ltb q z then false
                        else if Nat.eqb q z then true
                             else Z.testbit (bv_val bits) (Z.of_nat q)).
           { intros q. subst r. rewrite fill_loop_testbit by lia.
             replace (free_count d - (j0 + 1))%nat with z by lia.
             rewrite set_bit_testbit. reflexivity. }
           pose proof (bump_value (bv_val bits) (bv_val r) z Hrb) as Hval.
           rewrite HJ3 in Hval.
           pose proof (pow2_pos (Z.of_nat (rank d p)) ltac:(lia)) as Hpp.
           apply (min_break_lo p bits r); try assumption; try lia.
           ++ rewrite (rank_succ_fixed d p Hf). assumption.
           ++ subst r. rewrite fill_loop_width. unfold bzla_bv_set_bit.
              cbn [bv_width]. assumption.
           ++ rewrite (rank_succ_fixed d p Hf). lia.
           ++ apply (bump_wf (bv_val bits) (bv_val r) z); try assumption; lia.
      * apply IH; try lia; try assumption.
        rewrite (compose_step_fixed d _ p Hf), Hlo, Hinv. lia.
Qed.

(** [bits_min] as [bzla_bvdomain_gen_init_range] computes it. *)
Lemma bits_min_correct :
  bits_min_ok d min
    (bits_min_loop d min (bv_width (lo d)) (free_count d) (bv_width (lo d))
                   0 0 0 (bzla_bv_new (free_count d))).
Proof.
  destruct Hwf as (Hlowf & Hhiwf & Hwd).
  pose proof (pow2_pos (Z.of_nat (free_count d)) ltac:(lia)) as Hpp.
  apply bits_min_loop_ok; try reflexivity.
  - unfold bzla_bv_new. cbn [bv_val]. lia.
  - rewrite compose_top by assumption.
    rewrite Z.shiftr_div_pow2 by lia. symmetry. apply Z.div_small.
    unfold bv_wf, zw in Hmin_wf. rewrite Hmin_w in Hmin_wf. exact Hmin_wf.
  - left. unfold bzla_bv_new, free_count. cbn [bv_val]. lia.
Qed.

End BitsMin.


Lemma mod_pow2_sub_low (a r : Z) :
  0 <= r -> a mod 2 ^ (r + 1) = 2 ^ (r + 1) - 1 ->
  (a - 2 ^ r) mod 2 ^ r = 2 ^ r - 1 /\ a mod 2 ^ r = 2 ^ r - 1.
Proof.
  intros Hr H. pose proof (pow2_pos r Hr) as Hp.
  assert (Hpow : 2 ^ (r + 1) = 2 * 2 ^ r)
    by (rewrite Z.pow_add_r by lia; change (2 ^ 1) with 2; lia).
  pose proof (Z.div_mod a (2 ^ (r + 1)) ltac:(lia)) as D.
  rewrite H in D. set (X := a / 2 ^ (r + 1)) in *. rewrite Hpow in D.
  split.
  - symmetry. apply (Z.mod_unique_pos _ _ (2 * X)); lia.
  - symmetry. apply (Z.mod_unique_pos _ _ (2 * X + 1)); lia.
Qed.

Lemma shiftr_sub_pow2_same (a r : Z) :
  0 <= r -> a mod 2 ^ (r + 1) = 2 ^ (r + 1) - 1 ->
  Z.shiftr (a - 2 ^ r) (r + 1) = Z.shiftr a (r + 1).
Proof.
  intros Hr H. rewrite !Z.shiftr_div_pow2 by lia.
  pose proof (pow2_pos r Hr) as Hp.
  assert (Hpow : 2 ^ (r + 1) = 2 * 2 ^ r)
    by (rewrite Z.pow_add_r by lia; change (2 ^ 1) with 2; lia).
  pose proof (Z.div_mod a (2 ^ (r + 1)) ltac:(lia)) as D. rewrite H in D.
  set (X := a / 2 ^ (r + 1)) in *.
  symmetry. apply (Z.div_unique _ _ _ (2 ^ r - 1)); lia.
Qed.

Lemma shiftr_mono (a b r : Z) :
  0 <= r -> a <= b -> Z.shiftr a r <= Z.shiftr b r.
Proof.
  intros Hr H. rewrite !Z.shiftr_div_pow2 by lia.
  apply Z.div_le_mono; [apply pow2_pos; lia | assumption].
Qed.

Section BitsMax.

Variable d : BzlaBvDomain.
Variable max : BzlaBitVector.
Hypothesis Hwf : dom_wf d.
Hypothesis Hvalid : bzla_bvdomain_is_valid d = true.
Hypothesis Hmax_wf : bv_wf max.
Hypothesis Hmax_w : bv_width max = bv_width (lo d).
Hypothesis Hmax_lo : bv_val (lo d) <= bv_val max.

Lemma max_break_lo (p : nat) (bits : BzlaBitVector) :
  (p < bv_width (lo d))%nat ->
  dom_free d p = false ->
  Z.testbit (bv_val (lo d)) (Z.of_nat p) = false ->
  Z.testbit (bv_val max) (Z.of_nat p) = true ->
  bv_width bits = free_count d ->
  0 <= bv_val bits < 2 ^ Z.of_nat (free_count d) ->
  bv_val bits mod 2 ^ Z.of_nat (rank d (S p))
  = 2 ^ Z.of_nat (rank d (S p)) - 1 ->
  Z.shiftr (bv_val (compose d bits)) (Z.of_nat (S p))
  = Z.shiftr (bv_val max) (Z.of_nat (S p)) ->
  bits_max_ok d max bits.
Proof.
  intros Hp Hf Hlo Hm Hw Hb Hmod Hinv. destruct Hwf as (Hlowf & _ & _).
  pose proof (pow2_pos (Z.of_nat (rank d (S p))) ltac:(lia)) as Hpp.
  split; [assumption|]. split; [assumption|].
  intros b Hbb.
  assert (Hc : bv_val bits
               = Z.shiftr (bv_val bits) (Z.of_nat (rank d (S p)))
                 * 2 ^ Z.of_nat (rank d (S p))
                 + (2 ^ Z.of_nat (rank d (S p)) - 1)).
  { rewrite Z.shiftr_div_pow2 by lia.
    pose proof (Z.div_mod (bv_val bits) (2 ^ Z.of_nat (rank d (S p)))
                  ltac:(lia)).
    lia. }
  pose proof (shiftr_peel (bv_val max) (Z.of_nat p) ltac:(lia)) as Pm.
  rewrite Hm in Pm. cbn [Z.b2z] in Pm.
  replace (Z.of_nat p + 1) with (Z.of_nat (S p)) in Pm by lia.
  pose proof (compose_step_fixed d b p Hf) as Pb. rewrite Hlo in Pb. cbn [Z.b2z] in Pb.
  split.
  - intros Hle.
    assert (Hs : Z.shiftr (bv_val b) (Z.of_nat (rank d (S p)))
                 <= Z.shiftr (bv_val bits) (Z.of_nat (rank d (S p)))).
    { apply shiftr_mono; lia. }
    pose proof (compose_high_le d b bits (S p) Hlowf ltac:(lia) Hbb Hb Hs) as Hh.
    assert (Z.shiftr (bv_val (compose d b)) (Z.of_nat p)
            < Z.shiftr (bv_val max) (Z.of_nat p)) by lia.
    pose proof (shiftr_lt_lt _ _ (Z.of_nat p) ltac:(lia) H). lia.
  - intros Hle.
    destruct (Z.le_gt_cases (bv_val b) (bv_val bits)) as [|Hgt]; [assumption|].
    exfalso.
    assert (Hs : Z.shiftr (bv_val bits) (Z.of_nat (rank d (S p)))
                 < Z.shiftr (bv_val b) (Z.of_nat (rank d (S p)))).
    { assert (Z.shiftr (bv_val bits) (Z.of_nat (rank d (S p))) + 1
              <= Z.shiftr (bv_val b) (Z.of_nat (rank d (S p)))); [|lia].
      apply shiftr_ge_iff; lia. }
    destruct (compose_high_mono d bits b (bv_width (lo d) - S p) Hlowf (S p)
                ltac:(lia) Hb Hbb) as [Hlt _].
    specialize (Hlt Hs). rewrite Hinv in Hlt.
    pose proof (shiftr_lt_lt _ _ (Z.of_nat (S p)) ltac:(lia) Hlt). lia.
Qed.

Lemma max_break_hi (p : nat) (bits r : BzlaBitVector) :
  (p < bv_width (lo d))%nat ->
  dom_free d p = false ->
  Z.testbit (bv_val (lo d)) (Z.of_nat p) = true ->
  Z.testbit (bv_val max) (Z.of_nat p) = false ->
  0 <= bv_val bits < 2 ^ Z.of_nat (free_count d) ->
  bv_val bits mod 2 ^ Z.of_nat (rank d (S p))
  = 2 ^ Z.of_nat (rank d (S p)) - 1 ->
  Z.shiftr (bv_val (compose d bits)) (Z.of_nat (S p))
  = Z.shiftr (bv_val max) (Z.of_nat (S p)) ->
  bv_width r = free_count d ->
  bv_val r = bv_val bits - 2 ^ Z.of_nat (rank d (S p)) ->
  0 <= bv_val r ->
  bits_max_ok d max r.
Proof.
  intros Hp Hf Hlo Hm Hb Hmod Hinv Hw Hr Hrb. destruct Hwf as (Hlowf & _ & _).
  pose proof (pow2_pos (Z.of_nat (rank d (S p))) ltac:(lia)) as Hpp.
  split; [assumption|]. split; [lia|].
  intros b Hbb.
  assert (Hc : bv_val bits
               = Z.shiftr (bv_val bits) (Z.of_nat (rank d (S p)))
                 * 2 ^ Z.of_nat (rank d (S p))
                 + (2 ^ Z.of_nat (rank d (S p)) - 1)).
  { rewrite Z.shiftr_div_pow2 by lia.
    pose proof (Z.div_mod (bv_val bits) (2 ^ Z.of_nat (rank d (S p)))
                  ltac:(lia)).
    lia. }
  pose proof (shiftr_peel (bv_val max) (Z.of_nat p) ltac:(lia)) as Pm.
  rewrite Hm in Pm. cbn [Z.b2z] in Pm.
  replace (Z.of_nat p + 1) with (Z.of_nat (S p)) in Pm by lia.
  pose proof (compose_step_fixed d b p Hf) as Pb. rewrite Hlo in Pb. cbn [Z.b2z] in Pb.
  split.
  - intros Hle.
    assert (Hs : Z.shiftr (bv_val b) (Z.of_nat (rank d (S p)))
                 < Z.shiftr (bv_val bits) (Z.of_nat (rank d (S p)))).
    { assert (Z.shiftr (bv_val b) (Z.of_nat (rank d (S p)))
              <= Z.shiftr (bv_val bits) (Z.of_nat (rank d (S p))) - 1); [|lia].
      apply shiftr_le_iff; lia. }
    destruct (compose_high_mono d b bits (bv_width (lo d) - S p) Hlowf (S p)
                ltac:(lia) Hbb Hb) as [Hlt _].
    specialize (Hlt Hs). rewrite Hinv in Hlt.
    pose proof (shiftr_lt_lt _ _ (Z.of_nat (S p)) ltac:(lia) Hlt). lia.
  - intros Hle.
    destruct (Z.le_gt_cases (bv_val b) (bv_val r)) as [|Hgt]; [assumption|].
    exfalso.
    assert (Hs : Z.shiftr (bv_val bits) (Z.of_nat (rank d (S p)))
                 <= Z.shiftr (bv_val b) (Z.of_nat (rank d (S p)))).
    { apply shiftr_ge_iff; lia. }
    pose proof (compose_high_le d bits b (S p) Hlowf ltac:(lia) Hb Hbb Hs) as Hh.
    assert (Z.shiftr (bv_val max) (Z.of_nat p)
            < Z.shiftr (bv_val (compose d b)) (Z.of_nat p)) by lia.
    pose proof (shiftr_lt_lt _ _ (Z.of_nat p) ltac:(lia) H). lia.
Qed.

(** The loop that derives [bits_max], by the dual invariant: the bits below
    the current rank are still set, and [j0] marks the lowest set bit among
    those copied so far. *)
Lemma bits_max_loop_ok (n : nat) :
  forall (i j j0 : nat) (bits : BzlaBitVector),
  (i + n = bv_width (lo d))%nat ->
  (j + rank d n = free_count d)%nat ->
  bv_width bits = free_count d ->
  0 <= bv_val bits < 2 ^ Z.of_nat (free_count d) ->
  bv_val bits mod 2 ^ Z.of_nat (rank d n) = 2 ^ Z.of_nat (rank d n) - 1 ->
  Z.shiftr (bv_val (compose d bits)) (Z.of_nat n)
  = Z.shiftr (bv_val max) (Z.of_nat n) ->
  (bv_val bits = 2 ^ Z.of_nat (rank d n) - 1
   \/ ((j0 < free_count d)%nat /\ (rank d n <= free_count d - 1 - j0)%nat
       /\ bv_val bits mod 2 ^ (Z.of_nat (free_count d - 1 - j0) + 1)
          = 2 ^ Z.of_nat (free_count d - 1 - j0) + 2 ^ Z.of_nat (rank d n) - 1)) ->
  bits_max_ok d max
    (bits_max_loop d max (bv_width (lo d)) (free_count d) n i j j0 bits).
Proof.
  destruct Hwf as (Hlowf & Hhiwf & Hwd).
  induction n as [|p IH]; intros i j j0 bits Hi Hj Hw Hb Hmod Hinv HJ.
  - cbn [bits_max_loop]. split; [assumption|]. split; [assumption|].
    intros b Hbb. simpl in Hinv. rewrite !Z.shiftr_0_r in Hinv.
    rewrite <- Hinv. apply compose_mono; assumption.
  - cbn [bits_max_loop].
    replace (bv_width (lo d) - 1 - i)%nat with p by lia.
    change (negb (bzla_bvdomain_is_fixed_bit d p)) with (dom_free d p).
    pose proof (shiftr_peel (bv_val max) (Z.of_nat p) ltac:(lia)) as Pm.
    replace (Z.of_nat p + 1) with (Z.of_nat (S p)) in Pm by lia.
    unfold bzla_bv_get_bit.
    destruct (dom_free d p) eqn:Hf.
    + (* an unfixed position: copy the bit of [max] *)
      rewrite (rank_succ_free d p Hf) in *.
      replace (free_count d - 1 - j)%nat with (rank d p) by lia.
      assert (Hz : Z.testbit (bv_val bits) (Z.of_nat (rank d p)) = true).
      { apply (testbit_mod_ones _ (Z.of_nat (S (rank d p)))); [lia | assumption]. }
      rewrite Nat2Z.inj_succ in Hmod. unfold Z.succ in Hmod.
      destruct (mod_pow2_sub_low (bv_val bits) (Z.of_nat (rank d p)) ltac:(lia) Hmod)
        as [Hm1 Hm2].
      pose proof (pow2_pos (Z.of_nat (rank d p)) ltac:(lia)) as Hpp.
      assert (Hpow : 2 ^ (Z.of_nat (rank d p) + 1) = 2 * 2 ^ Z.of_nat (rank d p))
        by (rewrite Z.pow_add_r by lia; change (2 ^ 1) with 2; lia).
      destruct (Z.testbit (bv_val max) (Z.of_nat p)) eqn:Hbit.
      * assert (Hsame : bzla_bv_set_bit bits (rank d p) true = bits).
        { apply bv_eq_intro; [reflexivity|]. unfold bzla_bv_set_bit. cbn [bv_val].
          apply setbit_same; [lia | assumption]. }
        rewrite Hsame.
        apply IH; try lia; try assumption.
        -- rewrite (compose_step_free d _ p) by (try assumption; lia).
           rewrite Hz, Hinv. lia.
        -- right. split; [lia|].
           replace (free_count d - 1 - j)%nat with (rank d p) by lia.
           split; [lia|]. rewrite Hmod. lia.
      * assert (Hv : bv_val (bzla_bv_set_bit bits (rank d p) false)
                     = bv_val bits - 2 ^ Z.of_nat (rank d p)).
        { unfold bzla_bv_set_bit. cbn [bv_val]. apply clearbit_sub; [lia | assumption]. }
        apply IH; try lia.
        -- unfold bzla_bv_set_bit. cbn [bv_width]. assumption.
        -- apply set_bit_range; [assumption | lia].
        -- rewrite Hv. assumption.
        -- rewrite (compose_step_free d _ p) by (try assumption; lia).
           rewrite set_bit_testbit, Nat.eqb_refl. cbn [Z.b2z].
           destruct (compose_high_mono d (bzla_bv_set_bit bits (rank d p) false) bits
                       (bv_width (lo d) - S p) Hlowf (S p) ltac:(lia)) as [_ Heq].
           { apply set_bit_range; [assumption | lia]. }
           { assumption. }
           rewrite Heq.
           ++ rewrite Hinv. cbn [Z.b2z] in Pm. lia.
           ++ rewrite (rank_succ_free d p Hf), Hv.
              rewrite Nat2Z.inj_succ. unfold Z.succ.
              apply shiftr_sub_pow2_same; [lia | assumption].
        -- rewrite Hv. destruct HJ as [HJ|(HJ1 & HJ2 & HJ3)].
           ++ left. rewrite HJ, pow2_succ_nat. lia.
           ++ right. split; [assumption|]. split; [lia|].
              rewrite pow2_succ_nat in HJ3.
              assert (2 * 2 ^ Z.of_nat (rank d p)
                      <= 2 ^ Z.of_nat (free_count d - 1 - j0)).
              { rewrite <- pow2_succ_nat. apply Z.pow_le_mono_r; lia. }
              replace (bv_val bits - 2 ^ Z.of_nat (rank d p))
                with (bv_val bits + - 2 ^ Z.of_nat (rank d p)) by lia.
              rewrite mod_pow2_add_small.
              ** rewrite HJ3. lia.
              ** apply pow2_pos. lia.
              ** rewrite HJ3.
                 replace (Z.of_nat (free_count d - 1 - j0) + 1)
                   with (Z.of_nat (S (free_count d - 1 - j0))) by lia.
                 rewrite pow2_succ_nat. lia.
    + (* a fixed position *)
      rewrite (rank_succ_fixed d p Hf) in *.
      rewrite (fixed_bit_true_eq d p Hf), (fixed_bit_false_eq d p Hf).
      pose proof (pow2_pos (Z.of_nat (rank d p)) ltac:(lia)) as Hpp.
      destruct (Z.testbit (bv_val (lo d)) (Z.of_nat p)) eqn:Hlo,
        (Z.testbit (bv_val max) (Z.of_nat p)) eqn:Hbit; cbn [negb andb].
      * apply IH; try lia; try assumption.
        rewrite (compose_step_fixed d _ p Hf), Hlo, Hinv. lia.
      * (* the drop *)
        destruct HJ as [HJ|(HJ1 & HJ2 & HJ3)].
        -- exfalso.
           assert (Hall : Z.shiftr (bv_val bits) (Z.of_nat (rank d (S p))) = 0).
           { rewrite (rank_succ_fixed d p Hf), HJ.
             rewrite Z.shiftr_div_pow2 by lia. apply Z.div_small. lia. }
           pose proof (compose_high_zero d (conj Hlowf (conj Hhiwf Hwd)) Hvalid
                         bits (S p) Hall) as Hl.
           pose proof (shiftr_peel (bv_val (lo d)) (Z.of_nat p) ltac:(lia)) as Ph.
           replace (Z.of_nat p + 1) with (Z.of_nat (S p)) in Ph by lia.
           rewrite Hlo in Ph. cbn [Z.b2z] in Ph, Pm.
           assert (Z.shiftr (bv_val max) (Z.of_nat p)
                   < Z.shiftr (bv_val (lo d)) (Z.of_nat p)) by lia.
           pose proof (shiftr_lt_lt _ _ (Z.of_nat p) ltac:(lia) H). lia.
        -- set (z := (free_count d - 1 - j0)%nat) in *.
           set (r := fill_loop (bzla_bv_set_bit bits z false) (free_count d)
                               (free_count d - (j0 + 1)) (j0 + 1) true).
           assert (Hrb : forall q : nat,
                      Z.testbit (bv_val r) (Z.of_nat q)
                      = if Nat.ltb q z then true
                        else if Nat.eqb q z then false
                             else Z.testbit (bv_val bits) (Z.of_nat q)).
           { intros q. subst r. rewrite fill_loop_testbit by lia.
             replace (free_count d - (j0 + 1))%nat with z by lia.
             rewrite set_bit_testbit. reflexivity. }
           pose proof (drop_value (bv_val bits) (bv_val r) z Hrb) as Hval.
           pose proof (Z.mod_pos_bound (bv_val bits) (2 ^ (Z.of_nat z + 1))
                         ltac:(apply pow2_pos; lia)) as Hmb.
           pose proof (Z.mod_le (bv_val bits) (2 ^ (Z.of_nat z + 1)) ltac:(lia)
                         ltac:(apply pow2_pos; lia)) as Hml.
           pose proof (pow2_pos (Z.of_nat z) ltac:(lia)) as Hpz.
           rewrite HJ3 in Hval, Hml.
           apply (max_break_hi p bits r); try assumption; try lia.
           ++ rewrite (rank_succ_fixed d p Hf). assumption.
           ++ subst r. rewrite fill_loop_width. unfold bzla_bv_set_bit.
              cbn [bv_width]. assumption.
           ++ rewrite (rank_succ_fixed d p Hf). lia.
      * apply (max_break_lo p); try assumption; try lia.
        rewrite (rank_succ_fixed d p Hf). assumption.
      * apply IH; try lia; try assumption.
        rewrite (compose_step_fixed d _ p Hf), Hlo, Hinv. lia.
Qed.

(** [bits_max] as [bzla_bvdomain_gen_init_range] computes it. *)
Lemma bits_max_correct :
  bits_max_ok d max
    (bits_max_loop d max (bv_width (lo d)) (free_count d) (bv_width (lo d))
                   0 0 0 (bzla_bv_ones (free_count d))).
Proof.
  destruct Hwf as (Hlowf & Hhiwf & Hwd).
  pose proof (pow2_pos (Z.of_nat (free_count d)) ltac:(lia)) as Hpp.
  assert (Hones : bv_val (bzla_bv_ones (free_count d))
                  = 2 ^ Z.of_nat (free_count d) - 1).
  { unfold bzla_bv_ones. cbn [bv_val]. rewrite Z.ones_equiv. lia. }
  apply bits_max_loop_ok.
  - reflexivity.
  - reflexivity.
  - reflexivity.
  - rewrite Hones. lia.
  - rewrite Hones. fold (free_count d). apply Z.mod_small. lia.
  - rewrite compose_top by assumption.
    rewrite Z.shiftr_div_pow2 by lia. symmetry. apply Z.div_small.
    unfold bv_wf, zw in Hmax_wf. rewrite Hmax_w in Hmax_wf. exact Hmax_wf.
  - left. rewrite Hones. reflexivity.
Qed.

End BitsMax.


(** ** Draining the generator *)

Lemma domain_copy_id (d : BzlaBvDomain) : bzla_bvdomain_copy d = d.
Proof. destruct d. reflexivity. Qed.

Lemma bv_eta (b : BzlaBitVector) : mk_bv (bv_width b) (bv_val b) = b.
Proof. destruct b. reflexivity. Qed.

Lemma gen_drain_step (fuel : nat) (gen : BzlaBvDomainGenerator) :
  gen_drain (S fuel) gen
  = if bzla_bvdomain_gen_has_next gen then
      match bzla_bvdomain_gen_next gen with
      | Some (v, gen') =>
          match gen_drain fuel gen' with
          | Some l => Some (v :: l)
          | None => None
          end
      | None => None
      end
    else Some [].
Proof. reflexivity. Qed.

Lemma gen_next_counter (d : BzlaBvDomain) (cnt : nat) (bmin bmax : BzlaBitVector)
      (rng : option BzlaRNG) (gmin gmax : BzlaBitVector) (b : Z)
      (cur : option BzlaBitVector) :
  bzla_bvdomain_gen_next
    (mk_gen d (Some (mk_bv cnt b)) (Some bmin) (Some bmax) cur rng gmin gmax)
  = Some (compose d (mk_bv cnt b),
          mk_gen d
                 (if b =? bv_val bmax then None
                  else Some (mk_bv cnt ((b + 1) mod 2 ^ Z.of_nat cnt)))
                 (Some bmin) (Some bmax) (Some (compose d (mk_bv cnt b)))
                 rng gmin gmax).
Proof.
  unfold bzla_bvdomain_gen_next, gen_next_bits.
  cbn [gen_bits gen_bits_min gen_bits_max gen_rng gen_domain gen_min gen_max].
  rewrite compare_eqb. cbn [bv_val].
  unfold compose, bzla_bv_copy, bzla_bv_get_width, bzla_bv_inc, zw.
  cbn [bv_val bv_width].
  destruct (b =? bv_val bmax); reflexivity.
Qed.

Lemma gen_drain_run (d : BzlaBvDomain) (cnt : nat) (bmin bmax : BzlaBitVector)
      (rng : option BzlaRNG) (gmin gmax : BzlaBitVector) (n : nat) :
  forall (b : Z) (cur : option BzlaBitVector),
  0 <= b -> b + Z.of_nat (S n) = bv_val bmax + 1 ->
  bv_val bmax < 2 ^ Z.of_nat cnt ->
  gen_drain (S (S n))
            (mk_gen d (Some (mk_bv cnt b)) (Some bmin) (Some bmax) cur rng gmin gmax)
  = Some (compose_from d cnt b (S n)).
Proof.
  induction n as [|n IH]; intros b cur Hb Hn Hmax.
  - rewrite gen_drain_step. unfold bzla_bvdomain_gen_has_next at 1.
    cbn [gen_bits gen_bits_max]. rewrite compare_leb. cbn [bv_val].
    rewrite (proj2 (Z.leb_le _ _)) by lia.
    rewrite gen_next_counter.
    rewrite (proj2 (Z.eqb_eq _ _)) by lia.
    reflexivity.
  - rewrite gen_drain_step. unfold bzla_bvdomain_gen_has_next at 1.
    cbn [gen_bits gen_bits_max]. rewrite compare_leb. cbn [bv_val].
    rewrite (proj2 (Z.leb_le _ _)) by lia.
    rewrite gen_next_counter.
    rewrite (proj2 (Z.eqb_neq _ _)) by lia.
    rewrite (Z.mod_small (b + 1)) by lia.
    rewrite IH by lia. reflexivity.
Qed.

Lemma in_compose_from (d : BzlaBvDomain) (cnt : nat) (n : nat) (b : Z)
      (v : BzlaBitVector) :
  In v (compose_from d cnt b n)
  <-> exists k : Z, b <= k < b + Z.of_nat n /\ v = compose d (mk_bv cnt k).
Proof.
  revert b. induction n as [|n IH]; intros b; cbn [compose_from In].
  - split; [tauto|]. intros (k & Hk & _). lia.
  - rewrite IH. split.
    + intros [H|(k & Hk & H)].
      * exists b. split; [lia | congruence].
      * exists k. split; [lia | assumption].
    + intros (k & Hk & H).
      destruct (Z.eq_dec k b) as [->|Hne]; [left; congruence|].
      right. exists k. split; [lia | assumption].
Qed.

Lemma compose_from_ascending (d : BzlaBvDomain) (n : nat) (b : Z) :
  bv_wf (lo d) -> 0 <= b -> b + Z.of_nat n <= 2 ^ Z.of_nat (free_count d) ->
  ascending (compose_from d (free_count d) b n).
Proof.
  intros Hlo. revert b. induction n as [|n IH]; intros b Hb Hn; cbn [compose_from].
  - constructor.
  - constructor; [apply IH; lia|].
    apply Forall_forall. intros v Hv.
    apply in_compose_from in Hv. destruct Hv as (k & Hk & ->).
    pose proof (compose_mono d (mk_bv (free_count d) k) (mk_bv (free_count d) b)
                  Hlo) as Hm.
    cbn [bv_val] in Hm. specialize (Hm ltac:(lia) ltac:(lia)).
    destruct (Z.lt_ge_cases (bv_val (compose d (mk_bv (free_count d) b)))
                (bv_val (compose d (mk_bv (free_count d) k)))) as [|Hge];
      [assumption|].
    apply Hm in Hge. lia.
Qed.

Lemma ascending_NoDup (l : list BzlaBitVector) : ascending l -> NoDup l.
Proof.
  induction 1 as [|a l Hs IH Hall]; constructor; [|assumption].
  intros Hin. rewrite Forall_forall in Hall. specialize (Hall a Hin). lia.
Qed.

Lemma not_fixed_has_free (d : BzlaBvDomain) :
  dom_wf d -> bzla_bvdomain_is_fixed d = false -> (1 <= free_count d)%nat.
Proof.
  intros (Hlo & Hhi & Hw) Hf.
  unfold bzla_bvdomain_is_fixed, bzla_bv_is_true, bzla_bv_eq in Hf.
  cbn [bv_width bv_val Nat.eqb andb] in Hf.
  destruct (Z.eqb_spec (bv_val (lo d)) (bv_val (hi d))) as [|Hne];
    [discriminate|].
  destruct (Nat.eq_dec (free_count d) 0) as [E|]; [|lia].
  exfalso. apply Hne. apply bits_inj_nat. intros k.
  destruct (dom_free d k) eqn:Hk.
  - destruct (Nat.lt_ge_cases k (bv_width (lo d))) as [Hlt|Hge].
    + pose proof (rank_lt_free d k (bv_width (lo d)) Hlt Hk).
      unfold free_count in E. lia.
    + rewrite !wf_testbit_above by (try assumption; unfold zw; lia). reflexivity.
  - apply fixed_bits. assumption.
Qed.

Lemma clip_min (d : BzlaBvDomain) (min : option BzlaBitVector) :
  dom_wf d -> bound_ok d min ->
  let m := match min with
           | None => lo d
           | Some m => if bzla_bv_compare (lo d) m >? 0 then lo d else m
           end in
  bv_wf m /\ bv_width m = bv_width (lo d)
  /\ bv_val (lo d) <= bv_val m
  /\ (forall v : BzlaBitVector, bv_val (lo d) <= bv_val v ->
        (bv_val m <= bv_val v
         <-> match min with Some b => bv_val b <= bv_val v | None => True end)).
Proof.
  intros (Hlo & Hhi & Hw) Hb. destruct min as [b|]; cbn zeta.
  - destruct Hb as [Hbw Hbb]. rewrite compare_gtb.
    destruct (Z.ltb_spec (bv_val b) (bv_val (lo d))).
    + split; [assumption|]. split; [reflexivity|]. split; [lia|].
      intros v Hv. lia.
    + split; [assumption|]. split; [assumption|]. split; [lia|].
      intros v Hv. lia.
  - split; [assumption|]. split; [reflexivity|]. split; [lia|].
    intros v Hv. tauto.
Qed.

Lemma clip_max (d : BzlaBvDomain) (max : option BzlaBitVector) :
  dom_wf d -> bound_ok d max ->
  let m := match max with
           | None => hi d
           | Some m => if bzla_bv_compare (hi d) m <? 0 then hi d else m
           end in
  bv_wf m /\ bv_width m = bv_width (lo d)
  /\ bv_val m <= bv_val (hi d)
  /\ (forall v : BzlaBitVector, bv_val v <= bv_val (hi d) ->
        (bv_val v <= bv_val m
         <-> match max with Some b => bv_val v <= bv_val b | None => True end)).
Proof.
  intros (Hlo & Hhi & Hw) Hb. destruct max as [b|]; cbn zeta.
  - destruct Hb as [Hbw Hbb]. rewrite compare_ltb.
    destruct (Z.ltb_spec (bv_val (hi d)) (bv_val b)).
    + split; [assumption|]. split; [assumption|]. split; [lia|].
      intros v Hv. lia.
    + split; [assumption|]. split; [assumption|]. split; [lia|].
      intros v Hv. lia.
  - split; [assumption|]. split; [assumption|]. split; [lia|].
    intros v Hv. tauto.
Qed.

(** C3, as stated, fails in two ways. For a fixed domain the generator is
    empty by its guard on [cnt], although the single member lies in the
    range; for an invalid domain it yields values outside the (empty)
    concretization. *)
Lemma gen_fixed_or_invalid_domain :
  (gen_drain 1 (bzla_bvdomain_gen_init_range None
                  (bzla_bvdomain_new_fixed (mk_bv 4 13)) None None) = Some []
   /\ in_gamma (bzla_bvdomain_new_fixed (mk_bv 4 13)) (mk_bv 4 13)
   /\ in_range None None (mk_bv 4 13))
  /\ (gen_drain 3 (bzla_bvdomain_gen_init_range None invalid_dom2 None None)
      = Some [mk_bv 2 1; mk_bv 2 2]
      /\ ~ in_gamma invalid_dom2 (mk_bv 2 1)).
Proof.
  split; [split; [reflexivity|]|split; [reflexivity|]].
  - split.
    + unfold in_gamma. vm_compute. intuition congruence.
    + split; exact I.
  - intros (_ & _ & _ & H). vm_compute in H. discriminate.
Qed.


(** C3 (amended): for every valid domain [d] that is not fixed (it has an
    unfixed bit) and every pair of optional range bounds of its width,
    draining the generator initialised by [bzla_bvdomain_gen_init_range]
    terminates and yields a strictly ascending sequence without repetition
    whose members are exactly the members of [γ(d)] inside the range. *)
Theorem gen_init_range_exhaustive (rng : option BzlaRNG) (d : BzlaBvDomain)
        (min max : option BzlaBitVector) :
  dom_wf d -> bzla_bvdomain_is_valid d = true ->
  bzla_bvdomain_is_fixed d = false ->
  bound_ok d min -> bound_ok d max ->
  exists (fuel : nat) (l : list BzlaBitVector),
    gen_drain fuel (bzla_bvdomain_gen_init_range rng d min max) = Some l
    /\ ascending l /\ NoDup l
    /\ forall v : BzlaBitVector,
         In v l <-> in_gamma d v /\ in_range min max v.
Proof.
  intros Hwf Hvalid Hfix Hmin Hmax.
  pose proof (not_fixed_has_free d Hwf Hfix) as Hcnt.
  pose proof (clip_min d min Hwf Hmin) as Hm1.
  pose proof (clip_max d max Hwf Hmax) as Hm2.
  unfold bzla_bvdomain_gen_init_range, bzla_bv_get_width.
  rewrite count_free_is_rank, domain_copy_id.
  set (m1 := match min with
             | None => lo d
             | Some m => if bzla_bv_compare (lo d) m >? 0 then lo d else m
             end) in *.
  set (m2 := match max with
             | None => hi d
             | Some m => if bzla_bv_compare (hi d) m <? 0 then hi d else m
             end) in *.
  cbn zeta in Hm1, Hm2.
  destruct Hm1 as (Hm1wf & Hm1w & Hm1lo & Hm1r).
  destruct Hm2 as (Hm2wf & Hm2w & Hm2hi & Hm2r).
  rewrite (proj2 (Nat.eqb_neq (free_count d) 0)) by lia. cbn [negb andb].
  rewrite compare_leb, compare_geb.
  assert (Hempty : (forall v, in_gamma d v -> in_range min max v -> False) ->
    forall g, gen_bits g = None ->
    exists (fuel : nat) (l : list BzlaBitVector),
      gen_drain fuel g = Some l /\ ascending l /\ NoDup l
      /\ forall v, In v l <-> in_gamma d v /\ in_range min max v).
  { intros Hno g Hg. exists 1%nat, []. split.
    - cbn [gen_drain]. unfold bzla_bvdomain_gen_has_next. rewrite Hg. reflexivity.
    - split; [constructor|]. split; [constructor|].
      intros v. split; [intros []|]. intros [H1 H2]. exact (Hno v H1 H2). }
  assert (Hrange : forall v, in_gamma d v ->
            (in_range min max v <-> bv_val m1 <= bv_val v <= bv_val m2)).
  { intros v Hv. pose proof (gamma_bounds d Hwf v Hv) as [Hl Hh].
    unfold in_range. rewrite (Hm1r v Hl), (Hm2r v Hh). tauto. }
  destruct (Z.leb_spec (bv_val m1) (bv_val (hi d))) as [Hle1|Hgt1]; cbn [andb].
  2:{ apply Hempty; [|reflexivity]. intros v Hv Hr.
      apply (Hrange v Hv) in Hr. pose proof (gamma_bounds d Hwf v Hv). lia. }
  destruct (Z.leb_spec (bv_val (lo d)) (bv_val m2)) as [Hle2|Hgt2].
  2:{ apply Hempty; [|reflexivity]. intros v Hv Hr.
      apply (Hrange v Hv) in Hr. pose proof (gamma_bounds d Hwf v Hv). lia. }
  pose proof (bits_min_correct d m1 Hwf Hvalid Hm1wf Hm1w Hle1) as Hbmin.
  pose proof (bits_max_correct d m2 Hwf Hvalid Hm2wf Hm2w Hle2) as Hbmax.
  set (bmin := bits_min_loop d m1 (bv_width (lo d)) (free_count d)
                 (bv_width (lo d)) 0 0 0 (bzla_bv_new (free_count d))) in *.
  set (bmax := bits_max_loop d m2 (bv_width (lo d)) (free_count d)
                 (bv_width (lo d)) 0 0 0 (bzla_bv_ones (free_count d))) in *.
  destruct Hbmin as (Hminw & Hminr & Hminc).
  destruct Hbmax as (Hmaxw & Hmaxr & Hmaxc).
  assert (Hmem : forall v, in_gamma d v /\ in_range min max v
             <-> exists k, bv_val bmin <= k <= bv_val bmax
                           /\ v = compose d (mk_bv (free_count d) k)).
  { intros v. split.
    - intros [Hv Hr]. apply (Hrange v Hv) in Hr.
      pose proof (gamma_is_composed d Hwf v Hv) as Hc.
      pose proof (extract_bound d Hwf Hvalid (bv_val v)) as Hb.
      set (k := extract d (bv_val v) (bv_width (lo d))) in *.
      exists k. split; [|symmetry; exact Hc].
      specialize (Hminc (mk_bv (free_count d) k) Hb).
      specialize (Hmaxc (mk_bv (free_count d) k) Hb).
      rewrite Hc in Hminc, Hmaxc. cbn [bv_val] in *. lia.
    - intros (k & Hk & ->).
      pose proof (compose_in_gamma d Hwf Hvalid (mk_bv (free_count d) k)) as Hg.
      split; [exact Hg|]. apply (Hrange _ Hg).
      specialize (Hminc (mk_bv (free_count d) k) ltac:(cbn [bv_val]; lia)).
      specialize (Hmaxc (mk_bv (free_count d) k) ltac:(cbn [bv_val]; lia)).
      cbn [bv_val] in *. lia. }
  rewrite compare_leb.
  destruct (Z.leb_spec (bv_val bmin) (bv_val bmax)) as [Hle|Hgt].
  - set (n := Z.to_nat (bv_val bmax - bv_val bmin)).
    exists (S (S n)), (compose_from d (free_count d) (bv_val bmin) (S n)).
    split.
    + unfold bzla_bv_copy.
      rewrite <- (bv_eta bmin) at 1. rewrite Hminw.
      apply gen_drain_run; subst n; lia.
    + assert (Hasc : ascending (compose_from d (free_count d) (bv_val bmin) (S n))).
      { apply compose_from_ascending; [apply Hwf | lia | subst n; lia]. }
      split; [exact Hasc|]. split; [apply ascending_NoDup, Hasc|].
      intros v. rewrite in_compose_from, Hmem.
      split; intros (k & Hk & Hv); exists k; (split; [subst n; lia | exact Hv]).
  - apply Hempty; [|reflexivity]. intros v Hv Hr.
    destruct (proj1 (Hmem v) (conj Hv Hr)) as (k & Hk & _). lia.
Qed.

Lemma gen_init_range_exhaustive_witness :
  exists (fuel : nat) (l : list BzlaBitVector),
    gen_drain fuel
      (bzla_bvdomain_gen_init_range None (bzla_bvdomain_new_from_char "x1x0x")
         (Some (mk_bv 5 9)) (Some (mk_bv 5 27))) = Some l
    /\ ascending l /\ NoDup l
    /\ forall v : BzlaBitVector,
         In v l <-> in_gamma (bzla_bvdomain_new_from_char "x1x0x") v
                    /\ in_range (Some (mk_bv 5 9)) (Some (mk_bv 5 27)) v.
Proof.
  apply (gen_init_range_exhaustive None (bzla_bvdomain_new_from_char "x1x0x")
           (Some (mk_bv 5 9)) (Some (mk_bv 5 27))).
  - vm_compute. intuition congruence.
  - reflexivity.
  - reflexivity.
  - vm_compute. intuition congruence.
  - vm_compute. intuition congruence.
Defined.


(** ** The wheel factorizer *)

Lemma wfact_init_state (n : BzlaBitVector) (limit : Z) :
  bv_wf n -> 1 <= bv_val n ->
  wheel_state (bv_width n) limit (wfact_init n limit).
Proof.
  intros Hn Hpos. unfold wheel_state, wfact_init, bzla_bv_copy, bzla_bv_get_width.
  cbn [wf_num wf_fact wf_limit wf_inc bv_width bv_val].
  unfold bv_wf, zw in Hn.
  repeat split; try reflexivity; try lia.
  - apply Z.mod_pos_bound. apply pow2_pos. lia.
  - apply Z.mod_pos_bound. apply pow2_pos. lia.
Qed.

Ltac wf_simpl :=
  cbn [wf_set_done wf_set_num wf_set_fact_pos wf_num wf_fact wf_limit wf_inc
       wf_done wf_pos].

(** One iteration of the loop, by its exits. *)
Lemma wfact_next_loop_step (fuel : nat) (wf : WheelFactorizer) (it : Z) :
  wfact_next_loop (S fuel) wf it
  = let it' := uint64_wrap (it + 1) in
    if negb (wf_limit wf =? 0) && (it' >? wf_limit wf) then
      Some (None, wf_set_done wf)
    else if bv_val (wf_num wf)
            <? (bv_val (wf_fact wf) * bv_val (wf_fact wf))
               mod 2 ^ zw (wf_fact wf)
    then Some (Some (wf_num wf), wf_set_done wf)
    else if bv_val (bzla_bv_urem (wf_num wf) (wf_fact wf)) =? 0
    then Some (Some (wf_fact wf),
               wf_set_num wf (bzla_bv_udiv (wf_num wf) (wf_fact wf)))
    else
      let tmp := bzla_bv_add (wf_fact wf)
                             (nth (wf_pos wf) (wf_inc wf) (bzla_bv_zero 0)) in
      let wf' := wf_set_fact_pos wf tmp
                   (if Nat.eqb (wf_pos wf) 10 then 3%nat
                    else (wf_pos wf + 1)%nat) in
      if bv_val tmp <=? bv_val (wf_fact wf) then Some (None, wf_set_done wf')
      else wfact_next_loop fuel wf' it'.
Proof.
  cbn [wfact_next_loop]. cbn zeta.
  rewrite compare_gtb, compare_leb. unfold bzla_bv_udiv_urem, bzla_bv_is_zero.
  reflexivity.
Qed.

Lemma urem_zero_divides (num fact : BzlaBitVector) :
  1 <= bv_val num -> 0 <= bv_val fact ->
  bv_val (bzla_bv_urem num fact) = 0 ->
  1 <= bv_val fact
  /\ bv_val num = bv_val fact * bv_val (bzla_bv_udiv num fact)
  /\ 1 <= bv_val (bzla_bv_udiv num fact) <= bv_val num.
Proof.
  intros Hn Hf H. unfold bzla_bv_urem, bzla_bv_udiv in *. cbn [bv_val] in *.
  destruct (Z.eqb_spec (bv_val fact) 0) as [E|NE]; [lia|].
  assert (Hfp : 0 < bv_val fact) by lia.
  pose proof (Z.div_mod (bv_val num) (bv_val fact) ltac:(lia)) as D.
  rewrite H in D.
  split; [lia|]. split; [lia|].
  assert (0 < bv_val num / bv_val fact) by nia.
  split; [lia|]. nia.
Qed.

(** What a call preserves and what it returns, whatever the width and the
    limit: a returned value divides the number that was left, and what is
    left afterwards divides it too. *)
Lemma wfact_next_loop_sound (w : nat) (limit : Z) (fuel : nat) :
  forall (wf : WheelFactorizer) (it : Z) (r : option BzlaBitVector)
         (wf' : WheelFactorizer),
  wheel_state w limit wf ->
  wfact_next_loop fuel wf it = Some (r, wf') ->
  wheel_state w limit wf'
  /\ (wf_done wf' = false ->
      wf_done wf = false /\ bv_val (wf_fact wf) <= bv_val (wf_fact wf'))
  /\ match r with
     | None => wf_done wf' = true /\ wf_num wf' = wf_num wf
     | Some f =>
         bv_width f = w
         /\ ((f = wf_num wf /\ wf_done wf' = true /\ wf_num wf' = wf_num wf)
             \/ (f = wf_fact wf' /\ wf_done wf' = wf_done wf
                 /\ bv_val (wf_num wf) = bv_val f * bv_val (wf_num wf')))
     end.
Proof.
  induction fuel as [|fuel IH]; intros wf it r wf' Hst H; [discriminate|].
  rewrite wfact_next_loop_step in H. cbn zeta in H.
  destruct Hst as (Hwn & Hwf & Hn & Hf & Hl & Hinc).
  destruct (negb (wf_limit wf =? 0) && (uint64_wrap (it + 1) >? wf_limit wf)).
  { injection H as <- <-. split; [repeat split; assumption || (wf_simpl; lia)|].
    split; [wf_simpl; discriminate|]. split; reflexivity. }
  destruct (bv_val (wf_num wf) <? _).
  { injection H as <- <-. split; [repeat split; assumption || (wf_simpl; lia)|].
    split; [wf_simpl; discriminate|].
    split; [assumption|]. left. auto. }
  destruct (Z.eqb_spec (bv_val (bzla_bv_urem (wf_num wf) (wf_fact wf))) 0)
    as [Hz|Hnz].
  { injection H as <- <-.
    destruct (urem_zero_divides (wf_num wf) (wf_fact wf) ltac:(lia) ltac:(lia) Hz)
      as (Hf1 & Hq & Hq1).
    split.
    - unfold wheel_state. cbn [wf_set_num wf_num wf_fact wf_limit wf_inc].
      unfold bzla_bv_udiv at 1. cbn [bv_width].
      repeat split; try assumption; try lia.
    - cbn [wf_set_num wf_num wf_fact wf_done].
      split; [intros Hd; split; [assumption | lia]|].
      split; [assumption|]. right. auto. }
  set (tmp := bzla_bv_add (wf_fact wf)
                (nth (wf_pos wf) (wf_inc wf) (bzla_bv_zero 0))) in *.
  assert (Htmp : 0 <= bv_val tmp < 2 ^ Z.of_nat w).
  { subst tmp. unfold bzla_bv_add, zw. cbn [bv_val]. rewrite Hwf.
    apply Z.mod_pos_bound. apply pow2_pos. lia. }
  assert (Htw : bv_width tmp = w) by (subst tmp; exact Hwf).
  destruct (Z.leb_spec (bv_val tmp) (bv_val (wf_fact wf))) as [Hle|Hgt].
  { injection H as <- <-. split.
    - unfold wheel_state. wf_simpl. repeat split; try assumption; try lia.
    - wf_simpl. split; [discriminate|]. split; reflexivity. }
  apply IH in H.
  - cbn [wf_set_fact_pos wf_num wf_fact wf_done] in H.
    destruct H as (Hst' & Hfle & Hr).
    split; [assumption|].
    split; [intros Hd; specialize (Hfle Hd); split; [tauto | lia]|].
    exact Hr.
  - unfold wheel_state. wf_simpl. repeat split; try assumption; try lia.
Qed.

(** Every call returns: a step that does not end the loop moves [fact]
    strictly up, below [2 ^ w]. *)
Lemma wfact_next_loop_total (w : nat) (limit : Z) (fuel : nat) :
  forall (wf : WheelFactorizer) (it : Z),
  wheel_state w limit wf ->
  2 ^ Z.of_nat w - bv_val (wf_fact wf) <= Z.of_nat fuel ->
  exists res, wfact_next_loop fuel wf it = Some res.
Proof.
  induction fuel as [|fuel IH]; intros wf it Hst Hfuel.
  - destruct Hst as (_ & _ & _ & Hf & _). lia.
  - rewrite wfact_next_loop_step. cbn zeta.
    destruct Hst as (Hwn & Hwf & Hn & Hf & Hl & Hinc).
    destruct (negb (wf_limit wf =? 0) && (uint64_wrap (it + 1) >? wf_limit wf));
      [eauto|].
    destruct (bv_val (wf_num wf) <? _); [eauto|].
    destruct (bv_val (bzla_bv_urem (wf_num wf) (wf_fact wf)) =? 0); [eauto|].
    set (tmp := bzla_bv_add (wf_fact wf)
                  (nth (wf_pos wf) (wf_inc wf) (bzla_bv_zero 0))) in *.
    assert (Htmp : 0 <= bv_val tmp < 2 ^ Z.of_nat w).
    { subst tmp. unfold bzla_bv_add, zw. cbn [bv_val]. rewrite Hwf.
      apply Z.mod_pos_bound. apply pow2_pos. lia. }
    assert (Htw : bv_width tmp = w) by (subst tmp; exact Hwf).
    destruct (Z.leb_spec (bv_val tmp) (bv_val (wf_fact wf))) as [Hle|Hgt];
      [eauto|].
    apply IH.
    + unfold wheel_state. wf_simpl. repeat split; try assumption; try lia.
    + cbn [wf_set_fact_pos wf_fact]. lia.
Qed.


Lemma check_fixed_bits_agree_any (d : BzlaBvDomain) (b : BzlaBitVector) :
  bzla_bvdomain_check_fixed_bits d b = true -> fixed_bits_agree d b.
Proof.
  rewrite check_fixed_bits_eq. intros H i Hi Hf.
  apply is_fixed_bit_iff in Hf. unfold bzla_bv_get_bit.
  apply (testbit_of_eq _ _ (Z.of_nat i)) in H.
  rewrite Z.lor_spec, Z.land_spec in H.
  destruct (Z.testbit (bv_val (lo d)) (Z.of_nat i)),
    (Z.testbit (bv_val b) (Z.of_nat i)),
    (Z.testbit (bv_val (hi d)) (Z.of_nat i)); simpl in *; congruence.
Qed.

Lemma wfact_next_sound (w : nat) (limit : Z) (fuel : nat) (wf : WheelFactorizer)
      (r : option BzlaBitVector) (wf' : WheelFactorizer) :
  wheel_state w limit wf ->
  wfact_next fuel wf = Some (r, wf') ->
  wheel_state w limit wf'
  /\ (bv_val (wf_num wf') | bv_val (wf_num wf))
  /\ (wf_done wf' = false ->
      wf_done wf = false /\ bv_val (wf_fact wf) <= bv_val (wf_fact wf'))
  /\ match r with
     | None => wf_done wf' = true
     | Some f =>
         bv_width f = w /\ (bv_val f | bv_val (wf_num wf))
         /\ (wf_done wf' = false ->
             f = wf_fact wf'
             /\ bv_val (wf_num wf) = bv_val f * bv_val (wf_num wf'))
     end.
Proof.
  intros Hst H. unfold wfact_next in H.
  destruct (wf_done wf) eqn:Hd.
  - injection H as <- <-. split; [assumption|]. split; [apply Z.divide_refl|].
    split; [congruence | exact Hd].
  - apply (wfact_next_loop_sound w limit) in H; [|assumption].
    destruct H as (Hst' & Hfle & Hr). split; [assumption|].
    rewrite Hd in Hfle.
    destruct r as [f|].
    + destruct Hr as (Hfw & [(-> & Hd' & Hn)|(-> & Hd' & Hn)]).
      * split; [rewrite Hn; apply Z.divide_refl|]. split; [assumption|].
        split; [assumption|]. split; [apply Z.divide_refl|]. congruence.
      * split; [exists (bv_val (wf_fact wf')); lia|]. split; [assumption|].
        split; [assumption|].
        split; [exists (bv_val (wf_num wf')); lia|]. auto.
    + destruct Hr as [Hd' Hn]. split; [rewrite Hn; apply Z.divide_refl|].
      split; assumption.
Qed.

Lemma wfact_next_total (w : nat) (limit : Z) (fuel : nat) (wf : WheelFactorizer) :
  wheel_state w limit wf ->
  2 ^ Z.of_nat w - bv_val (wf_fact wf) <= Z.of_nat fuel ->
  exists res, wfact_next fuel wf = Some res.
Proof.
  intros Hst Hf. unfold wfact_next. destruct (wf_done wf); [eauto|].
  apply (wfact_next_loop_total w limit); assumption.
Qed.

Lemma get_factor_loop_sound (w : nat) (limit : Z) (n : Z) (fuel : nat)
      (x : option BzlaBvDomain) (excl : option BzlaBitVector) (calls : nat) :
  forall (wf : WheelFactorizer) (r : option BzlaBitVector),
  wheel_state w limit wf ->
  (bv_val (wf_num wf) | n) ->
  get_factor_loop fuel calls wf x excl = Some r ->
  match r with
  | None => True
  | Some f =>
      bv_width f = w /\ (bv_val f | n)
      /\ (forall e, excl = Some e -> bv_val e < bv_val f)
      /\ (forall d, x = Some d -> fixed_bits_agree d f)
  end.
Proof.
  induction calls as [|calls IH]; intros wf r Hst Hdiv H; [discriminate|].
  cbn [get_factor_loop] in H.
  destruct (wfact_next fuel wf) as [[[f|] wf']|] eqn:E; [| |discriminate].
  - destruct (wfact_next_sound w limit fuel wf _ _ Hst E)
      as (Hst' & Hdiv' & _ & Hfw & Hfd & _).
    destruct ((match excl with
               | Some e => bzla_bv_compare f e >? 0
               | None => true
               end)
              && (match x with
                  | Some x0 => bzla_bvdomain_check_fixed_bits x0 f
                  | None => true
                  end)) eqn:Ec.
    + injection H as <-. unfold bzla_bv_copy.
      apply andb_true_iff in Ec. destruct Ec as [Ee Ex].
      split; [assumption|]. split; [eapply Z.divide_trans; eassumption|].
      split.
      * intros e ->. rewrite compare_gtb in Ee. apply Z.ltb_lt. exact Ee.
      * intros d ->. apply check_fixed_bits_agree_any. exact Ex.
    + apply (IH wf' r Hst'); [|assumption].
      eapply Z.divide_trans; eassumption.
  - injection H as <-. exact I.
Qed.

Lemma get_factor_loop_total (w : nat) (limit : Z) (fuel : nat)
      (x : option BzlaBvDomain) (excl : option BzlaBitVector) (calls : nat) :
  2 ^ Z.of_nat w <= Z.of_nat fuel ->
  forall wf : WheelFactorizer,
  wheel_state w limit wf ->
  ((wf_done wf = true /\ (1 <= calls)%nat)
   \/ (wf_done wf = false /\ 2 <= bv_val (wf_fact wf)
       /\ bv_val (wf_num wf) + 1 <= Z.of_nat calls)) ->
  exists r, get_factor_loop fuel calls wf x excl = Some r.
Proof.
  intros Hfuel. induction calls as [|calls IH]; intros wf Hst Hc.
  - destruct Hst as (_ & _ & Hn & _). lia.
  - cbn [get_factor_loop].
    destruct (wfact_next_total w limit fuel wf Hst) as ([r0 wf'] & E).
    { destruct Hst as (_ & _ & _ & Hf & _). lia. }
    rewrite E.
    destruct (wfact_next_sound w limit fuel wf _ _ Hst E)
      as (Hst' & Hdiv' & Hfle & Hr).
    destruct r0 as [f|]; [|eauto].
    destruct (_ && _); [eauto|].
    apply IH; [assumption|].
    destruct Hc as [[Hd Hc]|(Hd & Hf2 & Hc)].
    + (* already done: the call returned null *)
      unfold wfact_next in E. rewrite Hd in E. discriminate.
    + destruct (wf_done wf') eqn:Hd'.
      * left. split; [reflexivity|]. destruct Hst as (_ & _ & Hn & _). lia.
      * right. split; [reflexivity|].
        destruct Hr as (_ & _ & Hr). destruct (Hr eq_refl) as [-> Hmul].
        destruct (Hfle eq_refl) as [_ Hle].
        destruct Hst' as (_ & _ & Hn' & _).
        split; [lia|]. nia.
Qed.

(** Whatever [bzla_bvdomain_get_factor] returns on a positive [num] is
    null or a bit-vector [f] of the width of [num] that divides [num],
    exceeds [excl_min_val] when one is given, and agrees with every fixed
    bit of [x] when one is given; and the call does return when the width
    can hold the first candidate [2], i.e. is at least two. *)
Theorem get_factor_result (num : BzlaBitVector) (x : option BzlaBvDomain)
        (excl_min_val : option BzlaBitVector) (limit : Z) :
  bv_wf num -> 1 <= bv_val num ->
  (forall (fuel calls : nat) (r : option BzlaBitVector),
     bzla_bvdomain_get_factor fuel calls num x excl_min_val limit = Some r ->
     match r with
     | None => True
     | Some f =>
         bv_width f = bv_width num
         /\ (bv_val f | bv_val num)
         /\ (forall e, excl_min_val = Some e -> bv_val e < bv_val f)
         /\ (forall d, x = Some d -> fixed_bits_agree d f)
     end)
  /\ ((2 <= bv_width num)%nat ->
      exists (fuel calls : nat) (r : option BzlaBitVector),
        bzla_bvdomain_get_factor fuel calls num x excl_min_val limit = Some r).
Proof.
  intros Hwf Hpos.
  pose proof (wfact_init_state num limit Hwf Hpos) as Hst.
  split.
  - intros fuel calls r H. unfold bzla_bvdomain_get_factor in H.
    apply (get_factor_loop_sound (bv_width num) limit (bv_val num)) in H;
      [exact H | exact Hst | apply Z.divide_refl].
  - intros Hw.
    exists (Z.to_nat (2 ^ Z.of_nat (bv_width num))), (Z.to_nat (bv_val num + 1)).
    unfold bzla_bvdomain_get_factor.
    apply (get_factor_loop_total (bv_width num) limit).
    + pose proof (pow2_pos (Z.of_nat (bv_width num)) ltac:(lia)). lia.
    + exact Hst.
    + right. split; [reflexivity|].
      unfold wfact_init, bzla_bv_copy, bzla_bv_uint64_to_bv, bzla_bv_get_width.
      cbn [wf_fact wf_num bv_val].
      split; [|lia].
      rewrite Z.mod_small; [lia|].
      split; [lia|]. change 2 with (2 ^ 1) at 1.
      apply Z.pow_lt_mono_r; lia.
Qed.

Lemma get_factor_result_witness :
  bzla_bvdomain_get_factor 300 80 (mk_bv 8 77)
    (Some (bzla_bvdomain_new_from_char "xxxxxxx1")) (Some (mk_bv 8 7)) 0
  = Some (Some (mk_bv 8 11))
  /\ (11 | 77).
Proof.
  pose proof (get_factor_result (mk_bv 8 77)
                (Some (bzla_bvdomain_new_from_char "xxxxxxx1"))
                (Some (mk_bv 8 7)) 0) as H.
  destruct H as [H _].
  - vm_compute. intuition congruence.
  - vm_compute. congruence.
  - assert (E : bzla_bvdomain_get_factor 300 80 (mk_bv 8 77)
                  (Some (bzla_bvdomain_new_from_char "xxxxxxx1"))
                  (Some (mk_bv 8 7)) 0 = Some (Some (mk_bv 8 11)))
      by (vm_compute; reflexivity).
    split; [exact E|].
    apply H in E. destruct E as (_ & Hd & _). exact Hd.
Defined.

(** ** Width one: the factor 1 for ever *)

Lemma limit_guard_off (limit it : Z) :
  limit = 0 \/ it <= limit ->
  negb (limit =? 0) && (it >? limit) = false.
Proof.
  intros [->|H]; [reflexivity|].
  rewrite Z.gtb_ltb, (proj2 (Z.ltb_ge limit it)) by lia.
  apply andb_false_r.
Qed.

(** At width one the wheel starts at [2 mod 2 = 0], moves to [1] and finds
    that [1] divides what is left; the factorizer it leaves returns [1]
    again on every later call. *)
Lemma wfact_width1_first (limit : Z) (fuel : nat) :
  limit = 0 \/ 2 <= limit ->
  wfact_next (S (S fuel)) (wfact_init (mk_bv 1 1) limit)
  = Some (Some (mk_bv 1 1),
          wf_set_num
            (wf_set_fact_pos (wfact_init (mk_bv 1 1) limit) (mk_bv 1 1) 1)
            (mk_bv 1 1)).
Proof.
  intros HL. unfold wfact_next.
  change (wf_done (wfact_init (mk_bv 1 1) limit)) with false. cbv iota.
  rewrite wfact_next_loop_step. cbv zeta.
  change (wf_limit (wfact_init (mk_bv 1 1) limit)) with limit.
  change (uint64_wrap (0 + 1)) with 1.
  rewrite (limit_guard_off limit 1) by lia.
  change (bv_val (wf_num (wfact_init (mk_bv 1 1) limit))
          <? (bv_val (wf_fact (wfact_init (mk_bv 1 1) limit))
              * bv_val (wf_fact (wfact_init (mk_bv 1 1) limit)))
             mod 2 ^ zw (wf_fact (wfact_init (mk_bv 1 1) limit)))
    with false. cbv iota.
  change (bv_val (bzla_bv_urem (wf_num (wfact_init (mk_bv 1 1) limit))
                    (wf_fact (wfact_init (mk_bv 1 1) limit))) =? 0)
    with false. cbv iota.
  change (bzla_bv_add (wf_fact (wfact_init (mk_bv 1 1) limit))
            (nth (wf_pos (wfact_init (mk_bv 1 1) limit))
               (wf_inc (wfact_init (mk_bv 1 1) limit)) (bzla_bv_zero 0)))
    with (mk_bv 1 1).
  change (bv_val (mk_bv 1 1)
          <=? bv_val (wf_fact (wfact_init (mk_bv 1 1) limit))) with false.
  cbv iota.
  change (if Nat.eqb (wf_pos (wfact_init (mk_bv 1 1) limit)) 10
          then 3%nat else (wf_pos (wfact_init (mk_bv 1 1) limit) + 1)%nat)
    with 1%nat.
  rewrite wfact_next_loop_step. cbv zeta.
  change (wf_limit (wf_set_fact_pos (wfact_init (mk_bv 1 1) limit) (mk_bv 1 1) 1))
    with limit.
  change (uint64_wrap (1 + 1)) with 2.
  rewrite (limit_guard_off limit 2) by lia.
  reflexivity.
Qed.

Lemma wfact_width1_again (limit : Z) (fuel : nat) :
  limit = 0 \/ 1 <= limit ->
  wfact_next (S fuel)
    (wf_set_num
       (wf_set_fact_pos (wfact_init (mk_bv 1 1) limit) (mk_bv 1 1) 1)
       (mk_bv 1 1))
  = Some (Some (mk_bv 1 1),
          wf_set_num
            (wf_set_fact_pos (wfact_init (mk_bv 1 1) limit) (mk_bv 1 1) 1)
            (mk_bv 1 1)).
Proof.
  intros HL. unfold wfact_next.
  set (wf := wf_set_num _ _).
  change (wf_done wf) with false. cbv iota.
  rewrite wfact_next_loop_step. cbv zeta.
  change (wf_limit wf) with limit.
  change (uint64_wrap (0 + 1)) with 1.
  rewrite (limit_guard_off limit 1) by lia.
  reflexivity.
Qed.

Lemma wfact_width1_short (limit : Z) :
  limit = 0 \/ 2 <= limit ->
  wfact_next 1 (wfact_init (mk_bv 1 1) limit) = None.
Proof.
  intros HL. unfold wfact_next.
  change (wf_done (wfact_init (mk_bv 1 1) limit)) with false. cbv iota.
  rewrite wfact_next_loop_step. cbv zeta.
  change (wf_limit (wfact_init (mk_bv 1 1) limit)) with limit.
  change (uint64_wrap (0 + 1)) with 1.
  rewrite (limit_guard_off limit 1) by lia.
  reflexivity.
Qed.

Lemma width1_factor_rejected (x : option BzlaBvDomain)
      (excl : option BzlaBitVector) :
  (exists e, excl = Some e /\ 1 <= bv_val e)
  \/ (exists d, x = Some d
                /\ bzla_bvdomain_check_fixed_bits d (mk_bv 1 1) = false) ->
  (match excl with
   | None => true
   | Some e => bzla_bv_compare (mk_bv 1 1) e >? 0
   end)
  && (match x with
      | None => true
      | Some x => bzla_bvdomain_check_fixed_bits x (mk_bv 1 1)
      end) = false.
Proof.
  intros [(e & -> & He)|(d & -> & Hd)].
  - rewrite compare_gtb. cbn [bv_val].
    rewrite (proj2 (Z.ltb_ge (bv_val e) 1)) by lia. reflexivity.
  - rewrite Hd. apply andb_false_r.
Qed.

Lemma get_factor_loop_width1_stuck (limit : Z) (fuel : nat)
      (x : option BzlaBvDomain) (excl : option BzlaBitVector) :
  limit = 0 \/ 1 <= limit ->
  (exists e, excl = Some e /\ 1 <= bv_val e)
  \/ (exists d, x = Some d
                /\ bzla_bvdomain_check_fixed_bits d (mk_bv 1 1) = false) ->
  forall calls : nat,
  get_factor_loop fuel calls
    (wf_set_num
       (wf_set_fact_pos (wfact_init (mk_bv 1 1) limit) (mk_bv 1 1) 1)
       (mk_bv 1 1)) x excl = None.
Proof.
  intros HL Hrej. induction calls as [|calls IH]; [reflexivity|].
  cbn [get_factor_loop]. destruct fuel as [|fuel]; [reflexivity|].
  rewrite (wfact_width1_again limit fuel HL).
  rewrite (width1_factor_rejected x excl Hrej). exact IH.
Qed.

(** C10 (code bug): at width one [bzla_bvdomain_get_factor] need not
    return. The only positive [num] is [1]; the wheel starts at
    [2 mod 2 = 0], steps to [1], and from then on every call of
    [wfact_next] returns the factor [1] and leaves the factorizer as it
    was. With no step limit, or one of two or more, and a filter that
    turns [1] down ([excl_min_val >= 1], or a domain [x] that does not
    hold [1]), the loop of [bzla_bvdomain_get_factor] never ends: no
    number of rounds and calls gives a result. *)
Theorem get_factor_width1_never_returns (num : BzlaBitVector)
        (x : option BzlaBvDomain) (excl_min_val : option BzlaBitVector)
        (limit : Z) :
  bv_wf num -> bv_width num = 1%nat -> 1 <= bv_val num ->
  limit = 0 \/ 2 <= limit ->
  (exists e, excl_min_val = Some e /\ 1 <= bv_val e)
  \/ (exists d, x = Some d
                /\ bzla_bvdomain_check_fixed_bits d (mk_bv 1 1) = false) ->
  forall fuel calls : nat,
    bzla_bvdomain_get_factor fuel calls num x excl_min_val limit = None.
Proof.
  intros Hwf Hw Hpos HL Hrej fuel calls.
  assert (E : num = mk_bv 1 1).
  { destruct num as [w v]. cbn [bv_width bv_val] in *. subst w.
    unfold bv_wf, zw in Hwf. cbn [bv_width bv_val] in Hwf.
    change (2 ^ Z.of_nat 1) with 2 in Hwf. f_equal. lia. }
  subst num. unfold bzla_bvdomain_get_factor. cbv zeta.
  destruct calls as [|calls]; [reflexivity|].
  cbn [get_factor_loop].
  destruct fuel as [|[|fuel]].
  - reflexivity.
  - rewrite (wfact_width1_short limit HL). reflexivity.
  - rewrite (wfact_width1_first limit fuel HL).
    rewrite (width1_factor_rejected x excl_min_val Hrej).
    apply get_factor_loop_width1_stuck; [lia | exact Hrej].
Qed.

Lemma get_factor_width1_never_returns_witness :
  (bv_wf (mk_bv 1 1) /\ 1 <= bv_val (mk_bv 1 1))
  /\ (forall fuel calls : nat,
        bzla_bvdomain_get_factor fuel calls (mk_bv 1 1) None
          (Some (mk_bv 1 1)) 0 = None)
  /\ (forall fuel calls : nat,
        bzla_bvdomain_get_factor fuel calls (mk_bv 1 1)
          (Some (bzla_bvdomain_new_from_char "0")) None 2 = None).
Proof.
  split; [vm_compute; intuition congruence|].
  split.
  - apply (get_factor_width1_never_returns (mk_bv 1 1) None
             (Some (mk_bv 1 1)) 0).
    + vm_compute. intuition congruence.
    + reflexivity.
    + vm_compute. congruence.
    + left. reflexivity.
    + left. exists (mk_bv 1 1). split; [reflexivity|]. cbn. lia.
  - apply (get_factor_width1_never_returns (mk_bv 1 1)
             (Some (bzla_bvdomain_new_from_char "0")) None 2).
    + vm_compute. intuition congruence.
    + reflexivity.
    + vm_compute. congruence.
    + right. lia.
    + right. exists (bzla_bvdomain_new_from_char "0").
      split; reflexivity.
Defined.

(** ** The sequence of factors *)



(** ** The wheel visits every candidate that matters *)

Lemma pow2_ge_8 (w : nat) : (3 <= w)%nat -> 8 <= 2 ^ Z.of_nat w.
Proof.
  intros H. change 8 with (2 ^ 3). apply Z.pow_le_mono_r; lia.
Qed.

Lemma wheel_inc_value (w : nat) (limit : Z) (pos : nat) :
  (3 <= w)%nat -> (pos <= 10)%nat ->
  bv_val (nth pos (wf_inc (wfact_init (mk_bv w 0) limit)) (bzla_bv_zero 0))
  = wheel_step pos.
Proof.
  intros Hw Hp. pose proof (pow2_ge_8 w Hw) as H8.
  unfold wfact_init, bzla_bv_get_width, bzla_bv_one, bzla_bv_uint64_to_bv.
  cbn [wf_inc bv_width].
  do 11 (destruct pos as [|pos];
         [cbn [nth bv_val wheel_step]; apply Z.mod_small; lia|]).
  lia.
Qed.

Lemma wheel_ok_ge_2 (fact : Z) (pos : nat) : wheel_ok fact pos -> 2 <= fact.
Proof.
  intros (Hp & Hlow & Hhigh).
  destruct (Nat.le_gt_cases pos 2) as [H|H].
  - rewrite (Hlow H). destruct pos as [|[|[|pos]]]; cbn; lia.
  - destruct (Hhigh ltac:(lia)). lia.
Qed.

Lemma wheel_ok_next (fact : Z) (pos : nat) :
  wheel_ok fact pos ->
  wheel_ok (fact + wheel_step pos)
           (if Nat.eqb pos 10 then 3%nat else (pos + 1)%nat).
Proof.
  intros (Hp & Hlow & Hhigh).
  unfold wheel_ok.
  do 3 (destruct pos as [|pos];
        [specialize (Hlow ltac:(lia));
         cbn [wheel_residue wheel_step nth Nat.eqb Nat.add] in *; subst fact;
         split; [lia|]; split; [intros; lia|];
         intros; lia || (split; [lia | reflexivity])|]).
  destruct (Hhigh ltac:(lia)) as [H7 Hm].
  pose proof (Z.div_mod fact 30 ltac:(lia)) as D. rewrite Hm in D.
  set (q := fact / 30) in *.
  unfold wheel_ok.
  do 8 (destruct pos as [|pos];
        [cbn [wheel_residue wheel_step nth Nat.eqb Nat.add] in *;
         split; [lia|]; split; [intros; lia|];
         intros _; split; [lia|]; clear Hm; Z.div_mod_to_equations; lia|]).
  lia.
Qed.

Lemma wheel_between (fact : Z) (pos : nat) (k : Z) :
  wheel_ok fact pos -> fact < k < fact + wheel_step pos ->
  exists m : Z, 2 <= m < fact /\ (m | k).
Proof.
  intros (Hp & Hlow & Hhigh) Hk.
  do 3 (destruct pos as [|pos];
        [specialize (Hlow ltac:(lia));
         cbn [wheel_residue wheel_step nth] in *; subst fact;
         first [ lia
               | exists 2; split; [lia|]; apply Z.mod_divide; [lia|];
                 Z.div_mod_to_equations; lia ]|]).
  destruct (Hhigh ltac:(lia)) as [H7 Hm].
  pose proof (Z.div_mod fact 30 ltac:(lia)) as D. rewrite Hm in D.
  set (q := fact / 30) in *.
  do 8 (destruct pos as [|pos];
        [cbn [wheel_residue wheel_step nth Nat.eqb Nat.add] in *;
         clear Hm;
         assert (Hc : k = fact + 1 \/ k = fact + 2 \/ k = fact + 3
                      \/ k = fact + 4 \/ k = fact + 5) by lia;
         destruct Hc as [->|[->|[->|[->| ->]]]];
         first [ lia
               | exists 2; split; [lia|]; apply Z.mod_divide; [lia|];
                 Z.div_mod_to_equations; lia
               | exists 3; split; [lia|]; apply Z.mod_divide; [lia|];
                 Z.div_mod_to_equations; lia
               | exists 5; split; [lia|]; apply Z.mod_divide; [lia|];
                 Z.div_mod_to_equations; lia ]|]).
  lia.
Qed.

Lemma no_small_step (fact num : Z) (pos : nat) :
  wheel_ok fact pos -> no_small_factor fact num -> ~ (fact | num) ->
  no_small_factor (fact + wheel_step pos) num.
Proof.
  intros Hok Hns Hnd k Hk Hdiv.
  destruct (Z.lt_trichotomy k fact) as [Hlt|[->|Hgt]].
  - exact (Hns k ltac:(lia) Hdiv).
  - exact (Hnd Hdiv).
  - destruct (wheel_between fact pos k Hok ltac:(lia)) as (m & Hm & Hmk).
    apply (Hns m Hm). eapply Z.divide_trans; eassumption.
Qed.

Lemma no_small_quotient (fact num f num' : Z) :
  no_small_factor fact num -> num = f * num' -> no_small_factor fact num'.
Proof.
  intros Hns -> k Hk Hdiv. apply (Hns k Hk).
  apply Z.divide_mul_r. exact Hdiv.
Qed.

Lemma wheel_no_overflow (fact num : Z) (pos : nat) :
  wheel_ok fact pos -> no_small_factor fact num -> 2 <= num ->
  ~ (fact | num) -> fact + wheel_step pos <= num.
Proof.
  intros Hok Hns Hn Hnd.
  destruct (Z.le_gt_cases (fact + wheel_step pos) num) as [|Hgt]; [assumption|].
  exfalso.
  destruct (Z.lt_trichotomy num fact) as [Hlt|[->|Hgt']].
  - apply (Hns num ltac:(lia)). apply Z.divide_refl.
  - apply Hnd. apply Z.divide_refl.
  - destruct (wheel_between fact pos num Hok ltac:(lia)) as (m & Hm & Hmk).
    exact (Hns m Hm Hmk).
Qed.

Lemma wheel_step_range (pos : nat) : (pos <= 10)%nat -> 1 <= wheel_step pos <= 6.
Proof.
  intros H. do 11 (destruct pos as [|pos]; [cbn; lia|]). lia.
Qed.

Lemma urem_nonzero_not_divides (num fact : BzlaBitVector) :
  2 <= bv_val fact -> 1 <= bv_val num ->
  bv_val (bzla_bv_urem num fact) <> 0 -> ~ (bv_val fact | bv_val num).
Proof.
  intros Hf Hn H Hdiv. apply H. unfold bzla_bv_urem. cbn [bv_val].
  rewrite (proj2 (Z.eqb_neq _ _)) by lia.
  apply Z.mod_divide; [lia | assumption].
Qed.








(** ** The candidate loop of the [urem] check *)

Lemma urem_candidates_loop_drain (x : BzlaBvDomain) (t s : BzlaBitVector)
      (fuel : nat) :
  forall (gen : BzlaBvDomainGenerator) (l acc : list BzlaBitVector),
  gen_drain fuel gen = Some l ->
  urem_candidates_loop fuel x t s gen acc
  = Some (rev (map (bzla_bv_urem s) (filter (urem_hit x t s) l)) ++ acc).
Proof.
  induction fuel as [|fuel IH]; intros gen l acc H; [discriminate|].
  cbn [gen_drain urem_candidates_loop] in *.
  destruct (bzla_bvdomain_gen_has_next gen).
  - destruct (bzla_bvdomain_gen_next gen) as [[v gen']|]; [|discriminate].
    destruct (gen_drain fuel gen') as [l'|] eqn:E; [|discriminate].
    injection H as <-. rewrite (IH gen' l' _ E).
    cbn [filter]. unfold urem_hit at 2.
    destruct (bzla_bv_compare (bzla_bv_urem s v) t =? 0); cbn [andb].
    + destruct (check_const_bits x (bzla_bv_urem s v)).
      * cbn [map rev]. rewrite <- app_assoc. reflexivity.
      * reflexivity.
    + reflexivity.
  - injection H as <-. reflexivity.
Qed.

(** C1: the code contradicts the claim. In the branch [pos_x = 1],
    [t <> ones], [s > t] the check enumerates the candidates of the range
    with the generator, as the claim says, but returns [true] exactly when
    no enumerated candidate is a hit: [res = BZLA_EMPTY_STACK(candidates)]
    is the negation of what the claim (and the search for a solution)
    asks for. *)
Theorem urem_const_pos1_inverted (fuel : nat) (x : BzlaBvDomain)
        (t s : BzlaBitVector) (l : list BzlaBitVector) :
  bzla_is_inv_urem x t s 1 = true ->
  bv_val t <> bv_val (bzla_bv_ones (bzla_bv_get_width t)) ->
  bv_val t < bv_val s ->
  gen_drain fuel
    (bzla_bvdomain_gen_init_range None x (Some (fst (urem_range t s)))
                                  (Some (snd (urem_range t s)))) = Some l ->
  bzla_is_inv_urem_const fuel x t s 1
  = Some (negb (existsb (urem_hit x t s) l)).
Proof.
  intros Hic Hones Hlt Hdrain. unfold bzla_is_inv_urem_const.
  rewrite Hic. cbn [Nat.eqb negb].
  rewrite !compare_eqb.
  rewrite (proj2 (Z.eqb_neq _ _) Hones).
  rewrite (proj2 (Z.eqb_neq (bv_val s) (bv_val t))) by lia.
  destruct (urem_range t s) as [lo_x hi_x] eqn:Er. cbn [fst snd] in Hdrain.
  rewrite (urem_candidates_loop_drain x t s fuel _ l [] Hdrain).
  rewrite app_nil_r. f_equal. clear Hdrain.
  induction l as [|v l IH]; [reflexivity|].
  cbn [filter existsb].
  destruct (urem_hit x t s v); cbn [orb negb].
  - cbn [map rev]. destruct (rev _); reflexivity.
  - apply IH.
Qed.

Lemma urem_const_pos1_inverted_witness :
  gen_drain 10
    (bzla_bvdomain_gen_init_range None (bzla_bvdomain_new_init 4)
       (Some (fst (urem_range (mk_bv 4 1) (mk_bv 4 5))))
       (Some (snd (urem_range (mk_bv 4 1) (mk_bv 4 5)))))
  = Some [mk_bv 4 1; mk_bv 4 2; mk_bv 4 3]
  /\ bzla_bv_urem (mk_bv 4 5) (mk_bv 4 2) = mk_bv 4 1
  /\ in_gamma (bzla_bvdomain_new_init 4) (mk_bv 4 2)
  /\ bzla_is_inv_urem_const 10 (bzla_bvdomain_new_init 4)
       (mk_bv 4 1) (mk_bv 4 5) 1 = Some false.
Proof.
  assert (E : gen_drain 10
    (bzla_bvdomain_gen_init_range None (bzla_bvdomain_new_init 4)
       (Some (fst (urem_range (mk_bv 4 1) (mk_bv 4 5))))
       (Some (snd (urem_range (mk_bv 4 1) (mk_bv 4 5)))))
    = Some [mk_bv 4 1; mk_bv 4 2; mk_bv 4 3]) by (vm_compute; reflexivity).
  split; [exact E|]. split; [reflexivity|].
  split; [unfold in_gamma; vm_compute; intuition congruence|].
  rewrite (urem_const_pos1_inverted 10 (bzla_bvdomain_new_init 4)
             (mk_bv 4 1) (mk_bv 4 5) _ eq_refl ltac:(vm_compute; congruence)
             ltac:(vm_compute; congruence) E).
  reflexivity.
Defined.


(** ** Checks with constant bits against the solutions in the domain *)

(** Bit-by-bit reasoning: an equation between integers is read at one
    position, the bitwise operations are pushed to the atoms, and the
    atoms are enumerated. *)
Ltac bit_of H i :=
  let B := fresh "B" in
  pose proof (testbit_of_eq _ _ i H) as B; revert B.

Ltac bits_rw :=
  repeat first
    [ rewrite Z.land_spec | rewrite Z.lor_spec | rewrite Z.lxor_spec
    | rewrite Z.bits_0
    | rewrite Z.lnot_spec by lia
    | rewrite Z.testbit_mod_pow2 by lia
    | rewrite Z.testbit_ones_nonneg by lia
    | rewrite Z.shiftl_spec_low by lia
    | rewrite Z.shiftl_spec by lia
    | rewrite Z.shiftr_spec by lia ].

Ltac bits_cases :=
  repeat match goal with
    | |- context [Z.testbit ?a ?i] => destruct (Z.testbit a i)
    | |- context [?a <? ?b] => destruct (Z.ltb_spec a b)
    end;
  cbn [andb orb negb xorb]; intros; try congruence; try lia.

Lemma wf_mod (v w : Z) : 0 <= v < 2 ^ w -> v mod 2 ^ w = v.
Proof. apply Z.mod_small. Qed.

Lemma valid_land (d : BzlaBvDomain) :
  dom_wf d -> bzla_bvdomain_is_valid d = true ->
  Z.land (bv_val (lo d)) (bv_val (hi d)) = bv_val (lo d).
Proof.
  intros Hwf Hv. pose proof (is_valid_bits d Hwf Hv) as Hb.
  apply Z.bits_inj'. intros i Hi. rewrite Z.land_spec.
  specialize (Hb i Hi).
  destruct (Z.testbit (bv_val (lo d)) i); [rewrite Hb; reflexivity | reflexivity].
Qed.

(** *** and *)



Lemma gamma_width (d : BzlaBvDomain) (v : BzlaBitVector) :
  in_gamma d v -> bv_width v = bv_width (lo d).
Proof. intros (H & _); exact H. Qed.



(** *** add *)


(** *** eq *)

Lemma width1_cases (t : BzlaBitVector) :
  bv_wf t -> bv_width t = 1%nat -> t = mk_bv 1 0 \/ t = mk_bv 1 1.
Proof.
  destruct t as [w v]. unfold bv_wf, zw. cbn [bv_width bv_val].
  intros Hv ->. change (2 ^ Z.of_nat 1) with 2 in Hv.
  assert (v = 0 \/ v = 1) as [-> | ->] by lia; auto.
Qed.


(** *** ult *)


(** *** concat *)

Lemma concat_split (a b n : Z) :
  0 <= n -> 0 <= b < 2 ^ n ->
  (a * 2 ^ n + b) / 2 ^ n = a /\ (a * 2 ^ n + b) mod 2 ^ n = b.
Proof.
  intros Hn Hb. pose proof (pow2_pos n Hn) as Hp. split.
  - rewrite Z.add_comm, Z.div_add by lia. rewrite Z.div_small by lia. lia.
  - rewrite Z.add_comm, Z.mod_add by lia. apply Z.mod_small. lia.
Qed.

Lemma concat_join (t n m : Z) :
  0 <= n -> 0 <= m -> 0 <= t < 2 ^ (m + n) ->
  ((t / 2 ^ n) mod 2 ^ m) * 2 ^ n + t mod 2 ^ n = t.
Proof.
  intros Hn Hm Ht. pose proof (pow2_pos n Hn) as Hp.
  rewrite Z.mod_small.
  - rewrite (Z.div_mod t (2 ^ n)) at 3 by lia. lia.
  - split; [apply Z.div_pos; lia|].
    apply Z.div_lt_upper_bound; [lia|]. rewrite <- Z.pow_add_r by lia.
    replace (n + m) with (m + n) by lia. lia.
Qed.


(** *** slice *)

Ltac idx_norm :=
  repeat match goal with
    | |- context [?i - ?l + ?l] => replace (i - l + l) with i by lia
    | |- context [?i + ?l - ?l] => replace (i + l - l) with i by lia
    end.





(** *** sll and srl, [x] the shifted operand *)







(** *** sll and srl, [x] the shift amount *)



Section ShiftAmount.

Variable shift : BzlaBitVector -> BzlaBitVector -> BzlaBitVector.
Variable x : BzlaBvDomain.
Variables t s : BzlaBitVector.

Hypothesis shift_width : forall v, bv_width (shift s v) = bv_width s.
Hypothesis shift_out : forall v, zw s <= bv_val v -> bv_val (shift s v) = 0.

Hypothesis Hwf : dom_wf x.
Hypothesis Hvalid : bzla_bvdomain_is_valid x = true.
Hypothesis Ht : bv_wf t.
Hypothesis Hws : bv_width s = bv_width (lo x).
Hypothesis Hwt : bv_width t = bv_width (lo x).


End ShiftAmount.




(** *** mul: the inverse of an odd factor *)

Lemma pow2_divide (a b : Z) : 0 <= a <= b -> (2 ^ a | 2 ^ b).
Proof.
  intros H. exists (2 ^ (b - a)). rewrite <- Z.pow_add_r by lia. f_equal. lia.
Qed.

Lemma inverse_step_ok (w s x j : Z) :
  1 <= j <= w -> (2 ^ j | s * x - 1) ->
  (2 ^ Z.min (j + 1) w | s * inverse_step w s x - 1).
Proof.
  intros Hj Hd. unfold inverse_step.
  set (y := x * (2 - s * x)).
  assert (Hp : 0 < 2 ^ w) by (apply pow2_pos; lia).
  rewrite Z.mod_eq by lia.
  replace (s * (y - 2 ^ w * (y / 2 ^ w)) - 1)
    with (- ((s * x - 1) * (s * x - 1)) - (2 ^ w) * (s * (y / 2 ^ w)))
    by (subst y; ring).
  apply Z.divide_sub_r.
  - apply Z.divide_opp_r.
    apply Z.divide_trans with (2 ^ (j + 1)); [apply pow2_divide; lia|].
    rewrite Z.pow_add_r by lia. change (2 ^ 1) with 2.
    destruct Hd as [c Hc]. rewrite Hc.
    assert (E : 2 ^ j = 2 ^ (j - 1) * 2).
    { replace j with (Z.succ (j - 1)) at 1 by lia.
      rewrite Z.pow_succ_r by lia. ring. }
    exists (c * c * 2 ^ (j - 1)). rewrite E. ring.
  - apply Z.divide_mul_l. apply pow2_divide. lia.
Qed.

Lemma inverse_iter_ok (w s : Z) (n : nat) :
  forall x j, 1 <= j <= w -> (2 ^ j | s * x - 1) ->
  (2 ^ Z.min (j + Z.of_nat n) w | s * inverse_iter w s n x - 1).
Proof.
  induction n as [|n IH]; intros x j Hj Hd.
  - cbn [inverse_iter]. replace (Z.min (j + Z.of_nat 0) w) with j by lia.
    exact Hd.
  - cbn [inverse_iter].
    pose proof (inverse_step_ok w s x j Hj Hd) as Hstep.
    specialize (IH (inverse_step w s x) (Z.min (j + 1) w) ltac:(lia) Hstep).
    replace (Z.min (j + Z.of_nat (S n)) w)
      with (Z.min (Z.min (j + 1) w + Z.of_nat n) w) by lia.
    exact IH.
Qed.

(** The modelled inverse is an inverse. *)
Lemma mod_inverse_ok (w : nat) (s : Z) :
  (1 <= w)%nat -> Z.testbit s 0 = true ->
  (s * inverse_iter (Z.of_nat w) s w (1 mod 2 ^ Z.of_nat w)) mod 2 ^ Z.of_nat w
  = 1 mod 2 ^ Z.of_nat w.
Proof.
  intros Hw Hodd.
  assert (Hp : 2 <= 2 ^ Z.of_nat w).
  { change 2 with (2 ^ 1) at 1. apply Z.pow_le_mono_r; lia. }
  rewrite (Z.mod_small 1) by lia.
  assert (Hd : (2 ^ 1 | s * 1 - 1)).
  { change (2 ^ 1) with 2. rewrite Z.mul_1_r.
    pose proof (Z.bit0_mod s) as Hb. rewrite Hodd in Hb. cbn [Z.b2z] in Hb.
    exists (s / 2). pose proof (Z.div_mod s 2 ltac:(lia)). lia. }
  pose proof (inverse_iter_ok (Z.of_nat w) s w 1 1 ltac:(lia) Hd) as H.
  replace (Z.min (1 + Z.of_nat w) (Z.of_nat w)) with (Z.of_nat w) in H by lia.
  destruct H as [c Hc].
  replace (s * inverse_iter (Z.of_nat w) s w 1)
    with (1 + c * 2 ^ Z.of_nat w) by lia.
  rewrite Z.mod_add by lia. apply Z.mod_small. lia.
Qed.

Lemma odd_mul_solve (m s i v t : Z) :
  0 < m -> (s * i) mod m = 1 mod m ->
  ((v * s) mod m = t mod m <-> v mod m = (i * t) mod m).
Proof.
  intros Hm Hi. split; intros H.
  - rewrite <- (Z.mul_mod_idemp_r i t) by lia. rewrite <- H.
    rewrite Z.mul_mod_idemp_r by lia.
    replace (i * (v * s)) with (v * (s * i)) by ring.
    rewrite <- Z.mul_mod_idemp_r by lia. rewrite Hi.
    rewrite Z.mul_mod_idemp_r by lia. f_equal. ring.
  - rewrite <- Z.mul_mod_idemp_l by lia. rewrite H.
    rewrite Z.mul_mod_idemp_l by lia.
    replace (i * t * s) with (t * (s * i)) by ring.
    rewrite <- Z.mul_mod_idemp_r by lia. rewrite Hi.
    rewrite Z.mul_mod_idemp_r by lia. f_equal. ring.
Qed.

(** *** mul: trailing zeros *)

Lemma ctz_spec (v : Z) (n : nat) :
  forall i : nat,
  (count_trailing_zeros v n i <= n)%nat
  /\ (forall k : nat, (i <= k < i + count_trailing_zeros v n i)%nat ->
        Z.testbit v (Z.of_nat k) = false)
  /\ ((count_trailing_zeros v n i < n)%nat ->
        Z.testbit v (Z.of_nat (i + count_trailing_zeros v n i)) = true).
Proof.
  induction n as [|n IH]; intros i; cbn [count_trailing_zeros].
  - split; [lia|]. split; [intros k Hk; lia | intros H; lia].
  - destruct (Z.testbit v (Z.of_nat i)) eqn:Hb.
    + split; [lia|]. split; [intros k Hk; lia|]. intros _.
      rewrite Nat.add_0_r. exact Hb.
    + destruct (IH (S i)) as (H1 & H2 & H3). split; [lia|]. split.
      * intros k Hk. destruct (Nat.eq_dec k i) as [->|Hne]; [exact Hb|].
        apply H2. lia.
      * intros Hlt. replace (i + S (count_trailing_zeros v n (S i)))%nat
          with (S i + count_trailing_zeros v n (S i))%nat by lia.
        apply H3. lia.
Qed.

Lemma ctz_decomp (v : Z) (w : nat) :
  0 < v < 2 ^ Z.of_nat w ->
  (count_trailing_zeros v w 0 < w)%nat
  /\ v = Z.shiftl (Z.shiftr v (Z.of_nat (count_trailing_zeros v w 0)))
                  (Z.of_nat (count_trailing_zeros v w 0))
  /\ Z.testbit (Z.shiftr v (Z.of_nat (count_trailing_zeros v w 0))) 0 = true.
Proof.
  intros Hv. destruct (ctz_spec v w 0) as (H1 & H2 & H3).
  set (z := count_trailing_zeros v w 0) in *.
  assert (Hz : (z < w)%nat).
  { destruct (Nat.lt_ge_cases z w) as [|Hge]; [assumption|]. exfalso.
    assert (v = 0); [|lia]. apply bits_nonneg. intros i Hi Hb.
    destruct (Z.lt_ge_cases i (Z.of_nat w)) as [Hlt|Hge'].
    - specialize (H2 (Z.to_nat i) ltac:(lia)). rewrite Z2Nat.id in H2 by lia.
      congruence.
    - rewrite (testbit_above v (Z.of_nat w) i) in Hb by lia. discriminate. }
  split; [assumption|]. split.
  - apply Z.bits_inj'. intros i Hi.
    destruct (Z.ltb_spec i (Z.of_nat z)) as [Hlt|Hge].
    + rewrite Z.shiftl_spec_low by lia.
      specialize (H2 (Z.to_nat i) ltac:(lia)). rewrite Z2Nat.id in H2 by lia.
      exact H2.
    + rewrite Z.shiftl_spec, Z.shiftr_spec by lia. f_equal. lia.
  - rewrite Z.shiftr_spec by lia. specialize (H3 Hz). exact H3.
Qed.

Lemma odd_opp_lor (s : Z) : Z.testbit s 0 = true -> Z.lor (- s) s = -1.
Proof.
  intros Hodd.
  assert (E : s = 2 * (s / 2) + 1).
  { pose proof (Z.bit0_mod s) as Hb. rewrite Hodd in Hb. cbn [Z.b2z] in Hb.
    pose proof (Z.div_mod s 2 ltac:(lia)). lia. }
  apply Z.bits_inj'. intros i Hi.
  rewrite Z.lor_spec, Z.bits_opp, Z.bits_m1 by lia.
  rewrite E at 1. replace (Z.pred (2 * (s / 2) + 1)) with (2 * (s / 2)) by lia.
  destruct (Z.eq_dec i 0) as [->|Hne].
  - rewrite Z.testbit_even_0. reflexivity.
  - replace i with (Z.succ (i - 1)) by lia.
    rewrite Z.testbit_even_succ by lia. rewrite E at 2.
    rewrite Z.testbit_odd_succ by lia.
    destruct (Z.testbit (s / 2) (i - 1)); reflexivity.
Qed.

Lemma ic_mask (s z : Z) :
  0 <= z -> Z.testbit s 0 = true ->
  Z.lor (- Z.shiftl s z) (Z.shiftl s z) = Z.shiftl (-1) z.
Proof.
  intros Hz Hodd.
  replace (- Z.shiftl s z) with (Z.shiftl (- s) z)
    by (rewrite !Z.shiftl_mul_pow2 by lia; ring).
  rewrite <- Z.shiftl_lor, odd_opp_lor by assumption. reflexivity.
Qed.

(** The check without constant bits of [mul] holds iff [t] has at least
    the trailing zeros of [s]. *)
Lemma mul_ic_iff (w s z t : Z) :
  0 <= z -> 0 <= w -> Z.testbit s 0 = true ->
  Z.shiftl s z mod 2 ^ w = Z.shiftl s z -> t mod 2 ^ w = t ->
  (Z.land (Z.lor ((- Z.shiftl s z) mod 2 ^ w) (Z.shiftl s z)) t = t
   <-> (2 ^ z | t)).
Proof.
  intros Hz Hw Hodd Hs Ht.
  pose proof (ic_mask s z Hz Hodd) as E.
  assert (E' : Z.land (Z.lor ((- Z.shiftl s z) mod 2 ^ w) (Z.shiftl s z)) t
               = Z.land (Z.shiftl (-1) z) t).
  { apply Z.bits_inj'. intros i Hi. bit_of E i. bit_of Hs i. bit_of Ht i.
    generalize (Z.shiftl s z). intros S. bits_rw. bits_cases. }
  rewrite E'. split.
  - intros H. exists (Z.shiftr t z). rewrite <- Z.shiftl_mul_pow2 by lia.
    apply Z.bits_inj'. intros i Hi.
    destruct (Z.ltb_spec i z) as [Hlt|Hge].
    + bit_of H i. bits_rw. bits_cases.
    + bits_rw. f_equal. lia.
  - intros [c ->]. rewrite <- Z.shiftl_mul_pow2 by lia.
    rewrite <- Z.shiftl_land, Z.land_m1_l. reflexivity.
Qed.

Lemma mod_weaken (a b w k : Z) :
  0 <= k <= w -> a mod 2 ^ w = b mod 2 ^ w -> a mod 2 ^ k = b mod 2 ^ k.
Proof.
  intros Hk H.
  rewrite <- (Z.mod_mod_divide a (2 ^ w) (2 ^ k)) by (apply pow2_divide; lia).
  rewrite <- (Z.mod_mod_divide b (2 ^ w) (2 ^ k)) by (apply pow2_divide; lia).
  rewrite H. reflexivity.
Qed.

(** The solutions of [v * s = t] for [s = s' * 2^z] with [s'] odd. *)
Lemma even_mul_solve (w z s' t' i v : Z) :
  0 <= z <= w -> 0 <= t' < 2 ^ (w - z) ->
  (s' * i) mod 2 ^ w = 1 mod 2 ^ w ->
  ((v * (s' * 2 ^ z)) mod 2 ^ w = t' * 2 ^ z
   <-> v mod 2 ^ (w - z) = (i * t') mod 2 ^ (w - z)).
Proof.
  intros Hz Ht Hi.
  assert (Hp1 : 0 < 2 ^ z) by (apply pow2_pos; lia).
  assert (Hp2 : 0 < 2 ^ (w - z)) by (apply pow2_pos; lia).
  assert (Ew : 2 ^ w = 2 ^ (w - z) * 2 ^ z).
  { rewrite <- Z.pow_add_r by lia. f_equal. lia. }
  rewrite Ew. replace (v * (s' * 2 ^ z)) with (v * s' * 2 ^ z) by ring.
  rewrite Z.mul_mod_distr_r by lia.
  rewrite <- (odd_mul_solve (2 ^ (w - z)) s' i v t' Hp2
                (mod_weaken _ _ w (w - z) ltac:(lia) Hi)).
  rewrite (Z.mod_small t') by assumption.
  split; [intros H; nia | intros ->; reflexivity].
Qed.

(** *** mul: two domains with a common member *)

Lemma domains_meet_sound (w l1 h1 l2 h2 : Z) :
  0 <= w ->
  Z.land l1 h1 = l1 -> Z.land l2 h2 = l2 ->
  Z.land (Z.land (Z.lnot (Z.lxor l1 h1) mod 2 ^ w)
                 (Z.lnot (Z.lxor l2 h2) mod 2 ^ w)) l1
  = Z.land (Z.land (Z.lnot (Z.lxor l1 h1) mod 2 ^ w)
                   (Z.lnot (Z.lxor l2 h2) mod 2 ^ w)) l2 ->
  l1 mod 2 ^ w = l1 -> l2 mod 2 ^ w = l2 ->
  (Z.land l1 (Z.lor l1 l2) = l1 /\ Z.lor (Z.lor l1 l2) h1 = h1)
  /\ (Z.land l2 (Z.lor l1 l2) = l2 /\ Z.lor (Z.lor l1 l2) h2 = h2).
Proof.
  intros Hw V1 V2 H W1 W2.
  repeat split; apply Z.bits_inj'; intros i Hi;
    bit_of V1 i; bit_of V2 i; bit_of H i; bit_of W1 i; bit_of W2 i;
    bits_rw; bits_cases.
Qed.

Lemma domains_meet_complete (w l1 h1 l2 h2 v : Z) :
  0 <= w ->
  Z.land l1 v = l1 -> Z.lor v h1 = h1 -> Z.land l2 v = l2 -> Z.lor v h2 = h2 ->
  Z.land (Z.land (Z.lnot (Z.lxor l1 h1) mod 2 ^ w)
                 (Z.lnot (Z.lxor l2 h2) mod 2 ^ w)) l1
  = Z.land (Z.land (Z.lnot (Z.lxor l1 h1) mod 2 ^ w)
                   (Z.lnot (Z.lxor l2 h2) mod 2 ^ w)) l2.
Proof.
  intros Hw A1 A2 B1 B2.
  apply Z.bits_inj'; intros i Hi;
    bit_of A1 i; bit_of A2 i; bit_of B1 i; bit_of B2 i; bits_rw; bits_cases.
Qed.

Lemma check_const_domain_bits_iff (d1 d2 : BzlaBvDomain) :
  dom_wf d1 -> dom_wf d2 ->
  bzla_bvdomain_is_valid d1 = true -> bzla_bvdomain_is_valid d2 = true ->
  bv_width (lo d1) = bv_width (lo d2) ->
  (check_const_domain_bits d1 d2 = true
   <-> exists v, in_gamma d1 v /\ in_gamma d2 v).
Proof.
  intros Hwf1 Hwf2 Hv1 Hv2 Hw.
  pose proof (valid_land d1 Hwf1 Hv1) as V1.
  pose proof (valid_land d2 Hwf2 Hv2) as V2.
  destruct Hwf1 as (Hl1 & Hh1 & Hw1), Hwf2 as (Hl2 & Hh2 & Hw2).
  unfold check_const_domain_bits. rewrite compare_eq_iff.
  unfold bzla_bv_and, bzla_bv_xnor, in_gamma, bv_wf, zw in *.
  cbn [bv_width bv_val]. rewrite <- Hw in *.
  set (w := Z.of_nat (bv_width (lo d1))) in *.
  assert (Hw0 : 0 <= w) by (subst w; lia).
  split.
  - intros H.
    destruct (domains_meet_sound w _ _ _ _ Hw0 V1 V2 H) as ((A1 & A2) & (B1 & B2));
      try (apply wf_mod; assumption).
    exists (mk_bv (bv_width (lo d1))
                  (Z.lor (bv_val (lo d1)) (bv_val (lo d2)))).
    cbn [bv_width bv_val]. fold w.
    assert (0 <= Z.lor (bv_val (lo d1)) (bv_val (lo d2)) < 2 ^ w)
      by (apply lor_wf; assumption).
    repeat split; try assumption; lia.
  - intros (v & (_ & _ & A1 & A2) & (_ & _ & B1 & B2)).
    exact (domains_meet_complete w _ _ _ _ _ Hw0 A1 A2 B1 B2).
Qed.




(** All solutions of [v * s = t (mod 2^w)] for [s = s' * 2^z], [s'] odd
    with inverse [i]. *)
Lemma mul_solutions (w z s' i tv v : Z) :
  0 <= z <= w -> 0 <= tv < 2 ^ w ->
  (s' * i) mod 2 ^ w = 1 mod 2 ^ w ->
  ((v * (s' * 2 ^ z)) mod 2 ^ w = tv
   <-> (2 ^ z | tv)
       /\ v mod 2 ^ (w - z) = (i * Z.shiftr tv z) mod 2 ^ (w - z)).
Proof.
  intros Hz Ht Hi.
  assert (Hp1 : 0 < 2 ^ z) by (apply pow2_pos; lia).
  assert (Hp2 : 0 < 2 ^ (w - z)) by (apply pow2_pos; lia).
  assert (Ew : 2 ^ w = 2 ^ (w - z) * 2 ^ z).
  { rewrite <- Z.pow_add_r by lia. f_equal. lia. }
  assert (Hdiv : forall c, tv = c * 2 ^ z ->
                           Z.shiftr tv z = c /\ 0 <= c < 2 ^ (w - z)).
  { intros c Hc. split.
    - rewrite Z.shiftr_div_pow2, Hc by lia. apply Z.div_mul. lia.
    - nia. }
  split.
  - intros E.
    assert (D : (2 ^ z | tv)).
    { rewrite <- E, Z.mod_eq by lia. apply Z.divide_sub_r.
      - exists (v * s'). ring.
      - apply Z.divide_mul_l. apply pow2_divide. lia. }
    split; [assumption|]. destruct D as [c Hc].
    destruct (Hdiv c Hc) as (-> & Hcb).
    apply (even_mul_solve w z s' c i v Hz Hcb Hi). rewrite <- Hc. exact E.
  - intros ([c Hc] & Hm). destruct (Hdiv c Hc) as (Es & Hcb).
    rewrite Es in Hm. rewrite Hc.
    apply (even_mul_solve w z s' c i v Hz Hcb Hi). exact Hm.
Qed.


(** *** mul *)




(** *** All operators *)





(** ** The checks without constant bits against the solutions of any [x] *)

Ltac obl_setup x t s :=
  intros Ht Hs (Hw1 & Hwm);
  unfold bzla_bvdomain_get_width, bzla_bv_get_width in *;
  destruct t as [wt tv], s as [ws sv];
  unfold bv_wf, zw in Ht, Hs; cbn [bv_width bv_val] in *.

(** The check of [and] holds iff some [x] has [x & s = t]. *)
Theorem is_inv_and_exact (x : BzlaBvDomain) (t s : BzlaBitVector) (pos_x : nat) :
  bv_wf t -> bv_wf s -> widths_match OpAnd x t s ->
  (bzla_is_inv_and x t s pos_x = true
   <-> has_solution OpAnd (bzla_bvdomain_get_width x) t s pos_x).
Proof.
  obl_setup x t s. destruct Hwm as (-> & ->).
  unfold bzla_is_inv_and, has_solution, op_apply. rewrite compare_eq_iff.
  unfold bzla_bv_and. cbn [bv_val bv_width].
  split.
  - intros H. exists (mk_bv (bv_width (lo x)) tv).
    split; [reflexivity|]. split; [exact Ht|].
    destruct (Nat.eqb pos_x 0); cbn [bv_val bv_width]; f_equal;
      [exact H | rewrite Z.land_comm; exact H].
  - intros ([wv v] & Hwv & _ & E). cbn [bv_width] in Hwv. subst wv.
    assert (E' : Z.land v sv = tv).
    { destruct (Nat.eqb pos_x 0); cbn [bv_val bv_width] in E;
        injection E as E; [exact E | rewrite Z.land_comm; exact E]. }
    rewrite <- E', <- Z.land_assoc, Z.land_diag. reflexivity.
Qed.

Lemma is_inv_and_exact_witness :
  bzla_is_inv_and (bzla_bvdomain_new_init 4) (mk_bv 4 4) (mk_bv 4 6) 0 = true
  <-> has_solution OpAnd 4 (mk_bv 4 4) (mk_bv 4 6) 0.
Proof.
  apply (is_inv_and_exact (bzla_bvdomain_new_init 4) (mk_bv 4 4) (mk_bv 4 6) 0).
  - vm_compute. intuition congruence.
  - vm_compute. intuition congruence.
  - vm_compute. intuition lia.
Defined.

(** The check of [concat] holds iff some [x] has [x ∘ s = t] (resp.
    [s ∘ x = t]). *)
Theorem is_inv_concat_exact (x : BzlaBvDomain) (t s : BzlaBitVector)
        (pos_x : nat) :
  bv_wf t -> bv_wf s -> widths_match OpConcat x t s ->
  (bzla_is_inv_concat x t s pos_x = true
   <-> has_solution OpConcat (bzla_bvdomain_get_width x) t s pos_x).
Proof.
  obl_setup x t s. destruct Hwm as (Hws & ->).
  set (w := bv_width (lo x)) in *.
  rewrite Nat2Z.inj_add in Ht.
  assert (Hpw : 0 < 2 ^ Z.of_nat w) by (apply pow2_pos; lia).
  assert (Hps : 0 < 2 ^ Z.of_nat ws) by (apply pow2_pos; lia).
  unfold bzla_is_inv_concat, has_solution, op_apply, bzla_bv_get_width.
  rewrite compare_eq_iff. cbn [bv_width bv_val].
  destruct pos_x as [|pos_x]; cbn [Nat.eqb];
    unfold bzla_bv_slice, bzla_bv_concat, zw; cbn [bv_width bv_val].
  - change (Z.of_nat 0) with 0. rewrite Z.shiftr_0_r.
    replace (ws - 1 - 0 + 1)%nat with ws by lia.
    split.
    + intros ->.
      exists (mk_bv w ((tv / 2 ^ Z.of_nat ws) mod 2 ^ Z.of_nat w)).
      split; [reflexivity|]. split.
      * unfold bv_wf, zw. cbn [bv_width bv_val]. apply Z.mod_pos_bound. lia.
      * cbn [bv_width bv_val]. f_equal. apply concat_join; lia.
    + intros ([wv v] & Hwv & _ & E). cbn [bv_width bv_val] in *. subst wv.
      injection E as E.
      destruct (concat_split v sv (Z.of_nat ws)) as (_ & E2); [lia | lia |].
      rewrite E in E2. symmetry; exact E2.
  - replace (w + ws - 1 - (w + ws - ws) + 1)%nat with ws by lia.
    replace (w + ws - ws)%nat with w by lia.
    rewrite Z.shiftr_div_pow2 by lia.
    split.
    + intros ->. exists (mk_bv w (tv mod 2 ^ Z.of_nat w)).
      split; [reflexivity|]. split.
      * unfold bv_wf, zw. cbn [bv_width bv_val]. apply Z.mod_pos_bound. lia.
      * cbn [bv_width bv_val]. f_equal; [lia|]. apply concat_join; [lia | lia |].
        rewrite (Z.add_comm (Z.of_nat ws)). exact Ht.
    + intros ([wv v] & Hwv & Hvwf & E). unfold bv_wf, zw in Hvwf.
      cbn [bv_width bv_val] in *. subst wv. injection E as _ E.
      destruct (concat_split sv v (Z.of_nat w)) as (E1 & _); [lia | lia |].
      rewrite E in E1. rewrite E1. symmetry. apply Z.mod_small. lia.
Qed.

Lemma is_inv_concat_exact_witness :
  bzla_is_inv_concat (bzla_bvdomain_new_init 2) (mk_bv 5 22) (mk_bv 3 6) 0 = true
  <-> has_solution OpConcat 2 (mk_bv 5 22) (mk_bv 3 6) 0.
Proof.
  apply (is_inv_concat_exact (bzla_bvdomain_new_init 2) (mk_bv 5 22) (mk_bv 3 6) 0).
  - vm_compute. intuition congruence.
  - vm_compute. intuition congruence.
  - vm_compute. intuition lia.
Defined.

(** The check of [mul], over integers: [((-s | s) & t) = t] iff some [v]
    has [v * s = t] modulo [2 ^ w]. *)
Lemma mul_ic_solutions (w : nat) (sv tv : Z) :
  (1 <= w)%nat -> 0 <= sv < 2 ^ Z.of_nat w -> 0 <= tv < 2 ^ Z.of_nat w ->
  (Z.land (Z.lor ((- sv) mod 2 ^ Z.of_nat w) sv) tv = tv
   <-> exists v, 0 <= v < 2 ^ Z.of_nat w /\ (v * sv) mod 2 ^ Z.of_nat w = tv).
Proof.
  intros Hw1 Hs Ht.
  assert (HpW : 0 < 2 ^ Z.of_nat w) by (apply pow2_pos; lia).
  destruct (Z.eq_dec sv 0) as [->|Hs0].
  - cbn [Z.opp]. rewrite Z.mod_0_l by lia. cbn [Z.lor Z.land]. split.
    + intros <-. exists 0. split; [lia|]. apply Z.mod_0_l. lia.
    + intros (v & _ & E). rewrite Z.mul_0_r, Z.mod_0_l in E by lia. exact E.
  - destruct (ctz_decomp sv w ltac:(lia)) as (Hz & Hsz & Hodd).
    set (z := Z.of_nat (count_trailing_zeros sv w 0)) in *.
    set (s' := Z.shiftr sv z) in *.
    assert (Hzw : 0 <= z < Z.of_nat w) by (subst z; lia).
    assert (Hsm : sv = s' * 2 ^ z).
    { rewrite <- Z.shiftl_mul_pow2 by lia. exact Hsz. }
    assert (Hic : Z.land (Z.lor ((- sv) mod 2 ^ Z.of_nat w) sv) tv = tv
                  <-> (2 ^ z | tv)).
    { rewrite Hsz. apply mul_ic_iff; try lia; try assumption.
      - rewrite <- Hsz. apply wf_mod; assumption.
      - apply wf_mod; assumption. }
    pose proof (mod_inverse_ok w s' Hw1 Hodd) as Hinv.
    set (i := inverse_iter (Z.of_nat w) s' w (1 mod 2 ^ Z.of_nat w)) in *.
    assert (Hsol : forall v, (v * sv) mod 2 ^ Z.of_nat w = tv
                             <-> (2 ^ z | tv)
                                 /\ v mod 2 ^ (Z.of_nat w - z)
                                    = (i * Z.shiftr tv z) mod 2 ^ (Z.of_nat w - z)).
    { intros v. rewrite Hsm. apply mul_solutions; try assumption. lia. }
    rewrite Hic. split.
    + intros D.
      assert (Hp2 : 0 < 2 ^ (Z.of_nat w - z)) by (apply pow2_pos; lia).
      assert (Hle : 2 ^ (Z.of_nat w - z) <= 2 ^ Z.of_nat w)
        by (apply Z.pow_le_mono_r; lia).
      pose proof (Z.mod_pos_bound (i * Z.shiftr tv z) (2 ^ (Z.of_nat w - z)) Hp2).
      exists ((i * Z.shiftr tv z) mod 2 ^ (Z.of_nat w - z)). split; [lia|].
      apply Hsol. split; [exact D|]. apply Z.mod_mod. lia.
    + intros (v & _ & E). apply Hsol in E. tauto.
Qed.

(** The check of [mul] holds iff some [x] has [x * s = t]. *)
Theorem is_inv_mul_exact (x : BzlaBvDomain) (t s : BzlaBitVector) (pos_x : nat) :
  bv_wf t -> bv_wf s -> widths_match OpMul x t s ->
  (bzla_is_inv_mul x t s pos_x = true
   <-> has_solution OpMul (bzla_bvdomain_get_width x) t s pos_x).
Proof.
  obl_setup x t s. destruct Hwm as (-> & ->).
  set (w := bv_width (lo x)) in *.
  unfold bzla_is_inv_mul, has_solution, op_apply. rewrite compare_eq_iff.
  unfold bzla_bv_and, bzla_bv_or, bzla_bv_neg, bzla_bv_mul, zw.
  cbn [bv_val bv_width].
  rewrite (mul_ic_solutions w sv tv Hw1 Hs Ht). split.
  - intros (v & Hv & E). exists (mk_bv w v). split; [reflexivity|].
    split; [exact Hv|].
    destruct (Nat.eqb pos_x 0); cbn [bv_val bv_width]; f_equal;
      [exact E | rewrite Z.mul_comm; exact E].
  - intros ([wv v] & Hwv & Hvwf & E). unfold bv_wf, zw in Hvwf.
    cbn [bv_width bv_val] in *. subst wv. exists v. split; [exact Hvwf|].
    destruct (Nat.eqb pos_x 0); cbn [bv_val bv_width] in E;
      injection E as E; [exact E | rewrite Z.mul_comm; exact E].
Qed.

Lemma is_inv_mul_exact_witness :
  bzla_is_inv_mul (bzla_bvdomain_new_init 4) (mk_bv 4 4) (mk_bv 4 6) 0 = true
  <-> has_solution OpMul 4 (mk_bv 4 4) (mk_bv 4 6) 0.
Proof.
  apply (is_inv_mul_exact (bzla_bvdomain_new_init 4) (mk_bv 4 4) (mk_bv 4 6) 0).
  - vm_compute. intuition congruence.
  - vm_compute. intuition congruence.
  - vm_compute. intuition lia.
Defined.

(** The check of [ult] holds iff some [x] has [(x < s) = t] (resp.
    [(s < x) = t]). *)
Theorem is_inv_ult_exact (x : BzlaBvDomain) (t s : BzlaBitVector) (pos_x : nat) :
  bv_wf t -> bv_wf s -> widths_match OpUlt x t s ->
  (bzla_is_inv_ult x t s pos_x = true
   <-> has_solution OpUlt (bzla_bvdomain_get_width x) t s pos_x).
Proof.
  intros Ht Hs (Hw1 & Hws & Hwt).
  unfold bzla_bvdomain_get_width, bzla_bv_get_width in *.
  set (w := bv_width (lo x)) in *.
  assert (Hs' := Hs). unfold bv_wf, zw in Hs'. rewrite Hws in Hs'.
  assert (Hp : 0 < 2 ^ Z.of_nat w) by (apply pow2_pos; lia).
  assert (Hones : bv_wf (bzla_bv_ones w) /\ bv_width (bzla_bv_ones w) = w
                  /\ bv_val (bzla_bv_ones w) = 2 ^ Z.of_nat w - 1).
  { unfold bv_wf, bzla_bv_ones, zw. cbn [bv_width bv_val].
    rewrite Z.ones_equiv. repeat split; lia. }
  destruct Hones as (Ho1 & Ho2 & Ho3).
  assert (Hzero : bv_wf (bzla_bv_zero w))
    by (unfold bv_wf, bzla_bv_zero, zw; cbn [bv_width bv_val]; lia).
  unfold bzla_is_inv_ult, has_solution, op_apply, bzla_bv_ult.
  unfold bzla_bv_is_zero, bzla_bv_is_ones, zw. rewrite Hws. fold w.
  rewrite Z.ones_equiv.
  destruct (width1_cases t Ht Hwt) as [-> | ->]; cbn [bv_val Z.eqb orb];
    destruct pos_x as [|pos_x]; cbn [Nat.eqb].
  - split; [intros _ | reflexivity]. exists (bzla_bv_ones w).
    repeat (split; [assumption|]).
    rewrite (proj2 (Z.ltb_ge _ _)) by lia. reflexivity.
  - split; [intros _ | reflexivity]. exists (bzla_bv_zero w).
    split; [reflexivity|]. split; [assumption|].
    rewrite (proj2 (Z.ltb_ge _ _)) by (cbn [bzla_bv_zero bv_val]; lia).
    reflexivity.
  - split.
    + intros H. apply negb_true_iff, Z.eqb_neq in H. exists (bzla_bv_zero w).
      split; [reflexivity|]. split; [assumption|].
      rewrite (proj2 (Z.ltb_lt _ _)) by (cbn [bzla_bv_zero bv_val]; lia).
      reflexivity.
    + intros (v & _ & (Hv & _) & E).
      destruct (Z.ltb_spec (bv_val v) (bv_val s)); [|discriminate].
      apply negb_true_iff, Z.eqb_neq. lia.
  - split.
    + intros H. apply negb_true_iff, Z.eqb_neq in H. exists (bzla_bv_ones w).
      repeat (split; [assumption|]).
      rewrite (proj2 (Z.ltb_lt _ _)) by lia. reflexivity.
    + intros (v & Hvw & Hvwf & E). unfold bv_wf, zw in Hvwf. rewrite Hvw in Hvwf.
      destruct (Z.ltb_spec (bv_val s) (bv_val v)); [|discriminate].
      apply negb_true_iff, Z.eqb_neq. lia.
Qed.

Lemma is_inv_ult_exact_witness :
  bzla_is_inv_ult (bzla_bvdomain_new_init 4) (mk_bv 1 1) (mk_bv 4 0) 0 = true
  <-> has_solution OpUlt 4 (mk_bv 1 1) (mk_bv 4 0) 0.
Proof.
  apply (is_inv_ult_exact (bzla_bvdomain_new_init 4) (mk_bv 1 1) (mk_bv 4 0) 0).
  - vm_compute. intuition congruence.
  - vm_compute. intuition congruence.
  - vm_compute. intuition lia.
Defined.







(** *** udiv *)

Lemma udiv_pos0_arith (M s t : Z) :
  0 < s -> 0 <= t < M ->
  (((s * t) mod M) / s = t <-> exists v, 0 <= v < M /\ v / s = t).
Proof.
  intros Hs Ht. split.
  - intros H. exists ((s * t) mod M). split; [apply Z.mod_pos_bound; lia | exact H].
  - intros (v & Hv & E).
    pose proof (Z.mul_div_le v s Hs) as Hle. rewrite E in Hle.
    rewrite Z.mod_small by lia. rewrite Z.mul_comm. apply Z.div_mul. lia.
Qed.

Lemma udiv_pos1_arith (s t v : Z) :
  0 <= s -> 1 <= t -> 1 <= v -> s / v = t -> 1 <= s / t /\ s / (s / t) = t.
Proof.
  intros Hs Ht Hv E.
  pose proof (Z.mul_div_le s v ltac:(lia)) as Hle. rewrite E in Hle.
  assert (Hq : v <= s / t) by (apply Z.div_le_lower_bound; lia).
  split; [lia|].
  apply Z.le_antisymm.
  - rewrite <- E at 2. apply Z.div_le_compat_l; lia.
  - apply Z.div_le_lower_bound; [lia|].
    rewrite Z.mul_comm. apply Z.mul_div_le. lia.
Qed.

(** The check of [udiv] holds iff some [x] has [x / s = t] (resp.
    [s / x = t]), a division by zero giving all ones. *)
Theorem is_inv_udiv_exact (x : BzlaBvDomain) (t s : BzlaBitVector) (pos_x : nat) :
  bv_wf t -> bv_wf s -> widths_match OpUdiv x t s ->
  (bzla_is_inv_udiv x t s pos_x = true
   <-> has_solution OpUdiv (bzla_bvdomain_get_width x) t s pos_x).
Proof.
  obl_setup x t s. destruct Hwm as (-> & ->).
  set (w := bv_width (lo x)) in *.
  assert (HM : 2 <= 2 ^ Z.of_nat w).
  { change 2 with (2 ^ 1) at 1. apply Z.pow_le_mono_r; lia. }
  unfold bzla_is_inv_udiv, has_solution, op_apply. rewrite compare_eq_iff.
  destruct pos_x as [|pos_x]; cbn [Nat.eqb];
    unfold bzla_bv_udiv, bzla_bv_mul, zw; cbn [bv_width bv_val];
    pose proof (Z.ones_equiv (Z.of_nat w)) as Eo;
    set (O := Z.ones (Z.of_nat w)) in *.
  - destruct (Z.eqb_spec sv 0) as [->|Hs0].
    + split.
      * intros <-. exists (mk_bv w 0). split; [reflexivity|].
        split; [unfold bv_wf, zw; cbn [bv_width bv_val]; lia|].
        cbn [bv_width]. reflexivity.
      * intros ([wv v] & Hwv & _ & E). cbn [bv_width bv_val] in *. subst wv.
        injection E as E. exact E.
    + rewrite (udiv_pos0_arith (2 ^ Z.of_nat w) sv tv) by lia. split.
      * intros (v & Hv & E). exists (mk_bv w v). split; [reflexivity|].
        split; [exact Hv|]. cbn [bv_width bv_val]. f_equal. exact E.
      * intros ([wv v] & Hwv & Hvwf & E). unfold bv_wf, zw in Hvwf.
        cbn [bv_width bv_val] in *. subst wv. injection E as E. eauto.
  - split.
    + intros H.
      exists (mk_bv w (if tv =? 0 then O else sv / tv)).
      split; [reflexivity|]. split.
      * unfold bv_wf, zw. cbn [bv_width bv_val].
        destruct (Z.eqb_spec tv 0); [lia|].
        split; [apply Z.div_pos; lia|].
        apply Z.div_lt_upper_bound; [lia|]. nia.
      * cbn [bv_width bv_val]. f_equal. exact H.
    + intros ([wv v] & Hwv & Hvwf & E). unfold bv_wf, zw in Hvwf.
      cbn [bv_width bv_val] in *. subst wv. injection E as E.
      destruct (Z.eqb_spec v 0) as [->|Hv0].
      * subst tv. rewrite (proj2 (Z.eqb_neq O 0)) by lia.
        assert (Hc : sv = O \/ sv < O) by lia.
        destruct Hc as [-> | Hlt].
        -- rewrite Z.div_same by lia. cbn [Z.eqb]. apply Z.div_1_r.
        -- rewrite Z.div_small by lia. cbn [Z.eqb]. reflexivity.
      * destruct (Z.eqb_spec tv 0) as [->|Ht0].
        -- cbn [Z.eqb]. rewrite (proj2 (Z.eqb_neq O 0)) by lia.
           assert (sv < v).
           { destruct (Z.lt_ge_cases sv v) as [|Hge]; [assumption|].
             assert (1 <= sv / v)
               by (apply Z.div_le_lower_bound; lia). lia. }
           apply Z.div_small. lia.
        -- destruct (udiv_pos1_arith sv tv v) as (Hq & Hr); try lia.
           rewrite (proj2 (Z.eqb_neq (sv / tv) 0)) by lia. exact Hr.
Qed.

Lemma is_inv_udiv_exact_witness :
  bzla_is_inv_udiv (bzla_bvdomain_new_init 4) (mk_bv 4 3) (mk_bv 4 7) 1 = true
  <-> has_solution OpUdiv 4 (mk_bv 4 3) (mk_bv 4 7) 1.
Proof.
  apply (is_inv_udiv_exact (bzla_bvdomain_new_init 4) (mk_bv 4 3) (mk_bv 4 7) 1).
  - vm_compute. intuition congruence.
  - vm_compute. intuition congruence.
  - vm_compute. intuition lia.
Defined.

(** *** urem *)

Lemma land_le_l (a b : Z) : 0 <= a -> 0 <= b -> Z.land a b <= a.
Proof.
  intros Ha Hb. apply land_le; [apply Z.land_nonneg; lia | lia |].
  rewrite Z.land_comm, Z.land_assoc, Z.land_diag. reflexivity.
Qed.

Lemma urem_pos1_mask (M s t : Z) :
  0 <= s < M -> 0 <= t < M -> (exists n, 0 <= n /\ M = 2 ^ n) ->
  (t <= Z.land ((((t + t) mod M) + ((- s) mod M)) mod M) s
   <-> s = t \/ 2 * t < s).
Proof.
  intros Hs Ht (n & Hn & HM).
  assert (Ea : (((t + t) mod M) + ((- s) mod M)) mod M = (2 * t - s) mod M).
  { rewrite <- Z.add_mod by lia. f_equal. lia. }
  rewrite Ea. clear Ea.
  split.
  - intros H.
    destruct (Z.eq_dec s t) as [|Hne]; [left; assumption|]. right.
    destruct (Z.lt_ge_cases (2 * t) s) as [|Hge]; [assumption|]. exfalso.
    assert (Hb : Z.land ((2 * t - s) mod M) s <= s).
    { rewrite Z.land_comm. apply land_le_l; [lia|].
      apply Z.mod_pos_bound; lia. }
    assert (Hlt : t < s) by lia.
    rewrite Z.mod_small in H by lia.
    pose proof (land_le_l (2 * t - s) s ltac:(lia) ltac:(lia)). lia.
  - intros [-> | Hlt].
    + replace (2 * t - t) with t by lia. rewrite Z.mod_small by lia.
      rewrite Z.land_diag. lia.
    + assert (Ea : (2 * t - s) mod M = M + 2 * t - s).
      { replace (2 * t - s) with ((M + 2 * t - s) + (-1) * M) by lia.
        rewrite Z.mod_add by lia. apply Z.mod_small. lia. }
      rewrite Ea.
      pose proof (Z.add_lor_land (M + 2 * t - s) s) as Hsum.
      assert (Hor : Z.lor (M + 2 * t - s) s < M).
      { rewrite HM. apply lor_wf; rewrite <- ?HM; lia. }
      lia.
Qed.

Lemma urem_pos1_arith (M s t : Z) :
  0 <= s < M -> 0 <= t < M ->
  ((exists v, 0 <= v < M /\ (if v =? 0 then s else s mod v) = t)
   <-> s = t \/ 2 * t < s).
Proof.
  intros Hs Ht. split.
  - intros (v & Hv & E). destruct (Z.eqb_spec v 0) as [->|Hv0]; [left; lia|].
    pose proof (Z.mod_pos_bound s v ltac:(lia)) as Hb.
    pose proof (Z.div_mod s v ltac:(lia)) as Hd.
    assert (Hq : 0 <= s / v) by (apply Z.div_pos; lia).
    destruct (Z.eq_dec (s / v) 0) as [E0|E0].
    + left. rewrite E0 in Hd. lia.
    + right. nia.
  - intros [-> | Hlt].
    + exists 0. split; [lia | reflexivity].
    + exists (s - t). split; [lia|].
      rewrite (proj2 (Z.eqb_neq _ _)) by lia.
      symmetry. apply (Z.mod_unique_pos s (s - t) 1 t); lia.
Qed.

(** The check of [urem] holds iff some [x] has [x % s = t] (resp.
    [s % x = t]), the remainder by zero being the dividend. *)
Theorem is_inv_urem_exact (x : BzlaBvDomain) (t s : BzlaBitVector) (pos_x : nat) :
  bv_wf t -> bv_wf s -> widths_match OpUrem x t s ->
  (bzla_is_inv_urem x t s pos_x = true
   <-> has_solution OpUrem (bzla_bvdomain_get_width x) t s pos_x).
Proof.
  obl_setup x t s. destruct Hwm as (-> & ->).
  set (w := bv_width (lo x)) in *.
  assert (HM : 2 <= 2 ^ Z.of_nat w).
  { change 2 with (2 ^ 1) at 1. apply Z.pow_le_mono_r; lia. }
  unfold bzla_is_inv_urem, has_solution, op_apply. rewrite !compare_leb.
  destruct pos_x as [|pos_x]; cbn [Nat.eqb];
    unfold bzla_bv_urem, bzla_bv_not, bzla_bv_neg, bzla_bv_add, bzla_bv_and, zw;
    cbn [bv_width bv_val].
  - rewrite Z.leb_le, Z.lnot_eq_pred_opp.
    destruct (Z.eqb_spec sv 0) as [->|Hs0].
    + cbn [Z.opp]. rewrite Z.mod_0_l by lia.
      replace (- 0 - 1) with (2 ^ Z.of_nat w - 1 + (-1) * 2 ^ Z.of_nat w) by lia.
      rewrite Z.mod_add, Z.mod_small by lia.
      split; [intros _ | lia].
      exists (mk_bv w tv). split; [reflexivity|]. split; [exact Ht|]. reflexivity.
    + assert (En : (- sv) mod 2 ^ Z.of_nat w = 2 ^ Z.of_nat w - sv).
      { replace (- sv) with (2 ^ Z.of_nat w - sv + (-1) * 2 ^ Z.of_nat w) by lia.
        rewrite Z.mod_add by lia. apply Z.mod_small. lia. }
      rewrite En.
      replace (- (2 ^ Z.of_nat w - sv) - 1)
        with (sv - 1 + (-1) * 2 ^ Z.of_nat w) by lia.
      rewrite Z.mod_add, Z.mod_small by lia.
      split.
      * intros H. exists (mk_bv w tv). split; [reflexivity|].
        split; [exact Ht|]. cbn [bv_width bv_val]. f_equal.
        apply Z.mod_small. lia.
      * intros ([wv v] & Hwv & _ & E). cbn [bv_width bv_val] in *.
        injection E as _ E.
        pose proof (Z.mod_pos_bound v sv ltac:(lia)). lia.
  - rewrite Z.leb_le.
    rewrite (urem_pos1_mask (2 ^ Z.of_nat w) sv tv Hs Ht)
      by (exists (Z.of_nat w); split; [lia | reflexivity]).
    rewrite <- (urem_pos1_arith (2 ^ Z.of_nat w) sv tv Hs Ht).
    split.
    + intros (v & Hv & E). exists (mk_bv w v). split; [reflexivity|].
      split; [exact Hv|]. cbn [bv_width bv_val]. f_equal. exact E.
    + intros ([wv v] & Hwv & Hvwf & E). unfold bv_wf, zw in Hvwf.
      cbn [bv_width bv_val] in *. subst wv. injection E as E. eauto.
Qed.

Lemma is_inv_urem_exact_witness :
  bzla_is_inv_urem (bzla_bvdomain_new_init 4) (mk_bv 4 3) (mk_bv 4 7) 1 = true
  <-> has_solution OpUrem 4 (mk_bv 4 3) (mk_bv 4 7) 1.
Proof.
  apply (is_inv_urem_exact (bzla_bvdomain_new_init 4) (mk_bv 4 3) (mk_bv 4 7) 1).
  - vm_compute. intuition congruence.
  - vm_compute. intuition congruence.
  - vm_compute. intuition lia.
Defined.

(** *** add, eq, slice *)

(** The checks of [add], [eq] and [slice] answer [true] on every input,
    and they are right: each of these equations has a solution whatever
    [s] and [t] are. *)
Theorem is_inv_add_eq_slice_exact (op : BzlaInvOp) (x : BzlaBvDomain)
        (t s : BzlaBitVector) (pos_x : nat) :
  op = OpAdd \/ op = OpEq \/ (exists upper lower, op = OpSlice upper lower) ->
  bv_wf t -> bv_wf s -> widths_match op x t s ->
  inv_op op x t s pos_x = true
  /\ has_solution op (bzla_bvdomain_get_width x) t s pos_x.
Proof.
  intros Hop Ht Hs Hwm.
  assert (HM : widths_match op x t s ->
               2 <= 2 ^ Z.of_nat (bv_width (lo x))).
  { intros (H1 & _). unfold bzla_bvdomain_get_width, bzla_bv_get_width in H1.
    change 2 with (2 ^ 1) at 1. apply Z.pow_le_mono_r; lia. }
  specialize (HM Hwm).
  destruct Hop as [-> | [-> | (upper & lower & ->)]];
    (split; [reflexivity|]); revert Ht Hs Hwm.
  - obl_setup x t s. destruct Hwm as (-> & ->).
    set (w := bv_width (lo x)) in *.
    exists (mk_bv w ((tv - sv) mod 2 ^ Z.of_nat w)). split; [reflexivity|].
    split.
    + unfold bv_wf, zw. cbn [bv_width bv_val]. apply Z.mod_pos_bound. lia.
    + unfold op_apply, bzla_bv_add, zw.
      assert (E : ((tv - sv) mod 2 ^ Z.of_nat w + sv) mod 2 ^ Z.of_nat w = tv).
      { rewrite Zplus_mod_idemp_l. replace (tv - sv + sv) with tv by lia.
        apply Z.mod_small. lia. }
      destruct (Nat.eqb pos_x 0); cbn [bv_width bv_val]; f_equal;
        [exact E | rewrite Z.add_comm; exact E].
  - intros Ht Hs (Hw1 & Hws & Hwt).
    unfold bzla_bvdomain_get_width, bzla_bv_get_width in *.
    set (w := bv_width (lo x)) in *.
    assert (Hs' := Hs). unfold bv_wf, zw in Hs'. rewrite Hws in Hs'.
    assert (Happ : forall v, op_apply OpEq v s pos_x
                             = mk_bv 1 (if bv_val v =? bv_val s then 1 else 0)).
    { intros v. unfold op_apply, bzla_bv_eq.
      destruct (Nat.eqb pos_x 0); [reflexivity|]. rewrite Z.eqb_sym. reflexivity. }
    destruct (width1_cases t Ht Hwt) as [-> | ->].
    + exists (mk_bv w ((bv_val s + 1) mod 2 ^ Z.of_nat w)).
      split; [reflexivity|]. split.
      * unfold bv_wf, zw. cbn [bv_width bv_val]. apply Z.mod_pos_bound. lia.
      * rewrite Happ. cbn [bv_val]. f_equal.
        destruct (Z.eqb_spec ((bv_val s + 1) mod 2 ^ Z.of_nat w) (bv_val s))
          as [E|E]; [exfalso | reflexivity].
        destruct (Z.eq_dec (bv_val s + 1) (2 ^ Z.of_nat w)) as [E1|E1].
        -- rewrite E1, Z.mod_same in E by lia. lia.
        -- rewrite Z.mod_small in E by lia. lia.
    + exists (mk_bv w (bv_val s)). split; [reflexivity|]. split; [exact Hs'|].
      rewrite Happ. cbn [bv_val]. rewrite Z.eqb_refl. reflexivity.
  - intros Ht Hs (Hw1 & Hul & Hwt).
    unfold bzla_bvdomain_get_width, bzla_bv_get_width in *.
    set (w := bv_width (lo x)) in *.
    destruct t as [wt tv]. unfold bv_wf, zw in Ht. cbn [bv_width bv_val] in *.
    subst wt. set (k := Z.of_nat (upper - lower + 1)) in *.
    assert (Hp : 0 < 2 ^ Z.of_nat lower) by (apply pow2_pos; lia).
    exists (mk_bv w (tv * 2 ^ Z.of_nat lower)). split; [reflexivity|]. split.
    + unfold bv_wf, zw. cbn [bv_width bv_val]. split; [nia|].
      replace (Z.of_nat w) with ((Z.of_nat w - k - Z.of_nat lower)
                                 + (k + Z.of_nat lower)) by lia.
      rewrite Z.pow_add_r by (subst k; lia).
      rewrite (Z.pow_add_r 2 k) by (subst k; lia).
      assert (HA : 1 <= 2 ^ (Z.of_nat w - k - Z.of_nat lower))
        by (apply (Z.pow_le_mono_r 2 0); subst k; lia).
      assert (HK : 0 < 2 ^ k) by (apply pow2_pos; subst k; lia).
      set (A := 2 ^ (Z.of_nat w - k - Z.of_nat lower)) in *.
      set (K := 2 ^ k) in *. set (P := 2 ^ Z.of_nat lower) in *.
      assert (tv * P < K * P) by (apply Z.mul_lt_mono_pos_r; lia).
      assert (1 * (K * P) <= A * (K * P))
        by (apply Z.mul_le_mono_nonneg_r; nia).
      lia.
    + unfold op_apply, bzla_bv_slice. cbn [bv_width bv_val]. fold k. f_equal.
      rewrite Z.shiftr_div_pow2, Z.div_mul by lia. apply Z.mod_small. exact Ht.
Qed.

Lemma is_inv_add_eq_slice_exact_witness :
  inv_op (OpSlice 2 1) (bzla_bvdomain_new_init 4) (mk_bv 2 3) (mk_bv 4 0) 0 = true
  /\ has_solution (OpSlice 2 1) 4 (mk_bv 2 3) (mk_bv 4 0) 0.
Proof.
  apply (is_inv_add_eq_slice_exact (OpSlice 2 1) (bzla_bvdomain_new_init 4)
           (mk_bv 2 3) (mk_bv 4 0) 0).
  - right. right. exists 2%nat, 1%nat. reflexivity.
  - vm_compute. intuition congruence.
  - vm_compute. intuition congruence.
  - vm_compute. intuition lia.
Defined.


(** ** Helpers of the checks with constant bits *)

(** [check_const_domain_bits] tells whether two valid domains of one width
    have a member in common. *)
Theorem const_domain_bits_meet (d1 d2 : BzlaBvDomain) :
  dom_wf d1 -> dom_wf d2 ->
  bzla_bvdomain_is_valid d1 = true -> bzla_bvdomain_is_valid d2 = true ->
  bv_width (lo d1) = bv_width (lo d2) ->
  (check_const_domain_bits d1 d2 = true
   <-> exists v, in_gamma d1 v /\ in_gamma d2 v).
Proof. apply check_const_domain_bits_iff. Qed.

Lemma const_domain_bits_meet_witness :
  check_const_domain_bits (bzla_bvdomain_new_from_char "1x0x")
                          (bzla_bvdomain_new_from_char "x10x") = true
  <-> exists v, in_gamma (bzla_bvdomain_new_from_char "1x0x") v
                /\ in_gamma (bzla_bvdomain_new_from_char "x10x") v.
Proof.
  apply (const_domain_bits_meet (bzla_bvdomain_new_from_char "1x0x")
           (bzla_bvdomain_new_from_char "x10x")).
  - vm_compute. intuition congruence.
  - vm_compute. intuition congruence.
  - reflexivity.
  - reflexivity.
  - reflexivity.
Defined.

(** ** urem with constant bits, the branches that are right *)

Lemma urem_solvable_has_solution (x : BzlaBvDomain) (t s : BzlaBitVector)
      (pos_x : nat) :
  solvable OpUrem x t s pos_x ->
  has_solution OpUrem (bzla_bvdomain_get_width x) t s pos_x.
Proof.
  intros (v & (Hw & Hwf & _) & E). exists v. auto.
Qed.

(** For [pos_x = 0] the [urem] check with constant bits never rejects an
    equation that has a solution in the domain, and for [s = 0] it accepts
    only such equations. *)
Theorem urem_const_pos0_complete (fuel : nat) (x : BzlaBvDomain)
        (t s : BzlaBitVector) :
  inv_args_ok OpUrem x t s 0 -> bzla_bvdomain_is_valid x = true ->
  (solvable OpUrem x t s 0 -> bzla_is_inv_urem_const fuel x t s 0 = Some true)
  /\ (bv_val s = 0 -> bzla_is_inv_urem_const fuel x t s 0 = Some true ->
      solvable OpUrem x t s 0).
Proof.
  intros (Hwf & Ht & Hs & (Hw1 & Hws & Hwt) & _) Hvalid.
  pose proof (is_inv_urem_exact x t s 0 Ht Hs (conj Hw1 (conj Hws Hwt))) as Hex.
  unfold bzla_bvdomain_get_width, bzla_bv_get_width in *.
  assert (Hchk : bzla_bvdomain_check_fixed_bits x t = true <-> in_gamma x t)
    by (apply check_fixed_bits_gamma; assumption).
  assert (HM : 2 <= 2 ^ Z.of_nat (bv_width (lo x))).
  { change 2 with (2 ^ 1) at 1. apply Z.pow_le_mono_r; lia. }
  assert (Ht' := Ht). assert (Hs' := Hs). unfold bv_wf, zw in Ht', Hs'.
  rewrite Hwt in Ht'. rewrite Hws in Hs'.
  unfold bzla_is_inv_urem_const. cbn [Nat.eqb negb].
  rewrite !check_const_bits_same, compare_eqb, compare_ltb.
  unfold bzla_bv_is_zero, bzla_bv_get_width, bzla_bv_ones, bzla_bv_sub, zw.
  cbn [bv_width bv_val]. rewrite Hwt, Z.ones_equiv.
  split.
  - intros Hsol. rewrite (proj2 Hex (urem_solvable_has_solution _ _ _ _ Hsol)).
    destruct Hsol as (v & Hg & E).
    assert (Hvw := gamma_width _ _ Hg).
    assert (Hvwf : 0 <= bv_val v < 2 ^ Z.of_nat (bv_width (lo x))).
    { destruct Hg as (_ & G & _). unfold bv_wf, zw in G. rewrite Hvw in G.
      exact G. }
    assert (Ev : (if bv_val s =? 0 then bv_val v else bv_val v mod bv_val s)
                 = bv_val t).
    { apply (f_equal bv_val) in E. exact E. }
    destruct (Z.eqb_spec (bv_val s) 0) as [Hs0|Hs0].
    + cbn [orb]. f_equal. apply Hchk.
      replace t with v; [exact Hg|]. apply bv_eq_intro; [congruence | exact Ev].
    + pose proof (Z.mod_pos_bound (bv_val v) (bv_val s) ltac:(lia)) as Hb.
      rewrite (proj2 (Z.eqb_neq (bv_val t) (Z.pred (2 ^ Z.of_nat (bv_width (lo x))))))
        by lia.
      cbn [orb].
      destruct (bzla_bvdomain_check_fixed_bits x t) eqn:Hc; cbn [negb];
        [reflexivity|].
      assert (Hne : bv_val v <> bv_val t).
      { intros Heq. assert (v = t) by (apply bv_eq_intro; congruence).
        subst v. apply Hchk in Hg. congruence. }
      pose proof (Z.div_mod (bv_val v) (bv_val s) Hs0) as Hd.
      assert (Hq : 0 <= bv_val v / bv_val s) by (apply Z.div_pos; lia).
      assert (Hq1 : 1 <= bv_val v / bv_val s).
      { destruct (Z.eq_dec (bv_val v / bv_val s) 0) as [E0|]; [|lia].
        rewrite E0 in Hd. lia. }
      rewrite Z.mod_small by lia.
      rewrite (proj2 (Z.ltb_ge _ _)) by nia. reflexivity.
  - intros Hs0 H. rewrite Hs0 in H. cbn [Z.eqb orb] in H.
    destruct (bzla_is_inv_urem x t s 0); [|discriminate].
    injection H as H. apply Hchk in H. exists t. split; [exact H|].
    unfold op_apply, bzla_bv_urem. cbn [Nat.eqb]. rewrite Hs0. cbn [Z.eqb].
    apply bv_eta.
Qed.

Lemma urem_const_pos0_complete_witness :
  (solvable OpUrem (bzla_bvdomain_new_from_char "x1x1") (mk_bv 4 1) (mk_bv 4 3) 0 ->
   bzla_is_inv_urem_const 0 (bzla_bvdomain_new_from_char "x1x1") (mk_bv 4 1)
     (mk_bv 4 3) 0 = Some true)
  /\ (bv_val (mk_bv 4 3) = 0 ->
      bzla_is_inv_urem_const 0 (bzla_bvdomain_new_from_char "x1x1") (mk_bv 4 1)
        (mk_bv 4 3) 0 = Some true ->
      solvable OpUrem (bzla_bvdomain_new_from_char "x1x1") (mk_bv 4 1)
        (mk_bv 4 3) 0).
Proof.
  apply (urem_const_pos0_complete 0 (bzla_bvdomain_new_from_char "x1x1")
           (mk_bv 4 1) (mk_bv 4 3)).
  - vm_compute. intuition (try congruence; try lia).
  - reflexivity.
Defined.

(** [check_const_bits_val] with the value zero tells whether the all-zero
    vector is in the domain. *)
Lemma check_const_bits_val_zero (x : BzlaBvDomain) :
  dom_wf x -> bzla_bvdomain_is_valid x = true ->
  (check_const_bits_val x 0 = true
   <-> in_gamma x (bzla_bv_zero (bv_width (lo x)))).
Proof.
  intros Hwf Hvalid. unfold check_const_bits_val. cbn [Z.eqb negb].
  rewrite check_const_bits_same. unfold bzla_bv_get_width, bzla_bv_new.
  apply check_fixed_bits_gamma; try assumption; try reflexivity.
  unfold bv_wf, zw. cbn [bv_width bv_val].
  unfold bzla_bv_zero. cbn [bv_width bv_val].
  pose proof (pow2_pos (Z.of_nat (bv_width (lo x))) ltac:(lia)). lia.
Qed.

(** For [pos_x = 1] and [t] all ones the [urem] check with constant bits
    is exact: [s % x] is all ones only for [x = 0] and [s] all ones. *)
Theorem urem_const_pos1_ones (fuel : nat) (x : BzlaBvDomain)
        (t s : BzlaBitVector) :
  inv_args_ok OpUrem x t s 1 -> bzla_bvdomain_is_valid x = true ->
  bv_val t = Z.ones (zw t) ->
  exists b : bool,
    bzla_is_inv_urem_const fuel x t s 1 = Some b
    /\ (b = true <-> solvable OpUrem x t s 1).
Proof.
  intros (Hwf & Ht & Hs & (Hw1 & Hws & Hwt) & _) Hvalid Hones.
  pose proof (is_inv_urem_exact x t s 1 Ht Hs (conj Hw1 (conj Hws Hwt))) as Hex.
  pose proof (check_const_bits_val_zero x Hwf Hvalid) as Hz.
  unfold bzla_bvdomain_get_width, bzla_bv_get_width in *.
  assert (HM : 2 <= 2 ^ Z.of_nat (bv_width (lo x))).
  { change 2 with (2 ^ 1) at 1. apply Z.pow_le_mono_r; lia. }
  assert (Hs' := Hs). unfold bv_wf, zw in Hs'. rewrite Hws in Hs'.
  unfold zw in Hones. rewrite Hwt, Z.ones_equiv in Hones.
  assert (Hsolv : solvable OpUrem x t s 1
                  -> bv_val s = bv_val t
                     /\ in_gamma x (bzla_bv_zero (bv_width (lo x)))).
  { intros (v & Hg & E). apply (f_equal bv_val) in E.
    unfold op_apply, bzla_bv_urem in E. cbn [Nat.eqb bv_val] in E.
    assert (Hvw := gamma_width _ _ Hg).
    destruct (Z.eqb_spec (bv_val v) 0) as [Hv0|Hv0].
    - split; [exact E|]. replace (bzla_bv_zero (bv_width (lo x))) with v;
        [exact Hg|]. apply bv_eq_intro; [exact Hvw | exact Hv0].
    - exfalso. destruct Hg as (_ & G & _). unfold bv_wf, zw in G.
      rewrite Hvw in G.
      pose proof (Z.mod_pos_bound (bv_val s) (bv_val v) ltac:(lia)). lia. }
  unfold bzla_is_inv_urem_const. cbn [Nat.eqb negb].
  rewrite compare_eqb. unfold bzla_bv_ones, bzla_bv_get_width, zw.
  cbn [bv_val]. rewrite Hwt, Z.ones_equiv, Hones, Z.eqb_refl.
  destruct (bzla_is_inv_urem x t s 1) eqn:Er.
  - eexists. split; [reflexivity|]. rewrite Hz. split.
    + intros Hg. exists (bzla_bv_zero (bv_width (lo x))). split; [exact Hg|].
      unfold op_apply, bzla_bv_urem. cbn [Nat.eqb bzla_bv_zero bv_val Z.eqb].
      destruct (proj1 Hex eq_refl) as (v & Hvw & Hvwf & E).
      apply (f_equal bv_val) in E.
      unfold op_apply, bzla_bv_urem in E. cbn [Nat.eqb bv_val] in E.
      unfold bv_wf, zw in Hvwf. rewrite Hvw in Hvwf.
      apply bv_eq_intro; [cbn [bv_width]; congruence|]. cbn [bv_val].
      destruct (Z.eqb_spec (bv_val v) 0) as [Hv0|Hv0]; [exact E|].
      pose proof (Z.mod_pos_bound (bv_val s) (bv_val v) ltac:(lia)). lia.
    + intros Hsol. apply Hsolv in Hsol. tauto.
  - exists false. split; [reflexivity|]. split; [discriminate|].
    intros Hsol. apply urem_solvable_has_solution, Hex in Hsol. congruence.
Qed.

Lemma urem_const_pos1_ones_witness :
  exists b : bool,
    bzla_is_inv_urem_const 0 (bzla_bvdomain_new_from_char "xx00") (mk_bv 4 15)
      (mk_bv 4 15) 1 = Some b
    /\ (b = true
        <-> solvable OpUrem (bzla_bvdomain_new_from_char "xx00") (mk_bv 4 15)
              (mk_bv 4 15) 1).
Proof.
  apply (urem_const_pos1_ones 0 (bzla_bvdomain_new_from_char "xx00")
           (mk_bv 4 15) (mk_bv 4 15)).
  - vm_compute. intuition (try congruence; try lia).
  - reflexivity.
  - reflexivity.
Defined.


(** ** The domain operations against [γ] *)

(** *** not *)

Lemma not_not_bits (w a : Z) :
  0 <= w -> a mod 2 ^ w = a -> Z.lnot (Z.lnot a mod 2 ^ w) mod 2 ^ w = a.
Proof.
  intros Hw Ha. apply Z.bits_inj'; intros i Hi. bit_of Ha i. bits_rw. bits_cases.
Qed.

Lemma not_gamma_bits (w l h v : Z) :
  0 <= w -> l mod 2 ^ w = l -> h mod 2 ^ w = h -> v mod 2 ^ w = v ->
  (Z.land (Z.lnot h mod 2 ^ w) (Z.lnot v mod 2 ^ w) = Z.lnot h mod 2 ^ w
   /\ Z.lor (Z.lnot v mod 2 ^ w) (Z.lnot l mod 2 ^ w) = Z.lnot l mod 2 ^ w)
  <-> (Z.land l v = l /\ Z.lor v h = h).
Proof.
  intros Hw Hl Hh Hv. split; intros (H1 & H2); split;
    apply Z.bits_inj'; intros i Hi;
    bit_of H1 i; bit_of H2 i; bit_of Hl i; bit_of Hh i; bit_of Hv i;
    bits_rw; bits_cases.
Qed.

(** [bzla_bvdomain_not] complements the members: [~v] is in [γ(not d)] iff
    [v] is in [γ(d)]; it keeps well-formedness and validity, and applying
    it twice gives the domain back. *)
Theorem domain_not_gamma (d : BzlaBvDomain) :
  dom_wf d ->
  dom_wf (bzla_bvdomain_not d)
  /\ bzla_bvdomain_is_valid (bzla_bvdomain_not d) = bzla_bvdomain_is_valid d
  /\ bzla_bvdomain_not (bzla_bvdomain_not d) = d
  /\ forall v : BzlaBitVector,
       bv_wf v -> bv_width v = bv_width (lo d) ->
       (in_gamma (bzla_bvdomain_not d) (bzla_bv_not v) <-> in_gamma d v).
Proof.
  intros (Hlo & Hhi & Hw). destruct d as [[w l] [wh h]].
  unfold bv_wf, zw in *. cbn [lo hi bv_width bv_val] in *. subst wh.
  assert (HW : 0 <= Z.of_nat w) by lia.
  assert (Hp : 0 < 2 ^ Z.of_nat w) by (apply pow2_pos; lia).
  split; [|split; [|split]].
  - unfold dom_wf, bzla_bvdomain_not, bzla_bv_not, bv_wf, zw.
    cbn [lo hi bv_width bv_val].
    split; [apply Z.mod_pos_bound; lia|].
    split; [apply Z.mod_pos_bound; lia | reflexivity].
  - unfold bzla_bvdomain_is_valid, bzla_bvdomain_not, bzla_bv_is_ones,
      bzla_bv_or, bzla_bv_not, zw.
    cbn [lo hi bv_width bv_val].
    rewrite (not_not_bits (Z.of_nat w) h HW (wf_mod _ _ Hhi)).
    rewrite Z.lor_comm. reflexivity.
  - unfold bzla_bvdomain_not, bzla_bv_not, zw. cbn [lo hi bv_width bv_val].
    rewrite !not_not_bits by (try lia; apply wf_mod; assumption). reflexivity.
  - intros [wv v] Hv Hwv. unfold bv_wf, zw in Hv. cbn [bv_width bv_val] in *.
    subst wv.
    unfold in_gamma, bzla_bvdomain_not, bzla_bv_not, bv_wf, zw.
    cbn [lo hi bv_width bv_val].
    pose proof (not_gamma_bits (Z.of_nat w) l h v HW (wf_mod _ _ Hlo)
                  (wf_mod _ _ Hhi) (wf_mod _ _ Hv)) as Hb.
    pose proof (Z.mod_pos_bound (Z.lnot v) (2 ^ Z.of_nat w) Hp).
    tauto.
Qed.

Lemma domain_not_gamma_witness :
  dom_wf (bzla_bvdomain_not (bzla_bvdomain_new_from_char "1x0x"))
  /\ bzla_bvdomain_is_valid (bzla_bvdomain_not (bzla_bvdomain_new_from_char "1x0x"))
     = bzla_bvdomain_is_valid (bzla_bvdomain_new_from_char "1x0x")
  /\ bzla_bvdomain_not (bzla_bvdomain_not (bzla_bvdomain_new_from_char "1x0x"))
     = bzla_bvdomain_new_from_char "1x0x"
  /\ forall v : BzlaBitVector,
       bv_wf v -> bv_width v = bv_width (lo (bzla_bvdomain_new_from_char "1x0x")) ->
       (in_gamma (bzla_bvdomain_not (bzla_bvdomain_new_from_char "1x0x"))
                 (bzla_bv_not v)
        <-> in_gamma (bzla_bvdomain_new_from_char "1x0x") v).
Proof.
  apply (domain_not_gamma (bzla_bvdomain_new_from_char "1x0x")).
  vm_compute. intuition congruence.
Defined.

(** *** slice *)

Lemma slice_gamma_bits (w l k lo hi v : Z) :
  0 <= l -> 0 <= k ->
  Z.land lo v = lo -> Z.lor v hi = hi ->
  Z.land (Z.shiftr lo l mod 2 ^ k) (Z.shiftr v l mod 2 ^ k)
  = Z.shiftr lo l mod 2 ^ k
  /\ Z.lor (Z.shiftr v l mod 2 ^ k) (Z.shiftr hi l mod 2 ^ k)
     = Z.shiftr hi l mod 2 ^ k.
Proof.
  intros Hl Hk G1 G2. split; apply Z.bits_inj'; intros i Hi;
    bit_of G1 (i + l); bit_of G2 (i + l); bits_rw; bits_cases.
Qed.

Lemma slice_gamma_lift (w l k lo hi u : Z) :
  0 <= l -> 0 <= k -> l + k <= w ->
  lo mod 2 ^ w = lo -> hi mod 2 ^ w = hi -> u mod 2 ^ k = u ->
  Z.land lo hi = lo ->
  Z.land (Z.shiftr lo l mod 2 ^ k) u = Z.shiftr lo l mod 2 ^ k ->
  Z.lor u (Z.shiftr hi l mod 2 ^ k) = Z.shiftr hi l mod 2 ^ k ->
  Z.land lo (Z.lor lo (Z.shiftl u l)) = lo
  /\ Z.lor (Z.lor lo (Z.shiftl u l)) hi = hi
  /\ Z.shiftr (Z.lor lo (Z.shiftl u l)) l mod 2 ^ k = u
  /\ Z.lor lo (Z.shiftl u l) mod 2 ^ w = Z.lor lo (Z.shiftl u l).
Proof.
  intros Hl Hk Hlk Hlo Hhi Hu Hv G1 G2.
  split; [|split; [|split]]; apply Z.bits_inj'; intros i Hi.
  - bits_rw. bits_cases.
  - destruct (Z.ltb_spec i l) as [Hil|Hil].
    + bit_of Hv i. bits_rw. bits_cases.
    + bit_of Hv i. bit_of Hu (i - l). bit_of G2 (i - l).
      bits_rw. idx_norm. bits_cases.
  - bit_of Hu i. bit_of G1 i. bits_rw. idx_norm. bits_cases.
  - destruct (Z.ltb_spec i l) as [Hil|Hil].
    + bit_of Hlo i. bits_rw. bits_cases.
    + bit_of Hlo i. bit_of Hu (i - l). bits_rw. bits_cases.
Qed.

(** [bzla_bvdomain_slice] is the image of [γ] under the slice of vectors:
    the slice of a member is a member of the sliced domain, and for a valid
    domain every member of the sliced domain is the slice of a member. *)
Theorem domain_slice_gamma (d : BzlaBvDomain) (upper lower : nat) :
  dom_wf d -> (lower <= upper < bv_width (lo d))%nat ->
  dom_wf (bzla_bvdomain_slice d upper lower)
  /\ (forall v, in_gamma d v ->
        in_gamma (bzla_bvdomain_slice d upper lower)
                 (bzla_bv_slice v upper lower))
  /\ (bzla_bvdomain_is_valid d = true ->
      bzla_bvdomain_is_valid (bzla_bvdomain_slice d upper lower) = true
      /\ forall u, in_gamma (bzla_bvdomain_slice d upper lower) u ->
           exists v, in_gamma d v /\ bzla_bv_slice v upper lower = u).
Proof.
  intros Hwf Hul.
  assert (Hsv : bzla_bvdomain_is_valid d = true ->
                bzla_bvdomain_is_valid (bzla_bvdomain_slice d upper lower) = true).
  { intros Hvalid. pose proof (is_valid_bits d Hwf Hvalid) as Hb.
    apply bits_valid_is_valid.
    - destruct Hwf as (Hlo & Hhi & Hw).
      unfold dom_wf, bzla_bvdomain_slice, bzla_bv_slice, bv_wf, zw.
      cbn [lo hi bv_width bv_val].
      split; [apply Z.mod_pos_bound, pow2_pos; lia|].
      split; [apply Z.mod_pos_bound, pow2_pos; lia | reflexivity].
    - intros i Hi. unfold bzla_bvdomain_slice, bzla_bv_slice.
      cbn [lo hi bv_val]. rewrite !Z.testbit_mod_pow2 by lia.
      rewrite !Z.shiftr_spec by lia. specialize (Hb (i + Z.of_nat lower)).
      destruct (i <? Z.of_nat (upper - lower + 1)); cbn [andb];
        [apply Hb; lia | discriminate]. }
  assert (Hvl : bzla_bvdomain_is_valid d = true ->
                Z.land (bv_val (lo d)) (bv_val (hi d)) = bv_val (lo d))
    by (apply valid_land; assumption).
  destruct Hwf as (Hlo & Hhi & Hw). destruct d as [[w l] [wh h]].
  unfold bv_wf, zw in *. cbn [lo hi bv_width bv_val] in *. subst wh.
  set (k := Z.of_nat (upper - lower + 1)).
  assert (Hk : 0 <= k) by (subst k; lia).
  assert (Hpk : 0 < 2 ^ k) by (apply pow2_pos; lia).
  split; [|split].
  - unfold dom_wf, bzla_bvdomain_slice, bzla_bv_slice, bv_wf, zw.
    cbn [lo hi bv_width bv_val]. fold k.
    split; [apply Z.mod_pos_bound; lia|].
    split; [apply Z.mod_pos_bound; lia | reflexivity].
  - intros [wv v] (Hwv & Hvwf & G1 & G2).
    unfold in_gamma, bzla_bvdomain_slice, bzla_bv_slice, bv_wf, zw.
    cbn [lo hi bv_width bv_val] in *. fold k.
    split; [reflexivity|]. split; [apply Z.mod_pos_bound; lia|].
    apply (slice_gamma_bits (Z.of_nat w)); try assumption; lia.
  - intros Hvalid. split; [exact (Hsv Hvalid)|].
    intros [wu u] (Hwu & Huwf & G1 & G2).
    unfold bzla_bvdomain_slice, bzla_bv_slice, bv_wf, zw in *.
    cbn [lo hi bv_width bv_val] in *. fold k in Huwf, G1, G2. subst wu.
    destruct (slice_gamma_lift (Z.of_nat w) (Z.of_nat lower) k l h u)
      as (F1 & F2 & F3 & F4);
      try (apply wf_mod; assumption); try assumption; try lia; [auto|].
    exists (mk_bv w (Z.lor l (Z.shiftl u (Z.of_nat lower)))).
    unfold in_gamma, bv_wf, zw. cbn [lo hi bv_width bv_val]. fold k.
    split; [|f_equal; exact F3].
    split; [reflexivity|]. split; [|split; assumption].
    rewrite <- F4. apply Z.mod_pos_bound. apply pow2_pos. lia.
Qed.

Lemma domain_slice_gamma_witness :
  dom_wf (bzla_bvdomain_slice (bzla_bvdomain_new_from_char "1x0x") 2 1)
  /\ (forall v, in_gamma (bzla_bvdomain_new_from_char "1x0x") v ->
        in_gamma (bzla_bvdomain_slice (bzla_bvdomain_new_from_char "1x0x") 2 1)
                 (bzla_bv_slice v 2 1))
  /\ (bzla_bvdomain_is_valid (bzla_bvdomain_new_from_char "1x0x") = true ->
      bzla_bvdomain_is_valid
        (bzla_bvdomain_slice (bzla_bvdomain_new_from_char "1x0x") 2 1) = true
      /\ forall u,
        in_gamma (bzla_bvdomain_slice (bzla_bvdomain_new_from_char "1x0x") 2 1) u ->
        exists v, in_gamma (bzla_bvdomain_new_from_char "1x0x") v
                  /\ bzla_bv_slice v 2 1 = u).
Proof.
  apply (domain_slice_gamma (bzla_bvdomain_new_from_char "1x0x") 2 1).
  - vm_compute. intuition congruence.
  - vm_compute. lia.
Defined.

(** *** is_fixed, has_fixed_bits and the fixed-bit queries *)

(** A valid domain is fixed iff [lo] is its only member, and iff every
    position is a fixed bit. *)
Theorem is_fixed_singleton (d : BzlaBvDomain) :
  dom_wf d -> bzla_bvdomain_is_valid d = true ->
  (bzla_bvdomain_is_fixed d = true
   <-> forall v, in_gamma d v -> v = lo d)
  /\ (bzla_bvdomain_is_fixed d = true
      <-> forall i : nat, (i < bv_width (lo d))%nat ->
            bzla_bvdomain_is_fixed_bit d i = true).
Proof.
  intros Hwf Hvalid.
  pose proof (hi_in_gamma d Hwf Hvalid) as Hhig.
  pose proof (gamma_bounds d Hwf) as Hb.
  assert (Hfix : bzla_bvdomain_is_fixed d = true <-> bv_val (lo d) = bv_val (hi d)).
  { unfold bzla_bvdomain_is_fixed, bzla_bv_is_true, bzla_bv_eq.
    cbn [bv_width bv_val Nat.eqb andb].
    destruct (Z.eqb_spec (bv_val (lo d)) (bv_val (hi d))); cbn; split;
      intros; congruence. }
  rewrite Hfix. split.
  - split.
    + intros E v Hg. specialize (Hb v Hg).
      apply bv_eq_intro; [apply (gamma_width _ _ Hg) | lia].
    + intros H. rewrite (H _ Hhig). reflexivity.
  - split.
    + intros E i _. apply is_fixed_bit_iff. rewrite E. reflexivity.
    + intros H. apply Z.bits_inj'. intros i Hi.
      destruct (Z.ltb_spec i (Z.of_nat (bv_width (lo d)))) as [Hlt|Hge].
      * specialize (H (Z.to_nat i) ltac:(lia)). apply is_fixed_bit_iff in H.
        rewrite Z2Nat.id in H by lia. exact H.
      * destruct Hwf as (Hlo & Hhi & Hw).
        rewrite (wf_testbit_above (lo d)), (wf_testbit_above (hi d));
          try assumption; unfold zw; rewrite ?Hw; try lia; try reflexivity.
Qed.

Lemma is_fixed_singleton_witness :
  (bzla_bvdomain_is_fixed (bzla_bvdomain_new_fixed (mk_bv 4 9)) = true
   <-> forall v, in_gamma (bzla_bvdomain_new_fixed (mk_bv 4 9)) v ->
                 v = lo (bzla_bvdomain_new_fixed (mk_bv 4 9)))
  /\ (bzla_bvdomain_is_fixed (bzla_bvdomain_new_fixed (mk_bv 4 9)) = true
      <-> forall i : nat,
            (i < bv_width (lo (bzla_bvdomain_new_fixed (mk_bv 4 9))))%nat ->
            bzla_bvdomain_is_fixed_bit (bzla_bvdomain_new_fixed (mk_bv 4 9)) i
            = true).
Proof.
  apply (is_fixed_singleton (bzla_bvdomain_new_fixed (mk_bv 4 9))).
  - vm_compute. intuition congruence.
  - reflexivity.
Defined.

(** [has_fixed_bits] holds iff some position inside the width is a fixed
    bit. *)
Theorem has_fixed_bits_iff (d : BzlaBvDomain) :
  bzla_bvdomain_has_fixed_bits d = true
  <-> exists i : nat, (i < bv_width (lo d))%nat
                      /\ bzla_bvdomain_is_fixed_bit d i = true.
Proof.
  unfold bzla_bvdomain_has_fixed_bits, bzla_bv_is_true, bzla_bv_redor,
    bzla_bv_xnor, zw.
  cbn [bv_width bv_val Nat.eqb andb].
  set (m := Z.lnot (Z.lxor (bv_val (lo d)) (bv_val (hi d)))
            mod 2 ^ Z.of_nat (bv_width (lo d))).
  assert (Hbit : forall i, 0 <= i ->
            Z.testbit m i
            = (i <? Z.of_nat (bv_width (lo d)))
              && Bool.eqb (Z.testbit (bv_val (lo d)) i)
                          (Z.testbit (bv_val (hi d)) i)).
  { intros i Hi. subst m. bits_rw. f_equal.
    destruct (Z.testbit (bv_val (lo d)) i), (Z.testbit (bv_val (hi d)) i);
      reflexivity. }
  split.
  - intros H. destruct (Z.eqb_spec m 0) as [E|NE]; [discriminate|].
    assert (Hex : exists i, 0 <= i /\ Z.testbit m i = true).
    { destruct (Z.eq_dec m 0) as [|_]; [contradiction|].
      assert (Hm : 0 <= m)
        by (subst m; apply Z.mod_pos_bound, pow2_pos; lia).
      exists (Z.log2 m). split; [apply Z.log2_nonneg|].
      apply Z.bit_log2. lia. }
    destruct Hex as (i & Hi & Hb). rewrite Hbit in Hb by assumption.
    apply andb_true_iff in Hb. destruct Hb as (Hlt & He).
    apply Z.ltb_lt in Hlt. exists (Z.to_nat i). split; [lia|].
    unfold bzla_bvdomain_is_fixed_bit, bzla_bv_get_bit.
    rewrite Z2Nat.id by lia. exact He.
  - intros (i & Hi & Hf).
    unfold bzla_bvdomain_is_fixed_bit, bzla_bv_get_bit in Hf.
    destruct (Z.eqb_spec m 0) as [E|NE]; [|reflexivity].
    pose proof (Hbit (Z.of_nat i) ltac:(lia)) as Hb.
    rewrite E, Z.bits_0, Hf, (proj2 (Z.ltb_lt _ _)) in Hb by lia.
    discriminate.
Qed.

(** A bit fixed to one is set in every member, a bit fixed to zero is
    clear in every member, and a fixed bit is one of the two; at an unfixed
    position of a valid domain both values occur among the members. *)
Theorem fixed_bit_members (d : BzlaBvDomain) (i : nat) :
  (forall v, in_gamma d v ->
     (bzla_bvdomain_is_fixed_bit_true d i = true -> bzla_bv_get_bit v i = true)
     /\ (bzla_bvdomain_is_fixed_bit_false d i = true ->
         bzla_bv_get_bit v i = false))
  /\ bzla_bvdomain_is_fixed_bit d i
     = bzla_bvdomain_is_fixed_bit_true d i
       || bzla_bvdomain_is_fixed_bit_false d i
  /\ (dom_wf d -> bzla_bvdomain_is_valid d = true ->
      bzla_bvdomain_is_fixed_bit d i = false ->
      exists v0 v1, in_gamma d v0 /\ in_gamma d v1
                    /\ bzla_bv_get_bit v0 i = false
                    /\ bzla_bv_get_bit v1 i = true).
Proof.
  unfold bzla_bvdomain_is_fixed_bit_true, bzla_bvdomain_is_fixed_bit_false,
    bzla_bvdomain_is_fixed_bit, bzla_bv_get_bit.
  split; [|split].
  - intros v (_ & _ & G1 & G2).
    apply (testbit_of_eq _ _ (Z.of_nat i)) in G1, G2.
    rewrite Z.land_spec in G1. rewrite Z.lor_spec in G2.
    destruct (Z.testbit (bv_val (lo d)) (Z.of_nat i)),
             (Z.testbit (bv_val (hi d)) (Z.of_nat i)),
             (Z.testbit (bv_val v) (Z.of_nat i));
      cbn in *; split; intros; congruence.
  - destruct (Z.testbit (bv_val (lo d)) (Z.of_nat i)),
             (Z.testbit (bv_val (hi d)) (Z.of_nat i)); reflexivity.
  - intros Hwf Hvalid Hfree.
    pose proof (is_valid_bits d Hwf Hvalid (Z.of_nat i) ltac:(lia)) as Hb.
    exists (lo d), (hi d).
    split; [apply lo_in_gamma; assumption|].
    split; [apply hi_in_gamma; assumption|].
    destruct (Z.testbit (bv_val (lo d)) (Z.of_nat i)),
             (Z.testbit (bv_val (hi d)) (Z.of_nat i));
      cbn in *; try discriminate; auto.
    specialize (Hb eq_refl). discriminate.
Qed.

Lemma fixed_bit_members_witness :
  exists v0 v1,
    in_gamma (bzla_bvdomain_new_from_char "1x0x") v0
    /\ in_gamma (bzla_bvdomain_new_from_char "1x0x") v1
    /\ bzla_bv_get_bit v0 2 = false /\ bzla_bv_get_bit v1 2 = true.
Proof.
  destruct (fixed_bit_members (bzla_bvdomain_new_from_char "1x0x") 2)
    as (_ & _ & H).
  apply H.
  - vm_compute. intuition congruence.
  - reflexivity.
  - reflexivity.
Defined.

(** *** fix_bit *)

Lemma set_bit_testbit_z (b : BzlaBitVector) (pos : nat) (value : bool) (i : Z) :
  0 <= i ->
  Z.testbit (bv_val (bzla_bv_set_bit b pos value)) i
  = if i =? Z.of_nat pos then value else Z.testbit (bv_val b) i.
Proof.
  intros Hi. unfold bzla_bv_set_bit. cbn [bv_val]. destruct value.
  - rewrite Z.setbit_eqb by lia. rewrite (Z.eqb_sym i).
    destruct (Z.of_nat pos =? i); reflexivity.
  - rewrite Z.clearbit_eqb. rewrite (Z.eqb_sym i).
    destruct (Z.of_nat pos =? i); cbn [negb];
      [apply andb_false_r | apply andb_true_r].
Qed.

(** Fixing an unfixed bit of a valid domain keeps exactly the members that
    have the chosen value at that position. *)
Theorem fix_bit_gamma (d : BzlaBvDomain) (pos : nat) (value : bool)
        (v : BzlaBitVector) :
  dom_wf d -> bzla_bvdomain_is_valid d = true ->
  (pos < bzla_bvdomain_get_width d)%nat ->
  bzla_bvdomain_is_fixed_bit d pos = false ->
  (in_gamma (bzla_bvdomain_fix_bit d pos value) v
   <-> in_gamma d v /\ bzla_bv_get_bit v pos = value).
Proof.
  intros Hwf Hvalid Hpos Hfree.
  pose proof (is_valid_bits d Hwf Hvalid (Z.of_nat pos) ltac:(lia)) as Hb.
  unfold bzla_bvdomain_is_fixed_bit, bzla_bv_get_bit in Hfree.
  assert (Hl : Z.testbit (bv_val (lo d)) (Z.of_nat pos) = false
               /\ Z.testbit (bv_val (hi d)) (Z.of_nat pos) = true).
  { destruct (Z.testbit (bv_val (lo d)) (Z.of_nat pos)),
             (Z.testbit (bv_val (hi d)) (Z.of_nat pos));
      cbn in *; try discriminate; auto. specialize (Hb eq_refl). discriminate. }
  destruct Hl as (Hl0 & Hh1).
  unfold in_gamma, bzla_bvdomain_fix_bit, bzla_bv_get_bit. cbn [lo hi].
  change (bv_width (bzla_bv_set_bit (lo d) pos value)) with (bv_width (lo d)).
  split.
  - intros (Hw & Hvwf & G1 & G2).
    assert (Hv : Z.testbit (bv_val v) (Z.of_nat pos) = value).
    { apply (testbit_of_eq _ _ (Z.of_nat pos)) in G1, G2.
      rewrite Z.land_spec, set_bit_testbit_z, Z.eqb_refl in G1 by lia.
      rewrite Z.lor_spec, set_bit_testbit_z, Z.eqb_refl in G2 by lia.
      destruct value, (Z.testbit (bv_val v) (Z.of_nat pos)); cbn in *; congruence. }
    split; [|exact Hv]. split; [exact Hw|]. split; [exact Hvwf|].
    split; apply Z.bits_inj'; intros i Hi.
    + apply (testbit_of_eq _ _ i) in G1.
      rewrite !Z.land_spec, set_bit_testbit_z in G1 by lia. rewrite Z.land_spec.
      destruct (Z.eqb_spec i (Z.of_nat pos)) as [E|]; [rewrite E|exact G1].
      rewrite Hl0. reflexivity.
    + apply (testbit_of_eq _ _ i) in G2.
      rewrite !Z.lor_spec, set_bit_testbit_z in G2 by lia. rewrite Z.lor_spec.
      destruct (Z.eqb_spec i (Z.of_nat pos)) as [E|]; [rewrite E|exact G2].
      rewrite Hh1. apply orb_true_r.
  - intros ((Hw & Hvwf & G1 & G2) & Hv).
    split; [exact Hw|]. split; [exact Hvwf|].
    split; apply Z.bits_inj'; intros i Hi.
    + apply (testbit_of_eq _ _ i) in G1. rewrite Z.land_spec in G1.
      rewrite Z.land_spec, set_bit_testbit_z by lia.
      destruct (Z.eqb_spec i (Z.of_nat pos)) as [E|]; [rewrite E|exact G1].
      rewrite Hv. apply andb_diag.
    + apply (testbit_of_eq _ _ i) in G2. rewrite Z.lor_spec in G2.
      rewrite Z.lor_spec, set_bit_testbit_z by lia.
      destruct (Z.eqb_spec i (Z.of_nat pos)) as [E|]; [rewrite E|exact G2].
      rewrite Hv. apply orb_diag.
Qed.

Lemma fix_bit_gamma_witness :
  in_gamma (bzla_bvdomain_fix_bit (bzla_bvdomain_new_from_char "1x0x") 2 true)
           (mk_bv 4 13)
  <-> in_gamma (bzla_bvdomain_new_from_char "1x0x") (mk_bv 4 13)
      /\ bzla_bv_get_bit (mk_bv 4 13) 2 = true.
Proof.
  apply (fix_bit_gamma (bzla_bvdomain_new_from_char "1x0x") 2 true (mk_bv 4 13)).
  - vm_compute. intuition congruence.
  - reflexivity.
  - vm_compute. lia.
  - reflexivity.
Defined.


(** ** Printing *)

(** The character the printers give to one position. *)
Lemma to_str_char_render (checked : bool) (l h : bool) :
  to_str_char checked l h
  = Done (if Bool.eqb l h then (if l then "1"%char else "0"%char)
          else if h then "x"%char else "?"%char).
Proof. destruct checked, l, h; reflexivity. Qed.

Lemma str_get_app (pre : string) (c : ascii) (r : string) :
  str_get (pre ++ String c r) (String.length pre) = Done c.
Proof.
  unfold str_get. induction pre as [|a pre IH]; [reflexivity|].
  cbn [String.append String.length String.get]. exact IH.
Qed.

Lemma append_assoc_char (pre : string) (c : ascii) (r : string) :
  (pre ++ String c r = (pre ++ String c EmptyString) ++ r)%string.
Proof.
  induction pre as [|a pre IH]; [reflexivity|].
  cbn [String.append]. rewrite IH. reflexivity.
Qed.

Lemma length_append_char (pre : string) (c : ascii) :
  String.length (pre ++ String c EmptyString) = S (String.length pre).
Proof. induction pre as [|a pre IH]; cbn; congruence. Qed.

(** *** to_char *)

Lemma bv_to_char_loop_length (v : Z) (n : nat) :
  String.length (bv_to_char_loop v n) = n.
Proof. induction n; cbn; congruence. Qed.

(** The loop of [to_char] on the numerals of [lo] and [hi], from the
    position that has [n] characters left. *)
Lemma to_char_loop_render (checked : bool) (d : BzlaBvDomain) (w : nat) :
  forall (n : nat) (pre : string),
  (String.length pre + n = w)%nat ->
  to_char_loop checked (bv_to_char_loop (bv_val (lo d)) n)
               (pre ++ bv_to_char_loop (bv_val (hi d)) n) (String.length pre)
  = Done (string_of_list_ascii (render_bits d w n (w - n + 1))).
Proof.
  induction n as [|n IH]; intros pre Hlen; [reflexivity|].
  cbn [bv_to_char_loop to_char_loop render_bits].
  rewrite str_get_app. cbn [bind].
  rewrite append_assoc_char.
  specialize (IH (pre ++ String (if Z.testbit (bv_val (hi d)) (Z.of_nat n)
                                 then "1"%char else "0"%char) EmptyString)%string).
  rewrite length_append_char in IH. rewrite IH by lia.
  replace (w - (w - S n + 1))%nat with n by lia.
  replace (S (w - S n + 1)) with (w - n + 1)%nat by lia.
  unfold bzla_bv_get_bit.
  destruct (Z.testbit (bv_val (lo d)) (Z.of_nat n)),
           (Z.testbit (bv_val (hi d)) (Z.of_nat n)), checked; reflexivity.
Qed.

Lemma bin_value_split (s : string) (acc : Z) :
  bin_value acc s = acc * 2 ^ Z.of_nat (String.length s) + bin_value 0 s.
Proof.
  revert acc. induction s as [|c r IH]; intros acc.
  - cbn. lia.
  - cbn [bin_value String.length].
    rewrite (IH (2 * acc + _)), (IH (2 * 0 + _)).
    rewrite Nat2Z.inj_succ, Z.pow_succ_r by lia. ring.
Qed.

Lemma bv_to_char_loop_ext (v1 v2 : Z) (n : nat) :
  (forall i : nat, (i < n)%nat ->
     Z.testbit v1 (Z.of_nat i) = Z.testbit v2 (Z.of_nat i)) ->
  bv_to_char_loop v1 n = bv_to_char_loop v2 n.
Proof.
  induction n as [|n IH]; intros H; [reflexivity|].
  cbn [bv_to_char_loop]. rewrite (H n) by lia. rewrite IH; [reflexivity|].
  intros i Hi. apply H. lia.
Qed.

(** A string of binary digits. *)
Lemma bv_to_char_of_bin (s : string) :
  (forall c, replace_x s c = s) -> ternary s = true ->
  bv_to_char_loop (bin_value 0 s) (String.length s) = s.
Proof.
  induction s as [|c r IH]; intros Hx Ht; [reflexivity|].
  cbn [ternary] in Ht. apply andb_true_iff in Ht. destruct Ht as (Hc & Ht).
  assert (Hxr : forall c', replace_x r c' = r).
  { intros c'. specialize (Hx c'). cbn [replace_x] in Hx. congruence. }
  assert (Hcx : Ascii.eqb c "x" = false).
  { specialize (Hx "0"%char). cbn [replace_x] in Hx.
    destruct (Ascii.eqb_spec c "x"); [|reflexivity].
    subst c. cbn in Hx. discriminate. }
  cbn [String.length bv_to_char_loop bin_value].
  rewrite bin_value_split.
  set (n := String.length r).
  set (b := 2 * 0 + (if Ascii.eqb c "1" then 1 else 0)).
  pose proof (bin_value_bounds r 0 ltac:(lia)) as Hb. fold n in Hb.
  assert (Hp : 0 < 2 ^ Z.of_nat n) by (apply pow2_pos; lia).
  f_equal.
  - assert (Etop : Z.testbit (b * 2 ^ Z.of_nat n + bin_value 0 r) (Z.of_nat n)
                   = Ascii.eqb c "1").
    { rewrite Z.testbit_eqb by lia.
      rewrite Z.add_comm, Z.div_add, Z.div_small by lia.
      subst b. destruct (Ascii.eqb c "1"); reflexivity. }
    rewrite Etop. rewrite Hcx, orb_false_r in Hc.
    destruct (Ascii.eqb_spec c "1") as [->|]; [reflexivity|].
    rewrite orb_false_r in Hc. apply Ascii.eqb_eq in Hc. congruence.
  - rewrite <- (IH Hxr Ht) at 2. apply bv_to_char_loop_ext.
    intros i Hi.
    rewrite <- (Z.mod_pow2_bits_low _ (Z.of_nat n)) by lia.
    rewrite Z.add_comm, Z.mod_add, Z.mod_small by lia. reflexivity.
Qed.

Lemma replace_x_idem (s : string) (b c : ascii) :
  Ascii.eqb b "x" = false -> replace_x (replace_x s b) c = replace_x s b.
Proof.
  intros Hb. induction s as [|a r IH]; [reflexivity|].
  cbn [replace_x]. rewrite IH.
  destruct (Ascii.eqb a "x") eqn:E; [rewrite Hb | rewrite E]; reflexivity.
Qed.

Lemma ternary_replace_x (s : string) (b : ascii) :
  ternary s = true -> ternary (String b EmptyString) = true ->
  ternary (replace_x s b) = true.
Proof.
  intros Hs Hb. induction s as [|a r IH]; [reflexivity|].
  cbn [ternary] in Hs. apply andb_true_iff in Hs. destruct Hs as (Ha & Hr).
  cbn [replace_x ternary]. rewrite (IH Hr), andb_true_r.
  destruct (Ascii.eqb a "x") eqn:E.
  - cbn [ternary] in Hb. rewrite andb_true_r in Hb. exact Hb.
  - rewrite ?E. exact Ha.
Qed.

Lemma to_char_loop_replace (checked : bool) (s : string) :
  ternary s = true ->
  forall pre : string,
  to_char_loop checked (replace_x s "0") (pre ++ replace_x s "1")
               (String.length pre) = Done s.
Proof.
  induction s as [|c r IH]; intros Ht pre; [reflexivity|].
  cbn [ternary] in Ht. apply andb_true_iff in Ht. destruct Ht as (Hc & Ht).
  cbn [replace_x to_char_loop]. rewrite str_get_app. cbn [bind].
  rewrite append_assoc_char.
  specialize (IH Ht (pre ++ String (if Ascii.eqb c "x" then "1"%char else c)
                               EmptyString)%string).
  rewrite length_append_char in IH. rewrite IH.
  apply orb_true_iff in Hc. destruct Hc as [Hc|Hc];
    [apply orb_true_iff in Hc; destruct Hc as [Hc|Hc]|];
    apply Ascii.eqb_eq in Hc; subst c; destruct checked; reflexivity.
Qed.

(** [to_char] succeeds on every domain whose bounds are equally wide, with
    or without assertions, and gives one of [0 1 x ?] per position. *)
Lemma to_char_renders (checked : bool) (d : BzlaBvDomain) :
  bv_width (hi d) = bv_width (lo d) ->
  bzla_bvdomain_to_char checked d
  = Done (string_of_list_ascii
            (render_bits d (bv_width (lo d)) (bv_width (lo d)) 1)).
Proof.
  intros Hw. unfold bzla_bvdomain_to_char, bzla_bv_to_char. rewrite Hw.
  pose proof (to_char_loop_render checked d (bv_width (lo d)) (bv_width (lo d))
                EmptyString) as H.
  cbn [String.append String.length] in H. rewrite H by lia.
  replace (bv_width (lo d) - bv_width (lo d) + 1)%nat with 1%nat by lia.
  reflexivity.
Qed.

Lemma from_char_to_char (checked : bool) (s : string) :
  ternary s = true ->
  bzla_bvdomain_to_char checked (bzla_bvdomain_new_from_char s) = Done s.
Proof.
  intros Ht.
  unfold bzla_bvdomain_to_char, bzla_bvdomain_new_from_char, bzla_bvdomain_new,
    bzla_bv_copy, char_to_lo, char_to_hi, char_to_bv, bzla_bv_char_to_bv,
    bzla_bv_to_char.
  cbn [lo hi bv_width bv_val].
  rewrite !bv_to_char_of_bin.
  - exact (to_char_loop_replace checked s Ht EmptyString).
  - intros c. apply replace_x_idem. reflexivity.
  - apply ternary_replace_x; [assumption | reflexivity].
  - intros c. apply replace_x_idem. reflexivity.
  - apply ternary_replace_x; [assumption | reflexivity].
Qed.

(** Round trip: a string over [{0, 1, x}] read by
    [bzla_bvdomain_new_from_char] is printed back unchanged by
    [bzla_bvdomain_to_char], and [bzla_bvdomain_print] in its short form
    writes it followed by a newline. *)
Theorem from_char_to_char_round_trip (checked : bool) (s : string) :
  ternary s = true ->
  bzla_bvdomain_to_char checked (bzla_bvdomain_new_from_char s) = Done s
  /\ bzla_bvdomain_print checked (bzla_bvdomain_new_from_char s) true
     = Done (s ++ String "010"%char EmptyString)%string.
Proof.
  intros Ht. pose proof (from_char_to_char checked s Ht) as H.
  split; [exact H|]. unfold bzla_bvdomain_print. rewrite H. reflexivity.
Qed.

Lemma from_char_to_char_round_trip_witness :
  bzla_bvdomain_to_char true (bzla_bvdomain_new_from_char "1x0x") = Done "1x0x"%string
  /\ bzla_bvdomain_print true (bzla_bvdomain_new_from_char "1x0x") true
     = Done ("1x0x" ++ String "010"%char EmptyString)%string.
Proof.
  apply (from_char_to_char_round_trip true "1x0x"). reflexivity.
Defined.

(** *** to_str on a width that fits the buffer *)

Lemma render_bits_length (d : BzlaBvDomain) (w n i : nat) :
  List.length (render_bits d w n i) = n.
Proof. revert i. induction n; intros i; cbn; congruence. Qed.

Lemma render_bits_nonzero (d : BzlaBvDomain) (w n i : nat) :
  Forall (fun c => Ascii.eqb c zero = false) (render_bits d w n i).
Proof.
  revert i. induction n as [|n IH]; intros i; cbn [render_bits];
    constructor; [|apply IH].
  destruct (bzla_bv_get_bit (lo d) (w - i)), (bzla_bv_get_bit (hi d) (w - i));
    reflexivity.
Qed.

Lemma c_string_app (l r : list ascii) :
  Forall (fun c => Ascii.eqb c zero = false) l ->
  c_string (l ++ zero :: r) = l.
Proof.
  induction 1 as [|c l Hc Hl IH]; cbn [app c_string].
  - rewrite Ascii.eqb_refl. reflexivity.
  - rewrite Hc, IH. reflexivity.
Qed.

Lemma list_store_firstn (l : list ascii) (p : nat) (c : ascii) :
  (p < List.length l)%nat ->
  firstn (p + 1) (list_store l p c) = firstn p l ++ [c]
  /\ (forall k, skipn (p + 1 + k) (list_store l p c) = skipn (p + 1 + k) l)
  /\ List.length (list_store l p c) = List.length l.
Proof.
  intros Hp. unfold list_store.
  assert (Hlen : List.length (firstn p l) = p) by (rewrite length_firstn; lia).
  split; [|split].
  - rewrite firstn_app, Hlen.
    replace (p + 1 - p)%nat with 1%nat by lia.
    rewrite firstn_all2 by lia. reflexivity.
  - intros k. rewrite skipn_app, Hlen.
    rewrite (skipn_all2 (firstn p l)) by lia.
    replace (p + 1 + k - p)%nat with (S k) by lia.
    cbn [app].
    change (skipn (S k) (c :: skipn (S p) l)) with (skipn k (skipn (S p) l)).
    rewrite skipn_skipn. f_equal. lia.
  - rewrite length_app, Hlen. cbn [List.length]. rewrite length_skipn. lia.
Qed.

Lemma to_str_loop_writes (checked : bool) (d : BzlaBvDomain) (w : nat) :
  forall (n i : nat) (st : PrintBuffer),
  List.length (s_buf st) = Z.to_nat PRINT_BUFFER_SIZE ->
  0 <= s_buf_pos st -> s_buf_pos st + Z.of_nat n < PRINT_BUFFER_SIZE - 1 ->
  to_str_loop checked d (Z.of_nat w) n (Z.of_nat i) st
  = Done (mk_print_buffer
            (firstn (Z.to_nat (s_buf_pos st)) (s_buf st)
             ++ render_bits d w n i
             ++ skipn (Z.to_nat (s_buf_pos st) + n) (s_buf st))%list
            (s_buf_pos st + Z.of_nat n)).
Proof.
  unfold PRINT_BUFFER_SIZE.
  induction n as [|n IH]; intros i [buf pos] Hlen Hpos Hfit;
    cbn [s_buf s_buf_pos] in *.
  - cbn [to_str_loop render_bits app]. rewrite Nat.add_0_r, firstn_skipn.
    f_equal. f_equal. lia.
  - cbn [to_str_loop render_bits]. rewrite to_str_char_render. cbn [bind].
    unfold buf_put, PRINT_BUFFER_SIZE. cbn [s_buf s_buf_pos].
    rewrite (proj2 (Z.leb_le _ _)), (proj2 (Z.ltb_lt _ _)) by lia.
    cbn [andb bind]. unfold size_t_wrap. rewrite Z.mod_small by lia.
    unfold assert, PRINT_BUFFER_SIZE. cbn [s_buf_pos].
    rewrite (proj2 (Z.ltb_lt (pos + 1) _)) by lia.
    cbn [negb]. rewrite andb_false_r. cbn [bind].
    replace (Z.of_nat i + 1) with (Z.of_nat (S i)) by lia.
    destruct (list_store_firstn buf (Z.to_nat pos)
                (if Bool.eqb (bzla_bv_get_bit (lo d) (Z.to_nat (Z.of_nat w - Z.of_nat i)))
                             (bzla_bv_get_bit (hi d) (Z.to_nat (Z.of_nat w - Z.of_nat i)))
                 then if bzla_bv_get_bit (lo d) (Z.to_nat (Z.of_nat w - Z.of_nat i))
                      then "1"%char else "0"%char
                 else if bzla_bv_get_bit (hi d) (Z.to_nat (Z.of_nat w - Z.of_nat i))
                      then "x"%char else "?"%char)) as (F1 & F2 & F3); [lia|].
    rewrite IH; cbn [s_buf s_buf_pos]; try lia.
    replace (Z.to_nat (pos + 1)) with (Z.to_nat pos + 1)%nat by lia.
    rewrite F1, F2.
    replace (Z.to_nat (Z.of_nat w - Z.of_nat i)) with (w - i)%nat by lia.
    rewrite <- app_assoc. cbn [app].
    replace (Z.to_nat pos + 1 + n)%nat with (Z.to_nat pos + S n)%nat by lia.
    replace (pos + 1 + Z.of_nat n) with (pos + Z.of_nat (S n)) by lia.
    reflexivity.
Qed.

(** On a width that fits the buffer [bzla_bvdomain_to_str] fails no
    assertion and stores inside the buffer; it starts at the current
    position, or at zero when the text would not fit in the rest; it
    leaves the buffer before its start untouched, so an earlier string
    stays intact until the buffer wraps; and the string it returns is the
    one [bzla_bvdomain_to_char] gives. *)
Theorem to_str_fits (checked : bool) (d : BzlaBvDomain) (st : PrintBuffer) :
  Z.of_nat (bv_width (lo d)) + 1 < PRINT_BUFFER_SIZE ->
  bv_width (hi d) = bv_width (lo d) ->
  0 <= s_buf_pos st <= PRINT_BUFFER_SIZE ->
  List.length (s_buf st) = Z.to_nat PRINT_BUFFER_SIZE ->
  exists (st' : PrintBuffer) (start : Z),
    bzla_bvdomain_to_str checked d st = Done (st', start)
    /\ start = (if Z.of_nat (bv_width (lo d)) + 1
                   >=? PRINT_BUFFER_SIZE - s_buf_pos st
                then 0 else s_buf_pos st)
    /\ s_buf_pos st' = start + Z.of_nat (bv_width (lo d)) + 1
    /\ s_buf_pos st' < PRINT_BUFFER_SIZE
    /\ List.length (s_buf st') = Z.to_nat PRINT_BUFFER_SIZE
    /\ firstn (Z.to_nat start) (s_buf st') = firstn (Z.to_nat start) (s_buf st)
    /\ bzla_bvdomain_to_char checked d
       = Done (string_of_list_ascii (returned_string (st', start))).
Proof.
  intros Hfit Hwd Hpos Hlen. unfold bzla_bvdomain_to_str, bzla_bv_get_width.
  set (w := bv_width (lo d)) in *.
  unfold PRINT_BUFFER_SIZE in *.
  unfold assert at 1. rewrite (proj2 (Z.leb_le _ _)) by lia.
  cbn [negb]. rewrite andb_false_r. cbn [bind].
  assert (Hlong : (Z.of_nat w + 1 >=? 1024) = false)
    by (rewrite Z.geb_leb; apply Z.leb_gt; lia).
  rewrite Hlong. unfold size_t_wrap. rewrite (Z.mod_small (1024 - _)) by lia.
  set (st0 := if Z.of_nat w + 1 >=? 1024 - s_buf_pos st
              then mk_print_buffer (s_buf st) 0 else st).
  assert (H0 : s_buf st0 = s_buf st
               /\ s_buf_pos st0 = (if Z.of_nat w + 1 >=? 1024 - s_buf_pos st
                                   then 0 else s_buf_pos st)
               /\ 0 <= s_buf_pos st0
               /\ s_buf_pos st0 + Z.of_nat w < 1023).
  { subst st0. rewrite Z.geb_leb.
    destruct (Z.leb_spec (1024 - s_buf_pos st) (Z.of_nat w + 1));
      cbn [s_buf s_buf_pos]; repeat split; lia. }
  destruct H0 as (Hb0 & Hp0 & Hp0' & Hp0'').
  set (p := Z.to_nat (s_buf_pos st0)).
  set (buf := s_buf st) in *.
  set (text := render_bits d w w 1).
  assert (Htl : List.length text = w) by apply render_bits_length.
  assert (Hfl : List.length (firstn p buf) = p)
    by (rewrite length_firstn; subst p; lia).
  assert (Hstore : list_store (firstn p buf ++ text ++ skipn (p + w) buf)
                     (Z.to_nat (s_buf_pos st0 + Z.of_nat w)) zero
                   = (firstn p buf ++ text ++ zero :: skipn (p + w + 1) buf)%list).
  { unfold list_store.
    replace (Z.to_nat (s_buf_pos st0 + Z.of_nat w)) with (p + w)%nat
      by (subst p; lia).
    rewrite app_assoc.
    rewrite firstn_app, length_app, Hfl, Htl.
    replace (p + w - (p + w))%nat with 0%nat by lia.
    rewrite firstn_all2 by (rewrite length_app; lia).
    cbn [firstn]. rewrite app_nil_r.
    rewrite skipn_app, length_app, Hfl, Htl.
    rewrite skipn_all2 by (rewrite length_app; lia).
    replace (S (p + w) - (p + w))%nat with 1%nat by lia.
    cbn [app]. rewrite skipn_skipn. rewrite <- app_assoc.
    replace (1 + (p + w))%nat with (p + w + 1)%nat by lia. reflexivity. }
  exists (mk_print_buffer
            (firstn p buf ++ text ++ zero :: skipn (p + w + 1) buf)%list
            (s_buf_pos st0 + Z.of_nat w + 1)), (s_buf_pos st0).
  split.
  { rewrite Nat2Z.id. change 1 with (Z.of_nat 1) at 1.
    rewrite (to_str_loop_writes checked d w w 1 st0)
      by (unfold PRINT_BUFFER_SIZE; rewrite ?Hb0; lia).
    cbn [bind]. unfold buf_put, PRINT_BUFFER_SIZE. cbn [s_buf s_buf_pos].
    rewrite (proj2 (Z.leb_le _ _)), (proj2 (Z.ltb_lt _ _)) by lia.
    cbn [andb bind]. unfold size_t_wrap. rewrite Z.mod_small by lia.
    rewrite Hb0. fold p. fold buf. fold text. rewrite Hstore. reflexivity. }
  split; [exact Hp0|]. cbn [s_buf s_buf_pos fst snd].
  split; [lia|]. split; [lia|]. split; [|split].
  - rewrite !length_app, Hfl, Htl. cbn [List.length]. rewrite length_skipn.
    subst p. lia.
  - fold p. rewrite firstn_app, Hfl. replace (p - p)%nat with 0%nat by lia.
    cbn [firstn]. rewrite app_nil_r.
    rewrite firstn_firstn. f_equal. lia.
  - unfold returned_string. cbn [fst snd s_buf]. fold p.
    rewrite skipn_app, Hfl. rewrite skipn_all2 by lia.
    replace (p - p)%nat with 0%nat by lia. cbn [app skipn].
    rewrite c_string_app by apply render_bits_nonzero.
    apply to_char_renders. exact Hwd.
Qed.

Lemma to_str_fits_witness :
  exists (st' : PrintBuffer) (start : Z),
    bzla_bvdomain_to_str true (bzla_bvdomain_new_from_char "1x0x")
                         initial_print_buffer = Done (st', start)
    /\ start = 0
    /\ s_buf_pos st' = 5
    /\ bzla_bvdomain_to_char true (bzla_bvdomain_new_from_char "1x0x")
       = Done (string_of_list_ascii (returned_string (st', start))).
Proof.
  destruct (to_str_fits true (bzla_bvdomain_new_from_char "1x0x")
              initial_print_buffer)
    as (st' & start & E & Hs & Hp & _ & _ & _ & Hc).
  - vm_compute. reflexivity.
  - reflexivity.
  - vm_compute. intuition congruence.
  - vm_compute. reflexivity.
  - exists st', start. split; [exact E|]. split; [exact Hs|].
    split; [rewrite Hp, Hs; reflexivity | exact Hc].
Defined.


(** ** The generator: empty ranges, full enumeration, random draws *)

Lemma fixed_rank_zero (d : BzlaBvDomain) :
  bzla_bvdomain_is_fixed d = true -> forall p, rank d p = 0%nat.
Proof.
  intros Hf.
  assert (E : bv_val (lo d) = bv_val (hi d)).
  { unfold bzla_bvdomain_is_fixed, bzla_bv_is_true, bzla_bv_eq in Hf.
    cbn [bv_width bv_val Nat.eqb andb] in Hf.
    destruct (Z.eqb_spec (bv_val (lo d)) (bv_val (hi d))); [assumption|].
    discriminate. }
  induction p as [|p IH]; [reflexivity|].
  cbn [rank]. rewrite IH. unfold dom_free, bzla_bvdomain_is_fixed_bit,
    bzla_bv_get_bit. rewrite E, Bool.eqb_reflx. reflexivity.
Qed.

(** The generator of a fixed domain is empty, although the domain has a
    member, and so is the generator of a range that lies above [hi] or
    below [lo]: [has_next] is false right after the initialisation. *)
Theorem gen_init_range_empty (rng : option BzlaRNG) (d : BzlaBvDomain)
        (min max : option BzlaBitVector) :
  bzla_bvdomain_is_fixed d = true
  \/ (exists m, min = Some m /\ bv_val (hi d) < bv_val m)
  \/ (exists m, max = Some m /\ bv_val m < bv_val (lo d)) ->
  bzla_bvdomain_gen_has_next (bzla_bvdomain_gen_init_range rng d min max) = false
  /\ gen_drain 1 (bzla_bvdomain_gen_init_range rng d min max) = Some [].
Proof.
  intros H.
  assert (Hb : gen_bits (bzla_bvdomain_gen_init_range rng d min max) = None).
  { unfold bzla_bvdomain_gen_init_range, bzla_bv_get_width.
    rewrite count_free_is_rank.
    destruct H as [Hf | [(m & -> & Hm) | (m & -> & Hm)]].
    - unfold free_count. rewrite (fixed_rank_zero d Hf). reflexivity.
    - rewrite !compare_leb, compare_gtb.
      replace ((if bv_val m <? bv_val (lo d) then lo d else m)) with
        (if bv_val m <? bv_val (lo d) then lo d else m) by reflexivity.
      assert (E : (bv_val (if bv_val m <? bv_val (lo d) then lo d else m)
                   <=? bv_val (hi d)) = false).
      { destruct (Z.ltb_spec (bv_val m) (bv_val (lo d))); apply Z.leb_gt; lia. }
      rewrite E, andb_false_r. reflexivity.
    - rewrite !compare_geb, compare_ltb.
      assert (E : (bv_val (lo d) <=?
                   bv_val (if bv_val (hi d) <? bv_val m then hi d else m)) = false).
      { destruct (Z.ltb_spec (bv_val (hi d)) (bv_val m)); apply Z.leb_gt; lia. }
      rewrite E, andb_false_r. reflexivity. }
  assert (Hn : bzla_bvdomain_gen_has_next
                 (bzla_bvdomain_gen_init_range rng d min max) = false).
  { unfold bzla_bvdomain_gen_has_next. rewrite Hb. reflexivity. }
  split; [exact Hn|]. cbn [gen_drain]. rewrite Hn. reflexivity.
Qed.

Lemma gen_init_range_empty_witness :
  bzla_bvdomain_gen_has_next
    (bzla_bvdomain_gen_init_range None (bzla_bvdomain_new_from_char "x01x")
       (Some (mk_bv 4 12)) None) = false
  /\ gen_drain 1
       (bzla_bvdomain_gen_init_range None (bzla_bvdomain_new_from_char "x01x")
          (Some (mk_bv 4 12)) None) = Some [].
Proof.
  apply (gen_init_range_empty None (bzla_bvdomain_new_from_char "x01x")
           (Some (mk_bv 4 12)) None).
  right. left. exists (mk_bv 4 12). split; [reflexivity|]. vm_compute. reflexivity.
Defined.

Lemma compose_from_length (d : BzlaBvDomain) (cnt : nat) (n : nat) (b : Z) :
  List.length (compose_from d cnt b n) = n.
Proof.
  revert b. induction n as [|n IH]; intros b; cbn [compose_from List.length];
    [reflexivity|]. rewrite IH. reflexivity.
Qed.

(** The state of the generator right after its initialisation, for a
    valid domain with an unfixed bit: the clipped bounds [m1] and [m2] and,
    where the guard passes, the two counters. *)
Lemma gen_init_range_ready (rng : option BzlaRNG) (d : BzlaBvDomain)
      (min max : option BzlaBitVector) :
  dom_wf d -> bzla_bvdomain_is_valid d = true ->
  bzla_bvdomain_is_fixed d = false ->
  bound_ok d min -> bound_ok d max ->
  exists m1 m2 : BzlaBitVector,
    (min = None -> m1 = lo d) /\ (max = None -> m2 = hi d)
    /\ (forall v, in_gamma d v ->
          (in_range min max v <-> bv_val m1 <= bv_val v <= bv_val m2))
    /\ (bv_val m1 <= bv_val (hi d) -> bv_val (lo d) <= bv_val m2 ->
        exists bmin bmax : BzlaBitVector,
          bits_min_ok d m1 bmin /\ bits_max_ok d m2 bmax
          /\ bzla_bvdomain_gen_init_range rng d min max
             = mk_gen d (if bv_val bmin <=? bv_val bmax then Some bmin else None)
                      (Some bmin) (Some bmax) None rng m1 m2).
Proof.
  intros Hwf Hvalid Hfix Hmin Hmax.
  pose proof (not_fixed_has_free d Hwf Hfix) as Hcnt.
  pose proof (clip_min d min Hwf Hmin) as Hm1.
  pose proof (clip_max d max Hwf Hmax) as Hm2.
  unfold bzla_bvdomain_gen_init_range, bzla_bv_get_width.
  rewrite count_free_is_rank, domain_copy_id.
  set (m1 := match min with
             | None => lo d
             | Some m => if bzla_bv_compare (lo d) m >? 0 then lo d else m
             end) in *.
  set (m2 := match max with
             | None => hi d
             | Some m => if bzla_bv_compare (hi d) m <? 0 then hi d else m
             end) in *.
  cbn zeta in Hm1, Hm2.
  destruct Hm1 as (Hm1wf & Hm1w & Hm1lo & Hm1r).
  destruct Hm2 as (Hm2wf & Hm2w & Hm2hi & Hm2r).
  exists m1, m2.
  split; [intros ->; reflexivity|]. split; [intros ->; reflexivity|].
  split.
  { intros v Hv. pose proof (gamma_bounds d Hwf v Hv) as [Hl Hh].
    unfold in_range. rewrite (Hm1r v Hl), (Hm2r v Hh). tauto. }
  intros Hle1 Hle2.
  rewrite (proj2 (Nat.eqb_neq (free_count d) 0)) by lia. cbn [negb andb].
  rewrite !compare_leb, compare_geb.
  rewrite (proj2 (Z.leb_le _ _) Hle1), (proj2 (Z.leb_le _ _) Hle2). cbn [andb].
  pose proof (bits_min_correct d m1 Hwf Hvalid Hm1wf Hm1w Hle1) as Hbmin.
  pose proof (bits_max_correct d m2 Hwf Hvalid Hm2wf Hm2w Hle2) as Hbmax.
  eexists; eexists. split; [exact Hbmin|]. split; [exact Hbmax|].
  unfold bzla_bv_copy. reflexivity.
Qed.

Lemma compose_from_last (d : BzlaBvDomain) (cnt : nat) (n : nat) :
  forall (b : Z) (x : BzlaBitVector),
  last (compose_from d cnt b (S n)) x = compose d (mk_bv cnt (b + Z.of_nat n)).
Proof.
  induction n as [|n IH]; intros b x.
  - cbn [compose_from last]. rewrite Z.add_0_r. reflexivity.
  - change (compose_from d cnt b (S (S n)))
      with (compose d (mk_bv cnt b) :: compose_from d cnt (b + 1) (S n)).
    change (last (compose d (mk_bv cnt b) :: compose_from d cnt (b + 1) (S n)) x)
      with (last (compose_from d cnt (b + 1) (S n)) x).
    rewrite IH. do 2 f_equal. lia.
Qed.

Lemma bv_val_inj (a b : BzlaBitVector) :
  bv_width a = bv_width b -> bv_val a = bv_val b -> a = b.
Proof. destruct a, b. cbn. intros -> ->. reflexivity. Qed.

(** For a valid domain with an unfixed bit, [bzla_bvdomain_gen_init]
    followed by [next] while [has_next] terminates and yields, in strictly
    ascending order, exactly the members of the domain: [2 ^ k] values for
    [k] unfixed bits, the first [lo] and the last [hi]. *)
Theorem gen_init_enumerates (rng : option BzlaRNG) (d : BzlaBvDomain) :
  dom_wf d -> bzla_bvdomain_is_valid d = true ->
  bzla_bvdomain_is_fixed d = false ->
  exists (fuel : nat) (l : list BzlaBitVector),
    gen_drain fuel (bzla_bvdomain_gen_init rng d) = Some l
    /\ Z.of_nat (List.length l) = 2 ^ Z.of_nat (free_count d)
    /\ ascending l
    /\ (forall v : BzlaBitVector, In v l <-> in_gamma d v)
    /\ hd_error l = Some (lo d)
    /\ last l (lo d) = hi d.
Proof.
  intros Hwf Hvalid Hfix.
  destruct (gen_init_range_ready rng d None None Hwf Hvalid Hfix I I)
    as (m1 & m2 & E1 & E2 & _ & Hready).
  rewrite (E1 eq_refl), (E2 eq_refl) in Hready. clear m1 m2 E1 E2.
  pose proof (pow2_pos (Z.of_nat (free_count d)) ltac:(lia)) as Hpp.
  pose proof (compose_in_gamma d Hwf Hvalid) as Hcg.
  pose proof (gamma_bounds d Hwf) as Hgb.
  pose proof (lo_in_gamma d Hwf Hvalid) as Hlo_in.
  pose proof (hi_in_gamma d Hwf Hvalid) as Hhi_in.
  assert (Hlh : bv_val (lo d) <= bv_val (hi d)).
  { pose proof (Hgb _ Hlo_in). lia. }
  destruct (Hready Hlh Hlh) as (bmin & bmax & Hbmin & Hbmax & Hinit).
  destruct Hbmin as (Hminw & Hminr & Hminc).
  destruct Hbmax as (Hmaxw & Hmaxr & Hmaxc).
  assert (Hmin0 : bv_val bmin = 0).
  { specialize (Hminc (mk_bv (free_count d) 0) ltac:(cbn [bv_val]; lia)).
    pose proof (Hgb _ (Hcg (mk_bv (free_count d) 0))).
    cbn [bv_val] in Hminc. lia. }
  assert (Hmax1 : bv_val bmax = 2 ^ Z.of_nat (free_count d) - 1).
  { specialize (Hmaxc (mk_bv (free_count d) (2 ^ Z.of_nat (free_count d) - 1)) ltac:(cbn [bv_val]; lia)).
    pose proof (Hgb _ (Hcg (mk_bv (free_count d) (2 ^ Z.of_nat (free_count d) - 1)))).
    cbn [bv_val] in Hmaxc. lia. }
  assert (Hmem : forall v, in_gamma d v ->
            exists k, 0 <= k < 2 ^ Z.of_nat (free_count d) /\ v = compose d (mk_bv (free_count d) k)).
  { intros v Hv. exists (extract d (bv_val v) (bv_width (lo d))).
    split; [apply (extract_bound d Hwf Hvalid)|].
    symmetry. apply (gamma_is_composed d Hwf v Hv). }
  assert (Hfirst : compose d (mk_bv (free_count d) 0) = lo d).
  { destruct (Hmem _ Hlo_in) as (k & Hk & E).
    apply bv_val_inj; [apply compose_width|].
    pose proof (Hgb _ (Hcg (mk_bv (free_count d) 0))) as [H1 _].
    pose proof (compose_mono d (mk_bv (free_count d) 0) (mk_bv (free_count d) k)
                  (proj1 Hwf)) as H2.
    cbn [bv_val] in H2. specialize (H2 ltac:(lia) ltac:(lia)).
    rewrite <- E in H2. lia. }
  assert (Hlast : compose d (mk_bv (free_count d) (2 ^ Z.of_nat (free_count d) - 1)) = hi d).
  { destruct (Hmem _ Hhi_in) as (k & Hk & E).
    apply bv_val_inj; [rewrite compose_width; symmetry; exact (proj2 (proj2 Hwf))|].
    pose proof (Hgb _ (Hcg (mk_bv (free_count d) (2 ^ Z.of_nat (free_count d) - 1)))) as [_ H1].
    pose proof (compose_mono d (mk_bv (free_count d) k)
                  (mk_bv (free_count d) (2 ^ Z.of_nat (free_count d) - 1))
                  (proj1 Hwf)) as H2.
    cbn [bv_val] in H2. specialize (H2 ltac:(lia) ltac:(lia)).
    rewrite <- E in H2. lia. }
  set (n := Z.to_nat (2 ^ Z.of_nat (free_count d) - 1)).
  exists (S (S n)), (compose_from d (free_count d) 0 (S n)).
  split.
  { unfold bzla_bvdomain_gen_init. rewrite Hinit.
    rewrite (proj2 (Z.leb_le _ _)) by lia.
    rewrite <- (bv_eta bmin) at 1. rewrite Hminw, Hmin0.
    apply gen_drain_run; subst n; lia. }
  split; [rewrite compose_from_length; subst n; lia|].
  split; [apply compose_from_ascending; [apply Hwf | lia | subst n; lia]|].
  split.
  { intros v. rewrite in_compose_from. split.
    - intros (k & _ & ->). apply Hcg.
    - intros Hv. destruct (Hmem v Hv) as (k & Hk & E).
      exists k. split; [subst n; lia | exact E]. }
  split.
  { cbn [compose_from hd_error]. rewrite Hfirst. reflexivity. }
  rewrite compose_from_last. rewrite <- Hlast. do 2 f_equal. subst n. lia.
Qed.

Lemma gen_init_enumerates_witness :
  exists (fuel : nat) (l : list BzlaBitVector),
    gen_drain fuel
      (bzla_bvdomain_gen_init None (bzla_bvdomain_new_from_char "x1x0")) = Some l
    /\ Z.of_nat (List.length l)
       = 2 ^ Z.of_nat (free_count (bzla_bvdomain_new_from_char "x1x0"))
    /\ ascending l
    /\ (forall v : BzlaBitVector,
          In v l <-> in_gamma (bzla_bvdomain_new_from_char "x1x0") v)
    /\ hd_error l = Some (lo (bzla_bvdomain_new_from_char "x1x0"))
    /\ last l (lo (bzla_bvdomain_new_from_char "x1x0"))
       = hi (bzla_bvdomain_new_from_char "x1x0").
Proof.
  apply (gen_init_enumerates None (bzla_bvdomain_new_from_char "x1x0")).
  - vm_compute. intuition congruence.
  - reflexivity.
  - reflexivity.
Defined.

Lemma random_range_bounds (rng : BzlaRNG) (bw : nat) (from to : BzlaBitVector) :
  bv_width from = bw -> bv_val from <= bv_val to ->
  bv_width (fst (bzla_bv_new_random_range rng bw from to)) = bw
  /\ bv_val from <= bv_val (fst (bzla_bv_new_random_range rng bw from to))
     <= bv_val to.
Proof.
  intros Hw Hle. unfold bzla_bv_new_random_range.
  destruct rng as [|r rng']; cbn [fst bv_width bv_val].
  - split; [assumption | lia].
  - split; [reflexivity|].
    pose proof (Z.mod_pos_bound r (bv_val to - bv_val from + 1) ltac:(lia)). lia.
Qed.

Lemma gen_random_step (d : BzlaBvDomain) (bmin bmax m1 m2 : BzlaBitVector)
      (bits cur : option BzlaBitVector) (rng : BzlaRNG) :
  bzla_bvdomain_gen_random
    (mk_gen d bits (Some bmin) (Some bmax) cur (Some rng) m1 m2)
  = let b := fst (bzla_bv_new_random_range rng (bv_width bmin) bmin bmax) in
    let rng' := snd (bzla_bv_new_random_range rng (bv_width bmin) bmin bmax) in
    Some (compose d b,
          mk_gen d
                 (if bv_val b =? bv_val bmax then Some bmin
                  else Some (bzla_bv_inc b))
                 (Some bmin) (Some bmax) (Some (compose d b)) (Some rng') m1 m2).
Proof.
  unfold bzla_bvdomain_gen_random, gen_next_bits.
  cbn [gen_bits gen_bits_min gen_bits_max gen_rng gen_domain gen_min gen_max].
  unfold bzla_bv_get_width.
  destruct (bzla_bv_new_random_range rng (bv_width bmin) bmin bmax) as [b rng'].
  cbn [fst snd]. cbn zeta. rewrite compare_eqb.
  unfold compose, bzla_bv_copy. reflexivity.
Qed.

Lemma gen_random_run (d : BzlaBvDomain) (bmin bmax m1 m2 : BzlaBitVector) :
  dom_wf d -> bzla_bvdomain_is_valid d = true ->
  bits_min_ok d m1 bmin -> bits_max_ok d m2 bmax ->
  bv_val bmin <= bv_val bmax ->
  forall (n : nat) (bits : option BzlaBitVector) (cur : option BzlaBitVector)
         (rng : BzlaRNG),
  exists (l : list BzlaBitVector) (g : BzlaBvDomainGenerator),
    gen_random_n n (mk_gen d bits (Some bmin) (Some bmax) cur (Some rng) m1 m2)
    = Some (l, g)
    /\ List.length l = n
    /\ Forall (fun v => in_gamma d v /\ bv_val m1 <= bv_val v <= bv_val m2) l
    /\ (n <> 0%nat -> bzla_bvdomain_gen_has_next g = true).
Proof.
  intros Hwf Hvalid (Hminw & Hminr & Hminc) (Hmaxw & Hmaxr & Hmaxc) Hle.
  induction n as [|n IH]; intros bits cur rng.
  - eexists; eexists. cbn [gen_random_n]. split; [reflexivity|].
    split; [reflexivity|]. split; [constructor|]. intros H. congruence.
  - cbn [gen_random_n]. rewrite gen_random_step. cbn zeta.
    pose proof (random_range_bounds rng (bv_width bmin) bmin bmax eq_refl Hle)
      as [Hdw Hdr].
    set (b := fst (bzla_bv_new_random_range rng (bv_width bmin) bmin bmax)) in *.
    set (rng' := snd (bzla_bv_new_random_range rng (bv_width bmin) bmin bmax)).
    set (bits' := if bv_val b =? bv_val bmax
                  then Some bmin else Some (bzla_bv_inc b)).
    set (res := compose d b).
    destruct (IH bits' (Some res) rng') as (l & g & Hrun & Hlen & Hall & Hnext).
    assert (Hres : in_gamma d res /\ bv_val m1 <= bv_val res <= bv_val m2).
    { split; [apply (compose_in_gamma d Hwf Hvalid)|].
      specialize (Hminc b ltac:(lia)). specialize (Hmaxc b ltac:(lia)).
      subst res. lia. }
    destruct n as [|n].
    + cbn [gen_random_n] in Hrun. injection Hrun as <- <-.
      eexists; eexists. split; [reflexivity|]. split; [reflexivity|].
      split; [constructor; [exact Hres | constructor]|].
      intros _. unfold bzla_bvdomain_gen_has_next. cbn [gen_bits gen_bits_max].
      subst bits'.
      destruct (Z.eqb_spec (bv_val b) (bv_val bmax)) as [E|N];
        rewrite compare_leb; apply Z.leb_le.
      * exact Hle.
      * unfold bzla_bv_inc, zw. cbn [bv_val]. rewrite Hdw, Hminw.
        rewrite Z.mod_small by lia. lia.
    + rewrite Hrun. eexists; eexists. split; [reflexivity|].
      split; [cbn [List.length]; rewrite Hlen; reflexivity|].
      split; [constructor; [exact Hres | exact Hall]|].
      intros _. apply Hnext. discriminate.
Qed.

(** On a generator initialised with a random source over a valid domain
    with an unfixed bit and a range that holds a member, any number of
    calls of [bzla_bvdomain_gen_random] succeed, every value drawn is a
    member of the domain inside the range, and the generator never runs
    out: [has_next] holds after each draw. *)
Theorem gen_random_in_range (rng : BzlaRNG) (d : BzlaBvDomain)
        (min max : option BzlaBitVector) (n : nat) :
  dom_wf d -> bzla_bvdomain_is_valid d = true ->
  bzla_bvdomain_is_fixed d = false ->
  bound_ok d min -> bound_ok d max ->
  (exists v0 : BzlaBitVector, in_gamma d v0 /\ in_range min max v0) ->
  exists (l : list BzlaBitVector) (g : BzlaBvDomainGenerator),
    gen_random_n n (bzla_bvdomain_gen_init_range (Some rng) d min max)
    = Some (l, g)
    /\ List.length l = n
    /\ Forall (fun v => in_gamma d v /\ in_range min max v) l
    /\ bzla_bvdomain_gen_has_next g = true.
Proof.
  intros Hwf Hvalid Hfix Hmin Hmax (v0 & Hv0 & Hr0).
  destruct (gen_init_range_ready (Some rng) d min max Hwf Hvalid Hfix Hmin Hmax)
    as (m1 & m2 & _ & _ & Hrange & Hready).
  pose proof (gamma_bounds d Hwf v0 Hv0) as Hb0.
  pose proof (proj1 (Hrange v0 Hv0) Hr0) as Hr0'.
  destruct (Hready ltac:(lia) ltac:(lia)) as (bmin & bmax & Hbmin & Hbmax & Hinit).
  assert (Hle : bv_val bmin <= bv_val bmax).
  { destruct Hbmin as (_ & _ & Hminc). destruct Hbmax as (_ & _ & Hmaxc).
    pose proof (gamma_is_composed d Hwf v0 Hv0) as Hc.
    pose proof (extract_bound d Hwf Hvalid (bv_val v0)) as Hb.
    specialize (Hminc (mk_bv (free_count d) _) Hb).
    specialize (Hmaxc (mk_bv (free_count d) _) Hb).
    rewrite Hc in Hminc, Hmaxc. cbn [bv_val] in *. lia. }
  rewrite Hinit. rewrite (proj2 (Z.leb_le _ _) Hle).
  destruct (gen_random_run d bmin bmax m1 m2 Hwf Hvalid Hbmin Hbmax Hle
              n (Some bmin) None rng) as (l & g & Hrun & Hlen & Hall & Hnext).
  exists l, g. split; [exact Hrun|]. split; [exact Hlen|].
  split.
  { eapply Forall_impl; [|exact Hall]. cbn beta. intros v [Hv Hr].
    split; [exact Hv|]. apply (Hrange v Hv). exact Hr. }
  destruct n as [|n]; [|apply Hnext; discriminate].
  cbn [gen_random_n] in Hrun. injection Hrun as _ <-.
  unfold bzla_bvdomain_gen_has_next. cbn [gen_bits gen_bits_max].
  rewrite compare_leb. apply Z.leb_le. exact Hle.
Qed.

Lemma gen_random_in_range_witness :
  exists (l : list BzlaBitVector) (g : BzlaBvDomainGenerator),
    gen_random_n 3
      (bzla_bvdomain_gen_init_range (Some [5; 2; 11])
         (bzla_bvdomain_new_from_char "x1x0x")
         (Some (mk_bv 5 9)) (Some (mk_bv 5 27))) = Some (l, g)
    /\ List.length l = 3%nat
    /\ Forall (fun v => in_gamma (bzla_bvdomain_new_from_char "x1x0x") v
                        /\ in_range (Some (mk_bv 5 9)) (Some (mk_bv 5 27)) v) l
    /\ bzla_bvdomain_gen_has_next g = true.
Proof.
  apply (gen_random_in_range [5; 2; 11] (bzla_bvdomain_new_from_char "x1x0x")
           (Some (mk_bv 5 9)) (Some (mk_bv 5 27)) 3).
  - vm_compute. intuition congruence.
  - reflexivity.
  - reflexivity.
  - vm_compute. intuition congruence.
  - vm_compute. intuition congruence.
  - exists (mk_bv 5 12). vm_compute. intuition congruence.
Defined.


(** ** The wheel factorizer returns primes *)

Lemma prime_of_no_small (fact num : Z) :
  2 <= fact -> (fact | num) -> no_small_factor fact num -> prime fact.
Proof.
  intros Hf Hd Hns. apply prime_alt. split; [lia|].
  intros k Hk Hkf. apply (Hns k ltac:(lia)).
  eapply Z.divide_trans; eassumption.
Qed.

Lemma prime_of_square (fact num : Z) :
  0 <= fact -> 2 <= num -> num < fact * fact -> no_small_factor fact num ->
  prime num.
Proof.
  intros Hfp Hn Hsq Hns. apply prime_alt. split; [lia|].
  intros k Hk [m Hm].
  assert (Hm0 : 0 < m) by nia.
  assert (Hm1 : m <> 1) by (intros ->; lia).
  assert (Hm2 : m < num) by nia.
  destruct (Z.lt_ge_cases k fact) as [Hlt|Hge].
  - apply (Hns k ltac:(lia)). exists m. exact Hm.
  - destruct (Z.lt_ge_cases m fact) as [Hlt'|Hge'].
    + apply (Hns m ltac:(lia)). exists k. lia.
    + assert (fact * fact <= m * k)
        by (apply Z.mul_le_mono_nonneg; lia).
      lia.
Qed.

(** One call without a limit, at a width that holds the wheel constants:
    what is returned is a prime, or the rest of the number when no
    candidate is left, itself a prime or 1. *)
Lemma wfact_next_loop_prime (w : nat) (fuel : nat) :
  (3 <= w)%nat ->
  forall (wf : WheelFactorizer) (it : Z),
  wheel_state w 0 wf -> wheel_exact wf ->
  2 ^ Z.of_nat w - bv_val (wf_fact wf) <= Z.of_nat fuel ->
  exists (r : option BzlaBitVector) (wf' : WheelFactorizer),
    wfact_next_loop fuel wf it = Some (r, wf')
    /\ wheel_state w 0 wf'
    /\ match r with
       | Some f =>
           (f = wf_num wf /\ wf_done wf' = true
            /\ (bv_val f = 1 \/ prime (bv_val f)))
           \/ (wheel_exact wf' /\ prime (bv_val f)
               /\ bv_val (wf_num wf) = bv_val f * bv_val (wf_num wf'))
       | None => wf_done wf' = true /\ bv_val (wf_num wf) = 1
       end.
Proof.
  intros Hw. pose proof (pow2_ge_8 w Hw) as H8.
  induction fuel as [|fuel IH]; intros wf it Hst Hex Hfuel.
  - destruct Hst as (_ & _ & _ & Hf & _). lia.
  - rewrite wfact_next_loop_step. cbn zeta.
    pose proof Hst as (Hwn & Hwf & Hn & Hf & Hl & Hinc).
    destruct Hex as (Hd & Hok & Hns).
    pose proof (wheel_ok_ge_2 _ _ Hok) as Hf2.
    rewrite Hl. cbn [Z.eqb negb andb].
    destruct (Z.ltb_spec (bv_val (wf_num wf))
                ((bv_val (wf_fact wf) * bv_val (wf_fact wf))
                 mod 2 ^ zw (wf_fact wf))) as [Hsq|Hsq].
    { eexists _, _. split; [reflexivity|].
      split; [unfold wheel_state; wf_simpl; repeat split; assumption || lia|].
      left. split; [reflexivity|]. split; [reflexivity|].
      destruct (Z.eq_dec (bv_val (wf_num wf)) 1) as [E1|N1]; [left; exact E1|].
      right. apply (prime_of_square (bv_val (wf_fact wf))); [lia | lia | | exact Hns].
      pose proof (Z.mod_le (bv_val (wf_fact wf) * bv_val (wf_fact wf))
                    (2 ^ zw (wf_fact wf)) ltac:(nia)
                    ltac:(unfold zw; apply pow2_pos; lia)).
      lia. }
    clear Hsq.
    destruct (Z.eqb_spec (bv_val (bzla_bv_urem (wf_num wf) (wf_fact wf))) 0)
      as [Hz|Hnz].
    { destruct (urem_zero_divides (wf_num wf) (wf_fact wf) ltac:(lia) ltac:(lia) Hz)
        as (Hf1 & Hq & Hq1).
      eexists _, _. split; [reflexivity|]. split.
      - unfold wheel_state. wf_simpl. unfold bzla_bv_udiv at 1. cbn [bv_width].
        repeat split; try assumption; try lia.
      - right. unfold wheel_exact. wf_simpl.
        split; [|split; [|assumption]].
        + split; [assumption|]. split; [assumption|].
          eapply no_small_quotient; eassumption.
        + apply (prime_of_no_small _ (bv_val (wf_num wf))); [lia | | exact Hns].
          exists (bv_val (bzla_bv_udiv (wf_num wf) (wf_fact wf))). lia. }
    pose proof (urem_nonzero_not_divides (wf_num wf) (wf_fact wf) Hf2 ltac:(lia) Hnz)
      as Hnd.
    destruct Hok as (Hp & Hok2). pose proof (conj Hp Hok2) as Hok.
    pose proof (wheel_step_range _ Hp) as Hstep.
    set (tmp := bzla_bv_add (wf_fact wf)
                  (nth (wf_pos wf) (wf_inc wf) (bzla_bv_zero 0))) in *.
    assert (Htv : bv_val tmp
                  = (bv_val (wf_fact wf) + wheel_step (wf_pos wf))
                    mod 2 ^ Z.of_nat w).
    { subst tmp. unfold bzla_bv_add, zw. cbn [bv_val].
      rewrite Hwf, Hinc, wheel_inc_value by assumption. reflexivity. }
    assert (Htw : bv_width tmp = w) by (subst tmp; exact Hwf).
    assert (Hwrap : bv_val (wf_fact wf) < bv_val tmp ->
                    bv_val tmp = bv_val (wf_fact wf) + wheel_step (wf_pos wf)).
    { rewrite Htv. intros Hgt.
      destruct (Z.lt_ge_cases (bv_val (wf_fact wf) + wheel_step (wf_pos wf))
                  (2 ^ Z.of_nat w)) as [Hs|Hb].
      - apply Z.mod_small. lia.
      - exfalso.
        rewrite <- (Z.mod_add _ (-1)) in Hgt by lia.
        rewrite Z.mod_small in Hgt by lia. lia. }
    destruct (Z.leb_spec (bv_val tmp) (bv_val (wf_fact wf))) as [Hle|Hgt].
    { eexists _, _. split; [reflexivity|]. split.
      - unfold wheel_state. wf_simpl. rewrite Htv.
        pose proof (Z.mod_pos_bound (bv_val (wf_fact wf) + wheel_step (wf_pos wf))
                      (2 ^ Z.of_nat w) ltac:(lia)).
        repeat split; try assumption; try lia.
      - split; [reflexivity|].
        destruct (Z.eq_dec (bv_val (wf_num wf)) 1) as [|Hne]; [assumption|].
        exfalso.
        pose proof (wheel_no_overflow _ _ _ Hok Hns ltac:(lia) Hnd) as Hno.
        rewrite Htv, Z.mod_small in Hle by lia. lia. }
    specialize (Hwrap Hgt).
    destruct (IH (wf_set_fact_pos wf tmp
                    (if Nat.eqb (wf_pos wf) 10 then 3%nat
                     else (wf_pos wf + 1)%nat))
                 (uint64_wrap (it + 1))) as (r & wf' & E & Hst' & Hr).
    + unfold wheel_state. wf_simpl. rewrite Htv.
      pose proof (Z.mod_pos_bound (bv_val (wf_fact wf) + wheel_step (wf_pos wf))
                    (2 ^ Z.of_nat w) ltac:(lia)).
      repeat split; try assumption; try lia.
    + unfold wheel_exact. wf_simpl. rewrite Hwrap.
      split; [assumption|]. split; [apply wheel_ok_next; assumption|].
      apply no_small_step; assumption.
    + wf_simpl. lia.
    + exists r, wf'. split; [exact E|]. split; [exact Hst'|].
      cbn [wf_set_fact_pos wf_num] in Hr. exact Hr.
Qed.

Lemma wfact_drain_prime (w : nat) (fuel : nat) :
  (3 <= w)%nat -> 2 ^ Z.of_nat w <= Z.of_nat fuel ->
  forall (calls : nat) (wf : WheelFactorizer),
  wheel_state w 0 wf -> wheel_exact wf ->
  bv_val (wf_num wf) + 2 <= Z.of_nat calls ->
  exists l : list BzlaBitVector,
    wfact_drain fuel calls wf = Some l
    /\ bv_product l = bv_val (wf_num wf)
    /\ Forall (fun f => bv_val f = 1 \/ prime (bv_val f)) l.
Proof.
  intros Hw Hfuel. induction calls as [|calls IH]; intros wf Hst Hex Hc.
  - destruct Hst as (_ & _ & Hn & _). lia.
  - cbn [wfact_drain]. unfold wfact_next at 1.
    pose proof Hex as (Hd & _). rewrite Hd.
    pose proof Hst as (_ & _ & Hn & Hf & _).
    destruct (wfact_next_loop_prime w fuel Hw wf 0 Hst Hex ltac:(lia))
      as (r & wf' & E & Hst' & Hr).
    rewrite E. destruct r as [f|].
    + destruct Hr as [(-> & Hd' & Hp1)|(Hex' & Hpf & Hmul)].
      * exists [wf_num wf].
        destruct calls as [|calls]; [lia|].
        cbn [wfact_drain]. unfold wfact_next. rewrite Hd'.
        split; [reflexivity|]. split; [cbn; lia|].
        constructor; [exact Hp1 | constructor].
      * pose proof Hst' as (_ & _ & Hn' & _).
        assert (Hf2 : 2 <= bv_val f) by (destruct Hpf; lia).
        destruct (IH wf' Hst' Hex' ltac:(nia)) as (l' & El & Hp & Hall).
        rewrite El. exists (f :: l'). split; [reflexivity|].
        split.
        -- cbn [bv_product fold_right]. fold (bv_product l'). rewrite Hp. lia.
        -- constructor; [right; exact Hpf | exact Hall].
    + destruct Hr as [_ H1]. exists []. split; [reflexivity|].
      split; [cbn; lia | constructor].
Qed.

(** Without a step limit and at a width of at least two bits, the
    successive calls of [wfact_next] on a positive [n] end with a null
    result, and the values returned before it are a factorisation of [n]
    into primes, up to a factor 1: each value is a prime or 1 and their
    product is [n]. *)
Theorem wheel_factors_prime (n : BzlaBitVector) :
  bv_wf n -> 1 <= bv_val n -> (2 <= bv_width n)%nat ->
  exists (fuel calls : nat) (l : list BzlaBitVector),
    wfact_drain fuel calls (wfact_init n 0) = Some l
    /\ bv_product l = bv_val n
    /\ Forall (fun f => bv_val f = 1 \/ prime (bv_val f)) l.
Proof.
  intros Hwf Hpos Hw2.
  pose proof (wfact_init_state n 0 Hwf Hpos) as Hst.
  destruct (Nat.eq_dec (bv_width n) 2) as [E2|NE2].
  { destruct n as [w v]. cbn [bv_width bv_val] in *. subst w.
    unfold bv_wf, zw in Hwf. cbn [bv_width bv_val] in Hwf.
    change (2 ^ Z.of_nat 2) with 4 in Hwf.
    assert (Hc : v = 1 \/ v = 2 \/ v = 3) by lia.
    exists 4%nat, 4%nat.
    destruct Hc as [->|[->| ->]]; eexists;
      (split; [vm_compute; reflexivity|]); (split; [vm_compute; reflexivity|]).
    - constructor.
    - constructor; [right | constructor]. cbn [bv_val].
      apply prime_alt. split; [lia|]. intros k Hk. lia.
    - constructor; [right | constructor]. cbn [bv_val].
      apply prime_alt. split; [lia|]. intros k Hk [m Hm].
      assert (k = 2) by lia. subst k. lia. }
  assert (Hw : (3 <= bv_width n)%nat) by lia.
  pose proof (pow2_ge_8 _ Hw) as H8.
  exists (Z.to_nat (2 ^ Z.of_nat (bv_width n))), (Z.to_nat (bv_val n + 2)).
  apply (wfact_drain_prime (bv_width n)); try assumption; try lia.
  - unfold wheel_exact, wfact_init, bzla_bv_copy, bzla_bv_uint64_to_bv,
      bzla_bv_get_width.
    wf_simpl. cbn [bv_val]. rewrite Z.mod_small by lia.
    split; [reflexivity|]. split.
    + split; [lia|]. split; [intros _; reflexivity | intros; lia].
    + intros k Hk. lia.
  - unfold wfact_init, bzla_bv_copy. wf_simpl. lia.
Qed.

Lemma wheel_factors_prime_witness :
  exists (fuel calls : nat) (l : list BzlaBitVector),
    wfact_drain fuel calls (wfact_init (mk_bv 8 84) 0) = Some l
    /\ bv_product l = bv_val (mk_bv 8 84)
    /\ Forall (fun f => bv_val f = 1 \/ prime (bv_val f)) l.
Proof.
  apply (wheel_factors_prime (mk_bv 8 84)).
  - vm_compute. intuition congruence.
  - vm_compute. congruence.
  - cbn. lia.
Defined.

(** ** The step limit *)

Lemma wfact_next_loop_limit (fuel : nat) :
  forall (wf : WheelFactorizer) (it : Z),
  1 <= wf_limit wf < 2 ^ 64 - 1 -> 0 <= it <= wf_limit wf ->
  wf_limit wf - it + 1 <= Z.of_nat fuel ->
  exists (r : option BzlaBitVector) (wf' : WheelFactorizer),
    wfact_next_loop fuel wf it = Some (r, wf')
    /\ wf_limit wf' = wf_limit wf
    /\ (r = None -> wf_done wf' = true).
Proof.
  induction fuel as [|fuel IH]; intros wf it HL Hit Hfuel; [lia|].
  rewrite wfact_next_loop_step. cbn zeta.
  unfold uint64_wrap. rewrite (Z.mod_small (it + 1)) by lia.
  rewrite (proj2 (Z.eqb_neq (wf_limit wf) 0)) by lia. cbn [negb andb].
  rewrite Z.gtb_ltb.
  destruct (Z.ltb_spec (wf_limit wf) (it + 1)) as [Hhit|Hin].
  { eexists _, _. split; [reflexivity|]. wf_simpl. split; reflexivity. }
  destruct (_ <? _).
  { eexists _, _. split; [reflexivity|]. wf_simpl.
    split; [reflexivity | discriminate]. }
  destruct (_ =? 0).
  { eexists _, _. split; [reflexivity|]. wf_simpl.
    split; [reflexivity | discriminate]. }
  destruct (_ <=? _).
  { eexists _, _. split; [reflexivity|]. wf_simpl. split; reflexivity. }
  destruct (IH (wf_set_fact_pos wf
                  (bzla_bv_add (wf_fact wf)
                     (nth (wf_pos wf) (wf_inc wf) (bzla_bv_zero 0)))
                  (if Nat.eqb (wf_pos wf) 10 then 3%nat else (wf_pos wf + 1)%nat))
               (it + 1)) as (r & wf' & E & Hl' & Hr).
  - wf_simpl. exact HL.
  - wf_simpl. lia.
  - wf_simpl. lia.
  - exists r, wf'. split; [exact E|]. split; [exact Hl' | exact Hr].
Qed.

(** With a step limit [L] between 1 and [2 ^ 64 - 2], a call of
    [wfact_next] returns after at most [L + 1] rounds of its loop, whatever
    the state of the factorizer; the limit is kept, and a null result
    leaves the factorizer done, so that every later call returns null at
    once. *)
Theorem wfact_next_limit_bound (wf : WheelFactorizer) (fuel : nat) :
  1 <= wf_limit wf < 2 ^ 64 - 1 ->
  wf_limit wf + 1 <= Z.of_nat fuel ->
  exists (r : option BzlaBitVector) (wf' : WheelFactorizer),
    wfact_next fuel wf = Some (r, wf')
    /\ wf_limit wf' = wf_limit wf
    /\ (r = None ->
        wf_done wf' = true
        /\ forall fuel' : nat, wfact_next fuel' wf' = Some (None, wf')).
Proof.
  intros HL Hfuel. unfold wfact_next at 1.
  destruct (wf_done wf) eqn:Hd.
  - exists None, wf. split; [reflexivity|]. split; [reflexivity|].
    intros _. split; [exact Hd|]. intros fuel'. unfold wfact_next.
    rewrite Hd. reflexivity.
  - destruct (wfact_next_loop_limit fuel wf 0 HL ltac:(lia) ltac:(lia))
      as (r & wf' & E & Hl' & Hr).
    exists r, wf'. split; [exact E|]. split; [exact Hl'|].
    intros Hn. specialize (Hr Hn). split; [exact Hr|].
    intros fuel'. unfold wfact_next. rewrite Hr. reflexivity.
Qed.

Lemma wfact_next_limit_bound_witness :
  exists (r : option BzlaBitVector) (wf' : WheelFactorizer),
    wfact_next 4 (wfact_init (mk_bv 8 77) 3) = Some (r, wf')
    /\ wf_limit wf' = wf_limit (wfact_init (mk_bv 8 77) 3)
    /\ (r = None ->
        wf_done wf' = true
        /\ forall fuel' : nat, wfact_next fuel' wf' = Some (None, wf')).
Proof.
  apply (wfact_next_limit_bound (wfact_init (mk_bv 8 77) 3) 4).
  - cbn. lia.
  - cbn. lia.
Defined.


(** ** What the constructors denote *)

Lemma gamma_of_fixed (bv v : BzlaBitVector) :
  bv_wf bv -> (in_gamma (bzla_bvdomain_new_fixed bv) v <-> v = bv).
Proof.
  intros Hbv. unfold in_gamma, bzla_bvdomain_new_fixed, bzla_bv_copy.
  cbn [lo hi]. split.
  - intros (Hw & Hv & Hl & Hh). apply bv_eq_intro; [exact Hw|].
    apply Z.bits_inj'. intros i Hi.
    bit_of Hl i. bit_of Hh i. bits_rw. bits_cases.
  - intros ->. split; [reflexivity|]. split; [exact Hbv|].
    split; [apply Z.land_diag | apply Z.lor_diag].
Qed.

(** The members of the domains the constructors build: [new_init] gives
    every vector of the width, [new_fixed] the given vector alone, and
    [new_fixed_uint64] the value reduced modulo [2 ^ width] alone. *)
Theorem constructors_gamma (w : nat) (bv : BzlaBitVector) (val : Z)
        (v : BzlaBitVector) :
  bv_wf bv ->
  (in_gamma (bzla_bvdomain_new_init w) v <-> bv_width v = w /\ bv_wf v)
  /\ (in_gamma (bzla_bvdomain_new_fixed bv) v <-> v = bv)
  /\ (in_gamma (bzla_bvdomain_new_fixed_uint64 val w) v
      <-> v = mk_bv w (val mod 2 ^ Z.of_nat w)).
Proof.
  intros Hbv. split; [|split].
  - unfold in_gamma, bzla_bvdomain_new_init, bzla_bv_zero, bzla_bv_ones.
    cbn [lo hi bv_width bv_val]. split.
    + intros (Hw & Hv & _). split; assumption.
    + intros (Hw & Hv). split; [exact Hw|]. split; [exact Hv|].
      split; [apply Z.land_0_l|].
      apply Z.bits_inj'. intros i Hi. bits_rw.
      destruct (Z.ltb_spec i (Z.of_nat w)) as [Hlt|Hge].
      * apply orb_true_r.
      * rewrite (wf_testbit_above v i Hv) by (unfold zw; lia).
        reflexivity.
  - apply gamma_of_fixed. exact Hbv.
  - unfold bzla_bvdomain_new_fixed_uint64. cbn zeta.
    apply (gamma_of_fixed (bzla_bv_uint64_to_bv val w)). apply uint64_to_bv_wf.
Qed.

Lemma constructors_gamma_witness :
  (in_gamma (bzla_bvdomain_new_init 4) (mk_bv 4 9)
   <-> bv_width (mk_bv 4 9) = 4%nat /\ bv_wf (mk_bv 4 9))
  /\ (in_gamma (bzla_bvdomain_new_fixed (mk_bv 4 9)) (mk_bv 4 9)
      <-> mk_bv 4 9 = mk_bv 4 9)
  /\ (in_gamma (bzla_bvdomain_new_fixed_uint64 25 4) (mk_bv 4 9)
      <-> mk_bv 4 9 = mk_bv 4 (25 mod 2 ^ Z.of_nat 4)).
Proof.
  apply (constructors_gamma 4 (mk_bv 4 9) 25 (mk_bv 4 9)).
  vm_compute. intuition congruence.
Defined.

(** ** The printed domain as a pattern for its members *)

Lemma pattern_match_length (p b : string) :
  pattern_match p b = true -> String.length p = String.length b.
Proof.
  revert b. induction p as [|c p IH]; intros [|a b]; cbn [pattern_match];
    try discriminate; [reflexivity|].
  intros H. apply andb_true_iff in H. destruct H as [_ H].
  cbn [String.length]. f_equal. apply IH. exact H.
Qed.

Lemma string_of_list_length (l : list ascii) :
  String.length (string_of_list_ascii l) = List.length l.
Proof. induction l; cbn; congruence. Qed.

Lemma render_match_bits (d : BzlaBvDomain) (v : Z) (w : nat) :
  forall n : nat, (n <= w)%nat ->
  (pattern_match (string_of_list_ascii (render_bits d w n (w - n + 1)))
                 (bv_to_char_loop v n) = true
   <-> forall i : nat, (i < n)%nat ->
         (Z.testbit (bv_val (lo d)) (Z.of_nat i) = true ->
          Z.testbit v (Z.of_nat i) = true)
         /\ (Z.testbit v (Z.of_nat i) = true ->
             Z.testbit (bv_val (hi d)) (Z.of_nat i) = true)).
Proof.
  induction n as [|n IH]; intros Hn.
  - cbn. split; [intros _ i Hi; lia | reflexivity].
  - cbn [render_bits string_of_list_ascii bv_to_char_loop pattern_match].
    replace (S (w - S n + 1)) with (w - n + 1)%nat by lia.
    replace (w - (w - S n + 1))%nat with n by lia.
    rewrite andb_true_iff, (IH ltac:(lia)). unfold bzla_bv_get_bit.
    split.
    + intros [Hc Hrest] i Hi.
      destruct (Nat.eq_dec i n) as [->|Hne]; [|apply Hrest; lia].
      destruct (Z.testbit (bv_val (lo d)) (Z.of_nat n)),
        (Z.testbit (bv_val (hi d)) (Z.of_nat n)),
        (Z.testbit v (Z.of_nat n)); cbn in Hc; split; congruence.
    + intros H. split; [|intros i Hi; apply H; lia].
      destruct (H n ltac:(lia)) as [H1 H2].
      destruct (Z.testbit (bv_val (lo d)) (Z.of_nat n)),
        (Z.testbit (bv_val (hi d)) (Z.of_nat n)),
        (Z.testbit v (Z.of_nat n)); cbn; try reflexivity;
        first [ specialize (H1 eq_refl); discriminate
              | specialize (H2 eq_refl); discriminate ].
Qed.

Lemma to_char_pattern (checked : bool) (d : BzlaBvDomain) (v : BzlaBitVector) :
  dom_wf d -> bv_wf v ->
  exists s : string,
    bzla_bvdomain_to_char checked d = Done s
    /\ (in_gamma d v <-> pattern_match s (bzla_bv_to_char v) = true).
Proof.
  intros (Hlo & Hhi & Hw) Hv.
  eexists. split; [apply to_char_renders; exact Hw|].
  unfold bzla_bv_to_char.
  set (w := bv_width (lo d)).
  assert (Hbits : bv_width v = w ->
    (in_gamma d v
     <-> forall i : nat, (i < w)%nat ->
         (Z.testbit (bv_val (lo d)) (Z.of_nat i) = true ->
          Z.testbit (bv_val v) (Z.of_nat i) = true)
         /\ (Z.testbit (bv_val v) (Z.of_nat i) = true ->
             Z.testbit (bv_val (hi d)) (Z.of_nat i) = true))).
  { intros Hwv. unfold in_gamma. split.
    - intros (_ & _ & Hl & Hh) i Hi.
      bit_of Hl (Z.of_nat i). bit_of Hh (Z.of_nat i). bits_rw.
      destruct (Z.testbit (bv_val (lo d)) (Z.of_nat i)),
        (Z.testbit (bv_val (hi d)) (Z.of_nat i)),
        (Z.testbit (bv_val v) (Z.of_nat i)); cbn; intros; split; congruence.
    - intros H. split; [exact Hwv|]. split; [exact Hv|].
      split; apply bits_inj_nat; intros i; bits_rw;
        (destruct (Nat.lt_ge_cases i w) as [Hi|Hi];
         [ destruct (H i Hi) as [H1 H2];
           destruct (Z.testbit (bv_val (lo d)) (Z.of_nat i)),
             (Z.testbit (bv_val (hi d)) (Z.of_nat i)),
             (Z.testbit (bv_val v) (Z.of_nat i)); cbn; try reflexivity;
           first [ specialize (H1 eq_refl); discriminate
                 | specialize (H2 eq_refl); discriminate ]
         | rewrite ?(wf_testbit_above (lo d) (Z.of_nat i) Hlo),
             ?(wf_testbit_above (hi d) (Z.of_nat i) Hhi),
             ?(wf_testbit_above v (Z.of_nat i) Hv)
             by (unfold zw; subst w; lia);
           reflexivity ]). }
  split.
  - intros Hg. pose proof Hg as (Hwv & _). fold w in Hwv.
    rewrite Hwv.
    pose proof (render_match_bits d (bv_val v) w w (le_n w)) as Hm.
    replace (w - w + 1)%nat with 1%nat in Hm by lia.
    apply Hm. apply Hbits; assumption.
  - intros Hp. pose proof (pattern_match_length _ _ Hp) as Hlen.
    rewrite string_of_list_length, render_bits_length, bv_to_char_loop_length
      in Hlen.
    rewrite <- Hlen in Hp.
    pose proof (render_match_bits d (bv_val v) w w (le_n w)) as Hm.
    replace (w - w + 1)%nat with 1%nat in Hm by lia.
    apply Hbits; [symmetry; exact Hlen|]. apply Hm. exact Hp.
Qed.

(** The string [bzla_bvdomain_to_char] prints for a domain is a pattern
    for its members: a vector belongs to the domain iff its binary numeral
    is as long as the string and has, wherever the string shows [0] or
    [1], that digit. For a domain read from a string over [{0, 1, x}] the
    pattern is that string. *)
Theorem printed_pattern_members (checked : bool) (d : BzlaBvDomain)
        (p : string) (v : BzlaBitVector) :
  dom_wf d -> bv_wf v -> ternary p = true ->
  (exists s : string,
     bzla_bvdomain_to_char checked d = Done s
     /\ (in_gamma d v <-> pattern_match s (bzla_bv_to_char v) = true))
  /\ (in_gamma (bzla_bvdomain_new_from_char p) v
      <-> pattern_match p (bzla_bv_to_char v) = true).
Proof.
  intros Hd Hv Hp. split; [apply to_char_pattern; assumption|].
  assert (Hdp : dom_wf (bzla_bvdomain_new_from_char p)).
  { unfold dom_wf, bzla_bvdomain_new_from_char, bzla_bvdomain_new, bzla_bv_copy,
      char_to_lo, char_to_hi.
    cbn [lo hi]. split; [apply char_to_bv_wf|]. split; [apply char_to_bv_wf|].
    unfold char_to_bv, bzla_bv_char_to_bv. cbn [bv_width].
    rewrite !length_replace_x. reflexivity. }
  destruct (to_char_pattern checked (bzla_bvdomain_new_from_char p) v Hdp Hv)
    as (s & Hs & Hiff).
  rewrite (from_char_to_char checked p Hp) in Hs. injection Hs as <-.
  exact Hiff.
Qed.

Lemma printed_pattern_members_witness :
  (exists s : string,
     bzla_bvdomain_to_char true (bzla_bvdomain_new (mk_bv 4 4) (mk_bv 4 13))
     = Done s
     /\ (in_gamma (bzla_bvdomain_new (mk_bv 4 4) (mk_bv 4 13)) (mk_bv 4 5)
         <-> pattern_match s (bzla_bv_to_char (mk_bv 4 5)) = true))
  /\ (in_gamma (bzla_bvdomain_new_from_char "x10x") (mk_bv 4 5)
      <-> pattern_match "x10x" (bzla_bv_to_char (mk_bv 4 5)) = true).
Proof.
  apply (printed_pattern_members true
           (bzla_bvdomain_new (mk_bv 4 4) (mk_bv 4 13)) "x10x" (mk_bv 4 5)).
  - vm_compute. intuition congruence.
  - vm_compute. intuition congruence.
  - reflexivity.
Defined.
